(** * boa: the [Output] entity of [boa/core/recipe_output.py]

    A shallow embedding of the recipe [Output] class: construction from a raw
    record, variant application, run-export propagation and the staged
    build/host/run solve.  Python objects that are only read are embedded as
    values; objects whose identity matters (the raw record [d], the parent
    record, the template of [apply_variant]) live in an explicit store. *)

From Stdlib Require Import ZArith Lia Ascii.
From stdpp Require Import base option list strings gmap.

Local Open Scope string_scope.
Local Open Scope list_scope.

(** ** Exceptions and the error monad *)

Inductive exn :=
  | KeyError (key : string)
  | IndexError
  | AttributeError (attr : string)
  | TypeError
  | RuntimeError (msg : string)
  | SolverError (msg : string).

Inductive Res (A : Type) :=
  | Ok (a : A)
  | Raise (e : exn).
Arguments Ok {A} a.
Arguments Raise {A} e.

#[export] Instance Res_ret : MRet Res := fun _ a => Ok a.
#[export] Instance Res_bind : MBind Res :=
  fun _ _ f m => match m with Ok a => f a | Raise e => Raise e end.

Definition is_Ok {A} (r : Res A) : bool :=
  match r with Ok _ => true | Raise _ => false end.

(** ** Python string primitives (on ASCII text) *)

Module PyStr.

(** [str.isspace] on one ASCII character: tab .. carriage return, the four
    separators 28..31 and the blank. *)
Definition is_space (c : ascii) : bool :=
  let n := nat_of_ascii c in
  (n =? 32)%nat || ((9 <=? n)%nat && (n <=? 13)%nat)
  || ((28 <=? n)%nat && (n <=? 31)%nat).

(** [s.split()]: the maximal runs of non-blank characters. *)
Fixpoint split (s : string) : list string :=
  match s with
  | EmptyString => []
  | String c s' =>
      if is_space c then split s'
      else match s' with
           | EmptyString => [String c EmptyString]
           | String c' _ =>
               if is_space c' then String c EmptyString :: split s'
               else match split s' with
                    | t :: ts => String c t :: ts
                    | [] => [String c EmptyString]
                    end
           end
  end.

(** [s.startswith(p)] *)
Definition startswith (s p : string) : bool := String.prefix p s.

(** [s.endswith(p)] *)
Definition endswith (s p : string) : bool :=
  let n := String.length s in
  let k := String.length p in
  (k <=? n)%nat && String.eqb (String.substring (n - k) k s) p.

Fixpoint map_chars (f : ascii -> ascii) (s : string) : string :=
  match s with
  | EmptyString => EmptyString
  | String c s' => String (f c) (map_chars f s')
  end.

(** [s.replace("-", "_")] *)
Definition dash_to_underscore (s : string) : string :=
  map_chars (fun c => if Ascii.eqb c "-"%char then "_"%char else c) s.

(** [s.lower()] on ASCII letters. *)
Definition lower (s : string) : string :=
  map_chars (fun c =>
    let n := nat_of_ascii c in
    if (65 <=? n)%nat && (n <=? 90)%nat then ascii_of_nat (n + 32) else c) s.

(** Truth value of a string: non-empty. *)
Definition truthy (s : string) : bool :=
  match s with EmptyString => false | _ => true end.

End PyStr.

(** ** Run-export declarations, by strength

    [RUN_EXPORTS_TYPES] of conda-build names the five strengths; a missing key
    of the JSON record reads as the empty list ([rex.get(k, [])]). *)

Module RunExports.
Record t (A : Type) := mk {
  weak : list A;
  strong : list A;
  strong_constrains : list A;
  weak_constrains : list A;
  noarch : list A }.
Arguments mk {A}.
Arguments weak {A}.
Arguments strong {A}.
Arguments strong_constrains {A}.
Arguments weak_constrains {A}.
Arguments noarch {A}.

Definition empty {A} : t A := mk [] [] [] [] [].
Definition only_weak {A} (l : list A) : t A := mk l [] [] [] [].
End RunExports.

(** ** CondaBuildSpec *)

Module Spec.

Record t := mk {
  raw : string;
  splitted : list string;
  name : string;
  final : string;
  final_version : option (string * string);
  channel : string;
  is_pin : bool;
  is_pin_compatible : bool;
  is_pin_subpackage : bool;
  from_run_export : bool;
  from_pinnings : bool;
  is_inherited : bool;
  is_transitive_dependency : bool;
  run_exports_info : option (option (RunExports.t string)) }.

(** Modelled from the spec: the class [CondaBuildSpec] of
    [boa/core/conda_build_spec.py], which is not part of the sources at
    hand.  A Spec is built from its textual constraint [raw]; [name] is the
    package name, the first blank-separated word of the text; [final], the
    text sent to the solver, starts as [raw]; every provenance flag starts
    false and [final_version] is unbound.  The pin syntax is not described,
    so the constructor classifies no text as a pin. *)
Definition CondaBuildSpec (ms : string) : t :=
  let ws := PyStr.split ms in
  {| raw := ms; splitted := ws; name := hd "" ws; final := ms;
     final_version := None; channel := "";
     is_pin := false; is_pin_compatible := false; is_pin_subpackage := false;
     from_run_export := false; from_pinnings := false; is_inherited := false;
     is_transitive_dependency := false; run_exports_info := None |}.

(** Modelled from the spec: [final_name] is the package name parsed from
    [final], that is the name after any rewrite of the constraint. *)
Definition final_name (s : t) : string := hd "" (PyStr.split (final s)).

(** Modelled from the spec: a simple, unqualified spec is a bare package
    name, a text of exactly one word. *)
Definition is_simple (s : t) : bool := (length (splitted s) =? 1)%nat.

(** Modelled from the spec: the unique build identity
    [name-version-build] of the resolved package; reading it before the
    Spec is bound is an error. *)
Definition final_triplet (s : t) : Res string :=
  match final_version s with
  | Some (v, b) => Ok (final_name s +:+ "-" +:+ v +:+ "-" +:+ b)
  | None => Raise (AttributeError "final_version")
  end.

(** [hasattr(s, "final_version")] *)
Definition has_final_version (s : t) : bool :=
  match final_version s with Some _ => true | None => false end.

(** Attribute assignments. *)
Definition set_final (x : string) (s : t) : t :=
  mk (raw s) (splitted s) (name s) x (final_version s) (channel s)
     (is_pin s) (is_pin_compatible s) (is_pin_subpackage s)
     (from_run_export s) (from_pinnings s) (is_inherited s)
     (is_transitive_dependency s) (run_exports_info s).
Definition set_final_version (x : string * string) (s : t) : t :=
  mk (raw s) (splitted s) (name s) (final s) (Some x) (channel s)
     (is_pin s) (is_pin_compatible s) (is_pin_subpackage s)
     (from_run_export s) (from_pinnings s) (is_inherited s)
     (is_transitive_dependency s) (run_exports_info s).
Definition set_channel (x : string) (s : t) : t :=
  mk (raw s) (splitted s) (name s) (final s) (final_version s) x
     (is_pin s) (is_pin_compatible s) (is_pin_subpackage s)
     (from_run_export s) (from_pinnings s) (is_inherited s)
     (is_transitive_dependency s) (run_exports_info s).
Definition set_from_run_export (x : bool) (s : t) : t :=
  mk (raw s) (splitted s) (name s) (final s) (final_version s) (channel s)
     (is_pin s) (is_pin_compatible s) (is_pin_subpackage s)
     x (from_pinnings s) (is_inherited s)
     (is_transitive_dependency s) (run_exports_info s).
Definition set_from_pinnings (x : bool) (s : t) : t :=
  mk (raw s) (splitted s) (name s) (final s) (final_version s) (channel s)
     (is_pin s) (is_pin_compatible s) (is_pin_subpackage s)
     (from_run_export s) x (is_inherited s)
     (is_transitive_dependency s) (run_exports_info s).
Definition set_is_inherited (x : bool) (s : t) : t :=
  mk (raw s) (splitted s) (name s) (final s) (final_version s) (channel s)
     (is_pin s) (is_pin_compatible s) (is_pin_subpackage s)
     (from_run_export s) (from_pinnings s) x
     (is_transitive_dependency s) (run_exports_info s).
Definition set_is_transitive_dependency (x : bool) (s : t) : t :=
  mk (raw s) (splitted s) (name s) (final s) (final_version s) (channel s)
     (is_pin s) (is_pin_compatible s) (is_pin_subpackage s)
     (from_run_export s) (from_pinnings s) (is_inherited s)
     x (run_exports_info s).
Definition set_run_exports_info (x : option (RunExports.t string)) (s : t) : t :=
  mk (raw s) (splitted s) (name s) (final s) (final_version s) (channel s)
     (is_pin s) (is_pin_compatible s) (is_pin_subpackage s)
     (from_run_export s) (from_pinnings s) (is_inherited s)
     (is_transitive_dependency s) (Some x).

End Spec.

(** ** Environments and requirement lists *)

Inductive env := Build | Host | Run | RunConstrained.

#[export] Instance env_eq_dec : EqDecision env.
Proof. solve_decision. Defined.

(** [self.requirements]: after construction the four keys are always
    present, each bound to a list of Specs.  No Spec object is shared between
    two lists (every entry is built by its own constructor call or deep
    copied), so the lists are embedded as values. *)
Record Reqs := mkReqs {
  build : list Spec.t;
  host : list Spec.t;
  run : list Spec.t;
  run_constrained : list Spec.t }.

Definition get_req (e : env) (r : Reqs) : list Spec.t :=
  match e with
  | Build => build r
  | Host => host r
  | Run => run r
  | RunConstrained => run_constrained r
  end.

Definition set_req (e : env) (l : list Spec.t) (r : Reqs) : Reqs :=
  match e with
  | Build => mkReqs l (host r) (run r) (run_constrained r)
  | Host => mkReqs (build r) l (run r) (run_constrained r)
  | Run => mkReqs (build r) (host r) l (run_constrained r)
  | RunConstrained => mkReqs (build r) (host r) (run r) l
  end.

Definition env_key (e : env) : string :=
  match e with
  | Build => "build"
  | Host => "host"
  | Run => "run"
  | RunConstrained => "run_constrained"
  end.

(** ** External collaborators, at their interface *)

(** One package of a solved transaction: the fields the orchestrator reads
    from the solver's JSON record. *)
Record Pkg := mkPkg {
  pkg_name : string;
  pkg_version : string;
  pkg_build_string : string;
  pkg_channel : string }.

(** A solve transaction: the install list of [to_conda] and the verdict of
    [fetch_extract_packages]. *)
Record Transaction := mkTransaction {
  install_pkgs : list Pkg;
  fetch_extract_packages : bool }.

(** The fields of conda-build's [Config] object that the code reads. *)
Record Config := mkConfig {
  subdirs_same : bool;
  host_subdir : string;
  build_subdir : string;
  output_folder : string;
  cfg_variant : gmap string string }.

Definition set_cfg_variant (v : gmap string string) (c : Config) : Config :=
  mkConfig (subdirs_same c) (host_subdir c) (build_subdir c) (output_folder c) v.

(** ** The Output object, after construction

    The attributes read or written by the methods below.  [noarch] is the
    truth value of [self.noarch]; [ignore_run_exports] is
    [self.sections["build"].get("ignore_run_exports", [])];
    [pin_run_as_build] is [self.conda_build_config.get("pin_run_as_build", {})];
    [data_requirements] is [self.data["requirements"]] ([None] when the raw
    record has no such key) and [data_build_run_exports] is
    [self.data["build"]["run_exports"]]. *)
Record Output := mkOutput {
  name : string;
  version : string;
  final_build_id : option string;
  noarch : bool;
  ignore_run_exports : list string;
  pin_run_as_build : gmap string (gmap string string);
  requirements : Reqs;
  run_exports : RunExports.t Spec.t;
  config : Config;
  variant : option (gmap string string);
  differentiating_keys : list string;
  differentiating_variant : option (list string);
  transactions : gmap string (Transaction * string);
  data_requirements : option (gmap string (list string));
  data_build_run_exports : option (gmap string (list string)) }.

Definition set_requirements (x : Reqs) (o : Output) : Output :=
  mkOutput (name o) (version o) (final_build_id o) (noarch o)
    (ignore_run_exports o) (pin_run_as_build o) x (run_exports o) (config o)
    (variant o) (differentiating_keys o) (differentiating_variant o)
    (transactions o) (data_requirements o) (data_build_run_exports o).
Definition set_final_build_id_attr (x : option string) (o : Output) : Output :=
  mkOutput (name o) (version o) x (noarch o)
    (ignore_run_exports o) (pin_run_as_build o) (requirements o) (run_exports o)
    (config o) (variant o) (differentiating_keys o) (differentiating_variant o)
    (transactions o) (data_requirements o) (data_build_run_exports o).
Definition set_run_exports (x : RunExports.t Spec.t) (o : Output) : Output :=
  mkOutput (name o) (version o) (final_build_id o) (noarch o)
    (ignore_run_exports o) (pin_run_as_build o) (requirements o) x (config o)
    (variant o) (differentiating_keys o) (differentiating_variant o)
    (transactions o) (data_requirements o) (data_build_run_exports o).
Definition set_config (x : Config) (o : Output) : Output :=
  mkOutput (name o) (version o) (final_build_id o) (noarch o)
    (ignore_run_exports o) (pin_run_as_build o) (requirements o) (run_exports o) x
    (variant o) (differentiating_keys o) (differentiating_variant o)
    (transactions o) (data_requirements o) (data_build_run_exports o).
Definition set_variant (x : option (gmap string string)) (o : Output) : Output :=
  mkOutput (name o) (version o) (final_build_id o) (noarch o)
    (ignore_run_exports o) (pin_run_as_build o) (requirements o) (run_exports o)
    (config o) x (differentiating_keys o) (differentiating_variant o)
    (transactions o) (data_requirements o) (data_build_run_exports o).
Definition set_differentiating_keys (x : list string) (o : Output) : Output :=
  mkOutput (name o) (version o) (final_build_id o) (noarch o)
    (ignore_run_exports o) (pin_run_as_build o) (requirements o) (run_exports o)
    (config o) (variant o) x (differentiating_variant o)
    (transactions o) (data_requirements o) (data_build_run_exports o).
Definition set_differentiating_variant (x : option (list string)) (o : Output) : Output :=
  mkOutput (name o) (version o) (final_build_id o) (noarch o)
    (ignore_run_exports o) (pin_run_as_build o) (requirements o) (run_exports o)
    (config o) (variant o) (differentiating_keys o) x
    (transactions o) (data_requirements o) (data_build_run_exports o).
Definition set_transactions (x : gmap string (Transaction * string)) (o : Output) : Output :=
  mkOutput (name o) (version o) (final_build_id o) (noarch o)
    (ignore_run_exports o) (pin_run_as_build o) (requirements o) (run_exports o)
    (config o) (variant o) (differentiating_keys o) (differentiating_variant o)
    x (data_requirements o) (data_build_run_exports o).
Definition set_data_requirements (x : option (gmap string (list string))) (o : Output) : Output :=
  mkOutput (name o) (version o) (final_build_id o) (noarch o)
    (ignore_run_exports o) (pin_run_as_build o) (requirements o) (run_exports o)
    (config o) (variant o) (differentiating_keys o) (differentiating_variant o)
    (transactions o) x (data_build_run_exports o).
Definition set_data_build_run_exports (x : option (gmap string (list string))) (o : Output) : Output :=
  mkOutput (name o) (version o) (final_build_id o) (noarch o)
    (ignore_run_exports o) (pin_run_as_build o) (requirements o) (run_exports o)
    (config o) (variant o) (differentiating_keys o) (differentiating_variant o)
    (transactions o) (data_requirements o) x.

(** [self.requirements[e]] and [self.requirements[e] = l] *)
Definition reqs_of (e : env) (o : Output) : list Spec.t :=
  get_req e (requirements o).
Definition with_reqs (e : env) (l : list Spec.t) (o : Output) : Output :=
  set_requirements (set_req e l (requirements o)) o.

(** ** Run-export propagation: [Output.propagate_run_exports] *)

(** The loop of the nested function [append_or_replace]: the first entry
    whose final name is [nm] and which is simple is overwritten at its index
    and the function returns; [None] when the loop falls through. *)
Fixpoint replace_first (nm : string) (spec : Spec.t) (l : list Spec.t)
    : option (list Spec.t) :=
  match l with
  | [] => None
  | r :: l' =>
      if String.eqb (Spec.final_name r) nm && Spec.is_simple r
      then Some (spec :: l')
      else cons r <$> replace_first nm spec l'
  end.

Definition export_spec (spec : string) : Spec.t :=
  Spec.set_from_run_export true (Spec.CondaBuildSpec spec).

Definition insert_export (spec : Spec.t) (l : list Spec.t) : list Spec.t :=
  match replace_first (Spec.name spec) spec l with
  | Some l' => l'
  | None => l ++ [spec]
  end.

Definition append_or_replace (e : env) (spec : string) (o : Output) : Output :=
  with_reqs e (insert_export (export_spec spec) (reqs_of e o)) o.

Section Propagator.

(** The pin-expression evaluator of conda-build, applied to a version and
    the keyword arguments of one [pin_run_as_build] entry. *)
Variable apply_pin_expressions : string -> gmap string string -> string.

(** The package metadata store: the parsed [info/run_exports.json] of the
    package [triplet] under [pkg_cache], [None] when the file is absent. *)
Variable read_run_exports : string -> string -> option (RunExports.t string).

(** One turn of the collecting loop: the Spec after the turn (its
    [run_exports_info] attribute may have been assigned) and what the turn
    appended to [collected_run_exports]. *)
Definition collect_one (o : Output) (pkg_cache : string) (s : Spec.t)
    : Res (Spec.t * list (RunExports.t string)) :=
  if Spec.is_transitive_dependency s then Ok (s, [])
  else if bool_decide (Spec.name s ∈ ignore_run_exports o) then Ok (s, [])
  else if Spec.has_final_version s then
    final_triplet ← Spec.final_triplet s;
    match pin_run_as_build o !! PyStr.dash_to_underscore (Spec.name s) with
    | Some pins =>
        match Spec.final_version s with
        | Some fv =>
            let info := RunExports.only_weak
              [Spec.final_name s +:+ " " +:+ apply_pin_expressions (fst fv) pins] in
            Ok (Spec.set_run_exports_info (Some info) s, [info])
        | None => Raise (AttributeError "final_version")
        end
    | None =>
        match read_run_exports pkg_cache final_triplet with
        | Some info => Ok (Spec.set_run_exports_info (Some info) s, [info])
        | None => Ok (Spec.set_run_exports_info None s, [])
        end
    end
  else Ok (s, []).

Fixpoint collect (o : Output) (pkg_cache : string) (l : list Spec.t)
    : Res (list Spec.t * list (RunExports.t string)) :=
  match l with
  | [] => Ok ([], [])
  | s :: l' =>
      '(s1, c1) ← collect_one o pkg_cache s;
      '(l1, c2) ← collect o pkg_cache l';
      Ok (s1 :: l1, c1 ++ c2)
  end.

(** [for r in rs: append_or_replace(e, r)] *)
Definition insert_each (e : env) (rs : list string) (o : Output) : Output :=
  fold_left (fun o r => append_or_replace e r o) rs o.

(** The body of [for rex in collected_run_exports] under [env == "build"]. *)
Definition propagate_build (rex : RunExports.t string) (o : Output) : Output :=
  if negb (noarch o) then
    let o := fold_left
               (fun o r => append_or_replace Run r (append_or_replace Host r o))
               (RunExports.strong rex) o in
    let o := insert_each Host (RunExports.weak rex) o in
    insert_each RunConstrained (RunExports.strong_constrains rex) o
  else o.

(** The body of [for rex in collected_run_exports] under [env == "host"]. *)
Definition propagate_host (rex : RunExports.t string) (o : Output) : Output :=
  if negb (noarch o) then
    let o := insert_each Run (RunExports.strong rex) o in
    let o := insert_each Run (RunExports.weak rex) o in
    let o := insert_each RunConstrained (RunExports.strong_constrains rex) o in
    insert_each RunConstrained (RunExports.weak_constrains rex) o
  else insert_each Run (RunExports.noarch rex) o.

Definition propagate_run_exports (e : env) (pkg_cache : string) (o : Output)
    : Res Output :=
  '(specs, collected_run_exports) ← collect o pkg_cache (reqs_of e o);
  let o := with_reqs e specs o in
  let o := match e with
           | Build => fold_left (fun o rex => propagate_build rex o)
                        collected_run_exports o
           | _ => o
           end in
  let o := match e with
           | Host => fold_left (fun o rex => propagate_host rex o)
                       collected_run_exports o
           | _ => o
           end in
  Ok o.

End Propagator.

(** ** The solve orchestrator: [Output._solve_env], [Output.finalize_solve] *)

(** [spec_map = {s.final_name: s for s in specs}]: the dictionary is keyed
    by final name and a later Spec of the same name overrides an earlier one.
    The Specs are the list's own elements, so the dictionary is embedded as a
    map from the name to the index of the element it refers to. *)
Fixpoint spec_map_from (i : nat) (specs : list Spec.t) (m : gmap string nat)
    : gmap string nat :=
  match specs with
  | [] => m
  | s :: specs' => spec_map_from (S i) specs' (<[Spec.final_name s := i]> m)
  end.

Definition make_spec_map (specs : list Spec.t) : gmap string nat :=
  spec_map_from 0 specs ∅.

(** The Spec appended for a package the solver chose on its own. *)
Definition transitive_spec (p : Pkg) : Spec.t :=
  Spec.set_channel (pkg_channel p)
    (Spec.set_final_version (pkg_version p, pkg_build_string p)
      (Spec.set_is_transitive_dependency true
        (Spec.CondaBuildSpec (pkg_name p)))).

Definition bind_resolved (p : Pkg) (s : Spec.t) : Spec.t :=
  Spec.set_channel (pkg_channel p)
    (Spec.set_final_version (pkg_version p, pkg_build_string p) s).

(** One turn of [for _, _, p in install_pkgs]. *)
Definition record_pkg (spec_map : gmap string nat) (l : list Spec.t) (p : Pkg)
    : list Spec.t :=
  match spec_map !! pkg_name p with
  | Some i => alter (bind_resolved p) i l
  | None => l ++ [transitive_spec p]
  end.

Definition record_pkgs (spec_map : gmap string nat) (pkgs : list Pkg)
    (l : list Spec.t) : list Spec.t :=
  fold_left (record_pkg spec_map) pkgs l.

(** [for k in ks: out.append(variant[k])] *)
Fixpoint lookup_all (variant : gmap string string) (ks : list string)
    : Res (list string) :=
  match ks with
  | [] => Ok []
  | k :: ks' =>
      match variant !! k with
      | Some v => vs ← lookup_all variant ks'; Ok (v :: vs)
      | None => Raise (KeyError k)
      end
  end.

(** [for x in l: f(x)] where [f] rewrites the element in place and may
    raise. *)
Fixpoint for_each {A} (f : A -> Res A) (l : list A) : Res (list A) :=
  match l with
  | [] => Ok []
  | x :: l' => y ← f x; l'' ← for_each f l'; Ok (y :: l'')
  end.

Section Orchestrator.

Variable apply_pin_expressions : string -> gmap string string -> string.
Variable read_run_exports : string -> string -> option (RunExports.t string).

(** [get_solver(subdir, output_folder)] yields a solver and its package
    cache; [solve subdir output_folder specs] is the outcome of
    [solver.solve(specs, [pkg_cache])] and [pkg_cache_of] the cache. *)
Variable solve : string -> string -> list string -> Res Transaction.
Variable pkg_cache_of : string -> string -> string.

(** The constraint text a pin on a sibling Output, respectively on an
    already resolved package, evaluates to. *)
Variable pin_subpackage_text : Spec.t -> Output -> string.
Variable pin_compatible_text : Spec.t -> string * string -> string.

(** [sys.version_info[:3]] joined by dots. *)
Variable sys_version : string.

(** Modelled from the spec: [CondaBuildSpec.eval_pin_subpackage], absent
    from the sources at hand.  A [pin_subpackage] Spec is rewritten against
    the Outputs of the session; naming an Output that does not exist is a
    hard error; any other Spec is left as it is. *)
Definition eval_pin_subpackage (all_outputs : list Output) (s : Spec.t)
    : Res Spec.t :=
  if Spec.is_pin_subpackage s then
    match List.find (fun o => String.eqb (name o) (Spec.name s)) all_outputs with
    | Some o => Ok (Spec.set_final (pin_subpackage_text s o) s)
    | None => Raise (RuntimeError "Could not find output")
    end
  else Ok s.

(** Modelled from the spec: [CondaBuildSpec.eval_pin_compatible], absent
    from the sources at hand.  A [pin_compatible] Spec is rewritten against
    the version resolved for its package in the solved build and host
    lists; a package name that is not found there is a hard error. *)
Definition eval_pin_compatible (build_specs host_specs : list Spec.t)
    (s : Spec.t) : Res Spec.t :=
  if Spec.is_pin_compatible s then
    match List.find (fun r => String.eqb (Spec.final_name r) (Spec.name s)
                              && Spec.has_final_version r)
                    (build_specs ++ host_specs) with
    | Some r =>
        match Spec.final_version r with
        | Some fv => Ok (Spec.set_final (pin_compatible_text s fv) s)
        | None => Raise (AttributeError "final_version")
        end
    | None => Raise (RuntimeError "Could not find pin compatible package")
    end
  else Ok s.

(** The body of [for s in specs] at the head of [_solve_env]. *)
Definition resolve_pins (e : env) (all_outputs : list Output) (o : Output)
    (s : Spec.t) : Res Spec.t :=
  s ← (if Spec.is_pin_subpackage s then eval_pin_subpackage all_outputs s
       else Ok s);
  if bool_decide (e = Run) && Spec.is_pin_compatible s
  then eval_pin_compatible (reqs_of Build o) (reqs_of Host o) s
  else Ok s.

Definition subdir_of (e : env) (c : Config) : string :=
  if (bool_decide (e = Host) || bool_decide (e = Run)) && negb (subdirs_same c)
  then host_subdir c else build_subdir c.

Definition _solve_env (e : env) (all_outputs : list Output) (o : Output)
    : Res Output :=
  match reqs_of e o with
  | [] => Ok o
  | _ :: _ =>
      specs ← for_each (resolve_pins e all_outputs o) (reqs_of e o);
      let o := with_reqs e specs o in
      (* self.data["requirements"][env] = [s.final for s in ...] *)
      data_reqs ← match data_requirements o with
                  | Some m => Ok m
                  | None => Raise (KeyError "requirements")
                  end;
      let o := set_data_requirements
                 (Some (<[env_key e := Spec.final <$> specs]> data_reqs)) o in
      let spec_map := make_spec_map specs in
      let texts := Spec.final <$> specs in
      let subdir := subdir_of e (config o) in
      let pkg_cache := pkg_cache_of subdir (output_folder (config o)) in
      t ← solve subdir (output_folder (config o)) texts;
      let o := with_reqs e (record_pkgs spec_map (install_pkgs t) specs) o in
      let o := set_transactions
                 (<[env_key e := (t, pkg_cache)]> (transactions o)) o in
      if negb (fetch_extract_packages t)
      then Raise (RuntimeError "Did not succeed in downloading packages.")
      else
        match e with
        | Build | Host =>
            propagate_run_exports apply_pin_expressions read_run_exports
              e pkg_cache o
        | _ => Ok o
        end
  end.

(** [for r in build + host: if r.name == "python": variant["python"] =
    r.final_version[0]] *)
Fixpoint backfill_python (l : list Spec.t) (v : gmap string string)
    : Res (gmap string string) :=
  match l with
  | [] => Ok v
  | r :: l' =>
      if String.eqb (Spec.name r) "python" then
        match Spec.final_version r with
        | Some fv => backfill_python l' (<["python" := fst fv]> v)
        | None => Raise (AttributeError "final_version")
        end
      else backfill_python l' v
  end.

Definition finalize_solve (all_outputs : list Output) (o : Output)
    : Res Output :=
  o ← _solve_env Build all_outputs o;
  o ← _solve_env Host all_outputs o;
  o ← _solve_env Run all_outputs o;
  v ← match cfg_variant (config o) !! "python" with
      | None => backfill_python (reqs_of Build o ++ reqs_of Host o)
                  (cfg_variant (config o))
      | Some _ => Ok (cfg_variant (config o))
      end;
  let v := match v !! "python" with
           | None => <["python" := sys_version]> v
           | Some _ => v
           end in
  let o := set_config (set_cfg_variant v (config o)) o in
  Ok (set_variant (Some (cfg_variant (config o))) o).

End Orchestrator.

(** ** Finalizing the Output's own run exports: [Output.set_final_build_id] *)

Section Finalizer.

Variable pin_subpackage_text : Spec.t -> Output -> string.

(** [for x in run_exports_list] with the list rewritten under the loop:
    the iterator holds an index [i] into the live list and stops as soon
    as [i] is past its end.  [fuel] bounds the number of turns; the list
    never grows, so its initial length is enough. *)
Fixpoint own_exports_loop (self_name : string) (all_outputs : list Output)
    (fuel i : nat) (run_exports_list : list Spec.t) : Res (list Spec.t) :=
  match fuel with
  | O => Ok run_exports_list
  | S fuel' =>
      match run_exports_list !! i with
      | None => Ok run_exports_list
      | Some x =>
          if PyStr.endswith self_name "-static"
             && PyStr.startswith self_name (Spec.name x)
          then
            (* run_exports_list[:] = [] *)
            own_exports_loop self_name all_outputs fuel' (S i) []
          else
            x' ← eval_pin_subpackage pin_subpackage_text all_outputs x;
            own_exports_loop self_name all_outputs fuel' (S i)
              (<[i := x']> run_exports_list)
      end
  end.

Definition finalize_own_exports (self_name : string)
    (all_outputs : list Output) (l : list Spec.t) : Res (list Spec.t) :=
  own_exports_loop self_name all_outputs (length l) 0 l.

(** [if run_exports_list: final_run_exports[k] = [x.final for x in ...]] *)
Definition put_final (k : string) (l : list Spec.t)
    (final_run_exports : gmap string (list string))
    : gmap string (list string) :=
  match l with
  | [] => final_run_exports
  | _ :: _ => <[k := Spec.final <$> l]> final_run_exports
  end.

(** The strengths are visited in the order of [RUN_EXPORTS_TYPES]; the
    order decides only which failing pin is reported first. *)
Definition set_final_build_id (build_id : string) (all_outputs : list Output)
    (o : Output) : Res Output :=
  let o := set_final_build_id_attr (Some build_id) o in
  let rx := run_exports o in
  let fin := finalize_own_exports (name o) all_outputs in
  w ← fin (RunExports.weak rx);
  s ← fin (RunExports.strong rx);
  n ← fin (RunExports.noarch rx);
  wc ← fin (RunExports.weak_constrains rx);
  sc ← fin (RunExports.strong_constrains rx);
  let final_run_exports :=
    put_final "strong_constrains" sc
      (put_final "weak_constrains" wc
        (put_final "noarch" n
          (put_final "strong" s
            (put_final "weak" w ∅)))) in
  let o := set_run_exports (RunExports.mk w s sc wc n) o in
  (* self.data["build"]["run_exports"] = final_run_exports or None *)
  Ok (set_data_build_run_exports
        (if bool_decide (final_run_exports = ∅) then None
         else Some final_run_exports) o).

End Finalizer.

(** ** The variant applicator: [Output.apply_variant] *)

(** Output objects by address.  [copy.deepcopy] yields an object that shares
    no mutable state with its source, so the copy is a new cell holding the
    same value. *)
Abbreviation store := (list Output).

Definition COMPILER_ : string := "COMPILER_".

(** [variant.get(k)] taken as a condition: present and non-empty. *)
Definition variant_truthy (variant : gmap string string) (k : string) : bool :=
  match variant !! k with
  | Some v => PyStr.truthy v
  | None => false
  end.

Definition variant_item (variant : gmap string string) (k : string)
    : Res string :=
  match variant !! k with
  | Some v => Ok v
  | None => Raise (KeyError k)
  end.

(** The Spec written over a pinned entry. *)
Definition pinned_spec (r : Spec.t) (v : string) : Spec.t :=
  Spec.set_is_inherited (Spec.is_inherited r)
    (Spec.set_from_pinnings true
      (Spec.CondaBuildSpec (Spec.name r +:+ " " +:+ v))).

(** [for idx, r in enumerate(self.requirements[e])] of the pinning loops:
    [rs] is what is left of the template's list, [cl] the copy's list. *)
Fixpoint pin_loop (variant : gmap string string) (idx : nat)
    (rs : list Spec.t) (cl : list Spec.t) : list Spec.t :=
  match rs with
  | [] => cl
  | r :: rs' =>
      let vname := PyStr.dash_to_underscore (Spec.name r) in
      let cl := match variant !! vname with
                | Some v => <[idx := pinned_spec r v]> cl
                | None => cl
                end in
      pin_loop variant (S idx) rs' cl
  end.

Section VariantApplicator.

(** [native_compiler(lang, config)] of conda-build. *)
Variable native_compiler : string -> Config -> string.
(** [get_or_merge_config(config, variant=variant)] of conda-build, which
    returns a new object and leaves its argument alone. *)
Variable get_or_merge_config : Config -> gmap string string -> Config.

(** The constraint text injected for the compiler Spec [r]. *)
Definition compiler_final (variant : gmap string string) (cfg : Config)
    (r : Spec.t) : Res string :=
  lang ← match Spec.splitted r !! 1%nat with
         | Some w => Ok (PyStr.lower w)
         | None => Raise IndexError
         end;
  compiler ←
    (if variant_truthy variant (lang +:+ "_compiler") then
       c ← variant_item variant (lang +:+ "_compiler");
       tp ← variant_item variant "target_platform";
       Ok (c +:+ "_" +:+ tp)
     else
       tp ← variant_item variant "target_platform";
       Ok (native_compiler lang cfg +:+ "_" +:+ tp));
  if variant_truthy variant (lang +:+ "_compiler_version") then
    version ← variant_item variant (lang +:+ "_compiler_version");
    Ok (compiler +:+ " " +:+ version +:+ "*")
  else Ok compiler.

(** The compiler loop over [enumerate(self.requirements["build"])]. *)
Fixpoint compiler_loop (variant : gmap string string) (cfg : Config)
    (idx : nat) (rs : list Spec.t) (cl : list Spec.t) : Res (list Spec.t) :=
  match rs with
  | [] => Ok cl
  | r :: rs' =>
      cl ← (if PyStr.startswith (Spec.name r) COMPILER_ then
              text ← compiler_final variant cfg r;
              Ok (alter (fun c => Spec.set_from_pinnings true
                                    (Spec.set_final text c)) idx cl)
            else Ok cl);
      compiler_loop variant cfg (S idx) rs' cl
  end.

(** [for r in self.requirements["host"]: if ...: raise] *)
Fixpoint check_host (rs : list Spec.t) : Res unit :=
  match rs with
  | [] => Ok tt
  | r :: rs' =>
      if PyStr.startswith (Spec.name r) COMPILER_
      then Raise (RuntimeError "Compiler should be in build section")
      else check_host rs'
  end.

(** The statements of [apply_variant] after the deep copy: they read the
    template [self] and write the copy [copied]. *)
Definition specialize (self : Output) (variant : gmap string string)
    (differentiating_keys : list string) (copied : Output) : Res Output :=
  let copied := set_variant (Some variant) copied in
  let copied := with_reqs Build
                  (pin_loop variant 0 (reqs_of Build self) (reqs_of Build copied))
                  copied in
  let copied := with_reqs Host
                  (pin_loop variant 0 (reqs_of Host self) (reqs_of Host copied))
                  copied in
  cl ← compiler_loop variant (config copied) 0 (reqs_of Build self)
         (reqs_of Build copied);
  let copied := with_reqs Build cl copied in
  _ ← check_host (reqs_of Host self);
  let copied := set_config (get_or_merge_config (config self) variant) copied in
  let copied := set_differentiating_keys differentiating_keys copied in
  dv ← lookup_all variant differentiating_keys;
  Ok (set_differentiating_variant (Some dv) copied).

(** [apply_variant] on the store: the result is the address of the copy.
    When an exception is raised the half-written copy is unreachable; its
    cell keeps the value of the deep copy. *)
Definition apply_variant (self : nat) (variant : gmap string string)
    (differentiating_keys : list string) (σ : store) : Res nat * store :=
  match σ !! self with
  | None => (Raise (AttributeError "self"), σ)
  | Some this =>
      let copied := length σ in
      let σ := σ ++ [this] in
      match specialize this variant differentiating_keys this with
      | Ok c => (Ok copied, <[copied := c]> σ)
      | Raise e => (Raise e, σ)
      end
  end.

End VariantApplicator.

(** ** Raw records: Python values on a heap

    The raw record [d] and the parent record are YAML-shaped objects that
    [Output.__init__] both reads and writes, and parts of them end up shared
    with the constructed object.  Dictionaries and lists are therefore heap
    objects, named by their address; a value is an immediate or a reference.
    An operation is modelled on the operand types such records give rise to
    (a dictionary where the code calls [get] or [update], a list where it
    iterates or extends, a string where it builds a Spec); on any other
    operand it raises. *)

Module Py.

Abbreviation loc := nat.

Inductive val :=
  | VNone
  | VBool (b : bool)
  | VInt (n : Z)
  | VStr (s : string)
  | VRef (l : loc).

#[export] Instance val_eq_dec : EqDecision val.
Proof. solve_decision. Defined.

Inductive obj :=
  | ODict (m : gmap string val)
  | OList (xs : list val).

(** Programs over the heap that may raise. *)
Definition M (A : Type) : Type := list obj -> Res (A * list obj).

#[export] Instance M_ret : MRet M := fun _ a h => Ok (a, h).
#[export] Instance M_bind : MBind M :=
  fun _ _ f m h => match m h with
                   | Ok (a, h') => f a h'
                   | Raise e => Raise e
                   end.

Definition raise {A} (e : exn) : M A := fun _ => Raise e.

(** A new object; [{}] and [[]] in the source allocate. *)
Definition alloc (o : obj) : M val :=
  fun h => Ok (VRef (length h), h ++ [o]).

Definition get_obj (v : val) : M obj :=
  fun h => match v with
           | VRef l => match h !! l with
                       | Some o => Ok (o, h)
                       | None => Raise TypeError
                       end
           | _ => Raise TypeError
           end.

Definition put_obj (v : val) (o : obj) : M unit :=
  fun h => match v with
           | VRef l => if decide (l < length h) then Ok (tt, <[l := o]> h)
                       else Raise TypeError
           | _ => Raise TypeError
           end.

Definition as_dict (v : val) : M (gmap string val) :=
  o ← get_obj v;
  match o with ODict m => mret m | OList _ => raise TypeError end.

Definition as_list (v : val) : M (list val) :=
  o ← get_obj v;
  match o with OList xs => mret xs | ODict _ => raise TypeError end.

(** [x.get(k, dflt)] *)
Definition dict_get (x : val) (k : string) (dflt : val) : M val :=
  m ← as_dict x; mret (default dflt (m !! k)).

(** [x[k]] *)
Definition dict_item (x : val) (k : string) : M val :=
  m ← as_dict x;
  match m !! k with Some v => mret v | None => raise (KeyError k) end.

(** [k in x] for a dictionary [x] *)
Definition dict_contains (x : val) (k : string) : M bool :=
  m ← as_dict x; mret (bool_decide (is_Some (m !! k))).

(** [x[k] = v] *)
Definition dict_setitem (x : val) (k : string) (v : val) : M unit :=
  m ← as_dict x; put_obj x (ODict (<[k := v]> m)).

(** [x.update(src)] for a dictionary [src] *)
Definition dict_update (x src : val) : M unit :=
  m ← as_dict x; ms ← as_dict src; put_obj x (ODict (ms ∪ m)).

(** [x += src] for two lists: [x] is extended in place. *)
Definition list_extend (x src : val) : M unit :=
  xs ← as_list x; ys ← as_list src; put_obj x (OList (xs ++ ys)).

(** [len(x)] for a list *)
Definition list_len (x : val) : M nat :=
  xs ← as_list x; mret (length xs).

(** The truth value of a Python value. *)
Definition truthy (v : val) : M bool :=
  match v with
  | VNone => mret false
  | VBool b => mret b
  | VInt n => mret (negb (n =? 0)%Z)
  | VStr s => mret (PyStr.truthy s)
  | VRef _ =>
      o ← get_obj v;
      mret (match o with
            | ODict m => negb (bool_decide (m = ∅))
            | OList xs => match xs with [] => false | _ :: _ => true end
            end)
  end.

(** [hasattr(x, "keys")]: holds of dictionaries only. *)
Definition has_keys (v : val) : M bool :=
  fun h => match v with
           | VRef l => match h !! l with
                       | Some (ODict _) => Ok (true, h)
                       | _ => Ok (false, h)
                       end
           | _ => Ok (false, h)
           end.

(** [isinstance(x, list)] *)
Definition is_list (v : val) : M bool :=
  fun h => match v with
           | VRef l => match h !! l with
                       | Some (OList _) => Ok (true, h)
                       | _ => Ok (false, h)
                       end
           | _ => Ok (false, h)
           end.

Definition as_str (v : val) : M string :=
  match v with VStr s => mret s | _ => raise TypeError end.

(** [for x in xs: f(x)] *)
Fixpoint iter {A} (f : A -> M unit) (xs : list A) : M unit :=
  match xs with
  | [] => mret tt
  | x :: xs' => _ ← f x; iter f xs'
  end.

(** [[f(x) for x in xs]] *)
Fixpoint map_m {A B} (f : A -> M B) (xs : list A) : M (list B) :=
  match xs with
  | [] => mret []
  | x :: xs' => y ← f x; ys ← map_m f xs'; mret (y :: ys)
  end.

(** An insertion-ordered dictionary with string keys, for the one place
    where iteration order matters: [m[k] = v] keeps the position of a key
    that is already there. *)
Fixpoint odict_set {A} (k : string) (v : A) (m : list (string * A))
    : list (string * A) :=
  match m with
  | [] => [(k, v)]
  | (k', v') :: m' =>
      if String.eqb k' k then (k', v) :: m' else (k', v') :: odict_set k v m'
  end.

Fixpoint odict_get {A} (k : string) (m : list (string * A)) : option A :=
  match m with
  | [] => None
  | (k', v') :: m' => if String.eqb k' k then Some v' else odict_get k m'
  end.

End Py.

(** ** Construction: [Output.__init__] *)

Module Init.

Import Py.

(** The attributes of the Output as the constructor leaves them.  A value
    of a raw record is kept as it is (a reference stays a reference into
    the heap); [self.sections] and [self.feature_map] are dictionaries of
    the object's own; [self.sections["requirements"]] is the object
    [self.requirements] itself and is not repeated under [sections]. *)
Record Attrs := mkAttrs {
  data : val;
  name : val;
  version : val;
  build_string : val;
  build_number : val;
  noarch : val;
  is_first : bool;
  is_package : bool;
  sections : gmap string val;
  required_steps : list val;
  feature_map : list (string * val);
  requirements : Reqs;
  run_exports : RunExports.t Spec.t;
  parent : val;
  selected_features : gmap string val }.

(** The nested function [set_section]: a new dictionary, updated with the
    parent's section and then with the record's own. *)
Definition set_section (d parent : val) (sname : string) : M val :=
  sec ← alloc (ODict ∅);
  dflt ← alloc (ODict ∅);
  psec ← dict_get parent sname dflt;
  _ ← dict_update sec psec;
  dflt ← alloc (ODict ∅);
  dsec ← dict_get d sname dflt;
  _ ← dict_update sec dsec;
  mret sec.

(** [self.data["source"] = d.get("source", parent.get("source", {}))] *)
Definition bind_source (d parent : val) : M unit :=
  dflt ← alloc (ODict ∅);
  psrc ← dict_get parent "source" dflt;
  src ← dict_get d "source" psrc;
  dict_setitem d "source" src.

(** [for s in self.sections["source"]: if "step" in s: ...] *)
Fixpoint collect_steps (srcs : list val) : M (list val) :=
  match srcs with
  | [] => mret []
  | s :: srcs' =>
      b ← dict_contains s "step";
      here ← (if b : bool then st ← dict_item s "step"; mret [st] else mret []);
      rest ← collect_steps srcs';
      mret (here ++ rest)
  end.

(** [{f["name"]: f for f in features}] *)
Fixpoint make_feature_map (fs : list val) (acc : list (string * val))
    : M (list (string * val)) :=
  match fs with
  | [] => mret acc
  | f :: fs' =>
      n ← dict_item f "name";
      n ← as_str n;
      make_feature_map fs' (odict_set n f acc)
  end.

(** The body of [for fname, feat in self.feature_map.items()]. *)
Definition activate (selected : gmap string val) (entry : string * val)
    : M unit :=
  let '(fname, feat) := entry in
  activated ← dict_get feat "default" (VBool false);
  let activated := match selected !! fname with
                   | Some v => v
                   | None => activated
                   end in
  dict_setitem feat "activated" activated.

(** [self.feature_map.get("static") and
     self.feature_map["static"]["activated"]] *)
Definition static_activated (fm : list (string * val)) : M bool :=
  match odict_get "static" fm with
  | None => mret false
  | Some feat =>
      t ← truthy feat;
      if t : bool then a ← dict_item feat "activated"; truthy a
      else mret false
  end.

(** The body of [for i in ["build", "host", "run", "run_constrained"]]
    for the feature [f]. *)
Definition add_feature_reqs (reqs f : val) (i : string) : M unit :=
  dflt ← alloc (OList []);
  base_req ← dict_get reqs i dflt;
  freqs ← dict_item f "requirements";
  dflt ← alloc (OList []);
  feat_req ← dict_get freqs i dflt;
  _ ← list_extend base_req feat_req;
  n ← list_len base_req;
  if (0 <? n)%nat then dict_setitem reqs i base_req else mret tt.

(** The body of [for f in self.feature_map.values()]. *)
Definition feature_requirements (reqs : val) (entry : string * val)
    : M unit :=
  let f := snd entry in
  a ← dict_item f "activated";
  t ← truthy a;
  if t : bool then
    fr ← dict_get f "requirements" VNone;
    has ← truthy fr;
    if has : bool
    then iter (add_feature_reqs reqs f)
           ["build"; "host"; "run"; "run_constrained"]
    else mret tt
  else mret tt.

(** [[CondaBuildSpec(r) for r in (x or [])]] *)
Definition spec_list (x : val) : M (list Spec.t) :=
  t ← truthy x;
  if t : bool then
    rs ← as_list x;
    map_m (fun r => s ← as_str r; mret (Spec.CondaBuildSpec s)) rs
  else mret [].

Definition section_specs (reqs : val) (section : string) : M (list Spec.t) :=
  x ← dict_get reqs section VNone;
  spec_list x.

(** The run exports declared under [build]: a flat list is read as
    [weak]; otherwise one list per strength. *)
Definition declared_run_exports (build_section : val)
    : M (RunExports.t Spec.t) :=
  rx ← dict_get build_section "run_exports" VNone;
  t ← truthy rx;
  if t : bool then
    l ← is_list rx;
    if l : bool then
      w ← spec_list rx;
      mret (RunExports.only_weak w)
    else
      let strength k :=
        dflt ← alloc (OList []);
        x ← dict_get rx k dflt;
        rs ← as_list x;
        map_m (fun r => s ← as_str r; mret (Spec.CondaBuildSpec s)) rs in
      w ← strength "weak";
      s ← strength "strong";
      n ← strength "noarch";
      wc ← strength "weak_constrains";
      sc ← strength "strong_constrains";
      mret (RunExports.mk w s sc wc n)
  else mret RunExports.empty.

(** [self.name], [self.version], [self.build_string],
    [self.build_number], [self.noarch] and [self.is_package]. *)
Definition read_identity (d : val)
    : M (val * val * val * val * val * bool) :=
  step ← dict_item d "step";
  name ← dict_item step "name";
  is_package ← dict_contains d "package";
  '(version, build_string) ←
    (if is_package : bool then
       pkg ← dict_item d "package";
       v ← dict_item pkg "version";
       pkg ← dict_item d "package";
       b ← dict_get pkg "build_string" VNone;
       mret (v, b)
     else mret (VNone, VNone));
  bld ← dict_item d "build";
  build_number ← dict_get bld "number" (VInt 0);
  bld ← dict_item d "build";
  noarch ← dict_get bld "noarch" (VBool false);
  mret (name, version, build_string, build_number, noarch, is_package).

(** [self.sections] up to [source], and [self.required_steps]. *)
Definition make_sections (d parent : val)
    : M (gmap string val * list val) :=
  s_build ← set_section d parent "build";
  s_package ← set_section d parent "package";
  s_app ← set_section d parent "app";
  s_extra ← set_section d parent "extra";
  s_test ← set_section d parent "test";
  s_files ← dict_get d "files" VNone;
  dflt ← alloc (ODict ∅);
  s_source ← dict_get d "source" dflt;
  k ← has_keys s_source;
  s_source ← (if k : bool then alloc (OList [s_source]) else mret s_source);
  srcs ← as_list s_source;
  required_steps ← collect_steps srcs;
  mret (<["source" := s_source]>
        (<["files" := s_files]>
        (<["test" := s_test]>
        (<["extra" := s_extra]>
        (<["app" := s_app]>
        (<["package" := s_package]>
        (<["build" := s_build]> ∅)))))),
        required_steps).

(** [self.sections["features"]], [self.feature_map] with every feature's
    activation written into its entry, and the name with its [-static]
    suffix. *)
Definition activate_features (parent : val)
    (selected_features : gmap string val) (name : val)
    : M (val * list (string * val) * val) :=
  dflt ← alloc (OList []);
  s_features ← dict_get parent "features" dflt;
  _ ← alloc (OList []);
  fs ← as_list s_features;
  feature_map ← make_feature_map fs [];
  _ ← iter (activate selected_features) feature_map;
  static ← static_activated feature_map;
  name ← (if static : bool then
            n ← as_str name; mret (VStr (n +:+ "-static"))
          else mret name);
  mret (s_features, feature_map, name).

(** [self.requirements]: the shallow copy of the record's requirements,
    extended by the activated features, then turned into Specs. *)
Definition make_requirements (d : val) (feature_map : list (string * val))
    : M Reqs :=
  dflt ← alloc (ODict ∅);
  dreqs ← dict_get d "requirements" dflt;
  m ← as_dict dreqs;
  reqs ← alloc (ODict m);
  _ ← iter (feature_requirements reqs) feature_map;
  r_build ← section_specs reqs "build";
  r_host ← section_specs reqs "host";
  r_run ← section_specs reqs "run";
  r_run_constrained ← section_specs reqs "run_constrained";
  mret (mkReqs r_build r_host r_run r_run_constrained).

(** The statements of [__init__] once [parent] is an object. *)
Definition construct (d parent : val)
    (selected_features : gmap string val) : M Attrs :=
  _ ← bind_source d parent;
  '(name, version, build_string, build_number, noarch, is_package) ←
    read_identity d;
  '(sections, required_steps) ← make_sections d parent;
  '(s_features, feature_map, name) ←
    activate_features parent selected_features name;
  requirements ← make_requirements d feature_map;
  build_section ← match sections !! "build" with
                  | Some b => mret b
                  | None => raise (KeyError "build")
                  end;
  run_exports ← declared_run_exports build_section;
  mret {| data := d; name := name; version := version;
          build_string := build_string; build_number := build_number;
          noarch := noarch; is_first := false; is_package := is_package;
          sections := <["features" := s_features]> sections;
          required_steps := required_steps; feature_map := feature_map;
          requirements := requirements;
          run_exports := run_exports; parent := parent;
          selected_features := selected_features |}.

(** [if parent is None: parent = {}], then the rest. *)
Definition __init__ (d : val) (parent : option val)
    (selected_features : gmap string val) : M Attrs :=
  parent ← match parent with
           | Some p => mret p
           | None => alloc (ODict ∅)
           end;
  construct d parent selected_features.

End Init.

(** ** The propagation rules, as the specification words them

    [routes e noarch rex] lists, for the exports [rex] of one resolved
    dependency of environment [e], the target environment of every entry. *)
Definition routes (e : env) (is_noarch : bool) (rex : RunExports.t string)
    : list (env * string) :=
  match e, is_noarch with
  | Build, false =>
      flat_map (fun r => [(Host, r); (Run, r)]) (RunExports.strong rex)
      ++ map (pair Host) (RunExports.weak rex)
      ++ map (pair RunConstrained) (RunExports.strong_constrains rex)
  | Host, false =>
      map (pair Run) (RunExports.strong rex)
      ++ map (pair Run) (RunExports.weak rex)
      ++ map (pair RunConstrained) (RunExports.strong_constrains rex)
      ++ map (pair RunConstrained) (RunExports.weak_constrains rex)
  | Host, true => map (pair Run) (RunExports.noarch rex)
  | _, _ => []
  end.

(** Inserting a list of routed exports, one after the other. *)
Definition insert_routed (rs : list (env * string)) (o : Output) : Output :=
  fold_left (fun o er => append_or_replace (fst er) (snd er) o) rs o.

(** The routing rules as the specification words them: the export text
    [r] of the record [rex], collected from environment [e], is due in the
    environment [t]. *)
Definition due (e : env) (is_noarch : bool) (rex : RunExports.t string)
    (t : env) (r : string) : Prop :=
  match e, is_noarch with
  | Build, false =>
      (r ∈ RunExports.strong rex ∧ (t = Host ∨ t = Run))
      ∨ (r ∈ RunExports.weak rex ∧ t = Host)
      ∨ (r ∈ RunExports.strong_constrains rex ∧ t = RunConstrained)
  | Host, false =>
      ((r ∈ RunExports.strong rex ∨ r ∈ RunExports.weak rex) ∧ t = Run)
      ∨ ((r ∈ RunExports.strong_constrains rex
          ∨ r ∈ RunExports.weak_constrains rex) ∧ t = RunConstrained)
  | Host, true => r ∈ RunExports.noarch rex ∧ t = Run
  | _, _ => False
  end.

#[export] Instance due_dec e b rex t r : Decision (due e b rex t r).
Proof. unfold due. destruct e, b; apply _. Defined.

(** The test of [append_or_replace] on an existing entry. *)
Definition matches (nm : string) (r : Spec.t) : bool :=
  String.eqb (Spec.final_name r) nm && Spec.is_simple r.

(** ** Sample inputs *)

Module Sample.

Definition cfg : Config := mkConfig false "linux-64" "linux-64" "/out" ∅.

Definition output (nm : string) (is_noarch : bool) (r : Reqs)
    (rx : RunExports.t Spec.t) : Output :=
  mkOutput nm "1.0" None is_noarch [] ∅ r rx cfg None [] None ∅ (Some ∅) None.

(** A Spec as the solver leaves it: bound to a version and a build. *)
Definition resolved (text v b : string) : Spec.t :=
  Spec.set_final_version (v, b) (Spec.CondaBuildSpec text).

Definition no_pin_expressions (v : string) (_ : gmap string string) : string := v.

(** A metadata store in which every package declares the same exports. *)
Definition store_of (rex : RunExports.t string) (_ _ : string)
    : option (RunExports.t string) := Some rex.

End Sample.

Module SampleC2.
(** A build dependency whose metadata declares one export at each of the
    strengths weak, strong and strong_constrains. *)
Definition rex : RunExports.t string :=
  RunExports.mk ["libweak"] ["libstrong >=1"] ["libsc <2"] [] [].
Definition o0 : Output :=
  Sample.output "B" false
    (mkReqs [Sample.resolved "compiler" "1.0" "h0"] [] [] [])
    RunExports.empty.
End SampleC2.

Module SampleC4.
(** A host dependency whose metadata declares a qualified strong export
    and a bare weak export of the same package. *)
Definition rex : RunExports.t string :=
  RunExports.mk ["a"] ["a >=1"] [] [] [].
Definition o0 : Output :=
  Sample.output "B" false
    (mkReqs [] [Sample.resolved "libfoo" "2.1" "h0"] [] []) RunExports.empty.
Definition propagate : Output -> Res Output :=
  propagate_run_exports Sample.no_pin_expressions (Sample.store_of rex)
    Host "cache".
End SampleC4.

Module SampleC10.
(** A host list whose first Spec the solver has not bound. *)
Definition unbound : Spec.t := Spec.CondaBuildSpec "zlib".
Definition bound : Spec.t := Sample.resolved "libfoo" "2.1" "h0".
Definition rex : RunExports.t string :=
  RunExports.mk [] ["libfoo >=2.0"] [] [] [].
Definition o0 : Output :=
  Sample.output "B" false (mkReqs [] [unbound; bound] [] []) RunExports.empty.
End SampleC10.

Module SampleC3.
(** The static variant of [foo], which declares weak exports on [foo]
    itself and on [bar]. *)
Definition o0 : Output :=
  Sample.output "foo-static" false (mkReqs [] [] [] [])
    (RunExports.only_weak
       [Spec.CondaBuildSpec "foo"; Spec.CondaBuildSpec "bar >=1"]).
Definition no_pins (_ : Spec.t) (_ : Output) : string := "".
End SampleC3.

(** ** Variant application, entry by entry *)

(** What the pinning loops leave at the place of the template's entry [r]. *)
Definition pin_entry (variant : gmap string string) (r : Spec.t) : Spec.t :=
  match variant !! PyStr.dash_to_underscore (Spec.name r) with
  | Some v => pinned_spec r v
  | None => r
  end.

(** The attribute writes of the compiler loop on the copy's entry. *)
Definition inject (text : string) (c : Spec.t) : Spec.t :=
  Spec.set_from_pinnings true (Spec.set_final text c).

(** The variant keys that [apply_variant] looks up for the template's
    entry [r]. *)
Definition consulted_keys (r : Spec.t) : list string :=
  PyStr.dash_to_underscore (Spec.name r) ::
  (if PyStr.startswith (Spec.name r) COMPILER_ then
     match Spec.splitted r !! 1%nat with
     | Some w => [PyStr.lower w +:+ "_compiler"; "target_platform";
                  PyStr.lower w +:+ "_compiler_version"]
     | None => []
     end
   else []).

Definition agree_on (ks : list string) (v1 v2 : gmap string string) : Prop :=
  Forall (fun k => v1 !! k = v2 !! k) ks.

(** The value of the copy that [apply_variant] returns, given the build
    list [cl] and the differentiating values [dv] it has computed. *)
Definition specialized (merged : Config) (variant : gmap string string)
    (keys : list string) (cl : list Spec.t) (dv : list string) (this : Output)
    : Output :=
  set_differentiating_variant (Some dv)
    (set_differentiating_keys keys
      (set_config merged
        (with_reqs Build cl
          (with_reqs Host (fmap (pin_entry variant) (reqs_of Host this))
            (set_variant (Some variant) this))))).

Module SampleC9.
Definition native (_ : string) (_ : Config) : string := "cc".
Definition merge (c : Config) (v : gmap string string) : Config :=
  set_cfg_variant (v ∪ cfg_variant c) c.
Definition compiler_c : Spec.t := Spec.CondaBuildSpec "COMPILER_C c".
Definition A : Output :=
  Sample.output "A" false (mkReqs [compiler_c] [] [] []) RunExports.empty.
Definition gcc : gmap string string :=
  <["c_compiler" := "gcc"]> (<["target_platform" := "linux-64"]> ∅).
Definition gcc11 : gmap string string :=
  <["c_compiler_version" := "11"]> gcc.
(** The same recipe with the compiler misplaced under [host]. *)
Definition misplaced : Output :=
  Sample.output "A" false (mkReqs [] [compiler_c] [] []) RunExports.empty.
End SampleC9.

(** The constraint text the specification gives for a compiler Spec of
    language [lang]: the variant's explicit compiler, else the native
    default, suffixed with the target platform [tp]; then the pinned
    compiler version, if any, as a wildcard. *)
Definition injected_text (native_compiler : string -> Config -> string)
    (variant : gmap string string) (cfg : Config) (lang tp : string) : string :=
  let pkg := (if variant_truthy variant (lang +:+ "_compiler")
              then default "" (variant !! (lang +:+ "_compiler"))
              else native_compiler lang cfg) +:+ "_" +:+ tp in
  if variant_truthy variant (lang +:+ "_compiler_version")
  then pkg +:+ " " +:+ default "" (variant !! (lang +:+ "_compiler_version"))
           +:+ "*"
  else pkg.

(** The attributes that variant application leaves as the template has
    them. *)
Definition same_unspecialized (this o : Output) : Prop :=
  name o = name this ∧ version o = version this ∧
  final_build_id o = final_build_id this ∧ noarch o = noarch this ∧
  ignore_run_exports o = ignore_run_exports this ∧
  pin_run_as_build o = pin_run_as_build this ∧
  run_exports o = run_exports this ∧
  transactions o = transactions this ∧
  data_requirements o = data_requirements this ∧
  data_build_run_exports o = data_build_run_exports this ∧
  reqs_of Run o = reqs_of Run this ∧
  reqs_of RunConstrained o = reqs_of RunConstrained this ∧
  length (reqs_of Build o) = length (reqs_of Build this) ∧
  length (reqs_of Host o) = length (reqs_of Host this).

(** ** Resolution state of an environment *)

Definition bound (s : Spec.t) : Prop := is_Some (Spec.final_version s).

(** Every Spec of the environment is bound, unless a later Spec of the same
    list has its final name or the recorded transaction of the environment
    does not install a package of that name. *)
Definition settled (e : env) (o : Output) : Prop :=
  ∀ i s, reqs_of e o !! i = Some s →
    bound s
    ∨ (∃ j s', i < j ∧ reqs_of e o !! j = Some s' ∧
               Spec.final_name s' = Spec.final_name s)
    ∨ (∃ t pc, transactions o !! env_key e = Some (t, pc) ∧
               Spec.final_name s ∉ pkg_name <$> install_pkgs t).

(** Two lists that agree, entry by entry, on what resolution reads. *)
Definition same_resolution (l l' : list Spec.t) : Prop :=
  Forall2 (fun s s' => Spec.final_version s' = Spec.final_version s ∧
                       Spec.final s' = Spec.final s) l l'.

(** The entries of [l] are entries of [l0] or unbound run exports. *)
Definition only_unbound_exports_added (l0 l : list Spec.t) : Prop :=
  ∀ s, s ∈ l →
    s ∈ l0 ∨ (Spec.final_version s = None ∧ Spec.from_run_export s = true).

(** The environments that receive exports from environment [e]. *)
Definition later (e t : env) : Prop :=
  match e, t with
  | Build, (Host | Run | RunConstrained) => True
  | Host, (Run | RunConstrained) => True
  | _, _ => False
  end.

Module SampleC1.
(** A solver that installs one package per requested constraint, named as
    the constraint's package, and whose downloads succeed. *)
Definition solve (_ _ : string) (texts : list string) : Res Transaction :=
  Ok (mkTransaction
        ((fun t => mkPkg (hd "" (PyStr.split t)) "1.0" "0" "conda-forge")
           <$> texts)
        true).
Definition pkg_cache_of (_ _ : string) : string := "/pkgs".
Definition no_metadata (_ _ : string) : option (RunExports.t string) := None.
Definition no_compat (_ : Spec.t) (_ : string * string) : string := "".

(** A build requirement and a run constraint. *)
Definition constrained : Output :=
  Sample.output "B" false
    (mkReqs [Spec.CondaBuildSpec "cmake"] [] [] [Spec.CondaBuildSpec "foo"])
    RunExports.empty.

(** A qualified run requirement on a package that the host dependency
    exports with another bound. *)
Definition libfoo_exports : RunExports.t string :=
  RunExports.mk [] ["libfoo >=2.0"] [] [] [].
Definition shadowed : Output :=
  Sample.output "B" false
    (mkReqs [] [Spec.CondaBuildSpec "libfoo"]
            [Spec.CondaBuildSpec "libfoo >=1"] [])
    RunExports.empty.

Definition finalize (metadata : string -> string -> option (RunExports.t string))
    : Output -> Res Output :=
  finalize_solve Sample.no_pin_expressions metadata solve pkg_cache_of
    SampleC3.no_pins no_compat "3.10.4" [].

Definition solved (o : Output) (r : Res Output) : Output :=
  match r with Ok o' => o' | Raise _ => o end.
End SampleC1.

(** ** Heaps of raw records: well-formedness and change *)

Module HeapSpec.

Import Py.

(** A heap is closed when every reference stored in it points into it. *)
Definition val_closed (n : nat) (v : val) : Prop :=
  match v with VRef l => l < n | _ => True end.

Definition obj_closed (n : nat) (o : obj) : Prop :=
  match o with
  | ODict m => map_Forall (fun _ v => val_closed n v) m
  | OList xs => Forall (val_closed n) xs
  end.

Definition closed (h : list obj) : Prop := Forall (obj_closed (length h)) h.

#[export] Instance val_closed_dec n v : Decision (val_closed n v).
Proof. destruct v; simpl; apply _. Defined.
#[export] Instance obj_closed_dec n o : Decision (obj_closed n o).
Proof. destruct o; simpl; apply _. Defined.
#[export] Instance closed_dec h : Decision (closed h).
Proof. unfold closed. apply _. Defined.

Definition ref_of (v : val) : option loc :=
  match v with VRef l => Some l | _ => None end.

(** The entries of the parent's feature list. *)
Definition feature_locs (h : list obj) (lp : loc) : list loc :=
  match h !! lp with
  | Some (ODict m) =>
      match m !! "features" with
      | Some (VRef lf) =>
          match h !! lf with
          | Some (OList xs) => omap ref_of xs
          | _ => []
          end
      | _ => []
      end
  | _ => []
  end.

Definition env_keys : list string :=
  ["build"; "host"; "run"; "run_constrained"].

(** The requirement lists nested in the raw record. *)
Definition req_list_locs (h : list obj) (ld : loc) : list loc :=
  match h !! ld with
  | Some (ODict m) =>
      match m !! "requirements" with
      | Some (VRef lq) =>
          match h !! lq with
          | Some (ODict mq) =>
              omap (fun k => mq !! k ≫= ref_of) env_keys
          | _ => []
          end
      | _ => []
      end
  | _ => []
  end.

(** The keys of the dictionary at [l] that construction may bind. *)
Definition touched (ld : loc) (F : list loc) (l : loc) : list string :=
  (if decide (l = ld) then ["source"] else [])
  ++ (if decide (l ∈ F) then ["activated"] else []).

(** How one object may differ after construction: not at all; a
    dictionary, at the keys [ks] only; a list marked [q], by elements put
    at its end. *)
Definition obj_evolves (ks : list string) (q : Prop) (o o' : obj) : Prop :=
  o' = o
  ∨ (∃ m m', o = ODict m ∧ o' = ODict m' ∧
             ∀ k, k ∉ ks → m' !! k = m !! k)
  ∨ (q ∧ ∃ xs ys, o = OList xs ∧ o' = OList (xs ++ ys)).

(** The objects below address [n] change as [obj_evolves] allows. *)
Definition evolves (n : nat) (ld : loc) (F Q : list loc)
    (h h' : list obj) : Prop :=
  (length h ≤ length h')%nat ∧
  ∀ l o, (l < n)%nat → h !! l = Some o →
    ∃ o', h' !! l = Some o' ∧ obj_evolves (touched ld F l) (l ∈ Q) o o'.

(** The section [sname] of the record at [x]: the dictionary stored
    under that key, the empty one when the key is missing. *)
Definition section_of (h : list obj) (x : loc) (sname : string)
    : option (gmap string val) :=
  match h !! x with
  | Some (ODict m) =>
      match m !! sname with
      | None => Some ∅
      | Some (VRef p) =>
          match h !! p with
          | Some (ODict ms) => Some ms
          | _ => None
          end
      | Some _ => None
      end
  | _ => None
  end.

Definition merged_sections : list string :=
  ["build"; "package"; "app"; "extra"; "test"].

(** No section of the record at [x] is the record [ld] itself. *)
Definition no_self_section (h : list obj) (ld x : loc) : Prop :=
  match h !! x with
  | Some (ODict m) =>
      Forall (fun sname => m !! sname ≠ Some (VRef ld)) merged_sections
  | _ => True
  end.

#[export] Instance no_self_section_dec h ld x :
  Decision (no_self_section h ld x).
Proof.
  unfold no_self_section. destruct (h !! x) as [[m|xs]|]; apply _.
Defined.

(** Programs that only read. *)
Definition reads_only {A} (m : M A) : Prop :=
  ∀ h a h', m h = Ok (a, h') → h' = h.

(** The working copy of the requirements, at [lr]: each of its lists is
    a list of the raw record ([Q]) or one made after address [n]. *)
Definition reqs_inv (Q : list loc) (n lr : nat) (h : list obj) : Prop :=
  (n ≤ lr)%nat ∧ (lr < length h)%nat ∧
  ∃ mr, h !! lr = Some (ODict mr) ∧
        ∀ k l, k ∈ env_keys → mr !! k = Some (VRef l) → l ∈ Q ∨ (n ≤ l)%nat.

End HeapSpec.

Module InitSpec.

Import Py HeapSpec.

(** The objects the constructor may write, read off the initial heap. *)
Definition parent_feature_locs (h : list obj) (parent : option val)
    : list loc :=
  match parent with
  | Some (VRef lp) => feature_locs h lp
  | _ => []
  end.

Definition parent_section (h : list obj) (parent : option val)
    (sname : string) : option (gmap string val) :=
  match parent with
  | Some (VRef lp) => section_of h lp sname
  | Some _ => None
  | None => Some ∅
  end.

Definition parent_entry (h : list obj) (parent : option val) (k : string)
    : option val :=
  match parent with
  | Some (VRef lp) =>
      match h !! lp with
      | Some (ODict mp) => mp !! k
      | _ => None
      end
  | _ => None
  end.

(** The parent, when given, is an object of the heap none of whose
    sections is the record [ld]. *)
Definition parent_ok (h : list obj) (ld : loc) (parent : option val)
    : Prop :=
  match parent with
  | Some (VRef lp) => (lp < length h)%nat ∧ no_self_section h ld lp
  | Some _ => False
  | None => True
  end.

#[export] Instance parent_ok_dec h ld parent : Decision (parent_ok h ld parent).
Proof. destruct parent as [[| | | |lp]|]; simpl; apply _. Defined.

End InitSpec.

Module SampleInit.

Import Py.

(** A recipe step with a build requirement, under a parent that declares
    a source and a [static] feature, on by default, with a build
    requirement of its own. *)
Definition heap : list obj :=
  [ ODict (<["step" := VRef 1]> (<["build" := VRef 2]>
             (<["requirements" := VRef 3]> ∅)));
    ODict {["name" := VStr "foo"]};
    ODict ∅;
    ODict {["build" := VRef 4]};
    OList [VStr "cmake"];
    ODict (<["source" := VRef 6]> (<["features" := VRef 7]> ∅));
    ODict {["url" := VStr "u"]};
    OList [VRef 8];
    ODict (<["name" := VStr "static"]> (<["default" := VBool true]>
             (<["requirements" := VRef 9]> ∅)));
    ODict {["build" := VRef 10]};
    OList [VStr "ninja"] ].

(** A step with its own source and build number, under a parent that
    declares a source, files and a build script. *)
Definition layered : list obj :=
  [ ODict (<["step" := VRef 1]> (<["build" := VRef 2]>
             (<["source" := VRef 3]> ∅)));
    ODict {["name" := VStr "foo"]};
    ODict {["number" := VInt 1]};
    ODict {["path" := VStr "p"]};
    ODict (<["source" := VRef 5]> (<["files" := VRef 6]>
             (<["build" := VRef 7]> ∅)));
    ODict {["url" := VStr "u"]};
    OList [VStr "a.txt"];
    ODict (<["script" := VStr "make"]> (<["number" := VInt 0]> ∅)) ].

End SampleInit.

(** ** Skip rules: [Output.skip] *)

Section Skipper.

(** [eval_selector(x, ns_cfg(config), [])] of conda-build: the verdict of
    the selector [x] under the configuration. *)
Variable eval_selector : string -> Config -> bool.

(** [skips] is [self.sections["build"].get("skip", [])].  The report that
    is printed when a selector holds joins [self.differentiating_variant],
    an attribute that only [apply_variant] binds; the text itself goes to
    the console. *)
Definition skip (skips : list string) (o : Output) : Res bool :=
  let skip_reasons :=
    List.filter (fun x => eval_selector x (config o)) skips in
  _ ← (if (0 <? length skip_reasons)%nat then
         match differentiating_variant o with
         | Some _ => Ok tt
         | None => Raise (AttributeError "differentiating_variant")
         end
       else Ok tt);
  Ok (negb (length skip_reasons =? 0)%nat).

End Skipper.

(** ** Requirement inheritance: [Output.inherit_requirements] *)

(** The nested function [merge_requirements(a, b)]: the names of [b] are
    taken once, before the loop; every entry of [a] whose name is not among
    them is deep copied, flagged and put at the end of [b]. *)
Definition merge_requirements (a b : list Spec.t) : list Spec.t :=
  let b_names := Spec.name <$> b in
  fold_left (fun b r => if bool_decide (Spec.name r ∈ b_names) then b
                        else b ++ [Spec.set_is_inherited true r]) a b.

(** [merge_requirements(steps[s].requirements[e], self.requirements[e])]
    on the store: [p] is the address of [steps[s]], which may be [self]. *)
Definition merge_into (e : env) (p self : nat) (σ : store) : Res store :=
  match σ !! p, σ !! self with
  | Some step, Some this =>
      Ok (<[self := with_reqs e
                      (merge_requirements (reqs_of e step) (reqs_of e this))
                      this]> σ)
  | _, _ => Raise (AttributeError "requirements")
  end.

(** [for s in self.required_steps]: [steps] maps a step name to the
    address of its Output and [required_steps] is [self.required_steps].
    An exception leaves the store as the turns before it made it. *)
Fixpoint inherit_requirements (steps : gmap string nat) (self : nat)
    (required_steps : list string) (σ : store) : Res unit * store :=
  match required_steps with
  | [] => (Ok tt, σ)
  | s :: rest =>
      match steps !! s with
      | None => (Raise (KeyError s), σ)
      | Some p =>
          match merge_into Build p self σ with
          | Raise e => (Raise e, σ)
          | Ok σ1 =>
              match merge_into Host p self σ1 with
              | Raise e => (Raise e, σ1)
              | Ok σ2 => inherit_requirements steps self rest σ2
              end
          end
      end
  end.

(** ** Serialization: [Output.to_json] *)

Module Json.

(** One entry [sdict] of the nested function [specs_to_dict]. *)
Record spec_entry := mk_spec_entry {
  spec : string;
  name : string;
  attrs : list string;
  resolved : gmap string (string * string) }.

(** The record [res].  [build_number], [source] and [noarch] are copied
    from the object as they are. *)
Record t := mk {
  out_name : string;
  out_version : string;
  build_number : Py.val;
  source : Py.val;
  out_noarch : Py.val;
  out_differentiating_variant : list string;
  out_variant : gmap string string;
  out_requirements : gmap string (list spec_entry) }.

End Json.

Definition spec_to_dict (s : Spec.t) : Json.spec_entry :=
  let attrs := (if Spec.is_pin s then ["is_pin"] else [])
               ++ (if Spec.from_run_export s then ["from_run_export"] else [])
               ++ (if Spec.from_pinnings s then ["from_pinnings"] else []) in
  let resolved := match Spec.final_version s with
                  | Some fv => {["final_version" := fv]}
                  | None => ∅
                  end in
  Json.mk_spec_entry (Spec.raw s) (Spec.final_name s) attrs resolved.

(** The nested function [specs_to_dict]. *)
Definition specs_to_dict (specs : list Spec.t) : list Json.spec_entry :=
  spec_to_dict <$> specs.

(** [build_number], [source] and [noarch] stand for [self.build_number],
    [self.data["source"]] and [self.noarch].  The attributes
    [differentiating_variant] and [variant] are read without a guard. *)
Definition to_json (build_number source noarch : Py.val) (o : Output)
    : Res Json.t :=
  dv ← match differentiating_variant o with
       | Some dv => Ok dv
       | None => Raise (AttributeError "differentiating_variant")
       end;
  v ← match variant o with
      | Some v => Ok v
      | None => Raise (AttributeError "variant")
      end;
  Ok (Json.mk (name o) (version o) build_number source noarch dv v
        (<["run" := specs_to_dict (reqs_of Run o)]>
          (<["host" := specs_to_dict (reqs_of Host o)]>
            (<["build" := specs_to_dict (reqs_of Build o)]> ∅)))).

(** ** Notions used to state the properties below *)

(** The test of [set_final_build_id] on one of the Output's own exports. *)
Definition self_export (self_name : string) (x : Spec.t) : bool :=
  PyStr.endswith self_name "-static"
  && PyStr.startswith self_name (Spec.name x).

(** What [data["build"]["run_exports"]] holds for one strength. *)
Definition finals_if_any (l : list Spec.t) : option (list string) :=
  match l with
  | [] => None
  | _ :: _ => Some (Spec.final <$> l)
  end.

(** The Specs [s] and [s'] differ at most in what the solver binds. *)
Definition same_authored (s s' : Spec.t) : Prop :=
  Spec.raw s' = Spec.raw s ∧ Spec.splitted s' = Spec.splitted s ∧
  Spec.name s' = Spec.name s ∧ Spec.final s' = Spec.final s ∧
  Spec.is_pin s' = Spec.is_pin s ∧
  Spec.is_pin_compatible s' = Spec.is_pin_compatible s ∧
  Spec.is_pin_subpackage s' = Spec.is_pin_subpackage s ∧
  Spec.from_run_export s' = Spec.from_run_export s ∧
  Spec.from_pinnings s' = Spec.from_pinnings s ∧
  Spec.is_inherited s' = Spec.is_inherited s ∧
  Spec.is_transitive_dependency s' = Spec.is_transitive_dependency s ∧
  Spec.run_exports_info s' = Spec.run_exports_info s.

(** A Spec that contributes no export to a propagation. *)
Definition contributes_nothing (o : Output) (s : Spec.t) : Prop :=
  Spec.is_transitive_dependency s = true
  ∨ Spec.name s ∈ ignore_run_exports o
  ∨ Spec.final_version s = None.

(** ** More sample inputs *)

Module SampleInherit.
(** A library step and an application step that requires it. *)
Definition lib : Output :=
  Sample.output "lib" false
    (mkReqs [Spec.CondaBuildSpec "cmake"; Spec.CondaBuildSpec "make"]
            [Spec.CondaBuildSpec "zlib"] [] [])
    RunExports.empty.
Definition app : Output :=
  Sample.output "app" false
    (mkReqs [Spec.CondaBuildSpec "make >=4"] []
            [Spec.CondaBuildSpec "zlib"] [])
    RunExports.empty.
Definition σ : store := [lib; app].
Definition steps : gmap string nat := {["lib" := 0]}.
End SampleInherit.

Module SampleSkip.
(** A selector language with one selector that holds. *)
Definition eval_selector (x : string) (_ : Config) : bool :=
  String.eqb x "linux".
End SampleSkip.

Module SamplePin.
(** A template with a qualified host requirement on a package that the
    variant pins. *)
Definition template : Output :=
  Sample.output "A" false
    (mkReqs [Spec.CondaBuildSpec "cmake"]
            [Spec.CondaBuildSpec "python >=3.6"; Spec.CondaBuildSpec "zlib"]
            [Spec.CondaBuildSpec "python"] [])
    RunExports.empty.
Definition variant : gmap string string :=
  <["python" := "3.9"]> (<["target_platform" := "linux-64"]> ∅).
End SamplePin.

Module SampleSolve.
(** One stage of the solve, with the solver of [SampleC1] and a metadata
    store without run exports. *)
Definition solve_env (e : env) (o : Output) : Res Output :=
  _solve_env Sample.no_pin_expressions SampleC1.no_metadata SampleC1.solve
    SampleC1.pkg_cache_of SampleC3.no_pins SampleC1.no_compat e [] o.
Definition resolve (e : env) (o : Output) : Spec.t -> Res Spec.t :=
  resolve_pins SampleC3.no_pins SampleC1.no_compat e [] o.
(** An Output whose raw record has no [requirements] entry. *)
Definition featured : Output :=
  set_data_requirements None SampleC1.constrained.
End SampleSolve.

(** The Spec [s'] is [s], or [s] with its [run_exports_info] assigned. *)
Definition same_but_info (s s' : Spec.t) : Prop :=
  s' = s ∨ ∃ i, s' = Spec.set_run_exports_info i s.

Module SampleProp.
(** A host dependency that the recipe excludes from propagation. *)
Definition ignoring : Output :=
  mkOutput "B" "1.0" None false ["libfoo"] ∅
    (mkReqs [] [Sample.resolved "libfoo" "2.1" "h0"] [] [])
    RunExports.empty Sample.cfg None [] None ∅ (Some ∅) None.
(** A host dependency that the configuration pins as build. *)
Definition pinning : Output :=
  mkOutput "B" "1.0" None false []
    {["libfoo" := {["max_pin" := "x.x"]}]}
    (mkReqs [] [Sample.resolved "libfoo" "2.1" "h0"] [] [])
    RunExports.empty Sample.cfg None [] None ∅ (Some ∅) None.
End SampleProp.

(** The activation of the feature [fname] with entry [mf]: the caller's
    choice, else the default that the entry declares, else off. *)
Definition feature_activation (sel : gmap string Py.val) (fname : string)
    (mf : gmap string Py.val) : Py.val :=
  match sel !! fname with
  | Some v => v
  | None => default (Py.VBool false) (mf !! "default")
  end.

(** The name with the suffix of the static variant. *)
Definition static_name (base : Py.val) : Py.val :=
  match base with
  | Py.VStr s => Py.VStr (s +:+ "-static")
  | _ => base
  end.

(** An entry of the feature map is a dictionary of the heap, under its
    own name; no name occurs twice. *)
Definition named_entries (h : list Py.obj) (fm : list (string * Py.val))
    : Prop :=
  NoDup fm.*1 ∧
  ∀ n f, (n, f) ∈ fm →
    ∃ l m, f = Py.VRef l ∧ h !! l = Some (Py.ODict m) ∧
           m !! "name" = Some (Py.VStr n).

(** Reading a list of strings off the heap. *)
Definition val_str (v : Py.val) : option string :=
  match v with Py.VStr s => Some s | _ => None end.

Definition str_list (h : list Py.obj) (v : Py.val) : option (list string) :=
  match v with
  | Py.VRef l =>
      match h !! l with
      | Some (Py.OList xs) => mapM val_str xs
      | _ => None
      end
  | _ => None
  end.

(** The texts that the mapping [mx] gives for the key [k]: none when the
    key is missing. *)
Definition texts_at (h : list Py.obj) (mx : gmap string Py.val)
    (k : string) : option (list string) :=
  match mx !! k with
  | None => Some []
  | Some v => str_list h v
  end.

(** The texts that [(mq.get(k) or [])] holds when the entry is a list of
    strings; a missing key and [None] read as the empty list. *)
Definition req_texts (h : list Py.obj) (mq : gmap string Py.val)
    (k : string) : option (list string) :=
  match mq !! k with
  | None | Some Py.VNone => Some []
  | Some v => str_list h v
  end.

(** An object that construction from the record at [ld] does not write:
    neither the record, nor an entry of the parent's feature list, nor a
    requirement list nested in the record. *)
Definition unwritten (h : list Py.obj) (ld : Py.loc)
    (parent : option Py.val) (l : Py.loc) : Prop :=
  l ≠ ld ∧ (l ∉ InitSpec.parent_feature_locs h parent)
  ∧ (l ∉ HeapSpec.req_list_locs h ld).

Module SampleExports.

Import Py.

(** A step whose build section declares its run exports by strength. *)
Definition heap : list obj :=
  [ ODict (<["step" := VRef 1]> (<["build" := VRef 2]> ∅));
    ODict {["name" := VStr "foo"]};
    ODict {["run_exports" := VRef 3]};
    ODict {["strong" := VRef 4]};
    OList [VStr "libfoo >=1"] ].

End SampleExports.

(** * Properties *)

Local Open Scope nat_scope.

(** ** Requirement lists *)

Lemma reqs_of_with_reqs e l o : reqs_of e (with_reqs e l o) = l.
Proof. unfold reqs_of, with_reqs. by destruct e. Qed.

Lemma reqs_of_with_reqs_ne e e' l o :
  e' ≠ e → reqs_of e' (with_reqs e l o) = reqs_of e' o.
Proof. unfold reqs_of, with_reqs. by destruct e, e'. Qed.

Lemma with_reqs_twice e l l' o :
  with_reqs e l (with_reqs e l' o) = with_reqs e l o.
Proof. unfold with_reqs. by destruct e. Qed.

Lemma noarch_with_reqs e l o : noarch (with_reqs e l o) = noarch o.
Proof. done. Qed.

(** ** Insertion of one export *)

Lemma insert_export_cons s r l :
  insert_export s (r :: l) =
  if matches (Spec.name s) r then s :: l else r :: insert_export s l.
Proof.
  unfold insert_export, matches. simpl.
  destruct (String.eqb _ _ && Spec.is_simple r); [done|].
  by destruct (replace_first (Spec.name s) s l).
Qed.

Lemma insert_export_nil s : insert_export s [] = [s].
Proof. done. Qed.

(** Either the first matching entry is overwritten where it stands, or no
    entry matches and the export goes to the end. *)
Lemma insert_export_cases s l :
  (∃ l1 r l2, l = l1 ++ r :: l2 ∧ matches (Spec.name s) r = true ∧
      Forall (fun x => matches (Spec.name s) x = false) l1 ∧
      insert_export s l = l1 ++ s :: l2)
  ∨ (Forall (fun x => matches (Spec.name s) x = false) l ∧
     insert_export s l = l ++ [s]).
Proof.
  induction l as [|r l IH].
  - right. by split.
  - rewrite insert_export_cons.
    destruct (matches (Spec.name s) r) eqn:Hm.
    + left. exists [], r, l. by repeat split.
    + destruct IH as [(l1 & r' & l2 & -> & Hr' & Hl1 & ->)|[Hall ->]].
      * left. exists (r :: l1), r', l2. repeat split; auto.
      * right. split; [by constructor|done].
Qed.

Lemma insert_export_length_match s l :
  (∃ r, r ∈ l ∧ matches (Spec.name s) r = true) →
  length (insert_export s l) = length l.
Proof.
  intros (r & Hin & Hr).
  destruct (insert_export_cases s l) as [(l1 & r' & l2 & -> & _ & _ & ->)|[Hall _]].
  - by rewrite !length_app.
  - rewrite Forall_forall in Hall. by rewrite (Hall r Hin) in Hr.
Qed.

Lemma export_spec_final_name text :
  Spec.final_name (export_spec text) = Spec.name (export_spec text).
Proof. done. Qed.

Lemma insert_export_twice s l :
  matches (Spec.name s) s = true →
  insert_export s (insert_export s l) = insert_export s l.
Proof.
  intros Hs. induction l as [|r l IH].
  - rewrite insert_export_nil, insert_export_cons. by rewrite Hs.
  - rewrite insert_export_cons.
    destruct (matches (Spec.name s) r) eqn:Hm.
    + rewrite insert_export_cons. by rewrite Hs.
    + rewrite insert_export_cons, Hm. by rewrite IH.
Qed.

(** C4 (amended).  [append_or_replace] touches the target list only; the
    inserted Spec carries [from_run_export]; it overwrites, at its position,
    the first entry whose final name is the export's name and which is
    simple, and is appended when there is none.  Hence an insertion made
    while such an entry is present keeps the length of the list, and
    inserting a simple export a second time changes nothing. *)
Theorem append_or_replace_inserts (e : env) (text : string) (o : Output) :
  let s := export_spec text in
  let o' := append_or_replace e text o in
  Spec.from_run_export s = true ∧ Spec.raw s = text ∧
  (∀ e', e' ≠ e → reqs_of e' o' = reqs_of e' o) ∧
  ((∃ l1 r l2, reqs_of e o = l1 ++ r :: l2 ∧
       matches (Spec.name s) r = true ∧
       Forall (fun x => matches (Spec.name s) x = false) l1 ∧
       reqs_of e o' = l1 ++ s :: l2)
   ∨ (Forall (fun x => matches (Spec.name s) x = false) (reqs_of e o) ∧
      reqs_of e o' = reqs_of e o ++ [s])) ∧
  ((∃ r, r ∈ reqs_of e o ∧ matches (Spec.name s) r = true) →
     length (reqs_of e o') = length (reqs_of e o)) ∧
  (Spec.is_simple s = true → append_or_replace e text o' = o').
Proof.
  intros s o'. subst o'. unfold append_or_replace. fold s.
  rewrite reqs_of_with_reqs.
  split; [done|]. split; [done|].
  split. { intros e' Hne. by apply reqs_of_with_reqs_ne. }
  split. { apply insert_export_cases. }
  split. { apply insert_export_length_match. }
  intros Hsimple. rewrite with_reqs_twice. f_equal.
  apply insert_export_twice. unfold matches.
  rewrite Hsimple, andb_true_r. apply String.eqb_eq.
  apply export_spec_final_name.
Qed.

Lemma append_or_replace_inserts_witness :
  append_or_replace Run "a" (append_or_replace Run "a" SampleC4.o0)
  = append_or_replace Run "a" SampleC4.o0.
Proof.
  apply (append_or_replace_inserts Run "a" SampleC4.o0). reflexivity.
Defined.

(** C4, as stated, fails for a whole propagation run twice: after the first
    run the name [a] is present in [run] as a simple Spec that came from a
    run export, and the second run still appends an entry for [a], because
    the qualified export [a >=1] has overwritten the simple one before the
    bare export [a] is inserted again. *)
Lemma second_propagation_appends :
  ∃ o1 o2,
    SampleC4.propagate SampleC4.o0 = Ok o1 ∧
    SampleC4.propagate o1 = Ok o2 ∧
    (∃ r, r ∈ reqs_of Run o1 ∧ Spec.final_name r = "a" ∧
          Spec.is_simple r = true ∧ Spec.from_run_export r = true) ∧
    Spec.raw <$> reqs_of Run o1 = ["a >=1"; "a"] ∧
    Spec.raw <$> reqs_of Run o2 = ["a >=1"; "a >=1"; "a"].
Proof.
  eexists _, _. split; [vm_compute; reflexivity|].
  split; [vm_compute; reflexivity|].
  split.
  - exists (export_spec "a"). split; [|by vm_compute].
    vm_compute. apply list_elem_of_further, list_elem_of_here.
  - split; vm_compute; reflexivity.
Qed.

(** ** Propagation *)

Lemma noarch_append_or_replace e text o :
  noarch (append_or_replace e text o) = noarch o.
Proof. done. Qed.

Lemma noarch_insert_routed rs o : noarch (insert_routed rs o) = noarch o.
Proof.
  revert o. induction rs as [|r rs IH]; intros o; [done|].
  unfold insert_routed in *. simpl. by rewrite IH.
Qed.

Lemma insert_routed_app rs1 rs2 o :
  insert_routed (rs1 ++ rs2) o = insert_routed rs2 (insert_routed rs1 o).
Proof. unfold insert_routed. apply fold_left_app. Qed.

Lemma insert_each_routed e rs o :
  insert_each e rs o = insert_routed (map (pair e) rs) o.
Proof.
  revert o. induction rs as [|r rs IH]; intros o; [done|].
  unfold insert_each, insert_routed in *. simpl. apply IH.
Qed.

Lemma insert_pairs_routed rs o :
  fold_left (fun o r => append_or_replace Run r (append_or_replace Host r o)) rs o
  = insert_routed (flat_map (fun r => [(Host, r); (Run, r)]) rs) o.
Proof.
  revert o. induction rs as [|r rs IH]; intros o; [done|].
  unfold insert_routed in *. simpl. apply IH.
Qed.

Lemma propagate_build_routed rex o :
  propagate_build rex o = insert_routed (routes Build (noarch o) rex) o.
Proof.
  unfold propagate_build, routes. destruct (noarch o); [done|]. simpl.
  rewrite !insert_routed_app, !insert_each_routed. by rewrite insert_pairs_routed.
Qed.

Lemma propagate_host_routed rex o :
  propagate_host rex o = insert_routed (routes Host (noarch o) rex) o.
Proof.
  unfold propagate_host, routes. destruct (noarch o); simpl.
  - apply insert_each_routed.
  - by rewrite !insert_routed_app, !insert_each_routed.
Qed.

Lemma fold_propagate_build_routed collected o :
  fold_left (fun o rex => propagate_build rex o) collected o
  = insert_routed (flat_map (routes Build (noarch o)) collected) o.
Proof.
  revert o. induction collected as [|rex c IH]; intros o; [done|].
  simpl. rewrite IH, insert_routed_app, propagate_build_routed.
  by rewrite noarch_insert_routed.
Qed.

Lemma fold_propagate_host_routed collected o :
  fold_left (fun o rex => propagate_host rex o) collected o
  = insert_routed (flat_map (routes Host (noarch o)) collected) o.
Proof.
  revert o. induction collected as [|rex c IH]; intros o; [done|].
  simpl. rewrite IH, insert_routed_app, propagate_host_routed.
  by rewrite noarch_insert_routed.
Qed.

Lemma flat_map_routes_nil e b (collected : list (RunExports.t string)) :
  (e = Build → b = true) → e ≠ Host →
  flat_map (routes e b) collected = [].
Proof.
  intros Hb Hh. induction collected as [|rex c IH]; [done|]. simpl.
  rewrite IH. by destruct e, b; try done; specialize (Hb eq_refl).
Qed.

(** ** Where the routed exports end up *)

Lemma elem_of_insert_export_self x l : x ∈ insert_export x l.
Proof.
  destruct (insert_export_cases x l)
    as [(l1 & r & l2 & -> & _ & _ & ->)|[_ ->]].
  - rewrite elem_of_app, elem_of_cons. tauto.
  - rewrite elem_of_app, list_elem_of_singleton. tauto.
Qed.

(** An entry leaves the list only by being the one that is overwritten. *)
Lemma insert_export_keeps x l y :
  y ∈ l → y ∈ insert_export x l ∨ matches (Spec.name x) y = true.
Proof.
  intros Hy.
  destruct (insert_export_cases x l)
    as [(l1 & r & l2 & -> & Hr & _ & ->)|[_ ->]].
  - rewrite elem_of_app, elem_of_cons in Hy.
    destruct Hy as [Hy|[->|Hy]]; [|by right|].
    + left. rewrite elem_of_app. tauto.
    + left. rewrite elem_of_app, elem_of_cons. tauto.
  - left. rewrite elem_of_app. tauto.
Qed.

Lemma matches_final_name nm y :
  matches nm y = true → Spec.final_name y = nm.
Proof.
  unfold matches. intros H. apply andb_true_iff in H as [H _].
  by apply String.eqb_eq.
Qed.

Lemma insert_routed_snoc rs t r o :
  insert_routed (rs ++ [(t, r)]) o
  = append_or_replace t r (insert_routed rs o).
Proof. by rewrite insert_routed_app. Qed.

(** Every routed export is in its target list afterwards, itself or a
    routed export of the same package that was inserted later. *)
Lemma insert_routed_lands rs o t r :
  (t, r) ∈ rs →
  ∃ r', (t, r') ∈ rs ∧
        Spec.name (export_spec r') = Spec.name (export_spec r) ∧
        export_spec r' ∈ reqs_of t (insert_routed rs o).
Proof.
  induction rs as [|[t1 r1] rs IH] using rev_ind; intros Hin.
  - by apply not_elem_of_nil in Hin.
  - rewrite insert_routed_snoc. unfold append_or_replace.
    rewrite elem_of_app, list_elem_of_singleton in Hin.
    destruct Hin as [Hin|[= <- <-]].
    + destruct (IH Hin) as (r' & Hr' & Hname & Hel).
      destruct (decide (t1 = t)) as [->|Hne].
      * rewrite reqs_of_with_reqs.
        destruct (insert_export_keeps (export_spec r1) _ _ Hel) as [Hk|Hm].
        -- exists r'. split; [|done]. rewrite elem_of_app. tauto.
        -- apply matches_final_name in Hm.
           rewrite export_spec_final_name in Hm.
           exists r1. split.
           { rewrite elem_of_app, list_elem_of_singleton. tauto. }
           split; [congruence|apply elem_of_insert_export_self].
      * rewrite reqs_of_with_reqs_ne by done.
        exists r'. split; [|done]. rewrite elem_of_app. tauto.
    + rewrite reqs_of_with_reqs. exists r.
      split; [rewrite elem_of_app, list_elem_of_singleton; tauto|].
      split; [done|apply elem_of_insert_export_self].
Qed.

(** Nothing but a routed export is added, and only to its target. *)
Lemma insert_routed_only rs :
  ∀ o t s, s ∈ reqs_of t (insert_routed rs o) →
    s ∈ reqs_of t o ∨ ∃ r, (t, r) ∈ rs ∧ s = export_spec r.
Proof.
  induction rs as [|[t1 r1] rs IH] using rev_ind; intros o t s Hs.
  - by left.
  - rewrite insert_routed_snoc in Hs. unfold append_or_replace in Hs.
    assert (Hprev : s ∈ reqs_of t (insert_routed rs o)
                    ∨ (t1 = t ∧ s = export_spec r1)).
    { destruct (decide (t1 = t)) as [->|Hne].
      - rewrite reqs_of_with_reqs in Hs.
        destruct (insert_export_cases (export_spec r1)
                    (reqs_of t (insert_routed rs o)))
          as [(l1 & r & l2 & Hl & _ & _ & Heq)|[_ Heq]];
          rewrite Heq in Hs.
        + rewrite Hl. rewrite !elem_of_app, !elem_of_cons in *.
          destruct Hs as [?|[->|?]]; tauto.
        + rewrite elem_of_app, list_elem_of_singleton in Hs.
          destruct Hs as [?| ->]; tauto.
      - rewrite reqs_of_with_reqs_ne in Hs by done. by left. }
    destruct Hprev as [Hprev|[-> ->]].
    + destruct (IH _ _ _ Hprev) as [?|(r & Hr & ->)]; [by left|].
      right. exists r. split; [|done]. rewrite elem_of_app. tauto.
    + right. exists r1. split; [|done].
      rewrite elem_of_app, list_elem_of_singleton. tauto.
Qed.

Lemma elem_of_host_run_pairs (l : list string) (t : env) (r : string) :
  (t, r) ∈ flat_map (fun r0 => [(Host, r0); (Run, r0)]) l
  ↔ r ∈ l ∧ (t = Host ∨ t = Run).
Proof.
  induction l as [|x l IH]; simpl.
  - split; [by intros ?%not_elem_of_nil|by intros [?%not_elem_of_nil _]].
  - rewrite !elem_of_cons, IH. split.
    + intros [[= -> ->]|[[= -> ->]|[? ?]]]; auto.
    + intros [[->|?] [-> | ->]]; auto.
Qed.

Lemma elem_of_pair_map (e : env) (l : list string) (t : env) (r : string) :
  (t, r) ∈ map (pair e) l ↔ r ∈ l ∧ t = e.
Proof.
  rewrite list_elem_of_fmap. split.
  - by intros (x & [= -> ->] & Hx).
  - intros [Hr ->]. by exists r.
Qed.

(** The loops of the code visit exactly the targets the rules name. *)
Lemma due_routes e b rex t r : due e b rex t r ↔ (t, r) ∈ routes e b rex.
Proof.
  unfold due, routes.
  destruct e, b;
    rewrite ?elem_of_app, ?elem_of_host_run_pairs, ?elem_of_pair_map;
    try (split; [done|by intros ?%not_elem_of_nil]);
    tauto.
Qed.

Lemma due_flat_map e b (collected : list (RunExports.t string)) t r :
  (t, r) ∈ flat_map (routes e b) collected
  ↔ ∃ rex, rex ∈ collected ∧ due e b rex t r.
Proof.
  rewrite list_elem_of_In, in_flat_map.
  setoid_rewrite <- list_elem_of_In. by setoid_rewrite due_routes.
Qed.

Section PropagatorFacts.

Variable apply_pin_expressions : string -> gmap string string -> string.
Variable read_run_exports : string -> string -> option (RunExports.t string).

Local Abbreviation collect_one := (collect_one apply_pin_expressions read_run_exports).
Local Abbreviation collect := (collect apply_pin_expressions read_run_exports).
Local Abbreviation propagate_run_exports :=
  (propagate_run_exports apply_pin_expressions read_run_exports).

(** The collecting loop never raises: the triplet is read only from a Spec
    that has a final version. *)
Lemma collect_one_total o pc s : ∃ s' c, collect_one o pc s = Ok (s', c).
Proof.
  unfold collect_one, Spec.has_final_version, Spec.final_triplet.
  destruct (Spec.is_transitive_dependency s); [by eauto|].
  case_bool_decide; [by eauto|].
  destruct (Spec.final_version s) as [[v b]|]; [|by eauto]. simpl.
  destruct (pin_run_as_build o !! _); [by eauto|].
  destruct (read_run_exports _ _); by eauto.
Qed.

Lemma collect_total o pc l : ∃ specs c, collect o pc l = Ok (specs, c).
Proof.
  induction l as [|s l (specs & c & IH)]; [by eexists _, _|].
  destruct (collect_one_total o pc s) as (s' & c' & Hs).
  exists (s' :: specs), (c' ++ c). simpl. rewrite Hs. simpl.
  by rewrite IH.
Qed.

Lemma collect_app o pc l1 l2 s1 c1 s2 c2 :
  collect o pc l1 = Ok (s1, c1) →
  collect o pc l2 = Ok (s2, c2) →
  collect o pc (l1 ++ l2) = Ok (s1 ++ s2, c1 ++ c2).
Proof.
  revert s1 c1. induction l1 as [|x l1 IH]; intros s1 c1 H1 H2.
  - by simplify_eq/=.
  - simpl in *.
    destruct (collect_one o pc x) as [[x' cx]|]; [|done]. simpl in *.
    destruct (collect o pc l1) as [[l1' cl]|] eqn:E; [|done]. simpl in *.
    simplify_eq/=. rewrite (IH _ _ eq_refl H2). simpl.
    by rewrite app_assoc.
Qed.

Lemma propagate_routed e pc o specs collected :
  collect o pc (reqs_of e o) = Ok (specs, collected) →
  propagate_run_exports e pc o
  = Ok (insert_routed (flat_map (routes e (noarch o)) collected)
          (with_reqs e specs o)).
Proof.
  intros Hc. unfold propagate_run_exports. rewrite Hc. simpl.
  destruct e; simpl.
  - by rewrite fold_propagate_build_routed.
  - by rewrite fold_propagate_host_routed.
  - by rewrite flat_map_routes_nil.
  - by rewrite flat_map_routes_nil.
Qed.

(** C2.  Propagation from the solved environment [e] routes every
    collected export by environment and noarch flag.  Each export that the
    rules make due in an environment is in that environment's list
    afterwards, flagged [from_run_export]: the export itself, or a due
    export of the same package that was inserted after it.  Conversely
    every entry of a list afterwards was there before or is an export due
    in that environment, so that nothing reaches an environment the rules
    do not name.  The insertions are made record by record in the order of
    [routes]; for a noarch Output the build environment inserts nothing
    at all. *)
Theorem propagate_run_exports_routes (e : env) (pc : string) (o : Output) :
  ∃ specs collected o',
    collect o pc (reqs_of e o) = Ok (specs, collected) ∧
    propagate_run_exports e pc o = Ok o' ∧
    o' = insert_routed (flat_map (routes e (noarch o)) collected)
           (with_reqs e specs o) ∧
    (∀ rex t r, rex ∈ collected → due e (noarch o) rex t r →
       ∃ rex' r', rex' ∈ collected ∧ due e (noarch o) rex' t r' ∧
         Spec.name (export_spec r') = Spec.name (export_spec r) ∧
         export_spec r' ∈ reqs_of t o' ∧
         Spec.from_run_export (export_spec r') = true) ∧
    (∀ t s, s ∈ reqs_of t o' →
       s ∈ reqs_of t (with_reqs e specs o)
       ∨ ∃ rex r, rex ∈ collected ∧ due e (noarch o) rex t r ∧
                  s = export_spec r) ∧
    (noarch o = true → e = Build →
       o' = with_reqs e specs o ∧
       ∀ e', e' ≠ Build → reqs_of e' o' = reqs_of e' o).
Proof.
  destruct (collect_total o pc (reqs_of e o)) as (specs & collected & Hc).
  exists specs, collected. eexists. split; [done|].
  split; [by apply propagate_routed|]. split; [done|].
  split; [|split].
  - intros rex t r Hrex Hdue.
    destruct (insert_routed_lands
                (flat_map (routes e (noarch o)) collected)
                (with_reqs e specs o) t r) as (r' & Hr' & Hname & Hel).
    { apply due_flat_map. by exists rex. }
    apply due_flat_map in Hr' as (rex' & Hrex' & Hdue').
    by exists rex', r'.
  - intros t s Hs.
    destruct (insert_routed_only _ _ _ _ Hs) as [?|(r & Hr & ->)];
      [by left|].
    apply due_flat_map in Hr as (rex & Hrex & Hdue).
    right. by exists rex, r.
  - intros Hn ->. rewrite Hn, flat_map_routes_nil by done.
    split; [done|].
    intros e' Hne. by apply reqs_of_with_reqs_ne.
Qed.

(** C10.  Propagation never raises, and a Spec of the solved environment
    that is neither transitive nor ignored and has no final version is
    skipped: it is left as it is, contributes no export, and the Specs
    before and after it are processed as if it were not there. *)
Theorem propagate_skips_unresolved (e : env) (pc : string) (o : Output)
    (l1 l2 : list Spec.t) (s : Spec.t) :
  Spec.is_transitive_dependency s = false →
  Spec.name s ∉ ignore_run_exports o →
  Spec.final_version s = None →
  reqs_of e o = l1 ++ s :: l2 →
  ∃ s1 c1 s2 c2 o',
    collect o pc l1 = Ok (s1, c1) ∧
    collect o pc l2 = Ok (s2, c2) ∧
    collect_one o pc s = Ok (s, []) ∧
    collect o pc (reqs_of e o) = Ok (s1 ++ s :: s2, c1 ++ c2) ∧
    propagate_run_exports e pc o = Ok o' ∧
    o' = insert_routed (flat_map (routes e (noarch o)) (c1 ++ c2))
           (with_reqs e (s1 ++ s :: s2) o).
Proof.
  intros Ht Hi Hv Hl.
  destruct (collect_total o pc l1) as (s1 & c1 & H1).
  destruct (collect_total o pc l2) as (s2 & c2 & H2).
  assert (Hs : collect_one o pc s = Ok (s, [])).
  { unfold collect_one, Spec.has_final_version.
    rewrite Ht, Hv. by case_bool_decide. }
  assert (Hc : collect o pc (reqs_of e o) = Ok (s1 ++ s :: s2, c1 ++ c2)).
  { rewrite Hl. apply collect_app; [done|]. simpl. rewrite Hs. simpl.
    by rewrite H2. }
  eexists s1, c1, s2, c2, _. do 4 (split; [done|]).
  split; [by apply propagate_routed|done].
Qed.

End PropagatorFacts.

Lemma propagate_run_exports_routes_witness :
  ∃ o',
    propagate_run_exports Sample.no_pin_expressions
      (Sample.store_of SampleC2.rex) Build "cache" SampleC2.o0 = Ok o' ∧
    export_spec "libstrong >=1" ∈ reqs_of Host o' ∧
    export_spec "libstrong >=1" ∈ reqs_of Run o' ∧
    export_spec "libweak" ∈ reqs_of Host o' ∧
    export_spec "libsc <2" ∈ reqs_of RunConstrained o' ∧
    (∀ s, s ∈ reqs_of Run o' → s = export_spec "libstrong >=1").
Proof.
  destruct (propagate_run_exports_routes Sample.no_pin_expressions
              (Sample.store_of SampleC2.rex) Build "cache" SampleC2.o0)
    as (specs & collected & o' & Hc & Hp & _ & Hland & Honly & _).
  vm_compute in Hc. injection Hc as <- <-.
  assert (Hone : ∀ rex', rex' ∈ [SampleC2.rex] → rex' = SampleC2.rex).
  { intros rex' Hin. by apply list_elem_of_singleton in Hin. }
  assert (Hdue : ∀ t r, due Build false SampleC2.rex t r →
            (r = "libstrong >=1" ∧ (t = Host ∨ t = Run))
            ∨ (r = "libweak" ∧ t = Host)
            ∨ (r = "libsc <2" ∧ t = RunConstrained)).
  { intros t r H. unfold due in H. simpl in H.
    rewrite !list_elem_of_singleton in H. exact H. }
  assert (Hin : ∀ t r, due Build false SampleC2.rex t r →
            export_spec r ∈ reqs_of t o').
  { intros t r Hd.
    destruct (Hland SampleC2.rex t r) as (rex' & r' & Hrex' & Hd' & Hn & Hel & _);
      [apply list_elem_of_here|exact Hd|].
    apply Hone in Hrex' as ->.
    apply Hdue in Hd as [[-> Ht]|[[-> Ht]|[-> Ht]]];
      apply Hdue in Hd' as [[-> Ht']|[[-> Ht']|[-> Ht']]];
      try exact Hel; vm_compute in Hn; discriminate Hn. }
  exists o'. split; [exact Hp|].
  split; [apply Hin; unfold due; simpl; left;
          split; [apply list_elem_of_here|by left]|].
  split; [apply Hin; unfold due; simpl; left;
          split; [apply list_elem_of_here|by right]|].
  split; [apply Hin; unfold due; simpl; right; left;
          split; [apply list_elem_of_here|done]|].
  split; [apply Hin; unfold due; simpl; right; right;
          split; [apply list_elem_of_here|done]|].
  intros s Hs. destruct (Honly Run s Hs) as [Hold|(rex' & r & Hrex' & Hd & ->)].
  - vm_compute in Hold. by apply not_elem_of_nil in Hold.
  - apply Hone in Hrex' as ->.
    apply Hdue in Hd as [[-> _]|[[_ Ht]|[_ Ht]]];
      [done|discriminate Ht|discriminate Ht].
Defined.

Lemma propagate_skips_unresolved_witness :
  ∃ s1 c1 s2 c2 o',
    collect Sample.no_pin_expressions (Sample.store_of SampleC10.rex)
      SampleC10.o0 "cache" [] = Ok (s1, c1) ∧
    collect Sample.no_pin_expressions (Sample.store_of SampleC10.rex)
      SampleC10.o0 "cache" [SampleC10.bound] = Ok (s2, c2) ∧
    collect_one Sample.no_pin_expressions (Sample.store_of SampleC10.rex)
      SampleC10.o0 "cache" SampleC10.unbound = Ok (SampleC10.unbound, []) ∧
    collect Sample.no_pin_expressions (Sample.store_of SampleC10.rex)
      SampleC10.o0 "cache" (reqs_of Host SampleC10.o0)
      = Ok (s1 ++ SampleC10.unbound :: s2, c1 ++ c2) ∧
    propagate_run_exports Sample.no_pin_expressions
      (Sample.store_of SampleC10.rex) Host "cache" SampleC10.o0 = Ok o' ∧
    o' = insert_routed
           (flat_map (routes Host (noarch SampleC10.o0)) (c1 ++ c2))
           (with_reqs Host (s1 ++ SampleC10.unbound :: s2) SampleC10.o0).
Proof.
  apply (propagate_skips_unresolved Sample.no_pin_expressions
           (Sample.store_of SampleC10.rex) Host "cache" SampleC10.o0
           [] [SampleC10.bound] SampleC10.unbound).
  - reflexivity.
  - apply not_elem_of_nil.
  - reflexivity.
  - reflexivity.
Defined.

(** ** The Output's own run exports *)

(** C3, at the failing input.  For the Output [foo-static] that declares
    the weak exports [foo] and [bar >=1], finalization empties the whole
    weak list: the export on [bar] is dropped together with the self
    export, and no run export is written to the raw record. *)
Theorem static_self_export_clears_list :
  ∃ o', set_final_build_id SampleC3.no_pins "h_0" [] SampleC3.o0 = Ok o' ∧
        RunExports.weak (run_exports o') = [] ∧
        data_build_run_exports o' = None.
Proof. eexists. split; [vm_compute; reflexivity|]. by split. Qed.

(** ** Variant application *)

Lemma pin_loop_map v rs pre :
  pin_loop v (length pre) rs (pre ++ rs) = pre ++ fmap (pin_entry v) rs.
Proof.
  revert pre. induction rs as [|r rs IH]; intros pre; [done|].
  simpl. unfold pin_entry at 1.
  destruct (v !! PyStr.dash_to_underscore (Spec.name r)) as [x|].
  - replace (length pre) with (length pre + 0) at 2 by lia.
    rewrite insert_app_r. simpl.
    specialize (IH (pre ++ [pinned_spec r x])).
    rewrite length_app, <- app_assoc in IH. simpl in IH.
    rewrite Nat.add_1_r in IH. rewrite IH. by rewrite <- app_assoc.
  - specialize (IH (pre ++ [r])).
    rewrite length_app, <- app_assoc in IH. simpl in IH.
    rewrite Nat.add_1_r in IH. rewrite IH. by rewrite <- app_assoc.
Qed.

Lemma pin_loop_all v l : pin_loop v 0 l l = fmap (pin_entry v) l.
Proof. apply (pin_loop_map v l []). Qed.

Section VariantFacts.

Variable native_compiler : string -> Config -> string.
Variable get_or_merge_config : Config -> gmap string string -> Config.

Local Abbreviation compiler_final := (compiler_final native_compiler).
Local Abbreviation compiler_loop := (compiler_loop native_compiler).
Local Abbreviation specialize :=
  (specialize native_compiler get_or_merge_config).
Local Abbreviation apply_variant :=
  (apply_variant native_compiler get_or_merge_config).

(** The compiler loop rewrites exactly the entries that stand at the index
    of a compiler Spec of the template. *)
Lemma compiler_loop_spec v cfg rs :
  ∀ i cl cl', compiler_loop v cfg i rs cl = Ok cl' →
    length cl' = length cl ∧
    (∀ k, k < i ∨ i + length rs ≤ k → cl' !! k = cl !! k) ∧
    (∀ j r, rs !! j = Some r →
       if PyStr.startswith (Spec.name r) COMPILER_
       then ∃ text, compiler_final v cfg r = Ok text ∧
              cl' !! (i + j) = inject text <$> cl !! (i + j)
       else cl' !! (i + j) = cl !! (i + j)).
Proof.
  induction rs as [|r rs IH]; intros i cl cl' H.
  - simpl in H. simplify_eq. repeat split; auto. intros j r Hj. done.
  - simpl in H.
    assert (∃ cl1, compiler_loop v cfg (S i) rs cl1 = Ok cl' ∧
              length cl1 = length cl ∧
              (∀ k, k ≠ i → cl1 !! k = cl !! k) ∧
              (if PyStr.startswith (Spec.name r) COMPILER_
               then ∃ text, compiler_final v cfg r = Ok text ∧
                      cl1 !! i = inject text <$> cl !! i
               else cl1 !! i = cl !! i)) as (cl1 & H1 & Hlen1 & Hne1 & Hi).
    { destruct (PyStr.startswith (Spec.name r) COMPILER_).
      - destruct (compiler_final v cfg r) as [text|]; [|done]. simpl in H.
        eexists. split; [exact H|]. split; [apply length_alter|].
        split; [intros k Hk; by apply list_lookup_alter_ne|].
        exists text. split; [done|]. apply list_lookup_alter_eq.
      - simpl in H. exists cl. by repeat split. }
    destruct (IH _ _ _ H1) as (Hlen & Hout & Hin).
    split; [congruence|]. split.
    + intros k Hk. simpl in Hk. rewrite Hout by lia. apply Hne1. lia.
    + intros [|j] r' Hj; simpl in Hj.
      * simplify_eq. rewrite Nat.add_0_r. rewrite Hout by lia.
        destruct (PyStr.startswith _ _); [|done].
        destruct Hi as (text & Ht & Hi). exists text. by split.
      * specialize (Hin j r' Hj).
        replace (i + S j) with (S i + j) by lia.
        rewrite <- (Hne1 (S i + j)) by lia. done.
Qed.

Lemma compiler_final_text v cfg r w tp :
  Spec.splitted r !! 1 = Some w →
  v !! "target_platform" = Some tp →
  compiler_final v cfg r
  = Ok (injected_text native_compiler v cfg (PyStr.lower w) tp).
Proof.
  intros Hw Htp. unfold compiler_final, injected_text.
  rewrite Hw. simpl. unfold variant_truthy, variant_item. rewrite Htp.
  destruct (v !! (PyStr.lower w +:+ "_compiler")) as [c|]; simpl;
    [destruct (PyStr.truthy c); simpl|];
    (destruct (v !! (PyStr.lower w +:+ "_compiler_version")) as [x|]; simpl;
     [destruct (PyStr.truthy x); simpl|]); done.
Qed.

Lemma compiler_final_total v cfg r tp :
  is_Some (Spec.splitted r !! 1) →
  v !! "target_platform" = Some tp →
  ∃ text, compiler_final v cfg r = Ok text.
Proof. intros [w Hw] Htp. eexists. by eapply compiler_final_text. Qed.

Lemma compiler_final_agree v1 v2 cfg r :
  PyStr.startswith (Spec.name r) COMPILER_ = true →
  agree_on (consulted_keys r) v1 v2 →
  compiler_final v1 cfg r = compiler_final v2 cfg r.
Proof.
  intros Hc Ha. unfold agree_on, consulted_keys in Ha. rewrite Hc in Ha.
  unfold compiler_final.
  destruct (Spec.splitted r !! 1) as [w|]; [|done]. simpl.
  inversion Ha as [|? ? _ Ha1]; subst.
  inversion Ha1 as [|? ? Hk1 Ha2]; subst.
  inversion Ha2 as [|? ? Hk2 Ha3]; subst.
  inversion Ha3 as [|? ? Hk3 _]; subst.
  unfold variant_truthy, variant_item. by rewrite Hk1, Hk2, Hk3.
Qed.

Lemma pin_entry_agree v1 v2 r :
  agree_on (consulted_keys r) v1 v2 → pin_entry v1 r = pin_entry v2 r.
Proof.
  intros Ha. inversion Ha as [|? ? Hk _]; subst.
  unfold pin_entry. by rewrite Hk.
Qed.

Lemma compiler_loop_total v cfg tp rs :
  v !! "target_platform" = Some tp →
  Forall (fun r => PyStr.startswith (Spec.name r) COMPILER_ = true →
                   is_Some (Spec.splitted r !! 1%nat)) rs →
  ∀ i cl, ∃ cl', compiler_loop v cfg i rs cl = Ok cl'.
Proof.
  intros Htp Hall. induction Hall as [|r rs Hr _ IH]; intros i cl.
  - by eexists.
  - simpl. destruct (PyStr.startswith (Spec.name r) COMPILER_) eqn:E.
    + destruct (compiler_final_total v cfg r tp (Hr eq_refl) Htp) as [t ->].
      simpl. apply IH.
    + simpl. apply IH.
Qed.

Lemma check_host_Ok rs :
  check_host rs = Ok tt ↔
  Forall (fun r => PyStr.startswith (Spec.name r) COMPILER_ = false) rs.
Proof.
  induction rs as [|r rs IH]; simpl.
  - split; [constructor|done].
  - destruct (PyStr.startswith (Spec.name r) COMPILER_) eqn:E.
    + split; [done|]. intros H. inversion H. congruence.
    + rewrite IH. split; [by constructor|]. intros H. by inversion H.
Qed.

Lemma check_host_Raise rs :
  Exists (fun r => PyStr.startswith (Spec.name r) COMPILER_ = true) rs →
  check_host rs = Raise (RuntimeError "Compiler should be in build section").
Proof.
  induction 1 as [r rs Hr|r rs _ IH]; simpl.
  - by rewrite Hr.
  - by destruct (PyStr.startswith (Spec.name r) COMPILER_).
Qed.

Lemma lookup_all_total v ks :
  Forall (fun k => is_Some (v !! k)) ks → ∃ dv, lookup_all v ks = Ok dv.
Proof.
  induction 1 as [|k ks [x Hx] _ [dv IH]]; simpl; [by eexists|].
  rewrite Hx, IH. by eexists.
Qed.

(** [specialize], with the pinning loops folded into [pin_entry]. *)
Lemma specialize_unfold this v keys :
  specialize this v keys this =
  cl ← compiler_loop v (config this) 0 (reqs_of Build this)
         (fmap (pin_entry v) (reqs_of Build this));
  _ ← check_host (reqs_of Host this);
  dv ← lookup_all v keys;
  Ok (specialized (get_or_merge_config (config this) v) v keys cl dv this).
Proof.
  unfold specialize, specialized. cbv zeta.
  assert (Hb : ∀ l, reqs_of Build (with_reqs Host l
                 (with_reqs Build (pin_loop v 0 (reqs_of Build this)
                    (reqs_of Build (set_variant (Some v) this)))
                    (set_variant (Some v) this)))
               = fmap (pin_entry v) (reqs_of Build this)).
  { intros l. rewrite reqs_of_with_reqs_ne by done.
    rewrite reqs_of_with_reqs. apply pin_loop_all. }
  rewrite Hb.
  assert (Hh : reqs_of Host (with_reqs Build
                 (pin_loop v 0 (reqs_of Build this)
                    (reqs_of Build (set_variant (Some v) this)))
                 (set_variant (Some v) this)) = reqs_of Host this).
  { by rewrite reqs_of_with_reqs_ne. }
  rewrite Hh, pin_loop_all.
  destruct (compiler_loop _ _ _ _ _) as [cl|]; [|done]. simpl.
  destruct (check_host _) as [[]|]; [|done]. simpl.
  destruct (lookup_all v keys) as [dv|]; [|done]. simpl.
  reflexivity.
Qed.


Lemma reqs_of_specialized_build merged v keys cl dv this :
  reqs_of Build (specialized merged v keys cl dv this) = cl.
Proof. done. Qed.

Lemma reqs_of_specialized_host merged v keys cl dv this :
  reqs_of Host (specialized merged v keys cl dv this)
  = pin_entry v <$> reqs_of Host this.
Proof. done. Qed.

(** What a successful [apply_variant] leaves in the store. *)
Lemma apply_variant_Ok self v keys σ this cl dv :
  σ !! self = Some this →
  compiler_loop v (config this) 0 (reqs_of Build this)
    (fmap (pin_entry v) (reqs_of Build this)) = Ok cl →
  check_host (reqs_of Host this) = Ok tt →
  lookup_all v keys = Ok dv →
  apply_variant self v keys σ
  = (Ok (length σ),
     σ ++ [specialized (get_or_merge_config (config this) v) v keys cl dv this]).
Proof.
  intros Hs Hcl Hh Hdv. unfold apply_variant. rewrite Hs.
  rewrite specialize_unfold, Hcl. unfold mbind, Res_bind.
  rewrite Hh, Hdv. f_equal.
  replace (length σ) with (length σ + 0) by lia.
  by rewrite insert_app_r.
Qed.

Lemma apply_variant_inv self v keys σ c σ' :
  apply_variant self v keys σ = (Ok c, σ') →
  ∃ this cl dv,
    σ !! self = Some this ∧
    compiler_loop v (config this) 0 (reqs_of Build this)
      (fmap (pin_entry v) (reqs_of Build this)) = Ok cl ∧
    check_host (reqs_of Host this) = Ok tt ∧
    lookup_all v keys = Ok dv ∧
    c = length σ ∧
    σ' = σ ++ [specialized (get_or_merge_config (config this) v) v keys cl dv this].
Proof.
  intros H. destruct (σ !! self) as [this|] eqn:Hs.
  - destruct (compiler_loop v (config this) 0 (reqs_of Build this)
                (fmap (pin_entry v) (reqs_of Build this))) as [cl|] eqn:Hcl.
    + destruct (check_host (reqs_of Host this)) as [[]|] eqn:Hh.
      * destruct (lookup_all v keys) as [dv|] eqn:Hdv.
        -- rewrite (apply_variant_Ok _ _ _ _ _ _ _ Hs Hcl Hh Hdv) in H.
           simplify_eq. by exists this, cl, dv.
        -- unfold apply_variant in H. rewrite Hs in H.
           rewrite specialize_unfold, Hcl in H. unfold mbind, Res_bind in H.
           rewrite Hh, Hdv in H. by simplify_eq.
      * unfold apply_variant in H. rewrite Hs in H.
        rewrite specialize_unfold, Hcl in H. unfold mbind, Res_bind in H.
        rewrite Hh in H. by simplify_eq.
    + unfold apply_variant in H. rewrite Hs in H.
      rewrite specialize_unfold, Hcl in H. by simplify_eq.
  - unfold apply_variant in H. rewrite Hs in H. by simplify_eq.
Qed.

(** Every cell that existed before the call is left as it was, whether
    the call returns or raises. *)
Lemma apply_variant_frame self v keys σ l :
  l < length σ → snd (apply_variant self v keys σ) !! l = σ !! l.
Proof.
  intros Hl. unfold apply_variant.
  destruct (σ !! self) as [this|]; [|done].
  destruct (specialize this v keys this); simpl.
  - rewrite list_lookup_insert_ne by lia. by apply lookup_app_l.
  - by apply lookup_app_l.
Qed.

Lemma apply_variant_grows self v keys σ :
  length σ ≤ length (snd (apply_variant self v keys σ)).
Proof.
  unfold apply_variant.
  destruct (σ !! self) as [this|]; [|done].
  destruct (specialize this v keys this); simpl;
    rewrite ?length_insert, length_app; lia.
Qed.

(** C8.  A Spec whose name starts with [COMPILER_] in the template's host
    list makes [apply_variant] raise, for every variant and every choice of
    differentiating keys: no copy is returned and no cell of the store,
    the template included, is changed.  When the compiler loop over the
    build list goes through, the exception is the configuration error
    "Compiler should be in build section". *)
Theorem compiler_in_host_is_fatal (σ : store) (self : nat) (this : Output)
    (v : gmap string string) (keys : list string) :
  σ !! self = Some this →
  Exists (fun r => PyStr.startswith (Spec.name r) COMPILER_ = true)
         (reqs_of Host this) →
  ∃ e σ',
    apply_variant self v keys σ = (Raise e, σ') ∧
    (∀ l, l < length σ → σ' !! l = σ !! l) ∧
    (is_Ok (compiler_loop v (config this) 0 (reqs_of Build this)
              (fmap (pin_entry v) (reqs_of Build this))) = true →
     e = RuntimeError "Compiler should be in build section").
Proof.
  intros Hs Hex.
  pose proof (apply_variant_frame self v keys σ) as Hframe.
  unfold apply_variant in *. rewrite Hs in *.
  rewrite specialize_unfold in *. unfold mbind, Res_bind in *.
  rewrite (check_host_Raise _ Hex) in *.
  destruct (compiler_loop _ _ _ _ _) as [cl|e]; simpl in *.
  - eexists _, _. split; [done|]. split; [exact Hframe|done].
  - eexists _, _. split; [done|]. split; [exact Hframe|done].
Qed.

(** C9.  For a template whose build list holds, at [idx], a Spec with the
    [COMPILER_] prefix and the language word [w], variant application
    returns a copy whose entry at [idx] is flagged [from_pinnings] and has
    for final constraint the compiler package of the variant, or else the
    native default, suffixed with the target platform, followed by the
    pinned compiler version as a wildcard when there is one.  For
    language [c] this gives [gcc_linux-64] under the variant
    [{c_compiler: gcc, target_platform: linux-64}] and [gcc_linux-64 11*]
    when [c_compiler_version: 11] is added. *)
Theorem compiler_injection (σ : store) (self : nat) (this : Output)
    (v : gmap string string) (keys : list string) (idx : nat) (r : Spec.t)
    (w tp : string) :
  σ !! self = Some this →
  reqs_of Build this !! idx = Some r →
  PyStr.startswith (Spec.name r) COMPILER_ = true →
  Spec.splitted r !! 1 = Some w →
  v !! "target_platform" = Some tp →
  Forall (fun x => PyStr.startswith (Spec.name x) COMPILER_ = true →
                   is_Some (Spec.splitted x !! 1)) (reqs_of Build this) →
  Forall (fun x => PyStr.startswith (Spec.name x) COMPILER_ = false)
         (reqs_of Host this) →
  Forall (fun k => is_Some (v !! k)) keys →
  ∃ copied x,
    apply_variant self v keys σ = (Ok (length σ), σ ++ [copied]) ∧
    reqs_of Build copied !! idx = Some x ∧
    Spec.from_pinnings x = true ∧
    Spec.final x = injected_text native_compiler v (config this) (PyStr.lower w) tp ∧
    (∀ c, v !! (PyStr.lower w +:+ "_compiler") = Some c → c ≠ "" →
          v !! (PyStr.lower w +:+ "_compiler_version") = None →
          Spec.final x = c +:+ "_" +:+ tp) ∧
    (∀ c n, v !! (PyStr.lower w +:+ "_compiler") = Some c → c ≠ "" →
            v !! (PyStr.lower w +:+ "_compiler_version") = Some n → n ≠ "" →
            Spec.final x = (c +:+ "_" +:+ tp) +:+ " " +:+ n +:+ "*") ∧
    (v !! (PyStr.lower w +:+ "_compiler") = None →
     v !! (PyStr.lower w +:+ "_compiler_version") = None →
     Spec.final x = native_compiler (PyStr.lower w) (config this) +:+ "_" +:+ tp) ∧
    (PyStr.lower w = "c" → v = SampleC9.gcc → Spec.final x = "gcc_linux-64") ∧
    (PyStr.lower w = "c" → v = SampleC9.gcc11 → Spec.final x = "gcc_linux-64 11*").
Proof.
  intros Hs Hidx Hc Hw Htp Hbuild Hhost Hkeys.
  destruct (compiler_loop_total v (config this) tp _ Htp Hbuild 0
              (fmap (pin_entry v) (reqs_of Build this))) as [cl Hcl].
  destruct (lookup_all_total v keys Hkeys) as [dv Hdv].
  apply check_host_Ok in Hhost.
  destruct (compiler_loop_spec _ _ _ _ _ _ Hcl) as (_ & _ & Hin).
  specialize (Hin idx r Hidx). rewrite Hc in Hin.
  destruct Hin as (text & Htext & Hx). change (0 + idx) with idx in Hx.
  rewrite list_lookup_fmap, Hidx in Hx. simpl in Hx.
  rewrite (compiler_final_text _ _ _ _ _ Hw Htp) in Htext. simplify_eq.
  eexists _, _. split; [by apply apply_variant_Ok|].
  split. { unfold specialized. cbn. exact Hx. }
  split; [done|]. split; [done|].
  cbn [inject Spec.final Spec.set_from_pinnings Spec.set_final].
  unfold injected_text, variant_truthy.
  repeat split.
  - intros c E1 Hne E2. rewrite E1, E2. destruct c; simpl; congruence.
  - intros c n E1 Hne E2 Hn. rewrite E1, E2.
    destruct c, n; simpl; congruence.
  - intros E1 E2. by rewrite E1, E2.
  - intros Hl Hv. rewrite Hl. subst v. vm_compute in Htp.
    injection Htp as <-. by vm_compute.
  - intros Hl Hv. rewrite Hl. subst v. vm_compute in Htp.
    injection Htp as <-. by vm_compute.
Qed.

(** C7.  [apply_variant] leaves every cell of the store as it was, so the
    template is untouched by two calls in a row.  The two copies are new
    cells; each keeps the template's attributes other than the variant,
    the configuration, the differentiating keys and values and the build
    and host entries; and a build or host entry is the same in both copies
    whenever the two variants agree on the keys consulted for the
    template's entry at that index. *)
Theorem apply_variant_isolation (σ : store) (self : nat)
    (v1 v2 : gmap string string) (keys1 keys2 : list string) :
  let r1 := apply_variant self v1 keys1 σ in
  let r2 := apply_variant self v2 keys2 (snd r1) in
  (∀ l, l < length σ → snd r1 !! l = σ !! l ∧ snd r2 !! l = σ !! l) ∧
  (∀ this c1 c2,
     σ !! self = Some this → fst r1 = Ok c1 → fst r2 = Ok c2 →
     ∃ o1 o2,
       snd r2 !! c1 = Some o1 ∧ snd r2 !! c2 = Some o2 ∧
       length σ ≤ c1 ∧ c1 < c2 ∧
       same_unspecialized this o1 ∧ same_unspecialized this o2 ∧
       variant o1 = Some v1 ∧ variant o2 = Some v2 ∧
       (∀ e idx r, e = Build ∨ e = Host →
          reqs_of e this !! idx = Some r →
          agree_on (consulted_keys r) v1 v2 →
          reqs_of e o1 !! idx = reqs_of e o2 !! idx) ∧
       (v1 = v2 → keys1 = keys2 → o1 = o2)).
Proof.
  intros r1 r2. split.
  - intros l Hl. subst r1 r2. split.
    + by apply apply_variant_frame.
    + rewrite apply_variant_frame.
      * by apply apply_variant_frame.
      * pose proof (apply_variant_grows self v1 keys1 σ). lia.
  - intros this c1 c2 Hs H1 H2. subst r1 r2.
    destruct (apply_variant self v1 keys1 σ) as [x1 σ1] eqn:E1.
    cbn [fst snd] in *. subst x1.
    destruct (apply_variant_inv _ _ _ _ _ _ E1)
      as (this1 & cl1 & dv1 & Hs1 & Hcl1 & Hh1 & Hdv1 & -> & ->).
    assert (this1 = this) as -> by congruence.
    destruct (apply_variant self v2 keys2 _) as [x2 σ2] eqn:E2.
    cbn [fst snd] in *. subst x2.
    destruct (apply_variant_inv _ _ _ _ _ _ E2)
      as (this2 & cl2 & dv2 & Hs2 & Hcl2 & Hh2 & Hdv2 & -> & ->).
    rewrite lookup_app_l in Hs2 by (by eapply lookup_lt_Some).
    assert (this2 = this) as -> by congruence.
    destruct (compiler_loop_spec _ _ _ _ _ _ Hcl1) as (Hlen1 & _ & Hin1).
    destruct (compiler_loop_spec _ _ _ _ _ _ Hcl2) as (Hlen2 & _ & Hin2).
    rewrite length_fmap in Hlen1, Hlen2.
    eexists _, _. split.
    { rewrite lookup_app_l by (rewrite length_app; simpl; lia).
      rewrite lookup_app_r by lia. by rewrite Nat.sub_diag. }
    split.
    { rewrite lookup_app_r by lia. by rewrite Nat.sub_diag. }
    split; [lia|]. split; [rewrite length_app; simpl; lia|].
    split. { unfold same_unspecialized, specialized. cbn.
             rewrite length_fmap. by repeat split. }
    split. { unfold same_unspecialized, specialized. cbn.
             rewrite length_fmap. by repeat split. }
    split; [done|]. split; [done|]. split.
    + intros e idx r He Hr Ha. destruct He as [-> | ->].
      * rewrite !reqs_of_specialized_build.
        specialize (Hin1 idx r Hr). specialize (Hin2 idx r Hr).
        change (0 + idx) with idx in Hin1, Hin2.
        destruct (PyStr.startswith (Spec.name r) COMPILER_) eqn:Ec.
        -- destruct Hin1 as (t1 & Ht1 & Hx1).
           destruct Hin2 as (t2 & Ht2 & Hx2).
           rewrite list_lookup_fmap, Hr in Hx1, Hx2.
           rewrite Hx1, Hx2. simpl.
           rewrite (pin_entry_agree _ _ _ Ha).
           rewrite (compiler_final_agree _ _ _ _ Ec Ha) in Ht1. congruence.
        -- rewrite list_lookup_fmap, Hr in Hin1, Hin2.
           rewrite Hin1, Hin2. simpl.
           by rewrite (pin_entry_agree _ _ _ Ha).
      * rewrite !reqs_of_specialized_host, !list_lookup_fmap, Hr. simpl.
        by rewrite (pin_entry_agree _ _ _ Ha).
    + intros -> ->. congruence.
Qed.

End VariantFacts.

Lemma compiler_in_host_is_fatal_witness :
  ∃ e σ',
    apply_variant SampleC9.native SampleC9.merge 0 SampleC9.gcc []
      [SampleC9.misplaced] = (Raise e, σ') ∧
    (∀ l, l < length [SampleC9.misplaced] → σ' !! l = [SampleC9.misplaced] !! l) ∧
    (is_Ok (compiler_loop SampleC9.native SampleC9.gcc
              (config SampleC9.misplaced) 0 (reqs_of Build SampleC9.misplaced)
              (pin_entry SampleC9.gcc <$> reqs_of Build SampleC9.misplaced))
     = true →
     e = RuntimeError "Compiler should be in build section").
Proof.
  apply (compiler_in_host_is_fatal SampleC9.native SampleC9.merge
           [SampleC9.misplaced] 0 SampleC9.misplaced SampleC9.gcc []).
  - reflexivity.
  - constructor. reflexivity.
Defined.

Lemma compiler_injection_witness :
  ∃ copied x,
    apply_variant SampleC9.native SampleC9.merge 0 SampleC9.gcc11 []
      [SampleC9.A] = (Ok 1, [SampleC9.A; copied]) ∧
    reqs_of Build copied !! 0 = Some x ∧
    Spec.final x = "gcc_linux-64 11*".
Proof.
  destruct (compiler_injection SampleC9.native SampleC9.merge
              [SampleC9.A] 0 SampleC9.A SampleC9.gcc11 [] 0
              SampleC9.compiler_c "c" "linux-64")
    as (copied & x & Happ & Hx & _ & _ & _ & _ & _ & _ & Hfinal).
  - reflexivity.
  - reflexivity.
  - reflexivity.
  - reflexivity.
  - reflexivity.
  - constructor; [|constructor]. intros _. eexists. reflexivity.
  - constructor.
  - constructor.
  - exists copied, x. split; [exact Happ|]. split; [exact Hx|].
    apply Hfinal; reflexivity.
Defined.

(** ** The solve orchestrator *)

Lemma spec_map_from_Some specs :
  ∀ i m nm k, spec_map_from i specs m !! nm = Some k →
    (∃ j s, k = i + j ∧ specs !! j = Some s ∧ Spec.final_name s = nm ∧
       ∀ j' s', j < j' → specs !! j' = Some s' → Spec.final_name s' ≠ nm)
    ∨ (m !! nm = Some k ∧
       ∀ j' s', specs !! j' = Some s' → Spec.final_name s' ≠ nm).
Proof.
  induction specs as [|s specs IH]; intros i m nm k H; simpl in H.
  - right. split; [done|]. intros j' s' Hj. done.
  - destruct (IH _ _ _ _ H) as [(j & s1 & -> & Hj & Hn & Hlater)|[Hm Hnone]].
    + left. exists (S j), s1. split; [lia|]. split; [done|]. split; [done|].
      intros [|j'] s' Hlt Hs'; [lia|]. simpl in Hs'.
      apply (Hlater j' s'); [lia|done].
    + destruct (decide (Spec.final_name s = nm)) as [Heq|Hne].
      * subst nm. rewrite lookup_insert_eq in Hm. simplify_eq.
        left. exists 0, s. split; [lia|]. split; [done|]. split; [done|].
        intros [|j'] s' Hlt Hs'; [lia|]. simpl in Hs'. by eapply Hnone.
      * rewrite lookup_insert_ne in Hm by done. right. split; [done|].
        intros [|j'] s' Hs'; simpl in Hs'; [by simplify_eq|by eapply Hnone].
Qed.

Lemma spec_map_from_keeps specs :
  ∀ i m nm, is_Some (m !! nm) → is_Some (spec_map_from i specs m !! nm).
Proof.
  induction specs as [|s specs IH]; intros i m nm H; [done|].
  simpl. apply IH.
  destruct (decide (Spec.final_name s = nm)) as [->|Hne].
  - rewrite lookup_insert_eq. by eexists.
  - by rewrite lookup_insert_ne.
Qed.

Lemma spec_map_from_None specs :
  ∀ i m nm, spec_map_from i specs m !! nm = None →
    ∀ j s, specs !! j = Some s → Spec.final_name s ≠ nm.
Proof.
  induction specs as [|s specs IH]; intros i m nm H j s' Hj; [done|].
  simpl in H. destruct j as [|j]; simpl in Hj.
  - simplify_eq. intros <-.
    assert (Hs : is_Some (spec_map_from (S i) specs
               (<[Spec.final_name s' := i]> m) !! Spec.final_name s')).
    { apply spec_map_from_keeps. rewrite lookup_insert_eq. by eexists. }
    rewrite H in Hs. by destruct Hs.
  - by eapply IH.
Qed.

(** The dictionary refers, for the name of any Spec of the list, to the last
    Spec of that name. *)
Lemma make_spec_map_last specs i s :
  specs !! i = Some s →
  ∃ j s', make_spec_map specs !! Spec.final_name s = Some j ∧ i ≤ j ∧
          specs !! j = Some s' ∧ Spec.final_name s' = Spec.final_name s.
Proof.
  intros Hi. unfold make_spec_map.
  destruct (spec_map_from 0 specs ∅ !! Spec.final_name s) as [k|] eqn:E.
  - destruct (spec_map_from_Some _ _ _ _ _ E)
      as [(j & s' & -> & Hj & Hn & Hlater)|[Hm _]]; [|done].
    exists j, s'. simpl. repeat split; try done.
    destruct (decide (i ≤ j)) as [|Hlt]; [done|].
    exfalso. apply (Hlater i s); [lia|done|done].
  - exfalso. by eapply spec_map_from_None.
Qed.

Lemma make_spec_map_lt specs nm k :
  make_spec_map specs !! nm = Some k → k < length specs.
Proof.
  intros E. destruct (spec_map_from_Some _ _ _ _ _ E)
    as [(j & s' & -> & Hj & _)|[Hm _]]; [|done].
  simpl. by eapply lookup_lt_Some.
Qed.

Lemma bound_bind_resolved p s : bound (bind_resolved p s).
Proof. by eexists. Qed.

Lemma bound_transitive_spec p : bound (transitive_spec p).
Proof. by eexists. Qed.

(** One package of the install list: entries keep their place and their
    constraint text, a bound entry stays bound, the entry the dictionary
    names for the package is bound, and an entry put at the end is bound. *)
Lemma record_pkg_step m l p :
  (∀ nm k, m !! nm = Some k → k < length l) →
  let l' := record_pkg m l p in
  length l ≤ length l' ∧
  (∀ i s, l !! i = Some s →
     ∃ s', l' !! i = Some s' ∧ Spec.final s' = Spec.final s ∧
           (bound s → bound s')) ∧
  (∀ i s', length l ≤ i → l' !! i = Some s' → bound s') ∧
  (∀ i, m !! pkg_name p = Some i → ∃ s', l' !! i = Some s' ∧ bound s').
Proof.
  intros Hm l'. subst l'. unfold record_pkg.
  destruct (m !! pkg_name p) as [k|] eqn:E.
  - pose proof (Hm _ _ E) as Hk. rewrite length_alter.
    split; [done|]. split; [|split].
    + intros i s Hi. destruct (decide (k = i)) as [->|Hne].
      * rewrite list_lookup_alter_eq, Hi. simpl. eexists. split; [done|].
        split; [done|]. intros _. apply bound_bind_resolved.
      * rewrite list_lookup_alter_ne by done. by exists s.
    + intros i s' Hi Hs'. apply lookup_lt_Some in Hs'.
      rewrite length_alter in Hs'. lia.
    + intros i Hi. simplify_eq.
      destruct (lookup_lt_is_Some_2 l i Hk) as [s Hs].
      rewrite list_lookup_alter_eq, Hs. simpl. eexists. split; [done|].
      apply bound_bind_resolved.
  - rewrite length_app. simpl. split; [lia|]. split; [|split].
    + intros i s Hi. exists s. split; [|done]. by apply lookup_app_l_Some.
    + intros i s' Hi Hs'. rewrite lookup_app_r in Hs' by done.
      destruct (i - length l) as [|n]; simpl in Hs'; [|done].
      simplify_eq. apply bound_transitive_spec.
    + intros i Hi. done.
Qed.

Lemma record_pkgs_spec m pkgs :
  ∀ l, (∀ nm k, m !! nm = Some k → k < length l) →
    let l' := record_pkgs m pkgs l in
    length l ≤ length l' ∧
    (∀ i s, l !! i = Some s →
       ∃ s', l' !! i = Some s' ∧ Spec.final s' = Spec.final s ∧
             (bound s → bound s')) ∧
    (∀ i s', length l ≤ i → l' !! i = Some s' → bound s') ∧
    (∀ p i, p ∈ pkgs → m !! pkg_name p = Some i →
       ∃ s', l' !! i = Some s' ∧ bound s').
Proof.
  induction pkgs as [|p pkgs IH]; intros l Hm l'; subst l'.
  - simpl. split; [done|]. split; [|split].
    + intros i s Hi. by exists s.
    + intros i s' Hi Hs'. apply lookup_lt_Some in Hs'. lia.
    + intros p i Hp. by apply not_elem_of_nil in Hp.
  - unfold record_pkgs. simpl. fold (record_pkgs m pkgs (record_pkg m l p)).
    destruct (record_pkg_step m l p Hm) as (Hlen1 & Hkeep1 & Hnew1 & Hp1).
    assert (Hm1 : ∀ nm k, m !! nm = Some k → k < length (record_pkg m l p)).
    { intros nm k Hk. specialize (Hm _ _ Hk). lia. }
    destruct (IH _ Hm1) as (Hlen2 & Hkeep2 & Hnew2 & Hp2).
    split; [lia|]. split; [|split].
    + intros i s Hi.
      destruct (Hkeep1 _ _ Hi) as (s1 & Hs1 & Hf1 & Hb1).
      destruct (Hkeep2 _ _ Hs1) as (s2 & Hs2 & Hf2 & Hb2).
      exists s2. split; [done|]. split; [congruence|auto].
    + intros i s' Hi Hs'.
      destruct (decide (length (record_pkg m l p) ≤ i)) as [Hge|Hlt].
      * by eapply Hnew2.
      * destruct (lookup_lt_is_Some_2 (record_pkg m l p) i) as [s1 Hs1]; [lia|].
        destruct (Hkeep2 _ _ Hs1) as (s2 & Hs2 & _ & Hb2).
        assert (s2 = s') as -> by congruence.
        apply Hb2. by eapply Hnew1.
    + intros q i Hq Hi. apply elem_of_cons in Hq as [->|Hq].
      * destruct (Hp1 _ Hi) as (s1 & Hs1 & Hb1).
        destruct (Hkeep2 _ _ Hs1) as (s2 & Hs2 & _ & Hb2).
        exists s2. split; [done|auto].
      * by eapply Hp2.
Qed.

Lemma env_key_inj e e' : env_key e = env_key e' → e = e'.
Proof. by destruct e, e'. Qed.

Lemma final_name_of_final s s' :
  Spec.final s' = Spec.final s → Spec.final_name s' = Spec.final_name s.
Proof. unfold Spec.final_name. by intros ->. Qed.

Lemma routes_later e b rex t r : (t, r) ∈ routes e b rex → later e t.
Proof.
  intros H. apply list_elem_of_In in H. unfold routes in H.
  destruct e, b; simpl in H; try done;
    rewrite ?in_app_iff, ?in_map_iff, ?in_flat_map in H.
  - destruct H as [(x & _ & Hx)|[(x & Hx & _)|(x & Hx & _)]];
      [|by simplify_eq|by simplify_eq].
    simpl in Hx. destruct Hx as [Hx|[Hx|[]]]; by simplify_eq.
  - destruct H as (x & Hx & _). by simplify_eq.
  - destruct H as [(x & Hx & _)|[(x & Hx & _)|[(x & Hx & _)|(x & Hx & _)]]];
      by simplify_eq.
Qed.

Lemma later_ne e t : later e t → t ≠ e.
Proof. by destruct e, t. Qed.

Lemma transactions_insert_routed rs o :
  transactions (insert_routed rs o) = transactions o.
Proof.
  revert o. induction rs as [|r rs IH]; intros o; [done|].
  unfold insert_routed in *. simpl. by rewrite IH.
Qed.

Lemma reqs_of_insert_routed_ne e rs o :
  (∀ t r, (t, r) ∈ rs → t ≠ e) →
  reqs_of e (insert_routed rs o) = reqs_of e o.
Proof.
  revert o. induction rs as [|[t r] rs IH]; intros o H; [done|].
  unfold insert_routed in *. simpl. rewrite IH.
  - unfold append_or_replace. apply reqs_of_with_reqs_ne.
    intros ->. apply (H t r); [apply list_elem_of_here|done].
  - intros t' r' Hin. apply (H t' r'). by apply list_elem_of_further.
Qed.

Lemma insert_export_elems x l s :
  s ∈ insert_export x l → s ∈ l ∨ s = x.
Proof.
  destruct (insert_export_cases x l)
    as [(l1 & r & l2 & -> & _ & _ & ->)|[_ ->]].
  - rewrite !elem_of_app, !elem_of_cons. tauto.
  - rewrite elem_of_app, list_elem_of_singleton. tauto.
Qed.

Lemma insert_routed_elems e rs :
  ∀ o s, s ∈ reqs_of e (insert_routed rs o) →
    s ∈ reqs_of e o ∨ ∃ r, s = export_spec r.
Proof.
  induction rs as [|[t r] rs IH]; intros o s H; [by left|].
  unfold insert_routed in *. simpl in H.
  destruct (IH _ _ H) as [Hin|Hex]; [|by right].
  unfold append_or_replace in Hin. destruct (decide (t = e)) as [->|Hne].
  - rewrite reqs_of_with_reqs in Hin.
    apply insert_export_elems in Hin as [Hin| ->]; [by left|right; by eexists].
  - rewrite reqs_of_with_reqs_ne in Hin by done. by left.
Qed.

Lemma same_resolution_refl l : same_resolution l l.
Proof. unfold same_resolution. induction l; constructor; auto. Qed.

Lemma settled_ext e o o' :
  same_resolution (reqs_of e o) (reqs_of e o') →
  transactions o' !! env_key e = transactions o !! env_key e →
  settled e o → settled e o'.
Proof.
  intros Hsame Ht Hs i s' Hi.
  destruct (Forall2_lookup_r _ _ _ _ _ Hsame Hi) as (s & Hs0 & Hv & Hf).
  destruct (Hs i s Hs0) as [Hb|[(j & sj & Hlt & Hj & Hn)|(t & pc & Htr & Hn)]].
  - left. unfold bound in *. by rewrite Hv.
  - right. left.
    destruct (Forall2_lookup_l _ _ _ _ _ Hsame Hj) as (sj' & Hj' & _ & Hfj).
    exists j, sj'. split; [done|]. split; [done|].
    rewrite (final_name_of_final _ _ Hfj), (final_name_of_final _ _ Hf). done.
  - right. right. exists t, pc. rewrite Ht. split; [done|].
    by rewrite (final_name_of_final _ _ Hf).
Qed.

Lemma settled_nil e o : reqs_of e o = [] → settled e o.
Proof. intros H i s Hi. by rewrite H in Hi. Qed.

(** Binding the install list settles the environment. *)
Lemma settled_record e o specs t pc :
  reqs_of e o = record_pkgs (make_spec_map specs) (install_pkgs t) specs →
  transactions o !! env_key e = Some (t, pc) →
  settled e o.
Proof.
  intros Hl Ht i s Hi. rewrite Hl in Hi.
  destruct (record_pkgs_spec (make_spec_map specs) (install_pkgs t) specs
              (make_spec_map_lt specs))
    as (Hlen & Hkeep & Hnew & Hpk).
  destruct (decide (length specs ≤ i)) as [Hge|Hlt].
  { left. by eapply Hnew. }
  destruct (lookup_lt_is_Some_2 specs i) as [s0 Hs0]; [lia|].
  destruct (Hkeep _ _ Hs0) as (s1 & Hs1 & Hf1 & _).
  assert (s1 = s) as -> by congruence.
  destruct (make_spec_map_last _ _ _ Hs0) as (j & sj & Hm & Hij & Hj & Hn).
  destruct (decide (i = j)) as [<-|Hne].
  - destruct (decide (Spec.final_name s0 ∈ pkg_name <$> install_pkgs t))
      as [Hin|Hnin].
    + left. apply list_elem_of_fmap in Hin as (p & Hp & Hin).
      rewrite Hp in Hm.
      destruct (Hpk p i Hin Hm) as (s2 & Hs2 & Hb). congruence.
    + right. right. exists t, pc. split; [done|].
      by rewrite (final_name_of_final _ _ Hf1).
  - right. left. destruct (Hkeep _ _ Hj) as (sj' & Hj' & Hfj & _).
    exists j, sj'. split; [lia|]. rewrite Hl. split; [done|].
    rewrite (final_name_of_final _ _ Hfj), (final_name_of_final _ _ Hf1).
    done.
Qed.

Section OrchestratorFacts.

Variable apply_pin_expressions : string -> gmap string string -> string.
Variable read_run_exports : string -> string -> option (RunExports.t string).
Variable solve : string -> string -> list string -> Res Transaction.
Variable pkg_cache_of : string -> string -> string.
Variable pin_subpackage_text : Spec.t -> Output -> string.
Variable pin_compatible_text : Spec.t -> string * string -> string.
Variable sys_version : string.

Local Abbreviation collect := (collect apply_pin_expressions read_run_exports).
Local Abbreviation propagate_run_exports :=
  (propagate_run_exports apply_pin_expressions read_run_exports).
Local Abbreviation _solve_env :=
  (_solve_env apply_pin_expressions read_run_exports solve pkg_cache_of
     pin_subpackage_text pin_compatible_text).
Local Abbreviation finalize_solve :=
  (finalize_solve apply_pin_expressions read_run_exports solve pkg_cache_of
     pin_subpackage_text pin_compatible_text sys_version).

(** The collecting loop rewrites nothing that resolution reads. *)
Lemma collect_same_resolution o pc l specs c :
  collect o pc l = Ok (specs, c) → same_resolution l specs.
Proof.
  revert specs c. induction l as [|s l IH]; intros specs c H; simpl in H.
  - simplify_eq. constructor.
  - destruct (collect_one apply_pin_expressions read_run_exports
                o pc s) as [[s1 c1]|] eqn:E1; [|done]. simpl in H.
    destruct (collect o pc l) as [[l1 c2]|] eqn:E2; [|done]. simpl in H.
    simplify_eq. constructor; [|by eapply IH].
    unfold collect_one in E1.
    destruct (Spec.is_transitive_dependency s); [by simplify_eq|].
    case_bool_decide; [by simplify_eq|].
    destruct (Spec.has_final_version s); [|by simplify_eq].
    destruct (Spec.final_triplet s); [|done]. simpl in E1.
    destruct (pin_run_as_build o !! _).
    + destruct (Spec.final_version s) eqn:Ev; by simplify_eq.
    + destruct (read_run_exports _ _); by simplify_eq.
Qed.

(** What a propagation does to each requirement list. *)
Lemma propagate_effect e pc o o' :
  propagate_run_exports e pc o = Ok o' →
  same_resolution (reqs_of e o) (reqs_of e o') ∧
  transactions o' = transactions o ∧
  (∀ t, t ≠ e → ¬ later e t → reqs_of t o' = reqs_of t o) ∧
  (∀ t s, t ≠ e → s ∈ reqs_of t o' →
     s ∈ reqs_of t o ∨ ∃ r, s = export_spec r).
Proof.
  intros H.
  destruct (collect_total apply_pin_expressions read_run_exports o pc
              (reqs_of e o)) as (specs & c & Hc).
  rewrite (propagate_routed _ _ _ _ _ _ _ Hc) in H. simplify_eq.
  assert (Hfr : ∀ t r, (t, r) ∈ flat_map (routes e (noarch o)) c → t ≠ e).
  { intros t r Hin. apply list_elem_of_In, in_flat_map in Hin
      as (rex & _ & Hin). apply list_elem_of_In in Hin.
    by eapply later_ne, routes_later. }
  split; [|split; [|split]].
  - rewrite reqs_of_insert_routed_ne by done. rewrite reqs_of_with_reqs.
    by eapply collect_same_resolution.
  - by rewrite transactions_insert_routed.
  - intros t Hne Hnl. rewrite reqs_of_insert_routed_ne.
    + by apply reqs_of_with_reqs_ne.
    + intros t' r Hin Heq. subst t'. apply Hnl.
      apply list_elem_of_In, in_flat_map in Hin as (rex & _ & Hin).
      apply list_elem_of_In in Hin. by eapply routes_later.
  - intros t s Hne Hin. apply insert_routed_elems in Hin as [Hin|Hex].
    + left. by rewrite reqs_of_with_reqs_ne in Hin.
    + by right.
Qed.

(** The two ways [_solve_env] returns: the list is empty and nothing
    happens, or the install list is recorded, the transaction stored and,
    for build and host, the exports propagated. *)
Lemma solve_env_cases e all o o' :
  _solve_env e all o = Ok o' →
  (reqs_of e o = [] ∧ o' = o) ∨
  ∃ specs t pc o1,
    reqs_of e o1 = record_pkgs (make_spec_map specs) (install_pkgs t) specs ∧
    transactions o1 = <[env_key e := (t, pc)]> (transactions o) ∧
    (∀ t', t' ≠ e → reqs_of t' o1 = reqs_of t' o) ∧
    match e with
    | Build | Host => propagate_run_exports e pc o1 = Ok o'
    | _ => o' = o1
    end.
Proof.
  intros H. unfold _solve_env in H.
  destruct (reqs_of e o) as [|s0 l0] eqn:El; [left; by simplify_eq|].
  right.
  destruct (for_each _ (s0 :: l0)) as [specs|]; [|done].
  cbn [mbind Res_bind] in H.
  destruct (data_requirements _) as [m|]; [|done].
  cbn [mbind Res_bind] in H.
  destruct (solve _ _ _) as [t|]; [|done].
  cbn [mbind Res_bind] in H.
  destruct (fetch_extract_packages t); [|done]. cbn [negb] in H.
  eexists specs, t, _, _.
  split; [|split; [|split; [|destruct e; first [exact H|by simplify_eq]]]].
  - by destruct e.
  - done.
  - intros t' Hne. by destruct e, t'.
Qed.

(** After [_solve_env e] the environment [e] is settled, the environments
    that receive no export from [e] are as before, and so are the
    transactions of the other environments. *)
Lemma solve_env_effect e all o o' :
  _solve_env e all o = Ok o' →
  settled e o' ∧
  (∀ t, t ≠ e → ¬ later e t → reqs_of t o' = reqs_of t o) ∧
  (∀ t, t ≠ e → transactions o' !! env_key t = transactions o !! env_key t) ∧
  (∀ t s, t ≠ e → s ∈ reqs_of t o' →
     s ∈ reqs_of t o ∨ ∃ r, s = export_spec r).
Proof.
  intros H.
  destruct (solve_env_cases _ _ _ _ H)
    as [[Hnil ->]|(specs & t & pc & o1 & Hl & Htr & Hother & Hrest)].
  { split; [by apply settled_nil|]. repeat split; auto. }
  assert (Hs1 : settled e o1).
  { eapply settled_record; [exact Hl|]. rewrite Htr.
    apply lookup_insert_eq. }
  assert (Ht1 : ∀ t', t' ≠ e →
            transactions o1 !! env_key t' = transactions o !! env_key t').
  { intros t' Hne. rewrite Htr. apply lookup_insert_ne.
    intros Heq. by apply env_key_inj in Heq. }
  assert (Hprop : ∀ pc', propagate_run_exports e pc' o1 = Ok o' →
            settled e o' ∧
            (∀ t, t ≠ e → ¬ later e t → reqs_of t o' = reqs_of t o) ∧
            (∀ t, t ≠ e →
               transactions o' !! env_key t = transactions o !! env_key t) ∧
            (∀ t s, t ≠ e → s ∈ reqs_of t o' →
               s ∈ reqs_of t o ∨ ∃ r, s = export_spec r)).
  { intros pc' Hp.
    destruct (propagate_effect _ _ _ _ Hp) as (Hsame & Htrans & Hfr & Hel).
    split; [|split; [|split]].
    - eapply settled_ext; [exact Hsame| |exact Hs1]. by rewrite Htrans.
    - intros t' Hne Hnl. rewrite Hfr by done. by apply Hother.
    - intros t' Hne. rewrite Htrans. by apply Ht1.
    - intros t' s Hne Hin. destruct (Hel _ _ Hne Hin) as [Hin1|Hex].
      + left. by rewrite <- Hother.
      + by right. }
  destruct e; try (by apply (Hprop pc)); subst o'.
  - split; [done|]. split; [|split]; intros; auto.
    left. by rewrite <- Hother.
  - split; [done|]. split; [|split]; intros; auto.
    left. by rewrite <- Hother.
Qed.

Lemma finalize_solve_inv all o o' :
  finalize_solve all o = Ok o' →
  ∃ oB oH oR,
    _solve_env Build all o = Ok oB ∧
    _solve_env Host all oB = Ok oH ∧
    _solve_env Run all oH = Ok oR ∧
    requirements o' = requirements oR ∧
    transactions o' = transactions oR.
Proof.
  intros H. unfold finalize_solve in H.
  destruct (_solve_env Build all o) as [oB|] eqn:EB; [|done].
  cbn [mbind Res_bind] in H.
  destruct (_solve_env Host all oB) as [oH|] eqn:EH; [|done].
  cbn [mbind Res_bind] in H.
  destruct (_solve_env Run all oH) as [oR|] eqn:ER; [|done].
  cbn [mbind Res_bind] in H.
  exists oB, oH, oR. do 3 (split; [done|]).
  destruct (match cfg_variant (config oR) !! "python" with
            | Some _ => _ | None => _ end) as [v|]; [|done].
  cbn [mbind Res_bind] in H. by simplify_eq.
Qed.

Lemma settled_same_state e o o' :
  requirements o' = requirements o →
  transactions o' = transactions o →
  settled e o → settled e o'.
Proof.
  intros Hr Ht. apply settled_ext.
  - unfold reqs_of. rewrite Hr. apply same_resolution_refl.
  - by rewrite Ht.
Qed.

(** C1 (amended).  When [finalize_solve] returns, each of build, host and
    run is settled: every Spec of the list is bound, unless a later Spec
    of the list has the same final name or the transaction recorded for
    the environment installs no package of that name.  The run_constrained
    list is never solved: each of its Specs is one that was there before
    the call or an export that propagation inserted, without a final
    version. *)
Theorem finalize_solve_settles (all : list Output) (o o' : Output) :
  finalize_solve all o = Ok o' →
  settled Build o' ∧ settled Host o' ∧ settled Run o' ∧
  only_unbound_exports_added (reqs_of RunConstrained o)
    (reqs_of RunConstrained o').
Proof.
  intros H.
  destruct (finalize_solve_inv _ _ _ H)
    as (oB & oH & oR & HB & HH & HR & Hreq & Htr).
  destruct (solve_env_effect _ _ _ _ HB) as (SB & FB & TB & EB).
  destruct (solve_env_effect _ _ _ _ HH) as (SH & FH & TH & EH).
  destruct (solve_env_effect _ _ _ _ HR) as (SR & FR & TR & ER).
  split; [|split; [|split]].
  - apply (settled_same_state Build oR); [done|done|].
    apply (settled_ext Build oB).
    + rewrite (FR Build), (FH Build) by (done || (unfold later; tauto)).
      apply same_resolution_refl.
    + by rewrite (TR Build), (TH Build).
    + done.
  - apply (settled_same_state Host oR); [done|done|].
    apply (settled_ext Host oH).
    + rewrite (FR Host) by (done || (unfold later; tauto)).
      apply same_resolution_refl.
    + by rewrite (TR Host).
    + done.
  - by apply (settled_same_state Run oR).
  - intros s Hs. unfold reqs_of in Hs. rewrite Hreq in Hs.
    fold (reqs_of RunConstrained oR) in Hs.
    rewrite (FR RunConstrained) in Hs by (done || (unfold later; tauto)).
    destruct (EH RunConstrained s) as [Hin|[r ->]]; [done|done| |by right].
    destruct (EB RunConstrained s) as [Hin'|[r ->]]; [done|done| |by right].
    by left.
Qed.

End OrchestratorFacts.

Lemma finalize_solve_settles_witness :
  let o' := SampleC1.solved SampleC1.shadowed
              (SampleC1.finalize (Sample.store_of SampleC1.libfoo_exports)
                 SampleC1.shadowed) in
  settled Build o' ∧ settled Host o' ∧ settled Run o' ∧
  only_unbound_exports_added (reqs_of RunConstrained SampleC1.shadowed)
    (reqs_of RunConstrained o').
Proof.
  apply (finalize_solve_settles Sample.no_pin_expressions
           (Sample.store_of SampleC1.libfoo_exports) SampleC1.solve
           SampleC1.pkg_cache_of SampleC3.no_pins SampleC1.no_compat "3.10.4"
           [] SampleC1.shadowed).
  vm_compute. reflexivity.
Defined.

(** C1, as stated, fails.  First, run_constrained is never solved: the
    Output with the build requirement [cmake] and the run constraint [foo]
    is finalized successfully, [cmake] is bound and [foo], in a non-empty
    list, is not.  Second, within [run]: the host dependency [libfoo]
    exports [libfoo >=2.0], which is appended to [run] after the qualified
    [libfoo >=1]; the solved package is bound to the later Spec only. *)
Lemma finalize_solve_leaves_unbound :
  (∃ o', SampleC1.finalize SampleC1.no_metadata SampleC1.constrained = Ok o' ∧
         (∃ s, reqs_of Build o' = [s] ∧ Spec.final_version s = Some ("1.0", "0")) ∧
         (∃ s, reqs_of RunConstrained o' = [s] ∧ Spec.raw s = "foo" ∧
               Spec.final_version s = None)) ∧
  (∃ o', SampleC1.finalize (Sample.store_of SampleC1.libfoo_exports)
           SampleC1.shadowed = Ok o' ∧
         ∃ s1 s2, reqs_of Run o' = [s1; s2] ∧
                  Spec.raw s1 = "libfoo >=1" ∧ Spec.final_version s1 = None ∧
                  Spec.raw s2 = "libfoo >=2.0" ∧
                  Spec.final_version s2 = Some ("1.0", "0")).
Proof.
  split.
  - eexists. split; [vm_compute; reflexivity|]. split.
    + eexists. split; [vm_compute; reflexivity|reflexivity].
    + eexists. split; [vm_compute; reflexivity|]. by split.
  - eexists. split; [vm_compute; reflexivity|].
    eexists _, _. split; [vm_compute; reflexivity|]. by repeat split.
Qed.

(** ** Programs over the heap *)

Section HeapFacts.

Import Py HeapSpec.

Lemma bind_Ok {A B} (m : M A) (k : A → M B) h r :
  (m ≫= k) h = Ok r → ∃ a h1, m h = Ok (a, h1) ∧ k a h1 = Ok r.
Proof.
  unfold mbind, M_bind. destruct (m h) as [[a h1]|]; [|done]. by eauto.
Qed.

Lemma ret_Ok {A} (a : A) h r : (mret a : M A) h = Ok r → r = (a, h).
Proof. unfold mret, M_ret. congruence. Qed.

Lemma alloc_Ok o h v h' :
  alloc o h = Ok (v, h') → v = VRef (length h) ∧ h' = h ++ [o].
Proof. unfold alloc. intros. by simplify_eq. Qed.

Lemma get_obj_Ok x h o h' :
  get_obj x h = Ok (o, h') → h' = h ∧ ∃ l, x = VRef l ∧ h !! l = Some o.
Proof.
  unfold get_obj. destruct x as [| | | |l]; try done.
  destruct (h !! l) eqn:E; [|done]. intros. simplify_eq. by repeat eexists.
Qed.

Lemma put_obj_Ok x o h u h' :
  put_obj x o h = Ok (u, h') →
  ∃ l, x = VRef l ∧ l < length h ∧ h' = <[l := o]> h.
Proof.
  unfold put_obj. destruct x as [| | | |l]; try done.
  case_decide; [|done]. intros. simplify_eq. by repeat eexists.
Qed.

Lemma as_dict_Ok x h m h' :
  as_dict x h = Ok (m, h') →
  h' = h ∧ ∃ l, x = VRef l ∧ h !! l = Some (ODict m).
Proof.
  unfold as_dict. intros H. apply bind_Ok in H as (o & h1 & Ho & H).
  apply get_obj_Ok in Ho as (-> & l & -> & Hl).
  destruct o; [|done]. apply ret_Ok in H. simplify_eq. by repeat eexists.
Qed.

Lemma as_list_Ok x h xs h' :
  as_list x h = Ok (xs, h') →
  h' = h ∧ ∃ l, x = VRef l ∧ h !! l = Some (OList xs).
Proof.
  unfold as_list. intros H. apply bind_Ok in H as (o & h1 & Ho & H).
  apply get_obj_Ok in Ho as (-> & l & -> & Hl).
  destruct o; [done|]. apply ret_Ok in H. simplify_eq. by repeat eexists.
Qed.

Lemma dict_get_Ok x k dflt h v h' :
  dict_get x k dflt h = Ok (v, h') →
  h' = h ∧ ∃ l m, x = VRef l ∧ h !! l = Some (ODict m) ∧
                  v = default dflt (m !! k).
Proof.
  unfold dict_get. intros H. apply bind_Ok in H as (m & h1 & Hm & H).
  apply as_dict_Ok in Hm as (-> & l & -> & Hl).
  apply ret_Ok in H. simplify_eq. by repeat eexists.
Qed.

Lemma dict_item_Ok x k h v h' :
  dict_item x k h = Ok (v, h') →
  h' = h ∧ ∃ l m, x = VRef l ∧ h !! l = Some (ODict m) ∧ m !! k = Some v.
Proof.
  unfold dict_item. intros H. apply bind_Ok in H as (m & h1 & Hm & H).
  apply as_dict_Ok in Hm as (-> & l & -> & Hl).
  destruct (m !! k) eqn:E; [|done]. apply ret_Ok in H. simplify_eq. by repeat eexists.
Qed.

Lemma dict_contains_Ok x k h b h' :
  dict_contains x k h = Ok (b, h') → h' = h.
Proof.
  unfold dict_contains. intros H. apply bind_Ok in H as (m & h1 & Hm & H).
  apply as_dict_Ok in Hm as (-> & _). apply ret_Ok in H. by simplify_eq.
Qed.

Lemma dict_setitem_Ok x k v h u h' :
  dict_setitem x k v h = Ok (u, h') →
  ∃ l m, x = VRef l ∧ h !! l = Some (ODict m) ∧
         h' = <[l := ODict (<[k := v]> m)]> h.
Proof.
  unfold dict_setitem. intros H. apply bind_Ok in H as (m & h1 & Hm & H).
  apply as_dict_Ok in Hm as (-> & l & -> & Hl).
  apply put_obj_Ok in H as (l' & ? & _ & ->). simplify_eq. by repeat eexists.
Qed.

Lemma dict_update_Ok x src h u h' :
  dict_update x src h = Ok (u, h') →
  ∃ l m ls ms, x = VRef l ∧ h !! l = Some (ODict m) ∧
               src = VRef ls ∧ h !! ls = Some (ODict ms) ∧
               h' = <[l := ODict (ms ∪ m)]> h.
Proof.
  unfold dict_update. intros H. apply bind_Ok in H as (m & h1 & Hm & H).
  apply as_dict_Ok in Hm as (-> & l & -> & Hl).
  apply bind_Ok in H as (ms & h1 & Hms & H).
  apply as_dict_Ok in Hms as (-> & ls & -> & Hls).
  apply put_obj_Ok in H as (l' & ? & _ & ->). simplify_eq.
  by eexists _, _, _, _.
Qed.

Lemma list_extend_Ok x src h u h' :
  list_extend x src h = Ok (u, h') →
  ∃ l xs ls ys, x = VRef l ∧ h !! l = Some (OList xs) ∧
                src = VRef ls ∧ h !! ls = Some (OList ys) ∧
                h' = <[l := OList (xs ++ ys)]> h.
Proof.
  unfold list_extend. intros H. apply bind_Ok in H as (xs & h1 & Hm & H).
  apply as_list_Ok in Hm as (-> & l & -> & Hl).
  apply bind_Ok in H as (ys & h1 & Hms & H).
  apply as_list_Ok in Hms as (-> & ls & -> & Hls).
  apply put_obj_Ok in H as (l' & ? & _ & ->). simplify_eq.
  by eexists _, _, _, _.
Qed.

Lemma reads_only_ret {A} (a : A) : reads_only (mret a).
Proof. intros h a' h' H. apply ret_Ok in H. by simplify_eq. Qed.

Lemma reads_only_raise {A} e : reads_only (@raise A e).
Proof. by intros h a h' H. Qed.

Lemma reads_only_bind {A B} (m : M A) (k : A → M B) :
  reads_only m → (∀ a, reads_only (k a)) → reads_only (m ≫= k).
Proof.
  intros Hm Hk h b h' H. apply bind_Ok in H as (a & h1 & H1 & H2).
  apply Hm in H1 as ->. by apply Hk in H2.
Qed.

Lemma reads_only_get_obj x : reads_only (get_obj x).
Proof. intros h o h' H. by apply get_obj_Ok in H as [-> _]. Qed.

Lemma reads_only_as_dict x : reads_only (as_dict x).
Proof. intros h o h' H. by apply as_dict_Ok in H as [-> _]. Qed.

Lemma reads_only_as_list x : reads_only (as_list x).
Proof. intros h o h' H. by apply as_list_Ok in H as [-> _]. Qed.

Lemma reads_only_dict_get x k d : reads_only (dict_get x k d).
Proof. intros h o h' H. by apply dict_get_Ok in H as [-> _]. Qed.

Lemma reads_only_dict_item x k : reads_only (dict_item x k).
Proof. intros h o h' H. by apply dict_item_Ok in H as [-> _]. Qed.

Lemma reads_only_dict_contains x k : reads_only (dict_contains x k).
Proof. intros h o h' H. by apply dict_contains_Ok in H. Qed.

Lemma reads_only_as_str v : reads_only (as_str v).
Proof.
  destruct v; simpl; first [apply reads_only_ret|apply reads_only_raise].
Qed.

Lemma reads_only_truthy v : reads_only (truthy v).
Proof.
  destruct v; simpl; try apply reads_only_ret.
  apply reads_only_bind; [apply reads_only_get_obj|].
  intros o. apply reads_only_ret.
Qed.

Lemma reads_only_has_keys v : reads_only (has_keys v).
Proof.
  intros h b h' H. unfold has_keys in H.
  destruct v as [| | | |l]; try by simplify_eq.
  destruct (h !! l) as [[]|]; by simplify_eq.
Qed.

Lemma reads_only_is_list v : reads_only (is_list v).
Proof.
  intros h b h' H. unfold is_list in H.
  destruct v as [| | | |l]; try by simplify_eq.
  destruct (h !! l) as [[]|]; by simplify_eq.
Qed.

Lemma reads_only_list_len v : reads_only (list_len v).
Proof.
  apply reads_only_bind; [apply reads_only_as_list|].
  intros xs. apply reads_only_ret.
Qed.

Lemma reads_only_map_m {A B} (f : A → M B) xs :
  (∀ x, reads_only (f x)) → reads_only (map_m f xs).
Proof.
  intros Hf. induction xs as [|x xs IH]; simpl; [apply reads_only_ret|].
  apply reads_only_bind; [apply Hf|]. intros y.
  apply reads_only_bind; [apply IH|]. intros ys. apply reads_only_ret.
Qed.

End HeapFacts.

(** ** Change of the raw records *)

Section Evolution.

Import Py HeapSpec.

Variable ld : loc.
Variable F : list loc.

Lemma obj_evolves_refl ks q o : obj_evolves ks q o o.
Proof. by left. Qed.

Lemma obj_evolves_trans ks (q : Prop) o1 o2 o3 :
  obj_evolves ks q o1 o2 → obj_evolves ks q o2 o3 → obj_evolves ks q o1 o3.
Proof.
  intros [->|[(m & m' & -> & -> & H12)|(Hq & xs & ys & -> & ->)]]; [done| |].
  - intros [->|[(m2 & m3 & ? & -> & H23)|(_ & xs & ys & ? & _)]];
      simplify_eq.
    + right; left. by eexists _, _.
    + right; left. eexists _, _. repeat split; try done.
      intros k Hk. rewrite H23 by done. by apply H12.
  - intros [->|[(m2 & m3 & ? & _)|(_ & xs2 & ys2 & ? & ->)]]; simplify_eq.
    + right; right. split; [done|]. by eexists _, _.
    + right; right. split; [done|]. exists xs, (ys ++ ys2).
      by rewrite app_assoc.
Qed.

Lemma obj_evolves_mono ks (q q' : Prop) o o' :
  (q → q') → obj_evolves ks q o o' → obj_evolves ks q' o o'.
Proof.
  intros Hq [->|[H|(Hq0 & H)]]; [by left|by right; left|].
  right; right. split; [auto|done].
Qed.

Lemma evolves_refl n Q h : evolves n ld F Q h h.
Proof. split; [done|]. intros l o _ Hl. exists o. split; [done|by left]. Qed.

Lemma evolves_trans n Q h1 h2 h3 :
  evolves n ld F Q h1 h2 → evolves n ld F Q h2 h3 → evolves n ld F Q h1 h3.
Proof.
  intros [Hlen1 H1] [Hlen2 H2]. split; [lia|].
  intros l o Hn Hl. destruct (H1 _ _ Hn Hl) as (o2 & Hl2 & He1).
  destruct (H2 _ _ Hn Hl2) as (o3 & Hl3 & He2).
  exists o3. split; [done|]. by eapply obj_evolves_trans.
Qed.

Lemma evolves_weaken n n' Q h h' :
  n' ≤ n → evolves n ld F Q h h' → evolves n' ld F Q h h'.
Proof.
  intros Hn [Hlen H]. split; [done|]. intros l o Hl. apply H. lia.
Qed.

Lemma evolves_mono n Q Q' h h' :
  Q ⊆ Q' → evolves n ld F Q h h' → evolves n ld F Q' h h'.
Proof.
  intros HQ [Hlen H]. split; [done|]. intros l o Hl Ho.
  destruct (H _ _ Hl Ho) as (o' & Ho' & He). exists o'. split; [done|].
  eapply obj_evolves_mono; [|exact He]. apply HQ.
Qed.

Lemma evolves_touched n ld' F' Q h h' :
  (∀ l, l < n → touched ld' F' l ⊆ touched ld F l) →
  evolves n ld' F' Q h h' → evolves n ld F Q h h'.
Proof.
  intros Ht [Hlen H]. split; [done|]. intros l o Hl Ho.
  destruct (H _ _ Hl Ho) as (o' & Ho' & He). exists o'. split; [done|].
  destruct He as [->|[(m & m' & -> & -> & Hk)|Hq]];
    [by left| |by right; right].
  right; left. eexists _, _. repeat split; try done.
  intros k Hk'. apply Hk. intros Hin. apply Hk'. by apply (Ht l Hl).
Qed.

Lemma evolves_app n Q h ext : evolves n ld F Q h (h ++ ext).
Proof.
  split; [rewrite length_app; lia|]. intros l o _ Hl. exists o.
  split; [by apply lookup_app_l_Some|by left].
Qed.

Lemma evolves_insert_fresh n Q h l o :
  n ≤ l → evolves n ld F Q h (<[l := o]> h).
Proof.
  intros Hl. split; [by rewrite length_insert|]. intros l' o' Hn Ho'.
  exists o'. split; [|by left]. rewrite list_lookup_insert_ne by lia. done.
Qed.

Lemma evolves_setitem n Q h l m k v :
  h !! l = Some (ODict m) → (n ≤ l ∨ k ∈ touched ld F l) →
  evolves n ld F Q h (<[l := ODict (<[k := v]> m)]> h).
Proof.
  intros Hm [Hl|Hk]; [by apply evolves_insert_fresh|].
  split; [by rewrite length_insert|]. intros l' o' Hn Ho'.
  destruct (decide (l = l')) as [<-|Hne].
  - rewrite list_lookup_insert_eq by (by eapply lookup_lt_Some).
    eexists. split; [done|]. right; left. simplify_eq.
    eexists _, _. repeat split; try done.
    intros k' Hk'. apply lookup_insert_ne. by intros ->.
  - exists o'. rewrite list_lookup_insert_ne by done. split; [done|by left].
Qed.

Lemma evolves_extend n Q h l xs ys :
  h !! l = Some (OList xs) → (n ≤ l ∨ l ∈ Q) →
  evolves n ld F Q h (<[l := OList (xs ++ ys)]> h).
Proof.
  intros Hm [Hl|Hk]; [by apply evolves_insert_fresh|].
  split; [by rewrite length_insert|]. intros l' o' Hn Ho'.
  destruct (decide (l = l')) as [<-|Hne].
  - rewrite list_lookup_insert_eq by (by eapply lookup_lt_Some).
    eexists. split; [done|]. right; right. simplify_eq.
    split; [done|]. by eexists _, _.
  - exists o'. rewrite list_lookup_insert_ne by done. split; [done|by left].
Qed.

(** Reading through a change: a key that is not touched keeps its
    value, a list that is not marked keeps its elements. *)
Lemma evolves_dict n Q h h' l m :
  evolves n ld F Q h h' → l < n → h !! l = Some (ODict m) →
  ∃ m', h' !! l = Some (ODict m') ∧
        ∀ k, k ∉ touched ld F l → m' !! k = m !! k.
Proof.
  intros [_ H] Hl Hm. destruct (H _ _ Hl Hm) as (o' & Ho' & He).
  destruct He as [->|[(m1 & m' & ? & -> & Hk)|(_ & xs & ys & ? & _)]];
    simplify_eq; eauto.
Qed.

Lemma evolves_dict_inv n Q h h' l m' :
  evolves n ld F Q h h' → l < n → l < length h →
  h' !! l = Some (ODict m') →
  ∃ m, h !! l = Some (ODict m) ∧
       ∀ k, k ∉ touched ld F l → m' !! k = m !! k.
Proof.
  intros [_ H] Hl Hlen Hm'.
  destruct (lookup_lt_is_Some_2 h l Hlen) as [o Ho].
  destruct (H _ _ Hl Ho) as (o' & Ho' & He).
  destruct He as [->|[(m1 & m2 & ? & ? & Hk)|(_ & xs & ys & ? & ?)]];
    simplify_eq; eauto.
Qed.

Lemma evolves_list_inv n h h' l xs :
  evolves n ld F [] h h' → l < n → l < length h →
  h' !! l = Some (OList xs) → h !! l = Some (OList xs).
Proof.
  intros [_ H] Hl Hlen Hm'.
  destruct (lookup_lt_is_Some_2 h l Hlen) as [o Ho].
  destruct (H _ _ Hl Ho) as (o' & Ho' & He).
  destruct He as [->|[(m1 & m2 & ? & ? & Hk)|(Hq & _)]];
    simplify_eq; [done|]. by apply not_elem_of_nil in Hq.
Qed.

Lemma evolves_same n Q h h' l o :
  evolves n ld F Q h h' → l < n → h !! l = Some o →
  touched ld F l = [] → l ∉ Q → h' !! l = Some o.
Proof.
  intros [_ H] Hl Ho Ht Hq. destruct (H _ _ Hl Ho) as (o' & Ho' & He).
  rewrite Ht in He.
  destruct He as [->|[(m1 & m2 & -> & -> & Hk)|(Hq' & _)]];
    [done| |done].
  rewrite Ho'. do 2 f_equal. apply map_eq. intros k. apply Hk.
  apply not_elem_of_nil.
Qed.

Lemma touched_keys l k :
  k ∈ touched ld F l → k = "source" ∨ k = "activated".
Proof.
  unfold touched. rewrite elem_of_app.
  intros [H|H]; case_decide; try (by apply not_elem_of_nil in H);
    apply list_elem_of_singleton in H; auto.
Qed.

Lemma touched_fresh l :
  l ≠ ld → l ∉ F → touched ld F l = [].
Proof. intros H1 H2. unfold touched. by rewrite !decide_False. Qed.

Lemma touched_source : "source" ∈ touched ld F ld.
Proof.
  unfold touched. rewrite decide_True by done. apply list_elem_of_here.
Qed.

Lemma touched_activated l : l ∈ F → "activated" ∈ touched ld F l.
Proof.
  intros H. unfold touched. rewrite elem_of_app. right.
  rewrite decide_True by done. apply list_elem_of_here.
Qed.

End Evolution.

Section Closed.

Import Py HeapSpec.

Lemma closed_dict h l m k p :
  closed h → h !! l = Some (ODict m) → m !! k = Some (VRef p) →
  p < length h.
Proof.
  intros Hc Hl Hk. unfold closed in Hc. rewrite Forall_lookup in Hc.
  specialize (Hc _ _ Hl). simpl in Hc. by apply (Hc k (VRef p)).
Qed.

Lemma closed_list h l xs p :
  closed h → h !! l = Some (OList xs) → VRef p ∈ xs → p < length h.
Proof.
  intros Hc Hl Hk. unfold closed in Hc. rewrite Forall_lookup in Hc.
  specialize (Hc _ _ Hl). simpl in Hc. rewrite Forall_forall in Hc.
  by apply (Hc (VRef p)).
Qed.

Lemma elem_of_omap_ref_of (xs : list val) p :
  p ∈ omap ref_of xs ↔ VRef p ∈ xs.
Proof.
  rewrite list_elem_of_omap. split.
  - intros (v & Hv & Hr). destruct v; simplify_eq/=. done.
  - intros H. by exists (VRef p).
Qed.

Lemma feature_locs_lt h lp p :
  closed h → p ∈ feature_locs h lp → p < length h.
Proof.
  intros Hc. unfold feature_locs.
  destruct (h !! lp) as [[m|]|]; try (by intros H; apply not_elem_of_nil in H).
  destruct (m !! "features") as [[| | | |lf]|];
    try (by intros H; apply not_elem_of_nil in H).
  destruct (h !! lf) as [[|xs]|] eqn:E;
    try (by intros H; apply not_elem_of_nil in H).
  rewrite elem_of_omap_ref_of. by eapply closed_list.
Qed.

Lemma req_list_locs_lt h l p :
  closed h → p ∈ req_list_locs h l → p < length h.
Proof.
  intros Hc. unfold req_list_locs.
  destruct (h !! l) as [[m|]|]; try (by intros H; apply not_elem_of_nil in H).
  destruct (m !! "requirements") as [[| | | |lq]|];
    try (by intros H; apply not_elem_of_nil in H).
  destruct (h !! lq) as [[mq|]|] eqn:E;
    try (by intros H; apply not_elem_of_nil in H).
  rewrite list_elem_of_omap. intros (k & _ & Hk).
  destruct (mq !! k) as [v|] eqn:Ek; [|done]. simpl in Hk.
  destruct v; simplify_eq/=. by eapply closed_dict.
Qed.

End Closed.

(** ** The constructor, phase by phase *)

Section Construction.

Import Py HeapSpec Init.

Ltac reads :=
  repeat first
    [ apply reads_only_ret | apply reads_only_raise
    | apply reads_only_dict_item | apply reads_only_dict_get
    | apply reads_only_dict_contains | apply reads_only_as_str
    | apply reads_only_as_list | apply reads_only_as_dict
    | apply reads_only_truthy | apply reads_only_has_keys
    | apply reads_only_is_list | apply reads_only_list_len
    | apply reads_only_map_m; intros ?
    | apply reads_only_bind; [|intros ?]
    | match goal with
      | |- reads_only (if ?b then _ else _) => destruct b
      | |- reads_only (let '(_, _) := ?p in _) => destruct p
      | |- reads_only (match ?x with _ => _ end) => destruct x
      end ].

Lemma lookup_old (h ext : list obj) l :
  l < length h → (h ++ ext) !! l = h !! l.
Proof. apply lookup_app_l. Qed.

Lemma lookup_new (h ext : list obj) i :
  (h ++ ext) !! (length h + i) = ext !! i.
Proof. rewrite lookup_app_r by lia. f_equal. lia. Qed.

Lemma lookup_new0 (h ext : list obj) : (h ++ ext) !! length h = ext !! 0.
Proof. rewrite <- (lookup_new h ext 0). f_equal. lia. Qed.

Lemma insert_new (h ext : list obj) i o :
  <[length h + i := o]> (h ++ ext) = h ++ <[i := o]> ext.
Proof. apply insert_app_r. Qed.

Lemma reads_only_read_identity d : reads_only (read_identity d).
Proof. unfold read_identity. reads. Qed.

Lemma reads_only_collect_steps srcs : reads_only (collect_steps srcs).
Proof. induction srcs as [|s srcs IH]; simpl; reads. apply IH. Qed.

Lemma reads_only_static_activated fm : reads_only (static_activated fm).
Proof. unfold static_activated. reads. Qed.

Lemma reads_only_spec_list x : reads_only (spec_list x).
Proof. unfold spec_list. reads. Qed.

Lemma reads_only_section_specs reqs k : reads_only (section_specs reqs k).
Proof. unfold section_specs. reads. Qed.

(** [d["source"]] is bound to the record's own source, else to the
    parent's, else to a new empty dictionary. *)
Lemma bind_source_effect ld lp h u h1 :
  ld < length h → lp < length h →
  bind_source (VRef ld) (VRef lp) h = Ok (u, h1) →
  ∃ md mp,
    h !! ld = Some (ODict md) ∧ h !! lp = Some (ODict mp) ∧
    h1 = <[ld := ODict (<["source" :=
             default (default (VRef (length h)) (mp !! "source"))
                     (md !! "source")]> md)]> (h ++ [ODict ∅]).
Proof.
  intros Hld Hlp H. unfold bind_source in H.
  apply bind_Ok in H as (dflt & h2 & Ha & H).
  apply alloc_Ok in Ha as [-> ->].
  apply bind_Ok in H as (psrc & h2 & Hp & H).
  apply dict_get_Ok in Hp as (-> & l & mp & [= <-] & Hmp & ->).
  rewrite lookup_old in Hmp by done.
  apply bind_Ok in H as (src & h2 & Hs & H).
  apply dict_get_Ok in Hs as (-> & l & md & [= <-] & Hmd & ->).
  rewrite lookup_old in Hmd by done.
  apply dict_setitem_Ok in H as (l & m & [= <-] & Hm & ->).
  rewrite lookup_old in Hm by done. simplify_eq.
  by eexists _, _.
Qed.

Lemma section_of_app h ext x sname :
  x < length h →
  (∀ mx p, h !! x = Some (ODict mx) → mx !! sname = Some (VRef p) →
           p < length h) →
  section_of (h ++ ext) x sname = section_of h x sname.
Proof.
  intros Hx Hp. unfold section_of. rewrite lookup_old by done.
  destruct (h !! x) as [o|] eqn:E; rewrite ?E; [|done].
  destruct o as [mx|]; [|done].
  destruct (mx !! sname) as [v|] eqn:Es; rewrite ?Es; [|done].
  destruct v as [| | | |p]; try done.
  rewrite lookup_old; [done|]. by eapply Hp.
Qed.

(** One merged section: a new dictionary holding the parent's section
    overlaid with the record's own, and two unused defaults. *)
Lemma set_section_effect ld lp sname h v h' :
  ld < length h → lp < length h →
  (∀ x mx p, x = ld ∨ x = lp → h !! x = Some (ODict mx) →
             mx !! sname = Some (VRef p) → p < length h) →
  set_section (VRef ld) (VRef lp) sname h = Ok (v, h') →
  ∃ md mp,
    section_of h ld sname = Some md ∧ section_of h lp sname = Some mp ∧
    v = VRef (length h) ∧
    h' = h ++ [ODict (md ∪ mp); ODict ∅; ODict ∅].
Proof.
  intros Hld Hlp Hcl H. unfold set_section in H.
  apply bind_Ok in H as (sec & h2 & Ha & H).
  apply alloc_Ok in Ha as [-> ->].
  apply bind_Ok in H as (dflt & h2 & Ha & H).
  apply alloc_Ok in Ha as [-> ->].
  rewrite <- app_assoc in H. simpl in H.
  rewrite length_app in H. simpl in H.
  apply bind_Ok in H as (psec & h2 & Hp & H).
  apply dict_get_Ok in Hp as (-> & l & mpx & [= <-] & Hmp & ->).
  rewrite lookup_old in Hmp by done.
  apply bind_Ok in H as (u & h2 & Hu & H).
  apply dict_update_Ok in Hu
    as (l & m & ls & ms & [= <-] & Hm & Hps & Hms & ->).
  replace (length h) with (length h + 0) in Hm by lia.
  rewrite lookup_new in Hm. simpl in Hm. simplify_eq.
  assert (Hsec_p : section_of h lp sname = Some ms).
  { unfold section_of. rewrite Hmp.
    destruct (mpx !! sname) as [pv|] eqn:Es; simpl in Hps.
    - subst pv. pose proof (Hcl lp mpx ls (or_intror eq_refl) Hmp Es).
      rewrite lookup_old in Hms by done. by rewrite Hms.
    - simplify_eq. rewrite lookup_new in Hms. by simplify_eq/=. }
  rewrite (right_id_L ∅ (∪)) in H.
  replace (length h) with (length h + 0) in H at 1 by lia.
  rewrite insert_new in H. simpl in H.
  apply bind_Ok in H as (dflt2 & h2 & Ha & H).
  apply alloc_Ok in Ha as [-> ->].
  rewrite <- app_assoc in H. simpl in H.
  rewrite length_app in H. simpl in H.
  apply bind_Ok in H as (dsec & h2 & Hd & H).
  apply dict_get_Ok in Hd as (-> & l & mdx & [= <-] & Hmd & ->).
  rewrite lookup_old in Hmd by done.
  apply bind_Ok in H as (u2 & h2 & Hu & H).
  apply dict_update_Ok in Hu
    as (l & m & ls2 & md & [= <-] & Hm & Hds & Hmds & ->).
  replace (length h) with (length h + 0) in Hm by lia.
  rewrite lookup_new in Hm. simpl in Hm. simplify_eq.
  assert (Hsec_d : section_of h ld sname = Some md).
  { unfold section_of. rewrite Hmd.
    destruct (mdx !! sname) as [pv|] eqn:Es; simpl in Hds.
    - subst pv. pose proof (Hcl ld mdx ls2 (or_introl eq_refl) Hmd Es).
      rewrite lookup_old in Hmds by done. by rewrite Hmds.
    - simplify_eq. rewrite lookup_new in Hmds. by simplify_eq/=. }
  apply ret_Ok in H. simplify_eq.
  eexists _, _. split; [exact Hsec_d|]. split; [exact Hsec_p|].
  split; [done|].
  replace (length h) with (length h + 0) at 1 by lia.
  by rewrite insert_new.
Qed.

Lemma set_section_effect_app ld lp sname h ext v h' :
  ld < length h → lp < length h →
  (∀ x mx p, x = ld ∨ x = lp → h !! x = Some (ODict mx) →
             mx !! sname = Some (VRef p) → p < length h) →
  set_section (VRef ld) (VRef lp) sname (h ++ ext) = Ok (v, h') →
  ∃ md mp,
    section_of h ld sname = Some md ∧ section_of h lp sname = Some mp ∧
    v = VRef (length h + length ext) ∧
    h' = h ++ (ext ++ [ODict (md ∪ mp); ODict ∅; ODict ∅]).
Proof.
  intros Hld Hlp Hcl H.
  apply set_section_effect in H as (md & mp & Hd & Hp & -> & ->).
  - rewrite section_of_app in Hd, Hp; eauto.
    exists md, mp. rewrite length_app, <- app_assoc. done.
  - rewrite length_app. lia.
  - rewrite length_app. lia.
  - intros x mx p Hx Hmx Hs. rewrite length_app.
    rewrite lookup_old in Hmx by (destruct Hx; by subst).
    pose proof (Hcl x mx p Hx Hmx Hs). lia.
Qed.

(** The merged sections are new dictionaries; [files] and [source] are
    read from the record alone. *)
Lemma make_sections_effect ld lp h secs steps h' mdx :
  ld < length h → lp < length h →
  h !! ld = Some (ODict mdx) →
  (∀ sname x mx p, sname ∈ merged_sections → x = ld ∨ x = lp →
     h !! x = Some (ODict mx) → mx !! sname = Some (VRef p) →
     p < length h) →
  make_sections (VRef ld) (VRef lp) h = Ok ((secs, steps), h') →
  (∃ ext, h' = h ++ ext) ∧
  (∀ sname, sname ∈ merged_sections →
     ∃ ls md mp,
       section_of h ld sname = Some md ∧ section_of h lp sname = Some mp ∧
       secs !! sname = Some (VRef ls) ∧ length h ≤ ls ∧
       h' !! ls = Some (ODict (md ∪ mp))) ∧
  secs !! "files" = Some (default VNone (mdx !! "files")) ∧
  (∀ sv, mdx !! "source" = Some sv →
     secs !! "source" = Some sv
     ∨ ∃ lw, secs !! "source" = Some (VRef lw) ∧ length h ≤ lw ∧
             h' !! lw = Some (OList [sv])).
Proof.
  intros Hld Hlp Hmdx Hcl H. unfold make_sections in H.
  assert (Hin : ∀ sname, sname ∈ merged_sections →
            ∀ x mx p, x = ld ∨ x = lp → h !! x = Some (ODict mx) →
              mx !! sname = Some (VRef p) → p < length h)
    by (intros; by eapply Hcl).
  rewrite <- (app_nil_r h) in H.
  apply bind_Ok in H as (s1 & h1 & H1 & H).
  apply set_section_effect_app in H1
    as (d1 & p1 & Hd1 & Hp1 & -> & ->); [|done|done|];
    [|apply Hin; unfold merged_sections; repeat constructor].
  apply bind_Ok in H as (s2 & h2 & H2 & H).
  apply set_section_effect_app in H2
    as (d2 & p2 & Hd2 & Hp2 & -> & ->); [|done|done|];
    [|apply Hin; unfold merged_sections; repeat constructor].
  apply bind_Ok in H as (s3 & h3 & H3 & H).
  apply set_section_effect_app in H3
    as (d3 & p3 & Hd3 & Hp3 & -> & ->); [|done|done|];
    [|apply Hin; unfold merged_sections; repeat constructor].
  apply bind_Ok in H as (s4 & h4 & H4 & H).
  apply set_section_effect_app in H4
    as (d4 & p4 & Hd4 & Hp4 & -> & ->); [|done|done|];
    [|apply Hin; unfold merged_sections; repeat constructor].
  apply bind_Ok in H as (s5 & h5 & H5 & H).
  apply set_section_effect_app in H5
    as (d5 & p5 & Hd5 & Hp5 & -> & ->); [|done|done|];
    [|apply Hin; unfold merged_sections; repeat constructor].
  simpl in H.
  apply bind_Ok in H as (sf & h6 & Hf & H).
  apply dict_get_Ok in Hf as (-> & l & mf & [= <-] & Hmf & ->).
  rewrite lookup_old in Hmf by done. simplify_eq.
  apply bind_Ok in H as (dflt & h6 & Ha & H).
  apply alloc_Ok in Ha as [-> ->].
  rewrite <- app_assoc in H. simpl in H.
  apply bind_Ok in H as (src & h6 & Hs & H).
  apply dict_get_Ok in Hs as (-> & l & ms & [= <-] & Hms & ->).
  rewrite lookup_old in Hms by done. simplify_eq.
  apply bind_Ok in H as (k & h6 & Hk & H).
  apply reads_only_has_keys in Hk as ->.
  apply bind_Ok in H as (src' & h6 & Hw & H).
  apply bind_Ok in H as (srcs & h7 & Hl & H).
  apply reads_only_as_list in Hl as ->.
  apply bind_Ok in H as (steps' & h7 & Hc & H).
  apply reads_only_collect_steps in Hc as ->.
  apply ret_Ok in H. simplify_eq.
  destruct k.
  - apply alloc_Ok in Hw as [-> ->].
    rewrite <- app_assoc. simpl.
    split; [by eexists|]. split; [|split].
    + intros sname Hs. unfold merged_sections in Hs.
      repeat (apply elem_of_cons in Hs as [->|Hs]);
        [..|by apply not_elem_of_nil in Hs];
        eexists _, _, _; (split; [eassumption|]); (split; [eassumption|]);
        (split; [reflexivity|]); (split; [lia|]);
        by rewrite lookup_new.
    + done.
    + intros sv Hsv. right. rewrite Hsv. simpl.
      eexists. split; [reflexivity|]. split; [rewrite length_app; simpl; lia|].
      rewrite length_app. simpl. by rewrite lookup_new.
  - apply ret_Ok in Hw. simplify_eq.
    split; [by eexists|]. split; [|split].
    + intros sname Hs. unfold merged_sections in Hs.
      repeat (apply elem_of_cons in Hs as [->|Hs]);
        [..|by apply not_elem_of_nil in Hs];
        eexists _, _, _; (split; [eassumption|]); (split; [eassumption|]);
        (split; [reflexivity|]); (split; [lia|]);
        by rewrite lookup_new.
    + done.
    + intros sv Hsv. left. by rewrite Hsv.
Qed.

(** The feature map is built from the entries of the list. *)
Lemma make_feature_map_effect fs :
  ∀ acc h fm h',
    make_feature_map fs acc h = Ok (fm, h') →
    h' = h ∧ ∀ nm f, (nm, f) ∈ fm → f ∈ fs ∨ ∃ nm', (nm', f) ∈ acc.
Proof.
  induction fs as [|f fs IH]; intros acc h fm h' H; simpl in H.
  - apply ret_Ok in H. simplify_eq. split; [done|]. intros nm f Hf.
    right. by exists nm.
  - apply bind_Ok in H as (n & h1 & Hn & H).
    apply reads_only_dict_item in Hn as ->.
    apply bind_Ok in H as (n' & h1 & Hn & H).
    apply reads_only_as_str in Hn as ->.
    apply IH in H as [-> Hfm]. split; [done|]. intros nm g Hg.
    destruct (Hfm _ _ Hg) as [Hin|(nm' & Hin)].
    + left. by apply list_elem_of_further.
    + clear -Hin. induction acc as [|[k v] acc IHacc]; simpl in Hin.
      * apply list_elem_of_singleton in Hin. simplify_eq. left.
        apply list_elem_of_here.
      * destruct (String.eqb k n').
        -- apply elem_of_cons in Hin as [Hin|Hin].
           ++ simplify_eq. left. apply list_elem_of_here.
           ++ right. eexists. by apply list_elem_of_further.
        -- apply elem_of_cons in Hin as [Hin|Hin].
           ++ simplify_eq. right. eexists. apply list_elem_of_here.
           ++ destruct (IHacc Hin) as [?|(nm2 & ?)]; [by left|].
              right. exists nm2. by apply list_elem_of_further.
Qed.

Section Writes.

Variable ld : loc.
Variable F Q : list loc.

(** Activation writes the key [activated] of feature entries only. *)
Lemma iter_activate_effect sel n fm :
  ∀ h u h',
    (∀ nm l, (nm, VRef l) ∈ fm → l ∈ F) →
    iter (activate sel) fm h = Ok (u, h') →
    evolves n ld F Q h h'.
Proof.
  induction fm as [|[nm f] fm IH]; intros h u h' HF H; simpl in H.
  - apply ret_Ok in H. simplify_eq. apply evolves_refl.
  - apply bind_Ok in H as (u1 & h1 & Ha & H).
    apply bind_Ok in Ha as (a & h2 & Hd & Ha).
    apply reads_only_dict_get in Hd as ->.
    apply dict_setitem_Ok in Ha as (l & m & -> & Hm & ->).
    eapply evolves_trans.
    + apply evolves_setitem; [exact Hm|]. right.
      apply touched_activated. apply (HF nm). apply list_elem_of_here.
    + eapply IH; [|exact H]. intros nm' l' Hin. apply (HF nm').
      by apply list_elem_of_further.
Qed.

(** The features of the parent are read and activated. *)
Lemma activate_features_effect lp sel name h mp sf fm name' h' :
  lp < length h →
  h !! lp = Some (ODict mp) →
  (∀ lf, mp !! "features" = Some (VRef lf) → lf < length h) →
  (∀ lf xs, mp !! "features" = Some (VRef lf) →
            h !! lf = Some (OList xs) → omap ref_of xs ⊆ F) →
  activate_features (VRef lp) sel name h = Ok ((sf, fm, name'), h') →
  evolves (length h) ld F Q h h' ∧
  sf = default (VRef (length h)) (mp !! "features").
Proof.
  intros Hlp Hmp Hlt HF H. unfold activate_features in H.
  apply bind_Ok in H as (dflt & h1 & Ha & H).
  apply alloc_Ok in Ha as [-> ->].
  apply bind_Ok in H as (sf' & h1 & Hs & H).
  apply dict_get_Ok in Hs as (-> & l & m & [= <-] & Hm & ->).
  rewrite lookup_old in Hm by done. simplify_eq.
  apply bind_Ok in H as (dflt2 & h1 & Ha & H).
  apply alloc_Ok in Ha as [-> ->].
  rewrite <- app_assoc in H. simpl in H.
  apply bind_Ok in H as (fs & h1 & Hfs & H).
  apply as_list_Ok in Hfs as (-> & lf & Hsf & Hlf).
  apply bind_Ok in H as (fm' & h1 & Hfm & H).
  apply make_feature_map_effect in Hfm as [-> Hfm].
  apply bind_Ok in H as (u & h1 & Hact & H).
  apply bind_Ok in H as (st & h2 & Hst & H).
  apply reads_only_static_activated in Hst as ->.
  apply bind_Ok in H as (nm2 & h2 & Hnm & H).
  assert (h2 = h1) as ->.
  { destruct st; [|apply ret_Ok in Hnm; by simplify_eq].
    apply bind_Ok in Hnm as (x & h3 & Hx & Hnm).
    apply reads_only_as_str in Hx as ->. apply ret_Ok in Hnm.
    by simplify_eq. }
  apply ret_Ok in H. simplify_eq. split; [|done].
  eapply evolves_trans; [apply evolves_app|].
  eapply iter_activate_effect; [|exact Hact].
  intros nm l Hin. destruct (Hfm _ _ Hin) as [Hl|(nm' & Hl)];
    [|by apply not_elem_of_nil in Hl].
  destruct (mp !! "features") as [v|] eqn:Ef; simpl in Hsf.
  - subst v. pose proof (Hlt _ eq_refl) as Hlf'.
    rewrite lookup_old in Hlf by done.
    apply (HF lf fs eq_refl Hlf). by apply elem_of_omap_ref_of.
  - simplify_eq. rewrite lookup_new0 in Hlf. simplify_eq/=.
    by apply not_elem_of_nil in Hl.
Qed.

(** One environment of one feature: the base list is extended in
    place and, when not empty, stored in the working copy. *)
Lemma add_feature_reqs_effect n lr f k h u h' :
  k ∈ env_keys →
  reqs_inv Q n lr h →
  add_feature_reqs (VRef lr) f k h = Ok (u, h') →
  evolves n ld F Q h h' ∧ reqs_inv Q n lr h'.
Proof.
  intros Hk (Hn & Hlr & mr & Hmr & HQ) H. unfold add_feature_reqs in H.
  apply bind_Ok in H as (dflt & h1 & Ha & H).
  apply alloc_Ok in Ha as [-> ->].
  apply bind_Ok in H as (base & h1 & Hb & H).
  apply dict_get_Ok in Hb as (-> & l0 & m0 & [= <-] & Hm0 & ->).
  rewrite lookup_old in Hm0 by done. rewrite Hmr in Hm0.
  injection Hm0 as <-.
  apply bind_Ok in H as (freqs & h1 & Hf & H).
  apply reads_only_dict_item in Hf as ->.
  apply bind_Ok in H as (dflt2 & h1 & Ha & H).
  apply alloc_Ok in Ha as [-> ->].
  rewrite <- app_assoc in H. simpl in H.
  apply bind_Ok in H as (feat & h1 & Hf & H).
  apply reads_only_dict_get in Hf as ->.
  apply bind_Ok in H as (u1 & h1 & He & H).
  apply list_extend_Ok in He as (l & xs & ls & ys & Hbase & Hxs & -> & Hys & ->).
  assert (Hl : l ∈ Q ∨ n ≤ l).
  { destruct (mr !! k) as [v|] eqn:Ek; simpl in Hbase.
    - subst v. by eapply HQ.
    - simplify_eq. right. lia. }
  assert (Hne : l ≠ lr).
  { intros ->. rewrite lookup_old in Hxs by done. congruence. }
  assert (Hmr3 : <[l := OList (xs ++ ys)]> (h ++ [OList []; OList []]) !! lr
                 = Some (ODict mr)).
  { rewrite list_lookup_insert_ne by done. by rewrite lookup_old. }
  assert (Hev3 : evolves n ld F Q h
            (<[l := OList (xs ++ ys)]> (h ++ [OList []; OList []]))).
  { eapply evolves_trans; [apply evolves_app|].
    apply evolves_extend; [done|]. destruct Hl; auto. }
  apply bind_Ok in H as (len & h1 & Hlen & H).
  apply reads_only_list_len in Hlen as ->.
  destruct (0 <? len).
  - apply dict_setitem_Ok in H as (l' & m' & [= <-] & Hm' & ->).
    rewrite Hmr3 in Hm'. simplify_eq. split.
    + eapply evolves_trans; [exact Hev3|].
      by apply evolves_insert_fresh.
    + split; [done|]. split.
      { rewrite !length_insert, length_app. lia. }
      eexists. split.
      { apply list_lookup_insert_eq. rewrite length_insert, length_app. lia. }
      intros k' l' Hk' Hv. destruct (decide (k = k')) as [<-|Hkk].
      * rewrite lookup_insert_eq in Hv.
        assert (l' = l) as -> by congruence. destruct Hl; auto.
      * rewrite lookup_insert_ne in Hv by done. by eapply HQ.
  - apply ret_Ok in H. simplify_eq. split; [done|].
    split; [done|]. split.
    { rewrite length_insert, length_app. lia. }
    exists mr. split; [done|]. done.
Qed.

Lemma iter_add_feature_reqs_effect n lr f ks :
  ∀ h u h',
    ks ⊆ env_keys →
    reqs_inv Q n lr h →
    iter (add_feature_reqs (VRef lr) f) ks h = Ok (u, h') →
    evolves n ld F Q h h' ∧ reqs_inv Q n lr h'.
Proof.
  induction ks as [|k ks IH]; intros h u h' Hks HJ H; simpl in H.
  - apply ret_Ok in H. simplify_eq. split; [apply evolves_refl|done].
  - apply bind_Ok in H as (u1 & h1 & Hk & H).
    apply add_feature_reqs_effect with (n := n) in Hk as [He HJ1];
      [| apply Hks, list_elem_of_here | done].
    apply IH in H as [He2 HJ2]; [| |done].
    + split; [by eapply evolves_trans|done].
    + intros x Hx. apply Hks. by apply list_elem_of_further.
Qed.

Lemma iter_feature_requirements_effect n lr fm :
  ∀ h u h',
    reqs_inv Q n lr h →
    iter (feature_requirements (VRef lr)) fm h = Ok (u, h') →
    evolves n ld F Q h h' ∧ reqs_inv Q n lr h'.
Proof.
  induction fm as [|[nm f] fm IH]; intros h u h' HJ H; simpl in H.
  - apply ret_Ok in H. simplify_eq. split; [apply evolves_refl|done].
  - apply bind_Ok in H as (u1 & h1 & Hf & H).
    assert (evolves n ld F Q h h1 ∧ reqs_inv Q n lr h1) as [He HJ1].
    { unfold feature_requirements in Hf. cbn [snd] in Hf.
      apply bind_Ok in Hf as (a & h2 & Ha & Hf).
      apply reads_only_dict_item in Ha as ->.
      apply bind_Ok in Hf as (t & h2 & Ht & Hf).
      apply reads_only_truthy in Ht as ->.
      destruct t; [|apply ret_Ok in Hf; simplify_eq;
                     split; [apply evolves_refl|done]].
      apply bind_Ok in Hf as (fr & h2 & Hfr & Hf).
      apply reads_only_dict_get in Hfr as ->.
      apply bind_Ok in Hf as (has & h2 & Hhas & Hf).
      apply reads_only_truthy in Hhas as ->.
      destruct has; [|apply ret_Ok in Hf; simplify_eq;
                       split; [apply evolves_refl|done]].
      eapply iter_add_feature_reqs_effect; [|done|exact Hf]. done. }
    apply IH in H as [He2 HJ2]; [|done].
    split; [by eapply evolves_trans|done].
Qed.

(** The requirement lists: only lists of the raw record and lists
    made on the way are extended. *)
Lemma make_requirements_effect lrec h md fm r h' :
  lrec < length h →
  h !! lrec = Some (ODict md) →
  (∀ lq, md !! "requirements" = Some (VRef lq) → lq < length h) →
  (∀ lq mq k l, md !! "requirements" = Some (VRef lq) →
     h !! lq = Some (ODict mq) → k ∈ env_keys →
     mq !! k = Some (VRef l) → l ∈ Q) →
  make_requirements (VRef lrec) fm h = Ok (r, h') →
  evolves (length h) ld F Q h h'.
Proof.
  intros Hld Hmd Hlt HQ H. unfold make_requirements in H.
  apply bind_Ok in H as (dflt & h1 & Ha & H).
  apply alloc_Ok in Ha as [-> ->].
  apply bind_Ok in H as (dreqs & h1 & Hd & H).
  apply dict_get_Ok in Hd as (-> & l0 & m0 & [= <-] & Hm0 & ->).
  rewrite lookup_old in Hm0 by done. rewrite Hmd in Hm0.
  injection Hm0 as <-.
  apply bind_Ok in H as (m & h1 & Hm & H).
  apply as_dict_Ok in Hm as (-> & lq & Hlq & Hmq).
  apply bind_Ok in H as (reqs & h1 & Ha & H).
  apply alloc_Ok in Ha as [-> ->].
  rewrite <- app_assoc in H. simpl in H.
  rewrite length_app in H. simpl in H.
  apply bind_Ok in H as (u & h1 & Hit & H).
  apply iter_feature_requirements_effect with (n := length h) in Hit
    as [He HJ].
  - assert (h' = h1) as ->.
    { apply bind_Ok in H as (r1 & h2 & H1 & H).
      apply reads_only_section_specs in H1 as ->.
      apply bind_Ok in H as (r2 & h2 & H2 & H).
      apply reads_only_section_specs in H2 as ->.
      apply bind_Ok in H as (r3 & h2 & H3 & H).
      apply reads_only_section_specs in H3 as ->.
      apply bind_Ok in H as (r4 & h2 & H4 & H).
      apply reads_only_section_specs in H4 as ->.
      apply ret_Ok in H. by simplify_eq. }
    eapply evolves_trans; [apply evolves_app|exact He].
  - split; [lia|]. split; [rewrite length_app; simpl; lia|].
    exists m. split; [by rewrite lookup_new|].
    intros k l Hk Hv.
    destruct (md !! "requirements") as [v|] eqn:Er; simpl in Hlq.
    + subst v. pose proof (Hlt _ eq_refl).
      rewrite lookup_old in Hmq by done. left. by eapply HQ.
    + simplify_eq. rewrite lookup_new0 in Hmq. by simplify_eq/=.
Qed.

End Writes.

(** The declared run exports are read; defaults are allocated. *)
Lemma declared_run_exports_effect b h rx h' :
  declared_run_exports b h = Ok (rx, h') → ∃ ext, h' = h ++ ext.
Proof.
  intros H. unfold declared_run_exports in H.
  apply bind_Ok in H as (v & h1 & Hv & H).
  apply reads_only_dict_get in Hv as ->.
  apply bind_Ok in H as (t & h1 & Ht & H).
  apply reads_only_truthy in Ht as ->.
  destruct t; [|apply ret_Ok in H; simplify_eq; exists []; by rewrite app_nil_r].
  apply bind_Ok in H as (l & h1 & Hl & H).
  apply reads_only_is_list in Hl as ->.
  destruct l.
  - apply bind_Ok in H as (w & h1 & Hw & H).
    apply reads_only_spec_list in Hw as ->.
    apply ret_Ok in H. simplify_eq. exists []. by rewrite app_nil_r.
  - assert (Hstr : ∀ k h0 x h0',
              (dflt ← alloc (OList []);
               x ← dict_get v k dflt;
               rs ← as_list x;
               map_m (fun r => s ← as_str r; mret (Spec.CondaBuildSpec s)) rs)
                h0 = Ok (x, h0') → h0' = h0 ++ [OList []]).
    { intros k h0 x h0' Hx.
      apply bind_Ok in Hx as (dflt & h2 & Ha & Hx).
      apply alloc_Ok in Ha as [-> ->].
      apply bind_Ok in Hx as (y & h2 & Hy & Hx).
      apply reads_only_dict_get in Hy as ->.
      apply bind_Ok in Hx as (rs & h2 & Hrs & Hx).
      apply reads_only_as_list in Hrs as ->.
      eapply reads_only_map_m in Hx; [done|]. intros r. reads. }
    apply bind_Ok in H as (w & h1 & Hw & H). apply Hstr in Hw as ->.
    apply bind_Ok in H as (s & h1 & Hs & H). apply Hstr in Hs as ->.
    apply bind_Ok in H as (n & h1 & Hn & H). apply Hstr in Hn as ->.
    apply bind_Ok in H as (wc & h1 & Hwc & H). apply Hstr in Hwc as ->.
    apply bind_Ok in H as (sc & h1 & Hsc & H). apply Hstr in Hsc as ->.
    apply ret_Ok in H. simplify_eq. rewrite <- !app_assoc. by eexists.
Qed.

End Construction.

(** ** The constructor as a whole *)

Section Constructor.

Import Py HeapSpec Init.

(** Closes a goal from a membership [H] of a literal in a literal list
    that does not hold it. *)
Ltac absurd_elem H :=
  repeat (apply elem_of_cons in H as [H|H]; [discriminate H|]);
  by apply not_elem_of_nil in H.

Lemma not_touched_section ld F l sname :
  sname ∈ merged_sections → sname ∉ touched ld F l.
Proof.
  intros Hs Ht. apply touched_keys in Ht as [->| ->];
    unfold merged_sections in Hs; absurd_elem Hs.
Qed.

(** A section read after the source was bound is the section of the
    initial heap. *)
Lemma section_of_bound h ld x sname sv md :
  closed h → ld < length h → x < length h →
  h !! ld = Some (ODict md) →
  no_self_section h ld x →
  sname ∈ merged_sections →
  section_of (<[ld := ODict (<["source" := sv]> md)]> (h ++ [ODict ∅]))
    x sname = section_of h x sname.
Proof.
  intros Hc Hld Hx Hmd Hns Hs. unfold section_of.
  assert (Hsrc : sname ≠ "source").
  { intros ->. unfold merged_sections in Hs. absurd_elem Hs. }
  assert (Hval : ∀ mx, h !! x = Some (ODict mx) →
            match mx !! sname with
            | Some (VRef p) =>
                (<[ld := ODict (<["source" := sv]> md)]> (h ++ [ODict ∅]))
                  !! p = h !! p
            | _ => True
            end).
  { intros mx Hmx. destruct (mx !! sname) as [[| | | |p]|] eqn:Es; try done.
    assert (p ≠ ld).
    { intros ->. unfold no_self_section in Hns. rewrite Hmx in Hns.
      rewrite Forall_forall in Hns. by apply (Hns sname). }
    rewrite list_lookup_insert_ne by done. apply lookup_app_l.
    by eapply closed_dict. }
  destruct (decide (x = ld)) as [->|Hne].
  - rewrite list_lookup_insert_eq by (rewrite length_app; lia).
    rewrite Hmd. rewrite lookup_insert_ne by done.
    specialize (Hval _ Hmd).
    destruct (md !! sname) as [[| | | |p]|]; try done. by rewrite Hval.
  - rewrite list_lookup_insert_ne by done. rewrite lookup_app_l by done.
    destruct (h !! x) as [[mx|]|] eqn:E; try done.
    specialize (Hval _ eq_refl).
    destruct (mx !! sname) as [[| | | |p]|]; try done. by rewrite Hval.
Qed.

Lemma touched_late n ld F l :
  l < n → touched n F l ⊆ touched ld F l.
Proof.
  intros Hl k. unfold touched. rewrite !elem_of_app.
  intros [H|H]; [|by right].
  rewrite decide_False in H by lia. by apply not_elem_of_nil in H.
Qed.

Lemma touched_early ld F l : touched ld [] l ⊆ touched ld F l.
Proof.
  intros k. unfold touched. rewrite !elem_of_app.
  intros [H|H]; [by left|].
  rewrite decide_False in H by apply not_elem_of_nil.
  by apply not_elem_of_nil in H.
Qed.

Lemma construct_effect ld lp sel h a h' :
  closed h → ld < length h → lp < length h →
  construct (VRef ld) (VRef lp) sel h = Ok (a, h') →
  evolves (length h) ld (feature_locs h lp) (req_list_locs h ld) h h' ∧
  (∃ md mp md' sv,
     h !! ld = Some (ODict md) ∧ h !! lp = Some (ODict mp) ∧
     h' !! ld = Some (ODict md') ∧
     sv = default (default (VRef (length h)) (mp !! "source"))
                  (md !! "source") ∧
     md' !! "source" = Some sv ∧
     sections a !! "files" = Some (default VNone (md !! "files")) ∧
     (∀ v, mp !! "features" = Some v → sections a !! "features" = Some v) ∧
     (sections a !! "source" = Some sv
      ∨ ∃ lw, sections a !! "source" = Some (VRef lw) ∧ length h ≤ lw ∧
              h' !! lw = Some (OList [sv]))) ∧
  (no_self_section h ld ld → no_self_section h ld lp →
   ∀ sname, sname ∈ merged_sections →
     ∃ ls md mp,
       section_of h ld sname = Some md ∧ section_of h lp sname = Some mp ∧
       sections a !! sname = Some (VRef ls) ∧ length h ≤ ls ∧
       h' !! ls = Some (ODict (md ∪ mp))) ∧
  data a = VRef ld.
Proof.
  intros Hc Hld Hlp H. unfold construct in H.
  set (F := feature_locs h lp). set (Q := req_list_locs h ld).
  (* the source is bound *)
  apply bind_Ok in H as (u & h1 & Hb & H).
  apply bind_source_effect in Hb as (md & mp & Hmd & Hmp & ->);
    [|done|done].
  set (sv := default (default (VRef (length h)) (mp !! "source"))
                     (md !! "source")) in *.
  set (h1 := <[ld := ODict (<["source" := sv]> md)]> (h ++ [ODict ∅])) in *.
  assert (Hlen1 : length h1 = S (length h)).
  { subst h1. rewrite length_insert, length_app. simpl. lia. }
  assert (Hd1 : h1 !! ld = Some (ODict (<["source" := sv]> md))).
  { subst h1. apply list_lookup_insert_eq. rewrite length_app. lia. }
  assert (E1 : evolves (length h) ld [] [] h h1).
  { eapply evolves_trans; [apply (evolves_app _ _ _ _ _ [ODict ∅])|].
    apply evolves_setitem; [by rewrite lookup_app_l|].
    right. apply touched_source. }
  assert (Hread1 : ∀ x mx k, x < length h → h1 !! x = Some (ODict mx) →
            k ≠ "source" →
            ∃ m0, h !! x = Some (ODict m0) ∧ mx !! k = m0 !! k).
  { intros x mx k Hx Hmx Hk.
    destruct (evolves_dict_inv _ _ _ _ _ _ _ _ E1 Hx Hx Hmx)
      as (m0 & Hm0 & Hk0).
    exists m0. split; [done|]. apply Hk0. intros Ht.
    unfold touched in Ht. rewrite elem_of_app in Ht.
    destruct Ht as [Ht|Ht].
    - case_decide; [|by apply not_elem_of_nil in Ht].
      by apply list_elem_of_singleton in Ht.
    - rewrite decide_False in Ht by apply not_elem_of_nil.
      by apply not_elem_of_nil in Ht. }
  (* identity *)
  apply bind_Ok in H as ([[[[[nm ver] bs] bn] na] ip] & h2 & Hi & H).
  apply reads_only_read_identity in Hi as ->.
  (* sections *)
  apply bind_Ok in H as ([secs steps] & h2 & Hs & H).
  apply make_sections_effect with (mdx := <["source" := sv]> md) in Hs
    as ([ext2 ->] & Hsecs & Hfiles & Hsource); [|lia|lia|done|].
  2:{ intros sname x mx p Hsn Hx Hmx Hp.
      assert (x < length h) by (destruct Hx; by subst).
      destruct (Hread1 x mx sname) as (m0 & Hm0 & Hk0); [done|done| |].
      { intros ->. unfold merged_sections in Hsn. absurd_elem Hsn. }
      rewrite Hk0 in Hp. pose proof (closed_dict _ _ _ _ _ Hc Hm0 Hp). lia. }
  (* features *)
  apply bind_Ok in H as ([[sf fm] nm'] & h3 & Hf & H).
  assert (∃ mpx, (h1 ++ ext2) !! lp = Some (ODict mpx) ∧
                 mpx !! "features" = mp !! "features") as (mpx & Hmpx & Hfeat).
  { destruct (evolves_dict _ _ _ _ _ _ _ _ E1 Hlp Hmp) as (m1 & Hm1 & Hk1).
    exists m1. split; [apply lookup_app_l_Some; done|]. apply Hk1.
    intros Ht. apply touched_keys in Ht as [?|?]; done. }
  apply activate_features_effect
    with (ld := length h) (F := F) (Q := Q) (mp := mpx) in Hf
    as [E3 ->]; [|rewrite length_app; lia|done| |].
  2:{ intros lf Hlf. rewrite Hfeat in Hlf.
      pose proof (closed_dict _ _ _ _ _ Hc Hmp Hlf).
      rewrite length_app. lia. }
  2:{ intros lf xs Hlf Hxs. rewrite Hfeat in Hlf.
      pose proof (closed_dict _ _ _ _ _ Hc Hmp Hlf) as Hlt.
      rewrite lookup_app_l in Hxs by lia.
      assert (h !! lf = Some (OList xs)) as Hxs0.
      { by eapply (evolves_list_inv ld []). }
      subst F. unfold feature_locs. by rewrite Hmp, Hlf, Hxs0. }
  (* requirements *)
  apply bind_Ok in H as (reqs & h4 & Hr & H).
  assert (E13 : evolves (length h) ld F Q h h3).
  { eapply evolves_trans.
    - eapply evolves_mono; [|eapply evolves_touched; [|exact E1]].
      + intros x Hx. by apply not_elem_of_nil in Hx.
      + intros l _. apply touched_early.
    - eapply evolves_trans; [apply (evolves_app _ _ _ _ _ ext2)|].
      eapply evolves_touched; [|eapply evolves_weaken; [|exact E3]].
      + intros l Hl. by apply touched_late.
      + rewrite length_app. lia. }
  destruct (evolves_dict _ _ _ _ _ _ _ _ E13 Hld Hmd) as (md3 & Hmd3 & Hk3).
  assert (Hlen3 : length h ≤ length h3) by apply E13.
  apply make_requirements_effect
    with (ld := length h) (F := F) (Q := Q) (md := md3) in Hr
    as E4; [|lia|done| |].
  2:{ intros lq Hlq. rewrite Hk3 in Hlq.
      - pose proof (closed_dict _ _ _ _ _ Hc Hmd Hlq). lia.
      - intros Ht. apply touched_keys in Ht as [?|?]; done. }
  2:{ intros lq mq k l Hlq Hmq Hk Hl. rewrite Hk3 in Hlq.
      2:{ intros Ht. apply touched_keys in Ht as [?|?]; done. }
      pose proof (closed_dict _ _ _ _ _ Hc Hmd Hlq) as Hlt.
      destruct (evolves_dict_inv _ _ _ _ _ _ _ _ E13 Hlt Hlt Hmq)
        as (mq0 & Hmq0 & Hkq).
      rewrite Hkq in Hl.
      2:{ intros Ht. apply touched_keys in Ht as [->| ->];
            unfold env_keys in Hk; absurd_elem Hk. }
      subst Q. unfold req_list_locs. rewrite Hmd, Hlq, Hmq0.
      apply list_elem_of_omap. exists k. split; [done|].
      by rewrite Hl. }
  (* run exports *)
  apply bind_Ok in H as (bsec & h5 & Hbs & H).
  assert (h5 = h4) as ->.
  { destruct (secs !! "build"); [apply ret_Ok in Hbs; by simplify_eq|done]. }
  apply bind_Ok in H as (rx & h5 & Hrx & H).
  apply declared_run_exports_effect in Hrx as [ext5 ->].
  apply ret_Ok in H. injection H as -> ->.
  (* what happened after the sections were made *)
  assert (E25 : evolves (length (h1 ++ ext2)) (length h) F Q
                  (h1 ++ ext2) (h4 ++ ext5)).
  { eapply evolves_trans; [exact E3|].
    eapply evolves_trans; [|apply evolves_app].
    eapply evolves_weaken; [|exact E4]. apply E3. }
  assert (Hfresh : ∀ l o, length h < l → l < length (h1 ++ ext2) →
            (h1 ++ ext2) !! l = Some o → (h4 ++ ext5) !! l = Some o).
  { intros l o Hl1 Hl2 Ho. eapply evolves_same; [exact E25|done|done| |].
    - apply touched_fresh; [lia|]. intros Hin.
      apply (feature_locs_lt _ _ _ Hc) in Hin. lia.
    - intros Hin. apply (req_list_locs_lt _ _ _ Hc) in Hin. lia. }
  split; [|split; [|split; [|done]]].
  - eapply evolves_trans; [exact E13|].
    eapply evolves_trans; [|apply evolves_app].
    eapply evolves_touched; [|eapply evolves_weaken; [|exact E4]]; [|lia].
    intros l Hl. by apply touched_late.
  - destruct (evolves_dict _ _ _ _ _ _ ld (<["source" := sv]> md) E25)
      as (md' & Hmd' & Hk'); [rewrite length_app; lia| |].
    { by apply lookup_app_l_Some. }
    exists md, mp, md', sv. repeat split; try done.
    + rewrite Hk'; [apply lookup_insert_eq|].
      intros Ht. unfold touched in Ht. rewrite elem_of_app in Ht.
      destruct Ht as [Ht|Ht]; case_decide; try lia;
        try (by apply not_elem_of_nil in Ht).
      apply list_elem_of_singleton in Ht. done.
    + cbn [sections]. rewrite lookup_insert_ne by done.
      rewrite Hfiles. by rewrite lookup_insert_ne.
    + intros v Hv. cbn [sections]. rewrite lookup_insert_eq.
      by rewrite Hfeat, Hv.
    + cbn [sections]. rewrite lookup_insert_ne by done.
      destruct (Hsource sv (lookup_insert_eq _ _ _))
        as [Hsrc|(lw & Hsrc & Hlw & Hw)]; [by left|].
      right. exists lw. split; [done|]. split; [lia|].
      apply Hfresh; [lia|by eapply lookup_lt_Some|done].
  - intros Hns1 Hns2 sname Hsn.
    destruct (Hsecs sname Hsn) as (ls & mds & mps & Hd & Hp & Hsec & Hls & Hcont).
    subst h1. rewrite section_of_bound in Hd, Hp by done.
    exists ls, mds, mps. split; [done|]. split; [done|]. split.
    + cbn [sections]. rewrite lookup_insert_ne; [done|].
      intros <-. unfold merged_sections in Hsn. absurd_elem Hsn.
    + split; [lia|]. apply Hfresh; [lia|by eapply lookup_lt_Some|done].
Qed.

End Constructor.

Section ConstructorClaims.

Import Py HeapSpec Init InitSpec.

Lemma closed_snoc_empty h : closed h → closed (h ++ [ODict ∅]).
Proof.
  unfold closed. intros Hc. rewrite Forall_app, length_app. split.
  - eapply Forall_impl; [exact Hc|]. intros [m|xs] Ho; simpl in *.
    + eapply map_Forall_impl; [exact Ho|]. intros k [] Hv; simpl in *; lia.
    + eapply Forall_impl; [exact Ho|]. intros [] Hv; simpl in *; lia.
  - constructor; [|constructor]. simpl. apply map_Forall_empty.
Qed.

Lemma feature_locs_no_features h : feature_locs (h ++ [ODict ∅]) (length h) = [].
Proof. unfold feature_locs. by rewrite lookup_new0. Qed.

Lemma req_list_locs_snoc h ld o :
  closed h → ld < length h →
  req_list_locs (h ++ [o]) ld = req_list_locs h ld.
Proof.
  intros Hc Hld. unfold req_list_locs. rewrite lookup_app_l by done.
  destruct (h !! ld) as [[m|]|] eqn:E; try done.
  destruct (m !! "requirements") as [[| | | |lq]|] eqn:Er; try done.
  rewrite lookup_app_l; [done|]. by eapply closed_dict.
Qed.

Lemma section_of_snoc h x sname o :
  closed h → x < length h →
  section_of (h ++ [o]) x sname = section_of h x sname.
Proof.
  intros Hc Hx. apply section_of_app; [done|].
  intros mx p Hmx Hp. by eapply closed_dict.
Qed.

Lemma no_self_section_snoc h ld x o :
  x < length h → no_self_section h ld x → no_self_section (h ++ [o]) ld x.
Proof.
  intros Hx. unfold no_self_section. by rewrite lookup_app_l.
Qed.

(** [__init__] in terms of [construct]: the parent is the given object or
    a new empty dictionary at the end of the heap. *)
Lemma init_cases ld parent sel h a h' :
  __init__ (VRef ld) parent sel h = Ok (a, h') →
  (∃ pv, parent = Some pv ∧ construct (VRef ld) pv sel h = Ok (a, h'))
  ∨ (parent = None ∧
     construct (VRef ld) (VRef (length h)) sel (h ++ [ODict ∅]) = Ok (a, h')).
Proof.
  intros H. unfold __init__ in H.
  apply bind_Ok in H as (pv & h1 & Hp & H). destruct parent as [p|].
  - apply ret_Ok in Hp. simplify_eq. left. by eexists.
  - apply alloc_Ok in Hp as [-> ->]. by right.
Qed.

Lemma construct_parent_ref ld pv sel h r :
  construct (VRef ld) pv sel h = Ok r → ∃ lp, pv = VRef lp.
Proof.
  intros H. unfold construct in H.
  apply bind_Ok in H as (u & h1 & Hb & _). unfold bind_source in Hb.
  apply bind_Ok in Hb as (dflt & h2 & _ & Hb).
  apply bind_Ok in Hb as (psrc & h3 & Hp & _).
  apply dict_get_Ok in Hp as (_ & l & m & -> & _). by exists l.
Qed.

(** C5 (amended).  Construction leaves every object of the heap as it
    was, except that the raw record gets its [source] key bound (its other
    keys stay as they were, and so does its own source when it has one) and
    that an entry of the parent's feature list may get its [activated] key
    bound (its other keys stay as they were).  The requirement lists nested
    in the raw record are left out of the statement. *)
Theorem init_side_effects (ld : loc) (parent : option val)
    (sel : gmap string val) (h : list obj) (a : Attrs) (h' : list obj) :
  closed h → ld < length h →
  (∀ lp, parent = Some (VRef lp) → lp < length h) →
  __init__ (VRef ld) parent sel h = Ok (a, h') →
  let F := parent_feature_locs h parent in
  let Q := req_list_locs h ld in
  (∀ l o, h !! l = Some o → l ∉ Q →
     ∃ o', h' !! l = Some o' ∧
       (o' = o
        ∨ (∃ m m', o = ODict m ∧ o' = ODict m' ∧
             ∀ k, k ∉ touched ld F l → m' !! k = m !! k))) ∧
  (∀ l o, h !! l = Some o → l ≠ ld → l ∉ F → l ∉ Q → h' !! l = Some o) ∧
  (∃ md md', h !! ld = Some (ODict md) ∧ h' !! ld = Some (ODict md') ∧
             is_Some (md' !! "source") ∧
             ∀ v, md !! "source" = Some v → md' !! "source" = Some v) ∧
  data a = VRef ld.
Proof.
  intros Hc Hld Hpar H F Q.
  assert (Hmain : evolves (length h) ld F Q h h' ∧
            (∃ md md', h !! ld = Some (ODict md) ∧
               h' !! ld = Some (ODict md') ∧ is_Some (md' !! "source") ∧
               ∀ v, md !! "source" = Some v → md' !! "source" = Some v) ∧
            data a = VRef ld).
  { destruct (init_cases _ _ _ _ _ _ H) as [(pv & -> & Hcons)|[-> Hcons]].
    - destruct (construct_parent_ref _ _ _ _ _ Hcons) as [lp ->].
      destruct (construct_effect _ _ _ _ _ _ Hc Hld (Hpar _ eq_refl) Hcons)
        as (He & (md & mp & md' & sv & Hmd & Hmp & Hmd' & Hsv & Hsrc & _) & _ & Hdata).
      split; [exact He|]. split; [|done].
      exists md, md'. repeat split; try done.
      intros v Hv. rewrite Hsrc, Hsv, Hv. done.
    - destruct (construct_effect ld (length h) sel (h ++ [ODict ∅]) a h')
        as (He & (md & mp & md' & sv & Hmd & Hmp & Hmd' & Hsv & Hsrc & _) & _ & Hdata);
        [by apply closed_snoc_empty|rewrite length_app; lia
        |rewrite length_app; simpl; lia|done|].
      rewrite feature_locs_no_features in He.
      rewrite req_list_locs_snoc in He by done.
      rewrite lookup_app_l in Hmd by done.
      split; [|split; [|done]].
      + eapply evolves_trans; [apply (evolves_app _ _ _ _ _ [ODict ∅])|].
        eapply evolves_weaken; [|exact He]. rewrite length_app. lia.
      + exists md, md'. repeat split; try done.
        intros v Hv. rewrite Hsrc, Hsv, Hv. done. }
  destruct Hmain as (He & Hd & Hdata).
  split; [|split; [|split; [exact Hd|exact Hdata]]].
  - intros l o Ho HQ. destruct He as [_ He].
    destruct (He l o) as (o' & Ho' & Hev); [by eapply lookup_lt_Some|done|].
    exists o'. split; [done|].
    destruct Hev as [->|[Hd'|[Hq _]]]; [by left|by right|done].
  - intros l o Ho Hne HF HQ.
    eapply evolves_same; [exact He|by eapply lookup_lt_Some|done| |done].
    by apply touched_fresh.
Qed.

(** C6 (amended).  Each of the sections build, package, app, extra and
    test of the constructed Output is a new dictionary that holds the
    parent's section overlaid with the record's own: a key of the record
    has the record's value, a key of the parent that the record lacks has
    the parent's.  The other sections are not merged: [files] is the
    record's own entry, [features] is the parent's list, and [source] is
    the source bound in the record (the record's own when it has one),
    as it is or alone in a new list. *)
Theorem init_sections (ld : loc) (parent : option val)
    (sel : gmap string val) (h : list obj) (a : Attrs) (h' : list obj) :
  closed h → ld < length h →
  no_self_section h ld ld → parent_ok h ld parent →
  __init__ (VRef ld) parent sel h = Ok (a, h') →
  (∀ sname, sname ∈ merged_sections →
     ∃ ls md mp,
       section_of h ld sname = Some md ∧
       parent_section h parent sname = Some mp ∧
       sections a !! sname = Some (VRef ls) ∧ length h ≤ ls ∧
       h' !! ls = Some (ODict (md ∪ mp)) ∧
       (∀ k v, md !! k = Some v → (md ∪ mp) !! k = Some v) ∧
       (∀ k v, mp !! k = Some v → md !! k = None →
               (md ∪ mp) !! k = Some v)) ∧
  (∃ md md' sv,
     h !! ld = Some (ODict md) ∧ h' !! ld = Some (ODict md') ∧
     md' !! "source" = Some sv ∧
     (∀ v, md !! "source" = Some v → sv = v) ∧
     sections a !! "files" = Some (default VNone (md !! "files")) ∧
     (∀ v, parent_entry h parent "features" = Some v →
           sections a !! "features" = Some v) ∧
     (sections a !! "source" = Some sv
      ∨ ∃ lw, sections a !! "source" = Some (VRef lw) ∧ length h ≤ lw ∧
              h' !! lw = Some (OList [sv]))).
Proof.
  intros Hc Hld Hns Hpar H.
  destruct (init_cases _ _ _ _ _ _ H) as [(pv & -> & Hcons)|[-> Hcons]].
  - destruct (construct_parent_ref _ _ _ _ _ Hcons) as [lp ->].
    destruct Hpar as [Hlp Hnsp].
    destruct (construct_effect _ _ _ _ _ _ Hc Hld Hlp Hcons)
      as (_ & (md & mp & md' & sv & Hmd & Hmp & Hmd' & Hsv & Hsrc & Hfiles
               & Hfeat & Hsource) & Hsec & _).
    split.
    + intros sname Hsn.
      destruct (Hsec Hns Hnsp sname Hsn)
        as (ls & mds & mps & Hd & Hp & Hs & Hls & Hcont).
      exists ls, mds, mps. repeat split; try done.
      * intros k v Hv. by apply lookup_union_Some_l.
      * intros k v Hv Hnone. rewrite lookup_union_r; done.
    + exists md, md', sv. repeat split; try done.
      * intros v Hv. rewrite Hsv, Hv. done.
      * intros v Hv. apply Hfeat. simpl in Hv. by rewrite Hmp in Hv.
  - destruct (construct_effect ld (length h) sel (h ++ [ODict ∅]) a h')
      as (_ & (md & mp & md' & sv & Hmd & Hmp & Hmd' & Hsv & Hsrc & Hfiles
               & Hfeat & Hsource) & Hsec & _);
      [by apply closed_snoc_empty|rewrite length_app; lia
      |rewrite length_app; simpl; lia|done|].
    rewrite lookup_app_l in Hmd by done.
    rewrite length_app in Hsource. simpl in Hsource.
    split.
    + intros sname Hsn.
      destruct (Hsec (no_self_section_snoc _ _ _ _ Hld Hns)) with (sname := sname)
        as (ls & mds & mps & Hd & Hp & Hs & Hls & Hcont); [|done|].
      { unfold no_self_section. rewrite lookup_new0. simpl.
        rewrite Forall_forall. intros x _. by rewrite lookup_empty. }
      rewrite section_of_snoc in Hd by done.
      unfold section_of in Hp. rewrite lookup_new0 in Hp. simpl in Hp.
      rewrite lookup_empty in Hp. simplify_eq.
      rewrite length_app in Hls. simpl in Hls.
      exists ls, mds, ∅. repeat split; try done; try lia.
      * intros k v Hv. by apply lookup_union_Some_l.
    + exists md, md', sv. repeat split; try done.
      * intros v Hv. rewrite Hsv, Hv. done.
      * destruct Hsource as [Hs|(lw & Hs & Hlw & Hw)]; [by left|].
        right. exists lw. repeat split; try done. lia.
Qed.

End ConstructorClaims.

Lemma init_side_effects_witness :
  match Init.__init__ (Py.VRef 0) (Some (Py.VRef 5)) ∅ SampleInit.heap with
  | Ok (a, h') =>
      (∀ l o, SampleInit.heap !! l = Some o → l ≠ 0 →
         l ∉ InitSpec.parent_feature_locs SampleInit.heap (Some (Py.VRef 5)) →
         l ∉ HeapSpec.req_list_locs SampleInit.heap 0 →
         h' !! l = Some o) ∧
      Init.data a = Py.VRef 0
  | Raise _ => False
  end.
Proof.
  destruct (Init.__init__ (Py.VRef 0) (Some (Py.VRef 5)) ∅ SampleInit.heap)
    as [[a h']|e] eqn:E.
  - destruct (init_side_effects 0 (Some (Py.VRef 5)) ∅ SampleInit.heap a h')
      as (_ & Hframe & _ & Hdata).
    + apply (@bool_decide_unpack _ (HeapSpec.closed_dec _)).
      vm_compute. reflexivity.
    + simpl. lia.
    + intros lp [= <-]. simpl. lia.
    + exact E.
    + split; [exact Hframe|exact Hdata].
  - vm_compute in E. discriminate E.
Defined.

(** C5, as stated, fails.  Constructing the step of [SampleInit.heap] under
    its parent binds the key [source] in the raw record (to the parent's
    source object), binds the key [activated] in the parent's feature entry,
    and appends the feature's build requirement to the build list nested in
    the raw record. *)
Lemma init_mutates_arguments :
  ∃ a h',
    Init.__init__ (Py.VRef 0) (Some (Py.VRef 5)) ∅ SampleInit.heap
      = Ok (a, h') ∧
    (∃ md md', SampleInit.heap !! 0 = Some (Py.ODict md) ∧
               h' !! 0 = Some (Py.ODict md') ∧
               md !! "source" = None ∧ md' !! "source" = Some (Py.VRef 6)) ∧
    (∃ mf mf', SampleInit.heap !! 8 = Some (Py.ODict mf) ∧
               h' !! 8 = Some (Py.ODict mf') ∧
               mf !! "activated" = None ∧
               mf' !! "activated" = Some (Py.VBool true)) ∧
    SampleInit.heap !! 4 = Some (Py.OList [Py.VStr "cmake"]) ∧
    h' !! 4 = Some (Py.OList [Py.VStr "cmake"; Py.VStr "ninja"]).
Proof.
  eexists _, _. split; [vm_compute; reflexivity|].
  split. { eexists _, _. repeat split; vm_compute; reflexivity. }
  split. { eexists _, _. repeat split; vm_compute; reflexivity. }
  split; vm_compute; reflexivity.
Qed.

Lemma init_sections_witness :
  match Init.__init__ (Py.VRef 0) (Some (Py.VRef 4)) ∅ SampleInit.layered with
  | Ok (a, h') =>
      ∃ ls ms, Init.sections a !! "build" = Some (Py.VRef ls) ∧
               h' !! ls = Some (Py.ODict ms) ∧
               ms !! "number" = Some (Py.VInt 1) ∧
               ms !! "script" = Some (Py.VStr "make")
  | Raise _ => False
  end.
Proof.
  destruct (Init.__init__ (Py.VRef 0) (Some (Py.VRef 4)) ∅ SampleInit.layered)
    as [[a h']|e] eqn:E.
  - destruct (init_sections 0 (Some (Py.VRef 4)) ∅ SampleInit.layered a h')
      as (Hsec & _).
    + apply (@bool_decide_unpack _ (HeapSpec.closed_dec _)).
      vm_compute. reflexivity.
    + simpl. lia.
    + apply (@bool_decide_unpack _ (HeapSpec.no_self_section_dec _ _ _)).
      vm_compute. reflexivity.
    + apply (@bool_decide_unpack _ (InitSpec.parent_ok_dec _ _ _)).
      vm_compute. reflexivity.
    + exact E.
    + destruct (Hsec "build") as (ls & md & mp & Hd & Hp & Hs & _ & Hc & Hown & Hinh).
      { unfold HeapSpec.merged_sections. apply list_elem_of_here. }
      exists ls, (md ∪ mp). split; [exact Hs|]. split; [exact Hc|].
      vm_compute in Hd, Hp. injection Hd as <-. injection Hp as <-.
      split; [apply Hown|apply Hinh]; vm_compute; reflexivity.
  - vm_compute in E. discriminate E.
Defined.

(** C6, as stated, fails for the sections files and source.  Under a parent
    that declares [files] and a source with the key [url], the step of
    [SampleInit.layered], which declares its own source with the key [path],
    is constructed with no [files] at all and with a source section that
    holds the step's own source only: the parent's [url] is not in it. *)
Lemma init_sections_not_all_merged :
  ∃ a h' lw,
    Init.__init__ (Py.VRef 0) (Some (Py.VRef 4)) ∅ SampleInit.layered
      = Ok (a, h') ∧
    InitSpec.parent_entry SampleInit.layered (Some (Py.VRef 4)) "files"
      = Some (Py.VRef 6) ∧
    Init.sections a !! "files" = Some Py.VNone ∧
    Init.sections a !! "source" = Some (Py.VRef lw) ∧
    h' !! lw = Some (Py.OList [Py.VRef 3]) ∧
    h' !! 3 = Some (Py.ODict {["path" := Py.VStr "p"]}) ∧
    HeapSpec.section_of SampleInit.layered 4 "source"
      = Some {["url" := Py.VStr "u"]}.
Proof.
  eexists _, _, _. split; [vm_compute; reflexivity|].
  repeat split; vm_compute; reflexivity.
Qed.

(** * Further properties *)

(** ** Requirement inheritance *)

Lemma merge_fold (names : list string) (a : list Spec.t) :
  ∀ b,
    fold_left (fun b r => if bool_decide (Spec.name r ∈ names) then b
                          else b ++ [Spec.set_is_inherited true r]) a b
    = b ++ (Spec.set_is_inherited true
              <$> List.filter
                    (fun r => negb (bool_decide (Spec.name r ∈ names))) a).
Proof.
  induction a as [|r a IH]; intros b; simpl.
  - by rewrite app_nil_r.
  - rewrite IH. case_bool_decide; simpl; [done|].
    by rewrite <- app_assoc.
Qed.

Lemma merge_requirements_closed (a b : list Spec.t) :
  merge_requirements a b
  = b ++ (Spec.set_is_inherited true
            <$> List.filter
                  (fun r => negb (bool_decide
                                    (Spec.name r ∈ Spec.name <$> b))) a).
Proof. apply merge_fold. Qed.

Lemma filter_none {A} (f : A → bool) (l : list A) :
  (∀ x, x ∈ l → f x = false) → List.filter f l = [].
Proof.
  induction l as [|x l IH]; intros H; [done|]. simpl.
  rewrite (H x) by apply list_elem_of_here.
  apply IH. intros y Hy. apply H. by apply list_elem_of_further.
Qed.

Lemma merge_requirements_names (a b : list Spec.t) (r : Spec.t) :
  r ∈ a → Spec.name r ∈ Spec.name <$> merge_requirements a b.
Proof.
  intros Hr. rewrite merge_requirements_closed, fmap_app, elem_of_app.
  destruct (decide (Spec.name r ∈ Spec.name <$> b)) as [Hb|Hb]; [by left|].
  right. apply list_elem_of_fmap.
  exists (Spec.set_is_inherited true r). split; [done|].
  apply list_elem_of_fmap. exists r. split; [done|].
  apply list_elem_of_In, filter_In. split; [by apply list_elem_of_In|].
  by rewrite bool_decide_eq_false_2.
Qed.

(** X1.  Merging the requirements [a] of a required step into the list
    [b] keeps [b] as it is and puts copies of entries of [a] at its end:
    each copy is flagged as inherited and has a name that [b] did not
    have; afterwards every name of [a] is a name of the list. *)
Theorem merge_requirements_extends (a b : list Spec.t) :
  ∃ added,
    merge_requirements a b = b ++ added ∧
    Forall (fun s => Spec.is_inherited s = true ∧
                     (Spec.name s ∉ Spec.name <$> b) ∧
                     ∃ r, r ∈ a ∧ s = Spec.set_is_inherited true r) added ∧
    (∀ r, r ∈ a → Spec.name r ∈ Spec.name <$> merge_requirements a b).
Proof.
  eexists. split; [apply merge_requirements_closed|]. split.
  - apply Forall_forall. intros s Hs.
    apply list_elem_of_fmap in Hs as (r & -> & Hr).
    apply list_elem_of_In, filter_In in Hr as [Hr Hn].
    apply list_elem_of_In in Hr. apply negb_true_iff in Hn.
    apply bool_decide_eq_false in Hn.
    split; [done|]. split; [done|]. by exists r.
  - intros r Hr. by apply merge_requirements_names.
Qed.

(** X2.  Inheriting the same requirements a second time adds nothing, and
    so does inheriting a list into itself. *)
Theorem merge_requirements_idempotent (a b : list Spec.t) :
  merge_requirements a (merge_requirements a b) = merge_requirements a b
  ∧ merge_requirements b b = b.
Proof.
  split.
  - rewrite (merge_requirements_closed a (merge_requirements a b)).
    rewrite filter_none; [by rewrite app_nil_r|].
    intros r Hr. apply negb_false_iff, bool_decide_eq_true.
    by apply merge_requirements_names.
  - rewrite merge_requirements_closed.
    rewrite filter_none; [by rewrite app_nil_r|].
    intros r Hr. apply negb_false_iff, bool_decide_eq_true.
    apply list_elem_of_fmap. by exists r.
Qed.

Lemma merge_into_effect (e : env) (p self : nat) (σ σ1 : store) :
  merge_into e p self σ = Ok σ1 →
  length σ1 = length σ ∧
  (∀ l, l ≠ self → σ1 !! l = σ !! l) ∧
  ∃ this l, σ !! self = Some this ∧
            σ1 !! self = Some (with_reqs e l this) ∧
            reqs_of e this `prefix_of` l.
Proof.
  unfold merge_into. intros H.
  destruct (σ !! p) as [step|]; [|done].
  destruct (σ !! self) as [this|] eqn:Hs; [|done]. simplify_eq.
  split; [apply length_insert|]. split.
  - intros l Hl. by apply list_lookup_insert_ne.
  - eexists this, _. split; [done|]. split.
    + apply list_lookup_insert_eq. by eapply lookup_lt_Some.
    + rewrite merge_requirements_closed. by eexists.
Qed.

Lemma inherit_requirements_effect (steps : gmap string nat) (self : nat)
    (required_steps : list string) :
  ∀ σ r σ',
    inherit_requirements steps self required_steps σ = (r, σ') →
    length σ' = length σ ∧
    (∀ l, l ≠ self → σ' !! l = σ !! l) ∧
    (∀ this, σ !! self = Some this →
       ∃ this', σ' !! self = Some this' ∧
         reqs_of Build this `prefix_of` reqs_of Build this' ∧
         reqs_of Host this `prefix_of` reqs_of Host this' ∧
         ∃ rq, this' = set_requirements rq this ∧
               run rq = run (requirements this) ∧
               run_constrained rq = run_constrained (requirements this)).
Proof.
  assert (Hrefl : ∀ (σ : store) this, σ !! self = Some this →
            ∃ this', σ !! self = Some this' ∧
              reqs_of Build this `prefix_of` reqs_of Build this' ∧
              reqs_of Host this `prefix_of` reqs_of Host this' ∧
              ∃ rq, this' = set_requirements rq this ∧
                    run rq = run (requirements this) ∧
                    run_constrained rq = run_constrained (requirements this)).
  { intros σ this Hs. exists this. split; [done|]. split; [done|].
    split; [done|]. exists (requirements this). by destruct this. }
  induction required_steps as [|s rest IH]; intros σ r σ' H; simpl in H.
  - simplify_eq. split; [done|]. split; [done|]. apply Hrefl.
  - destruct (steps !! s) as [p|].
    2:{ simplify_eq. split; [done|]. split; [done|]. apply Hrefl. }
    destruct (merge_into Build p self σ) as [σ1|] eqn:E1.
    2:{ simplify_eq. split; [done|]. split; [done|]. apply Hrefl. }
    destruct (merge_into_effect _ _ _ _ _ E1)
      as (Hlen1 & Hfr1 & this0 & l1 & Hs0 & Hs1 & Hp1).
    assert (Hstep1 : ∀ this, σ !! self = Some this →
              ∃ this1, σ1 !! self = Some this1 ∧
                reqs_of Build this `prefix_of` reqs_of Build this1 ∧
                reqs_of Host this `prefix_of` reqs_of Host this1 ∧
                ∃ rq, this1 = set_requirements rq this ∧
                      run rq = run (requirements this) ∧
                      run_constrained rq
                      = run_constrained (requirements this)).
    { intros this Hs. assert (this0 = this) as -> by congruence.
      eexists. split; [exact Hs1|]. split; [done|]. split; [done|].
      by eexists. }
    destruct (merge_into Host p self σ1) as [σ2|] eqn:E2.
    2:{ simplify_eq. split; [done|]. split; [done|]. exact Hstep1. }
    destruct (merge_into_effect _ _ _ _ _ E2)
      as (Hlen2 & Hfr2 & this1 & l2 & Hs1' & Hs2 & Hp2).
    destruct (IH _ _ _ H) as (Hlen & Hfr & Hself).
    split; [congruence|]. split.
    + intros l Hl. rewrite Hfr, Hfr2, Hfr1; done.
    + intros this Hs. assert (this0 = this) as -> by congruence.
      assert (this1 = with_reqs Build l1 this) as -> by congruence.
      destruct (Hself _ Hs2)
        as (this' & Hs' & Hb' & Hh' & rq & -> & Hrun & Hrc).
      exists (set_requirements rq (with_reqs Host l2 (with_reqs Build l1 this))).
      split; [done|]. split; [|split].
      * etrans; [exact Hp1|]. exact Hb'.
      * etrans; [exact Hp2|]. exact Hh'.
      * exists rq. split; [done|]. by rewrite Hrun, Hrc.
Qed.

(** X3.  Requirement inheritance writes the Output's own build and host
    lists only, and only at their ends: whether it returns or raises, no
    other Output of the store is changed, the entries that were in the two
    lists keep their places, and the run and run_constrained lists and the
    other attributes are as before. *)
Theorem inherit_requirements_frame (steps : gmap string nat) (self : nat)
    (required_steps : list string) (σ : store) (this : Output) :
  σ !! self = Some this →
  let σ' := snd (inherit_requirements steps self required_steps σ) in
  length σ' = length σ ∧
  (∀ l, l ≠ self → σ' !! l = σ !! l) ∧
  ∃ this', σ' !! self = Some this' ∧
    reqs_of Build this `prefix_of` reqs_of Build this' ∧
    reqs_of Host this `prefix_of` reqs_of Host this' ∧
    ∃ rq, this' = set_requirements rq this ∧
          run rq = run (requirements this) ∧
          run_constrained rq = run_constrained (requirements this).
Proof.
  intros Hs σ'. subst σ'.
  destruct (inherit_requirements steps self required_steps σ)
    as [r σ'] eqn:E.
  destruct (inherit_requirements_effect _ _ _ _ _ _ E) as (Hlen & Hfr & Hself).
  simpl. split; [done|]. split; [done|]. by apply Hself.
Qed.

Lemma merge_into_total (e : env) (p self : nat) (σ : store) :
  p < length σ → self < length σ → ∃ σ1, merge_into e p self σ = Ok σ1.
Proof.
  intros Hp Hs. unfold merge_into.
  destruct (lookup_lt_is_Some_2 σ p Hp) as [step ->].
  destruct (lookup_lt_is_Some_2 σ self Hs) as [this ->]. by eexists.
Qed.

Lemma inherit_requirements_app (steps : gmap string nat) (self : nat)
    (pre post : list string) :
  ∀ σ,
    Forall (fun s => ∃ p, steps !! s = Some p ∧ p < length σ) pre →
    self < length σ →
    ∃ σ1, inherit_requirements steps self pre σ = (Ok tt, σ1) ∧
          length σ1 = length σ ∧
          inherit_requirements steps self (pre ++ post) σ
          = inherit_requirements steps self post σ1.
Proof.
  induction pre as [|s pre IH]; intros σ Hall Hself.
  - by exists σ.
  - inversion Hall as [|? ? (p & Hp & Hlt) Hall']; subst. simpl. rewrite Hp.
    destruct (merge_into_total Build p self σ Hlt Hself) as [σ1 E1].
    rewrite E1.
    destruct (merge_into_effect _ _ _ _ _ E1) as (Hlen1 & _).
    destruct (merge_into_total Host p self σ1) as [σ2 E2]; [lia|lia|].
    rewrite E2.
    destruct (merge_into_effect _ _ _ _ _ E2) as (Hlen2 & _).
    destruct (IH σ2) as (σ3 & H3 & Hlen3 & Happ).
    + eapply Forall_impl; [exact Hall'|]. intros s' (q & Hq & Hql).
      exists q. split; [done|]. lia.
    + lia.
    + exists σ3. split; [done|]. split; [lia|done].
Qed.

(** X4.  A required step that is missing from [steps] makes the
    inheritance raise [KeyError] for that step, and nothing is rolled
    back: the store is left as the inheritance from the steps before it
    has made it. *)
Theorem inherit_requirements_missing_step (steps : gmap string nat)
    (self : nat) (pre : list string) (s : string) (post : list string)
    (σ : store) :
  Forall (fun s' => ∃ p, steps !! s' = Some p ∧ p < length σ) pre →
  self < length σ →
  steps !! s = None →
  inherit_requirements steps self (pre ++ s :: post) σ
  = (Raise (KeyError s), snd (inherit_requirements steps self pre σ)).
Proof.
  intros Hall Hself Hs.
  destruct (inherit_requirements_app steps self pre (s :: post) σ Hall Hself)
    as (σ1 & H1 & _ & ->).
  rewrite H1. simpl. by rewrite Hs.
Qed.

Lemma inherit_requirements_frame_witness :
  let σ' := snd (inherit_requirements SampleInherit.steps 1 ["lib"]
                   SampleInherit.σ) in
  length σ' = length SampleInherit.σ ∧
  (∀ l, l ≠ 1 → σ' !! l = SampleInherit.σ !! l) ∧
  ∃ this', σ' !! 1 = Some this' ∧
    reqs_of Build SampleInherit.app `prefix_of` reqs_of Build this' ∧
    reqs_of Host SampleInherit.app `prefix_of` reqs_of Host this' ∧
    ∃ rq, this' = set_requirements rq SampleInherit.app ∧
          run rq = run (requirements SampleInherit.app) ∧
          run_constrained rq
          = run_constrained (requirements SampleInherit.app).
Proof.
  apply (inherit_requirements_frame SampleInherit.steps 1 ["lib"]
           SampleInherit.σ SampleInherit.app).
  reflexivity.
Defined.

Lemma inherit_requirements_missing_step_witness :
  inherit_requirements SampleInherit.steps 1 (["lib"] ++ "ghost" :: [])
    SampleInherit.σ
  = (Raise (KeyError "ghost"),
     snd (inherit_requirements SampleInherit.steps 1 ["lib"] SampleInherit.σ)).
Proof.
  apply (inherit_requirements_missing_step SampleInherit.steps 1 ["lib"]
           "ghost" [] SampleInherit.σ).
  - constructor; [|constructor]. exists 0. split; [reflexivity|simpl; lia].
  - simpl; lia.
  - reflexivity.
Defined.

(** ** Skip rules *)

Lemma filter_nonempty_existsb {A} (f : A → bool) (l : list A) :
  (0 <? length (List.filter f l)) = existsb f l.
Proof.
  induction l as [|x l IH]; [done|]. simpl. by destruct (f x).
Qed.

Lemma existsb_Forall_false {A} (f : A → bool) (l : list A) :
  Forall (fun x => f x = false) l → existsb f l = false.
Proof. induction 1 as [|x l Hx _ IH]; [done|]. simpl. by rewrite Hx. Qed.

Lemma existsb_Exists_true {A} (f : A → bool) (l : list A) :
  Exists (fun x => f x = true) l → existsb f l = true.
Proof.
  induction 1 as [x l Hx|x l _ IH]; simpl.
  - by rewrite Hx.
  - rewrite IH. by destruct (f x).
Qed.

Section SkipFacts.

Variable eval_selector : string -> Config -> bool.
Variable native_compiler : string -> Config -> string.
Variable get_or_merge_config : Config -> gmap string string -> Config.

Local Abbreviation skip := (skip eval_selector).
Local Abbreviation apply_variant :=
  (apply_variant native_compiler get_or_merge_config).

Lemma skip_cases (skips : list string) (o : Output) :
  skip skips o =
  if existsb (fun x => eval_selector x (config o)) skips then
    match differentiating_variant o with
    | Some _ => Ok true
    | None => Raise (AttributeError "differentiating_variant")
    end
  else Ok false.
Proof.
  unfold skip.
  rewrite filter_nonempty_existsb.
  destruct (existsb _ skips) eqn:E.
  - destruct (differentiating_variant o); simpl; [|done].
    rewrite <- filter_nonempty_existsb in E.
    destruct (List.filter _ skips); [done|done].
  - simpl. rewrite <- filter_nonempty_existsb in E.
    by destruct (List.filter _ skips).
Qed.

(** X5.  On an Output that no variant has been applied to, [skip]
    answers [false] when no skip selector holds, and raises
    [AttributeError] as soon as one does: the report it then prints
    reads [differentiating_variant], which the constructor does not
    bind. *)
Theorem skip_before_variant (skips : list string) (o : Output) :
  differentiating_variant o = None →
  (Forall (fun x => eval_selector x (config o) = false) skips →
   skip skips o = Ok false) ∧
  (Exists (fun x => eval_selector x (config o) = true) skips →
   skip skips o = Raise (AttributeError "differentiating_variant")).
Proof.
  intros Hdv. rewrite skip_cases, Hdv. split; intros H.
  - by rewrite existsb_Forall_false.
  - by rewrite existsb_Exists_true.
Qed.

(** X6.  On the copy that [apply_variant] returns, [skip] never raises:
    it answers whether one of the skip selectors holds under the
    configuration merged for the variant. *)
Theorem skip_after_apply_variant (skips : list string) (σ σ' : store)
    (self c : nat) (v : gmap string string) (keys : list string) :
  apply_variant self v keys σ = (Ok c, σ') →
  ∃ this copied,
    σ !! self = Some this ∧ σ' !! c = Some copied ∧
    skip skips copied
    = Ok (existsb (fun x => eval_selector x
                              (get_or_merge_config (config this) v)) skips).
Proof.
  intros H.
  destruct (apply_variant_inv _ _ _ _ _ _ _ _ H)
    as (this & cl & dv & Hs & _ & _ & _ & -> & ->).
  eexists this, _. split; [done|]. split.
  - rewrite lookup_app_r by done. by rewrite Nat.sub_diag.
  - rewrite skip_cases. simpl. by destruct (existsb _ skips).
Qed.

End SkipFacts.

(** ** Serialization *)

(** X7.  [specs_to_dict] writes one entry per Spec, in the order of the
    list; the entry holds the Spec's raw text (so the texts can be read
    back), its final name, the resolved version exactly when the Spec is
    bound, and, of the provenance flags, only [is_pin],
    [from_run_export] and [from_pinnings]. *)
Theorem specs_to_dict_entries (specs : list Spec.t) :
  Json.spec <$> specs_to_dict specs = Spec.raw <$> specs ∧
  ∀ i s, specs !! i = Some s →
    ∃ d, specs_to_dict specs !! i = Some d ∧
         Json.name d = Spec.final_name s ∧
         Json.resolved d !! "final_version" = Spec.final_version s ∧
         (∀ k, k ≠ "final_version" → Json.resolved d !! k = None) ∧
         (∀ a, a ∈ Json.attrs d ↔
               (a = "is_pin" ∧ Spec.is_pin s = true)
               ∨ (a = "from_run_export" ∧ Spec.from_run_export s = true)
               ∨ (a = "from_pinnings" ∧ Spec.from_pinnings s = true)).
Proof.
  split.
  - unfold specs_to_dict. rewrite <- list_fmap_compose. done.
  - intros i s Hi. exists (spec_to_dict s). split.
    + unfold specs_to_dict. by rewrite list_lookup_fmap, Hi.
    + split; [done|]. split; [|split].
      * simpl. destruct (Spec.final_version s); [|done].
        apply lookup_singleton_eq.
      * intros k Hk. simpl. destruct (Spec.final_version s); [|done].
        by apply lookup_singleton_ne.
      * intros a. simpl.
        destruct (Spec.is_pin s), (Spec.from_run_export s),
                 (Spec.from_pinnings s); simpl;
          rewrite ?elem_of_cons, ?elem_of_nil; intuition congruence.
Qed.

Lemma lookup_all_values (v : gmap string string) (ks : list string) :
  ∀ dv, lookup_all v ks = Ok dv →
    Forall2 (fun k x => v !! k = Some x) ks dv.
Proof.
  induction ks as [|k ks IH]; intros dv H; simpl in H.
  - simplify_eq. constructor.
  - destruct (v !! k) as [x|] eqn:E; [|done].
    destruct (lookup_all v ks) as [vs|]; [|done]. simpl in H. simplify_eq.
    constructor; [done|]. by apply IH.
Qed.

Section JsonFacts.

Variable native_compiler : string -> Config -> string.
Variable get_or_merge_config : Config -> gmap string string -> Config.

Local Abbreviation apply_variant :=
  (apply_variant native_compiler get_or_merge_config).

(** X8.  The copy that [apply_variant] returns can be serialized: the
    record carries the variant and the value of every differentiating
    key, in order, and its requirements hold the build, host and run
    lists and nothing else, the run constraints in particular being left
    out.  A template whose [differentiating_variant] is not bound cannot:
    [to_json] raises [AttributeError]. *)
Theorem to_json_after_apply_variant (bn src na : Py.val) (σ σ' : store)
    (self c : nat) (v : gmap string string) (keys : list string) :
  apply_variant self v keys σ = (Ok c, σ') →
  ∃ this copied j,
    σ !! self = Some this ∧ σ' !! c = Some copied ∧
    (differentiating_variant this = None →
     to_json bn src na this
     = Raise (AttributeError "differentiating_variant")) ∧
    to_json bn src na copied = Ok j ∧
    Json.out_variant j = v ∧
    Forall2 (fun k x => v !! k = Some x) keys
            (Json.out_differentiating_variant j) ∧
    (∀ e, e ≠ RunConstrained →
          Json.out_requirements j !! env_key e
          = Some (specs_to_dict (reqs_of e copied))) ∧
    (∀ k, k ∉ ["build"; "host"; "run"] →
          Json.out_requirements j !! k = None).
Proof.
  intros H.
  destruct (apply_variant_inv _ _ _ _ _ _ _ _ H)
    as (this & cl & dv & Hs & _ & _ & Hdv & -> & ->).
  eexists this, _, _. split; [done|]. split.
  { rewrite lookup_app_r by done. by rewrite Nat.sub_diag. }
  split.
  { intros Hn. unfold to_json. by rewrite Hn. }
  split; [reflexivity|]. split; [done|]. split.
  { simpl. by apply lookup_all_values. }
  split.
  - intros e He. simpl. destruct e; try done.
  - intros k Hk. simpl.
    rewrite !lookup_insert_ne; [done|..];
      intros <-; apply Hk; repeat constructor.
Qed.

End JsonFacts.

Lemma skip_before_variant_witness :
  skip SampleSkip.eval_selector ["win"] SampleC9.A = Ok false ∧
  skip SampleSkip.eval_selector ["win"; "linux"] SampleC9.A
  = Raise (AttributeError "differentiating_variant").
Proof.
  split.
  - apply (skip_before_variant SampleSkip.eval_selector ["win"] SampleC9.A);
      [reflexivity|]. constructor; [reflexivity|constructor].
  - apply (skip_before_variant SampleSkip.eval_selector ["win"; "linux"]
             SampleC9.A); [reflexivity|].
    apply Exists_cons_tl, Exists_cons_hd. reflexivity.
Defined.

Lemma skip_after_apply_variant_witness :
  ∃ this copied,
    [SampleC9.A] !! 0 = Some this ∧
    snd (apply_variant SampleC9.native SampleC9.merge 0 SampleC9.gcc []
           [SampleC9.A]) !! 1 = Some copied ∧
    skip SampleSkip.eval_selector ["win"; "linux"] copied
    = Ok (existsb (fun x => SampleSkip.eval_selector x
                              (SampleC9.merge (config this) SampleC9.gcc))
            ["win"; "linux"]).
Proof.
  apply (skip_after_apply_variant SampleSkip.eval_selector SampleC9.native
           SampleC9.merge ["win"; "linux"] [SampleC9.A] _ 0 1 SampleC9.gcc []).
  vm_compute. reflexivity.
Defined.

Lemma to_json_after_apply_variant_witness :
  ∃ this copied j,
    [SampleC9.A] !! 0 = Some this ∧
    snd (apply_variant SampleC9.native SampleC9.merge 0 SampleC9.gcc
           ["c_compiler"] [SampleC9.A]) !! 1 = Some copied ∧
    (differentiating_variant this = None →
     to_json (Py.VInt 0) Py.VNone (Py.VBool false) this
     = Raise (AttributeError "differentiating_variant")) ∧
    to_json (Py.VInt 0) Py.VNone (Py.VBool false) copied = Ok j ∧
    Json.out_variant j = SampleC9.gcc ∧
    Forall2 (fun k x => SampleC9.gcc !! k = Some x) ["c_compiler"]
            (Json.out_differentiating_variant j) ∧
    (∀ e, e ≠ RunConstrained →
          Json.out_requirements j !! env_key e
          = Some (specs_to_dict (reqs_of e copied))) ∧
    (∀ k, k ∉ ["build"; "host"; "run"] →
          Json.out_requirements j !! k = None).
Proof.
  apply (to_json_after_apply_variant SampleC9.native SampleC9.merge
           (Py.VInt 0) Py.VNone (Py.VBool false) [SampleC9.A] _ 0 1
           SampleC9.gcc ["c_compiler"]).
  vm_compute. reflexivity.
Defined.

(** ** Variant application: pinning and identification *)

Section VariantMore.

Variable native_compiler : string -> Config -> string.
Variable get_or_merge_config : Config -> gmap string string -> Config.

Local Abbreviation compiler_final := (compiler_final native_compiler).
Local Abbreviation compiler_loop := (compiler_loop native_compiler).
Local Abbreviation apply_variant :=
  (apply_variant native_compiler get_or_merge_config).

(** X9.  In the copy that [apply_variant] returns, a build or host entry
    that is no compiler entry and whose name, with dashes turned into
    underscores, is a key of the variant is a new Spec for the text
    [<name> <value>]: the constraint the template had is dropped, the
    Spec is flagged [from_pinnings], keeps [is_inherited] and is not
    bound to a version.  An entry whose name is no key of the variant is
    the template's. *)
Theorem apply_variant_pins (σ σ' : store) (self c : nat)
    (v : gmap string string) (keys : list string) :
  apply_variant self v keys σ = (Ok c, σ') →
  ∃ this copied,
    σ !! self = Some this ∧ σ' !! c = Some copied ∧
    ∀ e idx r, e = Build ∨ e = Host →
      reqs_of e this !! idx = Some r →
      PyStr.startswith (Spec.name r) COMPILER_ = false →
      match v !! PyStr.dash_to_underscore (Spec.name r) with
      | Some x =>
          ∃ s, reqs_of e copied !! idx = Some s ∧
               Spec.raw s = Spec.name r +:+ " " +:+ x ∧
               Spec.final s = Spec.name r +:+ " " +:+ x ∧
               Spec.from_pinnings s = true ∧
               Spec.is_inherited s = Spec.is_inherited r ∧
               Spec.from_run_export s = false ∧
               Spec.final_version s = None
      | None => reqs_of e copied !! idx = Some r
      end.
Proof.
  intros H.
  destruct (apply_variant_inv _ _ _ _ _ _ _ _ H)
    as (this & cl & dv & Hs & Hcl & _ & _ & -> & ->).
  eexists this, _. split; [done|]. split.
  { rewrite lookup_app_r by done. by rewrite Nat.sub_diag. }
  intros e idx r He Hr Hc.
  assert (Hentry : reqs_of e
            (specialized (get_or_merge_config (config this) v) v keys cl dv
               this) !! idx = Some (pin_entry v r)).
  { destruct He as [-> | ->].
    - rewrite reqs_of_specialized_build.
      destruct (compiler_loop_spec _ _ _ _ _ _ _ Hcl) as (_ & _ & Hin).
      specialize (Hin idx r Hr). rewrite Hc in Hin.
      change (0 + idx) with idx in Hin.
      by rewrite Hin, list_lookup_fmap, Hr.
    - by rewrite reqs_of_specialized_host, list_lookup_fmap, Hr. }
  unfold pin_entry in Hentry.
  destruct (v !! PyStr.dash_to_underscore (Spec.name r)) as [x|]; [|done].
  eexists. split; [exact Hentry|]. by repeat split.
Qed.

(** X10.  The copy that [apply_variant] returns names the
    differentiating keys it was given and holds, in the same order, the
    value the variant has for each of them; so every differentiating key
    is a key of the variant whenever [apply_variant] returns. *)
Theorem differentiating_variant_values (σ σ' : store) (self c : nat)
    (v : gmap string string) (keys : list string) :
  apply_variant self v keys σ = (Ok c, σ') →
  ∃ copied dv,
    σ' !! c = Some copied ∧
    differentiating_keys copied = keys ∧
    differentiating_variant copied = Some dv ∧
    Forall2 (fun k x => v !! k = Some x) keys dv.
Proof.
  intros H.
  destruct (apply_variant_inv _ _ _ _ _ _ _ _ H)
    as (this & cl & dv & Hs & _ & _ & Hdv & -> & ->).
  eexists _, dv. split.
  { rewrite lookup_app_r by done. by rewrite Nat.sub_diag. }
  split; [done|]. split; [done|]. by apply lookup_all_values.
Qed.

Lemma compiler_loop_no_platform (v : gmap string string) (cfg : Config)
    (rs : list Spec.t) :
  v !! "target_platform" = None →
  Exists (fun r => PyStr.startswith (Spec.name r) COMPILER_ = true) rs →
  Forall (fun r => PyStr.startswith (Spec.name r) COMPILER_ = true →
                   is_Some (Spec.splitted r !! 1)) rs →
  ∀ i cl, compiler_loop v cfg i rs cl = Raise (KeyError "target_platform").
Proof.
  intros Htp Hex Hall.
  induction Hex as [r rs Hr|r rs _ IH]; intros i cl; simpl.
  - rewrite Hr. inversion Hall as [|? ? Hw _]; subst.
    destruct (Hw Hr) as [w Ew].
    unfold compiler_final.
    rewrite Ew. simpl. unfold variant_item. rewrite Htp.
    destruct (variant_truthy v (PyStr.lower w +:+ "_compiler")) eqn:Et.
    + unfold variant_truthy in Et.
      destruct (v !! (PyStr.lower w +:+ "_compiler")); [done|done].
    + done.
  - inversion Hall as [|? ? Hw Hall']; subst.
    destruct (PyStr.startswith (Spec.name r) COMPILER_) eqn:Hr.
    + destruct (Hw eq_refl) as [w Ew].
      unfold compiler_final.
      rewrite Ew. simpl. unfold variant_item. rewrite Htp.
      destruct (variant_truthy v (PyStr.lower w +:+ "_compiler")) eqn:Et.
      * unfold variant_truthy in Et.
        destruct (v !! (PyStr.lower w +:+ "_compiler")); [done|done].
      * done.
    + simpl. by apply IH.
Qed.

(** X11.  A variant without [target_platform] cannot be applied to a
    template whose build list holds a compiler entry: [apply_variant]
    raises [KeyError] for that key, whether or not the variant names a
    compiler, and the store keeps, besides its old cells, the unchanged
    deep copy. *)
Theorem compiler_needs_target_platform (σ : store) (self : nat)
    (this : Output) (v : gmap string string) (keys : list string) :
  σ !! self = Some this →
  v !! "target_platform" = None →
  Exists (fun r => PyStr.startswith (Spec.name r) COMPILER_ = true)
         (reqs_of Build this) →
  Forall (fun r => PyStr.startswith (Spec.name r) COMPILER_ = true →
                   is_Some (Spec.splitted r !! 1)) (reqs_of Build this) →
  apply_variant self v keys σ
  = (Raise (KeyError "target_platform"), σ ++ [this]).
Proof.
  intros Hs Htp Hex Hall. unfold apply_variant. rewrite Hs.
  rewrite specialize_unfold.
  by rewrite (compiler_loop_no_platform v (config this) _ Htp Hex Hall).
Qed.

End VariantMore.

Lemma apply_variant_pins_witness :
  ∃ this copied,
    [SamplePin.template] !! 0 = Some this ∧
    snd (apply_variant SampleC9.native SampleC9.merge 0 SamplePin.variant []
           [SamplePin.template]) !! 1 = Some copied ∧
    ∀ e idx r, e = Build ∨ e = Host →
      reqs_of e this !! idx = Some r →
      PyStr.startswith (Spec.name r) COMPILER_ = false →
      match SamplePin.variant !! PyStr.dash_to_underscore (Spec.name r) with
      | Some x =>
          ∃ s, reqs_of e copied !! idx = Some s ∧
               Spec.raw s = Spec.name r +:+ " " +:+ x ∧
               Spec.final s = Spec.name r +:+ " " +:+ x ∧
               Spec.from_pinnings s = true ∧
               Spec.is_inherited s = Spec.is_inherited r ∧
               Spec.from_run_export s = false ∧
               Spec.final_version s = None
      | None => reqs_of e copied !! idx = Some r
      end.
Proof.
  apply (apply_variant_pins SampleC9.native SampleC9.merge
           [SamplePin.template] _ 0 1 SamplePin.variant []).
  vm_compute. reflexivity.
Defined.

Lemma differentiating_variant_values_witness :
  ∃ copied dv,
    snd (apply_variant SampleC9.native SampleC9.merge 0 SamplePin.variant
           ["python"; "target_platform"] [SamplePin.template]) !! 1
    = Some copied ∧
    differentiating_keys copied = ["python"; "target_platform"] ∧
    differentiating_variant copied = Some dv ∧
    Forall2 (fun k x => SamplePin.variant !! k = Some x)
            ["python"; "target_platform"] dv.
Proof.
  apply (differentiating_variant_values SampleC9.native SampleC9.merge
           [SamplePin.template] _ 0 1 SamplePin.variant
           ["python"; "target_platform"]).
  vm_compute. reflexivity.
Defined.

Lemma compiler_needs_target_platform_witness :
  apply_variant SampleC9.native SampleC9.merge 0 {["c_compiler" := "gcc"]} []
    [SampleC9.A]
  = (Raise (KeyError "target_platform"), [SampleC9.A] ++ [SampleC9.A]).
Proof.
  apply (compiler_needs_target_platform SampleC9.native SampleC9.merge
           [SampleC9.A] 0 SampleC9.A {["c_compiler" := "gcc"]} []).
  - reflexivity.
  - reflexivity.
  - constructor. reflexivity.
  - constructor; [|constructor]. intros _. eexists. reflexivity.
Defined.

(** ** Recording the solver's install list *)

Lemma same_authored_refl (s : Spec.t) : same_authored s s.
Proof. by repeat split. Qed.

Lemma same_authored_trans (s1 s2 s3 : Spec.t) :
  same_authored s1 s2 → same_authored s2 s3 → same_authored s1 s3.
Proof.
  unfold same_authored. intros H1 H2.
  destruct H1 as (?&?&?&?&?&?&?&?&?&?&?&?).
  destruct H2 as (?&?&?&?&?&?&?&?&?&?&?&?).
  repeat split; congruence.
Qed.

Lemma same_authored_bind_resolved (p : Pkg) (s : Spec.t) :
  same_authored s (bind_resolved p s).
Proof. by repeat split. Qed.

Lemma Forall2_same_authored_refl (l : list Spec.t) :
  Forall2 same_authored l l.
Proof. induction l; constructor; auto using same_authored_refl. Qed.

Lemma Forall2_same_authored_alter (p : Pkg) (i : nat) (l : list Spec.t) :
  Forall2 same_authored l (alter (bind_resolved p) i l).
Proof.
  revert i. induction l as [|s l IH]; intros [|i]; simpl.
  - constructor.
  - constructor.
  - constructor; [apply same_authored_bind_resolved|].
    apply Forall2_same_authored_refl.
  - constructor; [apply same_authored_refl|apply IH].
Qed.

Lemma Forall2_same_authored_trans (l1 l2 l3 : list Spec.t) :
  Forall2 same_authored l1 l2 → Forall2 same_authored l2 l3 →
  Forall2 same_authored l1 l3.
Proof.
  intros H. revert l3. induction H as [|s1 s2 l1 l2 Hs _ IH]; intros l3 H3.
  - by inversion H3.
  - inversion H3 as [|? s3 ? l3' Hs' H3']; subst.
    constructor; [by eapply same_authored_trans|by apply IH].
Qed.

Lemma record_pkgs_cons (m : gmap string nat) (p : Pkg) (pkgs : list Pkg)
    (l : list Spec.t) :
  record_pkgs m (p :: pkgs) l = record_pkgs m pkgs (record_pkg m l p).
Proof. reflexivity. Qed.

(** The list after the install loop: the entries it had, each rewritten
    at most in its resolved version and channel, then whatever stood
    behind them, then one transitive Spec per package that the dictionary
    does not name. *)
Lemma record_pkgs_closed (m : gmap string nat) (pkgs : list Pkg) :
  ∀ l tail,
    (∀ nm k, m !! nm = Some k → k < length l) →
    ∃ l1, record_pkgs m pkgs (l ++ tail)
          = l1 ++ tail
            ++ (transitive_spec
                  <$> List.filter
                        (fun p => bool_decide (m !! pkg_name p = None)) pkgs)
          ∧ Forall2 same_authored l l1.
Proof.
  induction pkgs as [|p pkgs IH]; intros l tail Hm.
  - exists l. simpl. rewrite app_nil_r.
    split; [done|apply Forall2_same_authored_refl].
  - rewrite record_pkgs_cons. simpl.
    unfold record_pkg. destruct (m !! pkg_name p) as [i|] eqn:E.
    + rewrite bool_decide_eq_false_2 by done.
      rewrite alter_app_l by (by eapply Hm).
      destruct (IH (alter (bind_resolved p) i l) tail) as (l1 & -> & H1).
      { intros nm k Hk. rewrite length_alter. by eapply Hm. }
      exists l1. split; [done|].
      eapply Forall2_same_authored_trans; [|exact H1].
      apply Forall2_same_authored_alter.
    + rewrite bool_decide_eq_true_2 by done. simpl.
      rewrite <- app_assoc.
      destruct (IH l (tail ++ [transitive_spec p]) Hm) as (l1 & -> & H1).
      exists l1. split; [|done]. by rewrite <- !app_assoc.
Qed.

Lemma make_spec_map_None (specs : list Spec.t) (nm : string) :
  make_spec_map specs !! nm = None ↔ nm ∉ Spec.final_name <$> specs.
Proof.
  split.
  - intros H Hin. apply list_elem_of_fmap in Hin as (s & -> & Hs).
    apply list_elem_of_lookup in Hs as [i Hi].
    by eapply (spec_map_from_None _ _ _ _ H i s).
  - intros Hn. destruct (make_spec_map specs !! nm) as [k|] eqn:E; [|done].
    exfalso. apply Hn.
    destruct (spec_map_from_Some _ _ _ _ _ E)
      as [(j & s & _ & Hj & <- & _)|[Hm _]]; [|done].
    apply list_elem_of_fmap. exists s. split; [done|].
    by eapply list_elem_of_lookup_2.
Qed.

Lemma filter_ext_bool {A} (f g : A → bool) (l : list A) :
  (∀ x, f x = g x) → List.filter f l = List.filter g l.
Proof.
  intros H. induction l as [|x l IH]; [done|]. simpl.
  by rewrite H, IH.
Qed.

(** X12.  Binding the solver's install list keeps the environment's
    Specs in place and rewrites nothing of them but the resolved version
    and the channel; behind them it puts one Spec per installed package
    whose name is the final name of none of them, in the order of the
    install list: a Spec made from the package name, flagged as a
    transitive dependency and bound to the package's version, build and
    channel. *)
Theorem record_pkgs_appends_transitives (specs : list Spec.t)
    (pkgs : list Pkg) :
  ∃ kept,
    record_pkgs (make_spec_map specs) pkgs specs
    = kept ++ (transitive_spec
                 <$> List.filter
                       (fun p => bool_decide
                                   (pkg_name p ∉ Spec.final_name <$> specs))
                       pkgs) ∧
    Forall2 same_authored specs kept ∧
    ∀ p, Spec.raw (transitive_spec p) = pkg_name p ∧
         Spec.is_transitive_dependency (transitive_spec p) = true ∧
         Spec.final_version (transitive_spec p)
         = Some (pkg_version p, pkg_build_string p) ∧
         Spec.channel (transitive_spec p) = pkg_channel p.
Proof.
  destruct (record_pkgs_closed (make_spec_map specs) pkgs specs []
              (make_spec_map_lt specs)) as (kept & H & Hk).
  rewrite app_nil_r in H. exists kept. split; [|split; [done|]].
  - rewrite H. simpl. do 2 f_equal. apply filter_ext_bool. intros p.
    apply bool_decide_ext, make_spec_map_None.
  - intros p. by repeat split.
Qed.

(** X13.  After the install list is bound, every installed package whose
    name is one word is present in the environment's list, as a Spec of
    that final name that is bound to a version. *)
Theorem record_pkgs_covers_install (specs : list Spec.t) (pkgs : list Pkg)
    (p : Pkg) :
  p ∈ pkgs →
  PyStr.split (pkg_name p) = [pkg_name p] →
  ∃ s, s ∈ record_pkgs (make_spec_map specs) pkgs specs ∧
       Spec.final_name s = pkg_name p ∧
       is_Some (Spec.final_version s).
Proof.
  intros Hp Hword.
  destruct (make_spec_map specs !! pkg_name p) as [i|] eqn:E.
  - destruct (record_pkgs_spec (make_spec_map specs) pkgs specs
                (make_spec_map_lt specs)) as (_ & Hkeep & _ & Hpk).
    destruct (Hpk p i Hp E) as (s' & Hs' & Hb).
    exists s'. split; [by eapply list_elem_of_lookup_2|]. split; [|done].
    destruct (spec_map_from_Some _ _ _ _ _ E)
      as [(j & s & Hij & Hj & Hn & _)|[Hm _]]; [|done].
    simpl in Hij. subst j.
    destruct (Hkeep _ _ Hj) as (s'' & Hs'' & Hf & _).
    assert (s'' = s') as -> by congruence.
    by rewrite (final_name_of_final _ _ Hf).
  - destruct (record_pkgs_closed (make_spec_map specs) pkgs specs []
                (make_spec_map_lt specs)) as (kept & H & _).
    rewrite app_nil_r in H. rewrite H. simpl.
    exists (transitive_spec p). split; [|split].
    + apply elem_of_app. right. apply list_elem_of_fmap.
      exists p. split; [done|].
      apply list_elem_of_In, filter_In.
      split; [by apply list_elem_of_In|]. by apply bool_decide_eq_true.
    + unfold Spec.final_name. simpl. by rewrite Hword.
    + by eexists.
Qed.

Lemma record_pkgs_covers_install_witness :
  ∃ s, s ∈ record_pkgs (make_spec_map [Spec.CondaBuildSpec "cmake >=3"])
             [mkPkg "cmake" "3.20" "h0" "conda-forge";
              mkPkg "ninja" "1.10" "h1" "conda-forge"]
             [Spec.CondaBuildSpec "cmake >=3"] ∧
       Spec.final_name s = "ninja" ∧
       is_Some (Spec.final_version s).
Proof.
  apply (record_pkgs_covers_install [Spec.CondaBuildSpec "cmake >=3"]
           [mkPkg "cmake" "3.20" "h0" "conda-forge";
            mkPkg "ninja" "1.10" "h1" "conda-forge"]
           (mkPkg "ninja" "1.10" "h1" "conda-forge")).
  - apply list_elem_of_further, list_elem_of_here.
  - reflexivity.
Defined.

(** ** The staged solve *)

Lemma insert_routed_attrs (rs : list (env * string)) :
  ∀ o, ∃ r, insert_routed rs o = set_requirements r o.
Proof.
  induction rs as [|[t x] rs IH]; intros o.
  - exists (requirements o). by destruct o.
  - unfold insert_routed in *. simpl.
    destruct (IH (append_or_replace t x o)) as [r ->]. by exists r.
Qed.

Lemma backfill_python_spec (l : list Spec.t) :
  ∀ v v', backfill_python l v = Ok v' →
    (∀ k, k ≠ "python" → v' !! k = v !! k) ∧
    (Forall (fun r => Spec.name r ≠ "python") l → v' = v) ∧
    (∀ l1 r l2 fv, l = l1 ++ r :: l2 → Spec.name r = "python" →
       Forall (fun r => Spec.name r ≠ "python") l2 →
       Spec.final_version r = Some fv → v' !! "python" = Some (fst fv)).
Proof.
  induction l as [|r l IH]; intros v v' H; simpl in H.
  - simplify_eq. split; [done|]. split; [done|].
    intros l1 r l2 fv Hl. by destruct l1.
  - destruct (String.eqb (Spec.name r) "python") eqn:E.
    + apply String.eqb_eq in E.
      destruct (Spec.final_version r) as [fv0|] eqn:Ev; [|done].
      destruct (IH _ _ H) as (Hk & Hsame & Hlast).
      split; [|split].
      * intros k Hne. rewrite Hk by done. by rewrite lookup_insert_ne.
      * intros Hall. inversion Hall; subst. done.
      * intros l1 r' l2 fv Hl Hn Hall Hv. destruct l1 as [|x l1].
        -- simpl in Hl. simplify_eq. rewrite (Hsame Hall).
           by rewrite lookup_insert_eq.
        -- simpl in Hl. simplify_eq. by eapply Hlast.
    + apply String.eqb_neq in E.
      destruct (IH _ _ H) as (Hk & Hsame & Hlast).
      split; [done|]. split.
      * intros Hall. inversion Hall; subst. by apply Hsame.
      * intros l1 r' l2 fv Hl Hn Hall Hv. destruct l1 as [|x l1].
        -- simpl in Hl. by simplify_eq.
        -- simpl in Hl. simplify_eq. by eapply Hlast.
Qed.

Section OrchestratorMore.

Variable apply_pin_expressions : string -> gmap string string -> string.
Variable read_run_exports : string -> string -> option (RunExports.t string).
Variable solve : string -> string -> list string -> Res Transaction.
Variable pkg_cache_of : string -> string -> string.
Variable pin_subpackage_text : Spec.t -> Output -> string.
Variable pin_compatible_text : Spec.t -> string * string -> string.
Variable sys_version : string.

Local Abbreviation collect := (collect apply_pin_expressions read_run_exports).
Local Abbreviation propagate_run_exports :=
  (propagate_run_exports apply_pin_expressions read_run_exports).
Local Abbreviation resolve_pins :=
  (resolve_pins pin_subpackage_text pin_compatible_text).
Local Abbreviation _solve_env :=
  (_solve_env apply_pin_expressions read_run_exports solve pkg_cache_of
     pin_subpackage_text pin_compatible_text).
Local Abbreviation finalize_solve :=
  (finalize_solve apply_pin_expressions read_run_exports solve pkg_cache_of
     pin_subpackage_text pin_compatible_text sys_version).

(** A propagation rewrites the requirements and nothing else. *)
Lemma propagate_attrs (e : env) (pc : string) (o o' : Output) :
  propagate_run_exports e pc o = Ok o' →
  ∃ r, o' = set_requirements r o.
Proof.
  intros H.
  destruct (collect_total apply_pin_expressions read_run_exports o pc
              (reqs_of e o)) as (specs & c & Hc).
  rewrite (propagate_routed _ _ _ _ _ _ _ Hc) in H. simplify_eq.
  destruct (insert_routed_attrs (flat_map (routes e (noarch o)) c)
              (with_reqs e specs o)) as [r ->].
  by exists r.
Qed.

(** The shape of the Output that [_solve_env] returns for an environment
    that has requirements. *)
Lemma solve_env_attrs (e : env) (all : list Output) (o o' : Output) :
  reqs_of e o ≠ [] →
  _solve_env e all o = Ok o' →
  ∃ specs t m r,
    for_each (resolve_pins e all o) (reqs_of e o) = Ok specs ∧
    data_requirements o = Some m ∧
    solve (subdir_of e (config o)) (output_folder (config o))
          (Spec.final <$> specs) = Ok t ∧
    fetch_extract_packages t = true ∧
    o' = set_requirements r
           (set_transactions
              (<[env_key e := (t, pkg_cache_of (subdir_of e (config o))
                                    (output_folder (config o)))]>
                 (transactions o))
              (set_data_requirements
                 (Some (<[env_key e := Spec.final <$> specs]> m)) o)).
Proof.
  intros Hne H. unfold _solve_env in H.
  destruct (reqs_of e o) as [|s0 l0] eqn:El; [done|].
  destruct (for_each _ (s0 :: l0)) as [specs|] eqn:Ef; [|done].
  cbn [mbind Res_bind] in H.
  destruct (data_requirements _) as [m|] eqn:Ed; [|done].
  cbn [mbind Res_bind] in H.
  destruct (solve _ _ _) as [t|] eqn:Es; [|done].
  cbn [mbind Res_bind] in H.
  destruct (fetch_extract_packages t) eqn:Efetch; [|done]. cbn [negb] in H.
  exists specs, t, m.
  assert (Hattrs : ∃ r, o' = set_requirements r
            (set_transactions
               (<[env_key e := (t, pkg_cache_of (subdir_of e (config o))
                                     (output_folder (config o)))]>
                  (transactions o))
               (set_data_requirements
                  (Some (<[env_key e := Spec.final <$> specs]> m)) o))).
  { destruct e.
    - apply propagate_attrs in H as [r ->]. by exists r.
    - apply propagate_attrs in H as [r ->]. by exists r.
    - simplify_eq. by eexists.
    - simplify_eq. by eexists. }
  destruct Hattrs as [r ->]. exists r.
  split; [done|]. split; [done|]. split; [exact Es|]. by split.
Qed.

(** X14.  When [_solve_env] returns for an environment that has
    requirements, the pins of the list were evaluated, the solver was
    asked for the final constraint texts of the evaluated list under the
    subdirectory of the environment, and the packages were fetched; the
    Output records the transaction with its package cache under the
    environment's name, its raw record holds those constraint texts
    under [requirements], and its configuration is as before. *)
Theorem solve_env_records (e : env) (all : list Output) (o o' : Output) :
  reqs_of e o ≠ [] →
  _solve_env e all o = Ok o' →
  ∃ specs t m,
    for_each (resolve_pins e all o) (reqs_of e o) = Ok specs ∧
    solve (subdir_of e (config o)) (output_folder (config o))
          (Spec.final <$> specs) = Ok t ∧
    fetch_extract_packages t = true ∧
    transactions o' !! env_key e
    = Some (t, pkg_cache_of (subdir_of e (config o))
                 (output_folder (config o))) ∧
    data_requirements o = Some m ∧
    data_requirements o'
    = Some (<[env_key e := Spec.final <$> specs]> m) ∧
    config o' = config o.
Proof.
  intros Hne H.
  destruct (solve_env_attrs _ _ _ _ Hne H)
    as (specs & t & m & r & Hf & Hd & Hs & Hfetch & ->).
  exists specs, t, m. split; [done|]. split; [done|]. split; [done|].
  simpl. split; [apply lookup_insert_eq|]. by split.
Qed.

(** X15.  An environment that has requirements cannot be solved for an
    Output whose raw record holds no [requirements] entry (its
    requirements then come from features alone): [_solve_env] raises,
    and once the pins are evaluated the exception is the [KeyError] of
    the write to [data["requirements"]]. *)
Theorem solve_env_needs_data_requirements (e : env) (all : list Output)
    (o : Output) :
  reqs_of e o ≠ [] →
  data_requirements o = None →
  ∃ err, _solve_env e all o = Raise err ∧
         (is_Ok (for_each (resolve_pins e all o) (reqs_of e o)) = true →
          err = KeyError "requirements").
Proof.
  intros Hne Hd. unfold _solve_env.
  destruct (reqs_of e o) as [|s0 l0] eqn:El; [done|].
  destruct (for_each _ (s0 :: l0)) as [specs|err] eqn:Ef.
  - cbn [mbind Res_bind]. simpl. rewrite Hd. by eexists.
  - eexists. split; [done|]. done.
Qed.

Lemma solve_env_config (e : env) (all : list Output) (o o' : Output) :
  _solve_env e all o = Ok o' → config o' = config o.
Proof.
  intros H. destruct (reqs_of e o) as [|s0 l0] eqn:El.
  - unfold _solve_env in H. rewrite El in H. by simplify_eq.
  - eapply solve_env_attrs in H as (? & ? & ? & ? & _ & _ & _ & _ & ->);
      [done|]. by rewrite El.
Qed.

(** X16.  When [finalize_solve] returns, the Output's variant is the
    variant of its configuration, and this variant has a [python] entry:
    the entry the configuration had, if any; else the version resolved
    for the last Spec named [python] of the build and host lists; else,
    when no Spec has that name, the version of the running interpreter.
    No other entry of the variant and no other part of the
    configuration is changed. *)
Theorem finalize_solve_python (all : list Output) (o o' : Output) :
  finalize_solve all o = Ok o' →
  variant o' = Some (cfg_variant (config o')) ∧
  config o' = set_cfg_variant (cfg_variant (config o')) (config o) ∧
  is_Some (cfg_variant (config o') !! "python") ∧
  (∀ k, k ≠ "python" →
        cfg_variant (config o') !! k = cfg_variant (config o) !! k) ∧
  (∀ x, cfg_variant (config o) !! "python" = Some x →
        cfg_variant (config o') !! "python" = Some x) ∧
  (cfg_variant (config o) !! "python" = None →
   (∀ l1 r l2 fv,
      reqs_of Build o' ++ reqs_of Host o' = l1 ++ r :: l2 →
      Spec.name r = "python" →
      Forall (fun r => Spec.name r ≠ "python") l2 →
      Spec.final_version r = Some fv →
      cfg_variant (config o') !! "python" = Some (fst fv)) ∧
   (Forall (fun r => Spec.name r ≠ "python")
           (reqs_of Build o' ++ reqs_of Host o') →
    cfg_variant (config o') !! "python" = Some sys_version)).
Proof.
  intros H. unfold finalize_solve in H.
  destruct (_solve_env Build all o) as [oB|] eqn:EB; [|done].
  cbn [mbind Res_bind] in H.
  destruct (_solve_env Host all oB) as [oH|] eqn:EH; [|done].
  cbn [mbind Res_bind] in H.
  destruct (_solve_env Run all oH) as [oR|] eqn:ER; [|done].
  cbn [mbind Res_bind] in H.
  assert (Hcfg : config oR = config o).
  { rewrite (solve_env_config _ _ _ _ ER), (solve_env_config _ _ _ _ EH).
    by apply (solve_env_config _ _ _ _ EB). }
  rewrite Hcfg in H.
  set (l := reqs_of Build oR ++ reqs_of Host oR) in *.
  set (v0 := cfg_variant (config o)) in *.
  destruct (v0 !! "python") as [x|] eqn:Ep.
  - cbn [mbind Res_bind] in H. rewrite Ep in H. simplify_eq. simpl.
    fold v0. split; [done|]. split; [by destruct (config o)|].
    split; [by eexists|]. split; [done|]. split; [congruence|]. done.
  - destruct (backfill_python l v0) as [v1|] eqn:Eb; [|done].
    cbn [mbind Res_bind] in H.
    destruct (backfill_python_spec _ _ _ Eb) as (Hk & Hsame & Hlast).
    assert (Hreq : reqs_of Build o' ++ reqs_of Host o' = l).
    { destruct (v1 !! "python"); by simplify_eq. }
    assert (Hv : cfg_variant (config o')
                 = match v1 !! "python" with
                   | Some _ => v1
                   | None => <["python" := sys_version]> v1
                   end
                 ∧ variant o' = Some (cfg_variant (config o'))
                 ∧ config o'
                   = set_cfg_variant (cfg_variant (config o')) (config o)).
    { destruct (v1 !! "python"); simplify_eq; simpl; by destruct (config o). }
    destruct Hv as (Hv & Hvar & Hc). rewrite Hreq.
    split; [done|]. split; [done|]. split; [|split; [|split; [done|]]].
    + rewrite Hv. destruct (v1 !! "python") eqn:E1; [by rewrite E1|].
      rewrite lookup_insert_eq. by eexists.
    + intros k Hne. rewrite Hv.
      destruct (v1 !! "python"); [by apply Hk|].
      rewrite lookup_insert_ne by done. by apply Hk.
    + intros _. split.
      * intros l1 r l2 fv Hl Hn Hall Hfv.
        pose proof (Hlast _ _ _ _ Hl Hn Hall Hfv) as Hpy.
        rewrite Hv, Hpy. done.
      * intros Hall. rewrite Hv, (Hsame Hall), Ep.
        apply lookup_insert_eq.
Qed.

End OrchestratorMore.

Lemma solve_env_records_witness :
  let o := SampleC1.constrained in
  let o' := SampleC1.solved o (SampleSolve.solve_env Build o) in
  ∃ specs t m,
    for_each (SampleSolve.resolve Build o) (reqs_of Build o) = Ok specs ∧
    SampleC1.solve (subdir_of Build (config o)) (output_folder (config o))
                   (Spec.final <$> specs) = Ok t ∧
    fetch_extract_packages t = true ∧
    transactions o' !! env_key Build
    = Some (t, SampleC1.pkg_cache_of (subdir_of Build (config o))
                 (output_folder (config o))) ∧
    data_requirements o = Some m ∧
    data_requirements o'
    = Some (<[env_key Build := Spec.final <$> specs]> m) ∧
    config o' = config o.
Proof.
  apply (solve_env_records Sample.no_pin_expressions SampleC1.no_metadata
           SampleC1.solve SampleC1.pkg_cache_of SampleC3.no_pins
           SampleC1.no_compat Build [] SampleC1.constrained).
  - discriminate.
  - vm_compute. reflexivity.
Defined.

Lemma solve_env_needs_data_requirements_witness :
  ∃ err, SampleSolve.solve_env Build SampleSolve.featured = Raise err ∧
         (is_Ok (for_each (SampleSolve.resolve Build SampleSolve.featured)
                   (reqs_of Build SampleSolve.featured)) = true →
          err = KeyError "requirements").
Proof.
  apply (solve_env_needs_data_requirements Sample.no_pin_expressions
           SampleC1.no_metadata SampleC1.solve SampleC1.pkg_cache_of
           SampleC3.no_pins SampleC1.no_compat Build [] SampleSolve.featured).
  - discriminate.
  - reflexivity.
Defined.

Lemma finalize_solve_python_witness :
  let o := SampleC1.constrained in
  let o' := SampleC1.solved o (SampleC1.finalize SampleC1.no_metadata o) in
  variant o' = Some (cfg_variant (config o')) ∧
  config o' = set_cfg_variant (cfg_variant (config o')) (config o) ∧
  is_Some (cfg_variant (config o') !! "python") ∧
  (∀ k, k ≠ "python" →
        cfg_variant (config o') !! k = cfg_variant (config o) !! k) ∧
  (∀ x, cfg_variant (config o) !! "python" = Some x →
        cfg_variant (config o') !! "python" = Some x) ∧
  (cfg_variant (config o) !! "python" = None →
   (∀ l1 r l2 fv,
      reqs_of Build o' ++ reqs_of Host o' = l1 ++ r :: l2 →
      Spec.name r = "python" →
      Forall (fun r => Spec.name r ≠ "python") l2 →
      Spec.final_version r = Some fv →
      cfg_variant (config o') !! "python" = Some (fst fv)) ∧
   (Forall (fun r => Spec.name r ≠ "python")
           (reqs_of Build o' ++ reqs_of Host o') →
    cfg_variant (config o') !! "python" = Some "3.10.4")).
Proof.
  apply (finalize_solve_python Sample.no_pin_expressions SampleC1.no_metadata
           SampleC1.solve SampleC1.pkg_cache_of SampleC3.no_pins
           SampleC1.no_compat "3.10.4" [] SampleC1.constrained).
  vm_compute. reflexivity.
Defined.

(** ** Run-export propagation: what is collected and where it goes *)

Lemma with_reqs_same (e : env) (o : Output) : with_reqs e (reqs_of e o) o = o.
Proof. destruct o as [? ? ? ? ? ? [? ? ? ?] ? ? ? ? ? ? ? ?]. by destruct e. Qed.

Lemma insert_export_grows (s : Spec.t) (l : list Spec.t) :
  length l ≤ length (insert_export s l).
Proof.
  destruct (insert_export_cases s l)
    as [(l1 & r & l2 & -> & _ & _ & ->)|[_ ->]];
    rewrite !length_app; simpl; lia.
Qed.

Lemma insert_routed_grows (t : env) (rs : list (env * string)) :
  ∀ o, length (reqs_of t o) ≤ length (reqs_of t (insert_routed rs o)).
Proof.
  induction rs as [|[e x] rs IH]; intros o; [done|].
  unfold insert_routed in *. simpl.
  etrans; [|apply IH]. unfold append_or_replace.
  destruct (decide (t = e)) as [->|Hne].
  - rewrite reqs_of_with_reqs. apply insert_export_grows.
  - by rewrite reqs_of_with_reqs_ne.
Qed.

Section PropagatorMore.

Variable apply_pin_expressions : string -> gmap string string -> string.

Section Metadata.

Variable read_run_exports : string -> string -> option (RunExports.t string).

Local Abbreviation collect_one :=
  (collect_one apply_pin_expressions read_run_exports).
Local Abbreviation collect := (collect apply_pin_expressions read_run_exports).
Local Abbreviation propagate_run_exports :=
  (propagate_run_exports apply_pin_expressions read_run_exports).

Lemma collect_one_nothing (o : Output) (pc : string) (s : Spec.t) :
  contributes_nothing o s → collect_one o pc s = Ok (s, []).
Proof.
  unfold contributes_nothing, collect_one, Spec.has_final_version.
  intros [Ht|[Hi|Hv]].
  - by rewrite Ht.
  - destruct (Spec.is_transitive_dependency s); [done|].
    by rewrite bool_decide_eq_true_2.
  - destruct (Spec.is_transitive_dependency s); [done|].
    case_bool_decide; [done|]. by rewrite Hv.
Qed.

Lemma collect_nothing (o : Output) (pc : string) (l : list Spec.t) :
  Forall (contributes_nothing o) l → collect o pc l = Ok (l, []).
Proof.
  induction 1 as [|s l Hs _ IH]; [done|]. simpl.
  rewrite (collect_one_nothing _ _ _ Hs). simpl. by rewrite IH.
Qed.

(** X18.  Propagation changes nothing at all when every Spec of the
    solved environment is a transitive dependency, is named in the
    recipe's [ignore_run_exports] list or has no final version: the
    metadata of such a Spec is not even recorded on it. *)
Theorem propagate_without_contributions (e : env) (pc : string)
    (o : Output) :
  Forall (contributes_nothing o) (reqs_of e o) →
  propagate_run_exports e pc o = Ok o.
Proof.
  intros H.
  rewrite (propagate_routed _ _ _ _ _ _ _ (collect_nothing o pc _ H)).
  simpl. unfold insert_routed. simpl. by rewrite with_reqs_same.
Qed.

Lemma collect_one_same_but_info (o : Output) (pc : string) (s s' : Spec.t)
    (c : list (RunExports.t string)) :
  collect_one o pc s = Ok (s', c) → same_but_info s s'.
Proof.
  unfold collect_one. intros H.
  destruct (Spec.is_transitive_dependency s); [left; by simplify_eq|].
  case_bool_decide; [left; by simplify_eq|].
  destruct (Spec.has_final_version s); [|left; by simplify_eq].
  destruct (Spec.final_triplet s); [|done]. simpl in H.
  destruct (pin_run_as_build o !! _).
  - destruct (Spec.final_version s); [|done]. simplify_eq.
    right. by eexists.
  - destruct (read_run_exports _ _); simplify_eq; right; by eexists.
Qed.

Lemma collect_same_but_info (o : Output) (pc : string) (l : list Spec.t) :
  ∀ specs c, collect o pc l = Ok (specs, c) →
    Forall2 same_but_info l specs.
Proof.
  induction l as [|s l IH]; intros specs c H; simpl in H.
  - simplify_eq. constructor.
  - destruct (collect_one o pc s) as [[s1 c1]|] eqn:E1; [|done].
    simpl in H.
    destruct (collect o pc l) as [[l1 c2]|] eqn:E2; [|done]. simpl in H.
    simplify_eq. constructor; [by eapply collect_one_same_but_info|].
    by eapply IH.
Qed.

(** X19.  Exports flow forward only.  A propagation from the
    environment [e] leaves the list of [e] with the same Specs, each at
    most with its [run_exports_info] assigned; it never writes the build
    list, writes the host list only when [e] is build, and writes no
    list at all when [e] is run or run_constrained.  No list gets
    shorter, and nothing but the requirements is changed. *)
Theorem propagation_flows_forward (e : env) (pc : string) (o o' : Output) :
  propagate_run_exports e pc o = Ok o' →
  Forall2 same_but_info (reqs_of e o) (reqs_of e o') ∧
  (e ≠ Build → reqs_of Build o' = reqs_of Build o) ∧
  (e ≠ Build → e ≠ Host → reqs_of Host o' = reqs_of Host o) ∧
  (e = Run ∨ e = RunConstrained →
   ∀ t, t ≠ e → reqs_of t o' = reqs_of t o) ∧
  (∀ t, length (reqs_of t o) ≤ length (reqs_of t o')) ∧
  ∃ r, o' = set_requirements r o.
Proof.
  intros H.
  destruct (collect_total apply_pin_expressions read_run_exports o pc
              (reqs_of e o)) as (specs & c & Hc).
  pose proof (collect_same_but_info _ _ _ _ _ Hc) as Hsame.
  rewrite (propagate_routed _ _ _ _ _ _ _ Hc) in H. simplify_eq.
  assert (Hlater : ∀ t r, (t, r) ∈ flat_map (routes e (noarch o)) c →
            later e t).
  { intros t r Hin. apply list_elem_of_In, in_flat_map in Hin
      as (rex & _ & Hin). apply list_elem_of_In in Hin.
    by eapply routes_later. }
  assert (Hfr : ∀ t, t ≠ e → ¬ later e t →
            reqs_of t (insert_routed (flat_map (routes e (noarch o)) c)
                         (with_reqs e specs o)) = reqs_of t o).
  { intros t Hne Hnl. rewrite reqs_of_insert_routed_ne.
    - by apply reqs_of_with_reqs_ne.
    - intros t' r Hin ->. apply Hnl. by eapply Hlater. }
  split; [|split; [|split; [|split; [|split]]]].
  - rewrite reqs_of_insert_routed_ne.
    + by rewrite reqs_of_with_reqs.
    + intros t r Hin. by eapply later_ne, Hlater.
  - intros Hne. apply Hfr; [congruence|]. destruct e; simpl; tauto.
  - intros Hb Hh. apply Hfr; [congruence|]. destruct e; simpl; tauto.
  - intros He t Hne. apply Hfr; [done|].
    destruct He as [-> | ->]; destruct t; simpl; tauto.
  - intros t. etrans; [|apply insert_routed_grows].
    destruct (decide (t = e)) as [->|Hne].
    + rewrite reqs_of_with_reqs.
      by rewrite (Forall2_length _ _ _ Hsame).
    + by rewrite reqs_of_with_reqs_ne.
  - destruct (insert_routed_attrs (flat_map (routes e (noarch o)) c)
                (with_reqs e specs o)) as [r ->].
    by exists r.
Qed.

End Metadata.

Lemma collect_one_pinned (read1 read2 : string -> string ->
                                        option (RunExports.t string))
    (o : Output) (pc : string) (s : Spec.t) :
  contributes_nothing o s
  ∨ is_Some (pin_run_as_build o !! PyStr.dash_to_underscore (Spec.name s)) →
  collect_one apply_pin_expressions read1 o pc s
  = collect_one apply_pin_expressions read2 o pc s.
Proof.
  intros [Hn|[pins Hp]].
  - by rewrite !collect_one_nothing.
  - unfold collect_one.
    destruct (Spec.is_transitive_dependency s); [done|].
    case_bool_decide; [done|].
    destruct (Spec.has_final_version s); [|done].
    destruct (Spec.final_triplet s); [|done]. simpl. by rewrite Hp.
Qed.

(** X17.  A package that the configuration pins "as build" never has
    its metadata read: when every Spec of the solved environment is so
    pinned, or contributes nothing, the propagation gives the same
    result for any two metadata stores. *)
Theorem pinned_exports_ignore_metadata
    (read1 read2 : string -> string -> option (RunExports.t string))
    (e : env) (pc : string) (o : Output) :
  Forall (fun s => contributes_nothing o s
                   ∨ is_Some (pin_run_as_build o
                                !! PyStr.dash_to_underscore (Spec.name s)))
         (reqs_of e o) →
  propagate_run_exports apply_pin_expressions read1 e pc o
  = propagate_run_exports apply_pin_expressions read2 e pc o.
Proof.
  intros H. unfold propagate_run_exports.
  assert (Hc : collect apply_pin_expressions read1 o pc (reqs_of e o)
               = collect apply_pin_expressions read2 o pc (reqs_of e o)).
  { induction H as [|s l Hs _ IH]; [done|]. simpl.
    by rewrite (collect_one_pinned read1 read2 _ _ _ Hs), IH. }
  by rewrite Hc.
Qed.

End PropagatorMore.

Lemma propagate_without_contributions_witness :
  propagate_run_exports Sample.no_pin_expressions
    (Sample.store_of SampleC10.rex) Host "cache" SampleProp.ignoring
  = Ok SampleProp.ignoring.
Proof.
  apply (propagate_without_contributions Sample.no_pin_expressions
           (Sample.store_of SampleC10.rex) Host "cache" SampleProp.ignoring).
  constructor; [|constructor]. right. left. apply list_elem_of_here.
Defined.

Lemma propagation_flows_forward_witness :
  let o := SampleC10.o0 in
  let o' := SampleC1.solved o
              (propagate_run_exports Sample.no_pin_expressions
                 (Sample.store_of SampleC10.rex) Host "cache" o) in
  Forall2 same_but_info (reqs_of Host o) (reqs_of Host o') ∧
  (Host ≠ Build → reqs_of Build o' = reqs_of Build o) ∧
  (Host ≠ Build → Host ≠ Host → reqs_of Host o' = reqs_of Host o) ∧
  (Host = Run ∨ Host = RunConstrained →
   ∀ t, t ≠ Host → reqs_of t o' = reqs_of t o) ∧
  (∀ t, length (reqs_of t o) ≤ length (reqs_of t o')) ∧
  ∃ r, o' = set_requirements r o.
Proof.
  apply (propagation_flows_forward Sample.no_pin_expressions
           (Sample.store_of SampleC10.rex) Host "cache" SampleC10.o0).
  vm_compute. reflexivity.
Defined.

Lemma pinned_exports_ignore_metadata_witness :
  propagate_run_exports Sample.no_pin_expressions
    (Sample.store_of SampleC10.rex) Host "cache" SampleProp.pinning
  = propagate_run_exports Sample.no_pin_expressions SampleC1.no_metadata
      Host "cache" SampleProp.pinning.
Proof.
  apply (pinned_exports_ignore_metadata Sample.no_pin_expressions
           (Sample.store_of SampleC10.rex) SampleC1.no_metadata Host "cache"
           SampleProp.pinning).
  constructor; [|constructor]. right. eexists. vm_compute. reflexivity.
Defined.

(** ** The Output's own run exports *)

Lemma lookup_put_final (k k' : string) (l : list Spec.t)
    (m : gmap string (list string)) :
  put_final k l m !! k'
  = if decide (k = k') then
      match finals_if_any l with Some x => Some x | None => m !! k' end
    else m !! k'.
Proof.
  unfold put_final, finals_if_any. destruct l as [|s l].
  - by case_decide.
  - case_decide as Hk.
    + subst. by rewrite lookup_insert_eq.
    + by rewrite lookup_insert_ne.
Qed.

Section FinalizerMore.

Variable pin_subpackage_text : Spec.t -> Output -> string.

Local Abbreviation eval_pin_subpackage :=
  (eval_pin_subpackage pin_subpackage_text).
Local Abbreviation own_exports_loop :=
  (own_exports_loop pin_subpackage_text).
Local Abbreviation finalize_own_exports :=
  (finalize_own_exports pin_subpackage_text).
Local Abbreviation set_final_build_id :=
  (set_final_build_id pin_subpackage_text).

Lemma own_exports_loop_nil (self_name : string) (all : list Output)
    (fuel i : nat) :
  own_exports_loop self_name all fuel i [] = Ok [].
Proof. by destruct fuel. Qed.

Lemma own_exports_loop_spec (self_name : string) (all : list Output)
    (rest : list Spec.t) :
  ∀ fuel pre l',
    length rest ≤ fuel →
    own_exports_loop self_name all fuel (length pre) (pre ++ rest) = Ok l' →
    (Exists (fun x => self_export self_name x = true) rest → l' = []) ∧
    (Forall (fun x => self_export self_name x = false) rest →
     ∃ rest', l' = pre ++ rest' ∧
              Forall2 (fun x x' => eval_pin_subpackage all x = Ok x')
                      rest rest').
Proof.
  induction rest as [|x rest IH]; intros fuel pre l' Hfuel H.
  - split; [by inversion 1|]. intros _. exists [].
    split; [|constructor].
    destruct fuel; simpl in H; [by simplify_eq|].
    rewrite lookup_ge_None_2 in H by (rewrite length_app; simpl; lia).
    by simplify_eq.
  - destruct fuel as [|fuel]; [simpl in Hfuel; lia|]. simpl in H.
    rewrite list_lookup_middle in H by done.
    fold (self_export self_name x) in H.
    destruct (self_export self_name x) eqn:Hx.
    + rewrite own_exports_loop_nil in H. simplify_eq.
      split; [done|]. intros Hall. inversion Hall; subst. congruence.
    + destruct (eval_pin_subpackage all x) as [x'|] eqn:Ex; [|done].
      simpl in H.
      replace (<[length pre := x']> (pre ++ x :: rest))
        with ((pre ++ [x']) ++ rest) in H.
      2:{ rewrite <- app_assoc. simpl.
          replace (length pre) with (length pre + 0) by lia.
          by rewrite insert_app_r. }
      replace (S (length pre)) with (length (pre ++ [x'])) in H
        by (rewrite length_app; simpl; lia).
      destruct (IH fuel (pre ++ [x']) l') as [Hex Hall];
        [simpl in Hfuel; lia|done|].
      split.
      * intros He. inversion He; subst; [congruence|by apply Hex].
      * intros Ha. inversion Ha; subst.
        destruct Hall as (rest' & -> & Hr); [done|].
        exists (x' :: rest'). split; [by rewrite <- app_assoc|].
        by constructor.
Qed.

(** X20.  The finalization of one strength of the Output's own run
    exports is all or nothing.  When one entry of the list is a self
    export (the Output's name ends in [-static] and starts with the
    entry's name), the finalized list is empty; when none is, it holds
    every entry, in order, with its [pin_subpackage] evaluated. *)
Theorem own_exports_all_or_nothing (self_name : string)
    (all : list Output) (l l' : list Spec.t) :
  finalize_own_exports self_name all l = Ok l' →
  (Exists (fun x => self_export self_name x = true) l → l' = []) ∧
  (Forall (fun x => self_export self_name x = false) l →
   Forall2 (fun x x' => eval_pin_subpackage all x = Ok x') l l').
Proof.
  intros H. unfold finalize_own_exports in H.
  destruct (own_exports_loop_spec self_name all l (length l) [] l')
    as [Hex Hall]; [done|done|].
  split; [done|]. intros Ha.
  destruct (Hall Ha) as (rest' & -> & Hr). done.
Qed.

(** X21.  When [set_final_build_id] returns, the build identifier is
    bound and the raw record's [build/run_exports] entry mirrors the
    finalized exports: it has one key per strength whose list is not
    empty, holding the final constraint texts of that list in order, no
    other key, and it is [None] exactly when all five lists are empty.
    The requirements are not touched. *)
Theorem set_final_build_id_data (build_id : string) (all : list Output)
    (o o' : Output) :
  set_final_build_id build_id all o = Ok o' →
  final_build_id o' = Some build_id ∧
  requirements o' = requirements o ∧
  let rx := run_exports o' in
  let m := default ∅ (data_build_run_exports o') in
  m !! "weak" = finals_if_any (RunExports.weak rx) ∧
  m !! "strong" = finals_if_any (RunExports.strong rx) ∧
  m !! "noarch" = finals_if_any (RunExports.noarch rx) ∧
  m !! "weak_constrains" = finals_if_any (RunExports.weak_constrains rx) ∧
  m !! "strong_constrains"
  = finals_if_any (RunExports.strong_constrains rx) ∧
  (∀ k, k ∉ ["weak"; "strong"; "noarch"; "weak_constrains";
             "strong_constrains"] → m !! k = None) ∧
  (data_build_run_exports o' = None ↔
   RunExports.weak rx = [] ∧ RunExports.strong rx = [] ∧
   RunExports.noarch rx = [] ∧ RunExports.weak_constrains rx = [] ∧
   RunExports.strong_constrains rx = []).
Proof.
  intros H. unfold set_final_build_id in H. cbv zeta in H.
  destruct (finalize_own_exports _ all (RunExports.weak _)) as [w|];
    [|done]. cbn [mbind Res_bind] in H.
  destruct (finalize_own_exports _ all (RunExports.strong _)) as [s|];
    [|done]. cbn [mbind Res_bind] in H.
  destruct (finalize_own_exports _ all (RunExports.noarch _)) as [n|];
    [|done]. cbn [mbind Res_bind] in H.
  destruct (finalize_own_exports _ all (RunExports.weak_constrains _))
    as [wc|]; [|done]. cbn [mbind Res_bind] in H.
  destruct (finalize_own_exports _ all (RunExports.strong_constrains _))
    as [sc|]; [|done]. cbn [mbind Res_bind] in H.
  set (fre := put_final "strong_constrains" sc
                (put_final "weak_constrains" wc
                  (put_final "noarch" n
                    (put_final "strong" s (put_final "weak" w ∅))))) in *.
  assert (Hm : default ∅ (data_build_run_exports o') = fre
               ∧ (data_build_run_exports o' = None ↔ fre = ∅)
               ∧ run_exports o' = RunExports.mk w s sc wc n
               ∧ final_build_id o' = Some build_id
               ∧ requirements o' = requirements o).
  { case_bool_decide as E; simplify_eq; simpl.
    - rewrite E. by repeat split.
    - repeat split; try done. }
  destruct Hm as (Hm & Hnone & Hrx & Hid & Hreq).
  split; [done|]. split; [done|]. cbv zeta. rewrite Hm, Hrx. simpl.
  assert (Hlk : ∀ k, fre !! k
            = if decide (k = "strong_constrains") then finals_if_any sc
              else if decide (k = "weak_constrains") then finals_if_any wc
              else if decide (k = "noarch") then finals_if_any n
              else if decide (k = "strong") then finals_if_any s
              else if decide (k = "weak") then finals_if_any w
              else None).
  { intros k. subst fre. rewrite !lookup_put_final.
    repeat (case_decide; subst; try done);
      repeat match goal with
             | |- context [finals_if_any ?l] =>
                 destruct (finals_if_any l); try done
             end. }
  split; [by rewrite Hlk|]. split; [by rewrite Hlk|].
  split; [by rewrite Hlk|]. split; [by rewrite Hlk|].
  split; [by rewrite Hlk|]. split.
  - intros k Hk. rewrite Hlk.
    repeat (destruct (decide _) as [->|_];
            [exfalso; apply Hk; repeat constructor|]).
    done.
  - rewrite Hnone. split.
    + intros He.
      pose proof (Hlk "weak") as H1. pose proof (Hlk "strong") as H2.
      pose proof (Hlk "noarch") as H3.
      pose proof (Hlk "weak_constrains") as H4.
      pose proof (Hlk "strong_constrains") as H5.
      rewrite He, lookup_empty in H1, H2, H3, H4, H5. simpl in *.
      destruct w, s, n, wc, sc; done.
    + intros (-> & -> & -> & -> & ->). done.
Qed.

End FinalizerMore.

Lemma own_exports_all_or_nothing_witness :
  let l := [Spec.CondaBuildSpec "bar >=1"; Spec.CondaBuildSpec "foo"] in
  (Exists (fun x => self_export "foo-static" x = true) l →
   [] = @nil Spec.t) ∧
  (Forall (fun x => self_export "foo-static" x = false) l →
   Forall2 (fun x x' => eval_pin_subpackage SampleC3.no_pins [] x = Ok x')
           l []).
Proof.
  apply (own_exports_all_or_nothing SampleC3.no_pins "foo-static" []
           [Spec.CondaBuildSpec "bar >=1"; Spec.CondaBuildSpec "foo"] []).
  vm_compute. reflexivity.
Defined.

Lemma set_final_build_id_data_witness :
  let o := SampleC3.o0 in
  let o' := SampleC1.solved o
              (set_final_build_id SampleC3.no_pins "h_0" [] o) in
  final_build_id o' = Some "h_0" ∧
  requirements o' = requirements o ∧
  let rx := run_exports o' in
  let m := default ∅ (data_build_run_exports o') in
  m !! "weak" = finals_if_any (RunExports.weak rx) ∧
  m !! "strong" = finals_if_any (RunExports.strong rx) ∧
  m !! "noarch" = finals_if_any (RunExports.noarch rx) ∧
  m !! "weak_constrains" = finals_if_any (RunExports.weak_constrains rx) ∧
  m !! "strong_constrains"
  = finals_if_any (RunExports.strong_constrains rx) ∧
  (∀ k, k ∉ ["weak"; "strong"; "noarch"; "weak_constrains";
             "strong_constrains"] → m !! k = None) ∧
  (data_build_run_exports o' = None ↔
   RunExports.weak rx = [] ∧ RunExports.strong rx = [] ∧
   RunExports.noarch rx = [] ∧ RunExports.weak_constrains rx = [] ∧
   RunExports.strong_constrains rx = []).
Proof.
  apply (set_final_build_id_data SampleC3.no_pins "h_0" [] SampleC3.o0).
  vm_compute. reflexivity.
Defined.

(** ** Construction: what the raw record must hold *)

Section ConstructorMore.

Import Py HeapSpec Init.

(** X22.  A record can be constructed only if it has its own [step] and
    [build] entries, whatever the parent provides; the Output is a
    package exactly when the record has a [package] entry, and without
    one its version and build string are [None]. *)
Theorem init_reads_identity (ld : loc) (parent : option val)
    (sel : gmap string val) (h : list obj) (a : Attrs) (h' : list obj) :
  ld < length h →
  (∀ lp, parent = Some (VRef lp) → lp < length h) →
  __init__ (VRef ld) parent sel h = Ok (a, h') →
  ∃ md,
    h !! ld = Some (ODict md) ∧
    is_Some (md !! "step") ∧
    is_Some (md !! "build") ∧
    is_package a = bool_decide (is_Some (md !! "package")) ∧
    (md !! "package" = None → version a = VNone ∧ build_string a = VNone) ∧
    is_first a = false ∧
    selected_features a = sel.
Proof.
  intros Hld Hpar H.
  assert (∃ lp h0, ld < length h0 ∧ lp < length h0 ∧
            h0 !! ld = h !! ld ∧
            construct (VRef ld) (VRef lp) sel h0 = Ok (a, h'))
    as (lp & h0 & Hld0 & Hlp0 & Hsame & Hc).
  { destruct (init_cases _ _ _ _ _ _ H) as [(pv & -> & Hcons)|[-> Hcons]].
    - destruct (construct_parent_ref _ _ _ _ _ Hcons) as [lp ->].
      exists lp, h. split; [done|]. split; [by apply Hpar|]. done.
    - exists (length h), (h ++ [ODict ∅]).
      rewrite length_app. simpl. split; [lia|]. split; [lia|].
      split; [by apply lookup_app_l|done]. }
  unfold construct in Hc.
  apply bind_Ok in Hc as (u & h1 & Hb & Hc).
  apply bind_source_effect in Hb as (md & mp & Hmd & Hmp & ->);
    [|done|done].
  set (sv := default (default (VRef (length h0)) (mp !! "source"))
                     (md !! "source")) in *.
  set (h1 := <[ld := ODict (<["source" := sv]> md)]> (h0 ++ [ODict ∅])) in *.
  assert (Hd1 : h1 !! ld = Some (ODict (<["source" := sv]> md))).
  { subst h1. apply list_lookup_insert_eq. rewrite length_app. lia. }
  apply bind_Ok in Hc as ([[[[[nm ver] bs] bn] na] ip] & h2 & Hi & Hc).
  assert (Hid : is_Some (md !! "step") ∧ is_Some (md !! "build") ∧
                ip = bool_decide (is_Some (md !! "package")) ∧
                (md !! "package" = None → ver = VNone ∧ bs = VNone)).
  { unfold read_identity in Hi.
    apply bind_Ok in Hi as (step & h3 & Hstep & Hi).
    apply dict_item_Ok in Hstep as (-> & l & m & [= <-] & Hm & Hst).
    rewrite Hd1 in Hm. injection Hm as <-.
    rewrite lookup_insert_ne in Hst by done.
    apply bind_Ok in Hi as (nm0 & h3 & Hnm & Hi).
    apply reads_only_dict_item in Hnm as ->.
    apply bind_Ok in Hi as (isp & h3 & Hisp & Hi).
    unfold dict_contains in Hisp.
    apply bind_Ok in Hisp as (m & h4 & Hm & Hisp).
    apply as_dict_Ok in Hm as (-> & l & [= <-] & Hm).
    rewrite Hd1 in Hm. injection Hm as <-.
    apply ret_Ok in Hisp. injection Hisp as -> ->.
    rewrite lookup_insert_ne in Hi by done.
    apply bind_Ok in Hi as ([v b] & h3 & Hvb & Hi).
    assert (h3 = h1 ∧ (md !! "package" = None → v = VNone ∧ b = VNone))
      as [-> Hnone].
    { case_bool_decide as Hp.
      - apply bind_Ok in Hvb as (pkg & h4 & Hpkg & Hvb).
        apply reads_only_dict_item in Hpkg as ->.
        apply bind_Ok in Hvb as (v0 & h4 & Hv0 & Hvb).
        apply reads_only_dict_item in Hv0 as ->.
        apply bind_Ok in Hvb as (pkg2 & h4 & Hpkg2 & Hvb).
        apply reads_only_dict_item in Hpkg2 as ->.
        apply bind_Ok in Hvb as (b0 & h4 & Hb0 & Hvb).
        apply reads_only_dict_get in Hb0 as ->.
        apply ret_Ok in Hvb. simplify_eq. split; [done|].
        intros Hn. rewrite Hn in Hp. by destruct Hp.
      - apply ret_Ok in Hvb. by simplify_eq. }
    apply bind_Ok in Hi as (bld & h3 & Hbld & Hi).
    apply dict_item_Ok in Hbld as (-> & l & m & [= <-] & Hm & Hbl).
    rewrite Hd1 in Hm. injection Hm as <-.
    rewrite lookup_insert_ne in Hbl by done.
    apply bind_Ok in Hi as (bn0 & h3 & Hbn & Hi).
    apply reads_only_dict_get in Hbn as ->.
    apply bind_Ok in Hi as (bld2 & h3 & Hbld2 & Hi).
    apply reads_only_dict_item in Hbld2 as ->.
    apply bind_Ok in Hi as (na0 & h3 & Hna & Hi).
    apply reads_only_dict_get in Hna as ->.
    apply ret_Ok in Hi. simplify_eq.
    split; [by eexists|]. split; [by eexists|]. split; [done|]. done. }
  destruct Hid as (Hstep & Hbuild & -> & Hver).
  apply bind_Ok in Hc as ([secs steps] & h3 & Hs & Hc).
  apply bind_Ok in Hc as ([[sf fm] nm'] & h4 & Hf & Hc).
  apply bind_Ok in Hc as (reqs & h5 & Hr & Hc).
  apply bind_Ok in Hc as (bsec & h6 & Hbs & Hc).
  apply bind_Ok in Hc as (rx & h7 & Hrx & Hc).
  apply ret_Ok in Hc. injection Hc as -> ->.
  exists md. rewrite <- Hsame. split; [done|]. simpl.
  split; [exact Hstep|]. split; [exact Hbuild|]. split; [done|].
  split; [exact Hver|]. by split.
Qed.

End ConstructorMore.

Lemma init_reads_identity_witness :
  match Init.__init__ (Py.VRef 0) (Some (Py.VRef 5)) ∅ SampleInit.heap with
  | Ok (a, h') =>
      ∃ md,
        SampleInit.heap !! 0 = Some (Py.ODict md) ∧
        is_Some (md !! "step") ∧
        is_Some (md !! "build") ∧
        Init.is_package a = bool_decide (is_Some (md !! "package")) ∧
        (md !! "package" = None →
         Init.version a = Py.VNone ∧ Init.build_string a = Py.VNone) ∧
        Init.is_first a = false ∧
        Init.selected_features a = ∅
  | Raise _ => False
  end.
Proof.
  destruct (Init.__init__ (Py.VRef 0) (Some (Py.VRef 5)) ∅ SampleInit.heap)
    as [[a h']|e] eqn:E.
  - apply (init_reads_identity 0 (Some (Py.VRef 5)) ∅ SampleInit.heap a h').
    + simpl. lia.
    + intros lp [= <-]. simpl. lia.
    + exact E.
  - vm_compute in E. discriminate E.
Defined.

(** ** Construction: feature activation *)

Section FeatureFacts.

Import Py HeapSpec Init.

Lemma odict_set_keys {A} (k : string) (v : A) (m : list (string * A))
    (n : string) :
  n ∈ (odict_set k v m).*1 → n = k ∨ n ∈ m.*1.
Proof.
  induction m as [|[k' v'] m IH]; simpl.
  - intros H. apply list_elem_of_singleton in H. by left.
  - destruct (String.eqb k' k) eqn:E; simpl.
    + intros H. by right.
    + intros H. apply elem_of_cons in H as [->|H].
      * right. apply list_elem_of_here.
      * destruct (IH H) as [->|?]; [by left|].
        right. by apply list_elem_of_further.
Qed.

Lemma odict_set_spec {A} (k : string) (v : A) (m : list (string * A)) :
  NoDup m.*1 →
  NoDup (odict_set k v m).*1 ∧
  ∀ n x, (n, x) ∈ odict_set k v m →
         (n = k ∧ x = v) ∨ ((n, x) ∈ m ∧ n ≠ k).
Proof.
  induction m as [|[k' v'] m IH]; simpl; intros Hnd.
  - split; [apply NoDup_singleton|].
    intros n x H. apply list_elem_of_singleton in H. simplify_eq. by left.
  - apply NoDup_cons in Hnd as [Hk' Hnd].
    destruct (String.eqb k' k) eqn:E; simpl.
    + apply String.eqb_eq in E. subst k'. split.
      * by apply NoDup_cons.
      * intros n x H. apply elem_of_cons in H as [H|H].
        -- simplify_eq. by left.
        -- right. split; [by apply list_elem_of_further|].
           intros ->. apply Hk'. apply list_elem_of_fmap.
           by exists (k, x).
    + apply String.eqb_neq in E. destruct (IH Hnd) as [Hnd' Hel]. split.
      * apply NoDup_cons. split; [|done].
        intros Hin. apply odict_set_keys in Hin as [->|Hin]; done.
      * intros n x H. apply elem_of_cons in H as [H|H].
        -- simplify_eq. right. split; [apply list_elem_of_here|done].
        -- destruct (Hel _ _ H) as [?|[? ?]]; [by left|].
           right. split; [by apply list_elem_of_further|done].
Qed.

Lemma odict_get_elem {A} (k : string) (m : list (string * A)) (x : A) :
  NoDup m.*1 → (odict_get k m = Some x ↔ (k, x) ∈ m).
Proof.
  induction m as [|[k' v'] m IH]; simpl; intros Hnd.
  - split; [done|]. intros H. by apply not_elem_of_nil in H.
  - apply NoDup_cons in Hnd as [Hk' Hnd].
    destruct (String.eqb k' k) eqn:E.
    + apply String.eqb_eq in E. subst k'. split.
      * intros [= ->]. apply list_elem_of_here.
      * intros H. apply elem_of_cons in H as [H|H]; [by simplify_eq|].
        exfalso. apply Hk'. apply list_elem_of_fmap. by exists (k, x).
    + apply String.eqb_neq in E. rewrite (IH Hnd). split.
      * intros H. by apply list_elem_of_further.
      * intros H. apply elem_of_cons in H as [H|H]; [by simplify_eq|done].
Qed.

Lemma make_feature_map_named (fs : list val) :
  ∀ acc h fm h',
    named_entries h acc →
    make_feature_map fs acc h = Ok (fm, h') →
    named_entries h fm.
Proof.
  induction fs as [|f fs IH]; intros acc h fm h' Hacc H; simpl in H.
  - apply ret_Ok in H. by simplify_eq.
  - apply bind_Ok in H as (n & h1 & Hn & H).
    apply dict_item_Ok in Hn as (-> & l & m & -> & Hm & Hnm).
    apply bind_Ok in H as (n' & h1 & Hs & H).
    assert (n = VStr n' ∧ h1 = h) as [-> ->].
    { destruct n; try done. apply ret_Ok in Hs. by simplify_eq. }
    eapply IH; [|exact H].
    destruct Hacc as [Hnd Hel].
    destruct (odict_set_spec n' (VRef l) acc Hnd) as [Hnd' Hel'].
    split; [done|]. intros k x Hx.
    destruct (Hel' _ _ Hx) as [[-> ->]|[Hin _]].
    + by eexists _, _.
    + by apply Hel.
Qed.

Lemma odict_set_key_in {A} (k : string) (v : A) (m : list (string * A)) :
  k ∈ (odict_set k v m).*1 ∧ ∀ n, n ∈ m.*1 → n ∈ (odict_set k v m).*1.
Proof.
  induction m as [|[k' v'] m [IH1 IH2]]; simpl.
  - split; [apply list_elem_of_here|]. intros n Hn.
    by apply not_elem_of_nil in Hn.
  - destruct (String.eqb k' k) eqn:E; simpl.
    + apply String.eqb_eq in E. subst k'.
      split; [apply list_elem_of_here|done].
    + split; [by apply list_elem_of_further|].
      intros n Hn. apply elem_of_cons in Hn as [->|Hn].
      * apply list_elem_of_here.
      * apply list_elem_of_further. by apply IH2.
Qed.

(** Every entry of the list has its name among the keys of the map. *)
Lemma make_feature_map_keys (fs : list val) :
  ∀ acc h fm h',
    make_feature_map fs acc h = Ok (fm, h') →
    (∀ n, n ∈ acc.*1 → n ∈ fm.*1) ∧
    ∀ f, f ∈ fs →
      ∃ l m n, f = VRef l ∧ h !! l = Some (ODict m) ∧
               m !! "name" = Some (VStr n) ∧ n ∈ fm.*1.
Proof.
  induction fs as [|f fs IH]; intros acc h fm h' H; simpl in H.
  - apply ret_Ok in H. simplify_eq. split; [done|].
    intros f Hf. by apply not_elem_of_nil in Hf.
  - apply bind_Ok in H as (n & h1 & Hn & H).
    apply dict_item_Ok in Hn as (-> & l & m & -> & Hm & Hnm).
    apply bind_Ok in H as (n' & h1 & Hs & H).
    assert (n = VStr n' ∧ h1 = h) as [-> ->].
    { destruct n; try done. apply ret_Ok in Hs. by simplify_eq. }
    destruct (IH _ _ _ _ H) as [Hkeys Hall].
    destruct (odict_set_key_in n' (VRef l) acc) as [Hk1 Hk2].
    split.
    + intros k Hk. by apply Hkeys, Hk2.
    + intros g Hg. apply elem_of_cons in Hg as [->|Hg]; [|by apply Hall].
      exists l, m, n'. split; [done|]. split; [done|]. split; [done|].
      by apply Hkeys.
Qed.

Lemma named_entries_locs (h : list obj) (fm : list (string * val)) :
  named_entries h fm → NoDup fm.*2.
Proof.
  intros [Hnd Hel]. induction fm as [|[n f] fm IH]; [constructor|].
  simpl in *. apply NoDup_cons in Hnd as [Hn Hnd].
  apply NoDup_cons. split.
  - intros Hin. apply list_elem_of_fmap in Hin as ([n2 f2] & Hf & Hin).
    simpl in Hf. subst f2.
    destruct (Hel n f) as (l & m & -> & Hm & Hnm); [apply list_elem_of_here|].
    destruct (Hel n2 (VRef l)) as (l2 & m2 & [= <-] & Hm2 & Hnm2);
      [by apply list_elem_of_further|].
    assert (n2 = n) as -> by congruence.
    apply Hn. apply list_elem_of_fmap. by exists (n, VRef l).
  - apply IH; [done|]. intros n2 f2 Hin. apply Hel.
    by apply list_elem_of_further.
Qed.

(** The activation loop binds [activated] in every entry of the map to
    the activation of the feature and writes nothing else. *)
Lemma iter_activate_values (sel : gmap string val)
    (fm : list (string * val)) :
  ∀ h u h',
    NoDup fm.*2 →
    iter (activate sel) fm h = Ok (u, h') →
    length h' = length h ∧
    (∀ n l m, (n, VRef l) ∈ fm → h !! l = Some (ODict m) →
       h' !! l
       = Some (ODict (<["activated" := feature_activation sel n m]> m))) ∧
    (∀ l, VRef l ∉ fm.*2 → h' !! l = h !! l).
Proof.
  induction fm as [|[n f] fm IH]; intros h u h' Hnd H; simpl in H.
  - apply ret_Ok in H. simplify_eq. split; [done|]. split; [|done].
    intros n l m Hin. by apply not_elem_of_nil in Hin.
  - simpl in Hnd. apply NoDup_cons in Hnd as [Hf Hnd].
    apply bind_Ok in H as (u1 & h1 & Ha & H).
    unfold activate in Ha.
    apply bind_Ok in Ha as (a & h2 & Hd & Ha).
    apply dict_get_Ok in Hd as (-> & l & m & -> & Hm & ->).
    apply dict_setitem_Ok in Ha as (l' & m' & [= <-] & Hm' & ->).
    rewrite Hm in Hm'. injection Hm' as <-.
    destruct (IH _ _ _ Hnd H) as (Hlen & Hval & Hfr).
    rewrite length_insert in Hlen. split; [done|]. split.
    + intros n2 l2 m2 Hin Hm2. apply elem_of_cons in Hin as [Hin|Hin].
      * simplify_eq. rewrite Hfr by done.
        apply list_lookup_insert_eq. by eapply lookup_lt_Some.
      * assert (l2 ≠ l).
        { intros ->. apply Hf. apply list_elem_of_fmap.
          by exists (n2, VRef l). }
        apply Hval; [done|]. by rewrite list_lookup_insert_ne.
    + intros l2 Hl2. rewrite Hfr.
      * apply list_lookup_insert_ne. intros ->. apply Hl2.
        simpl. apply list_elem_of_here.
      * intros Hin. apply Hl2. simpl. by apply list_elem_of_further.
Qed.

(** The feature phase of the constructor, value by value. *)
Lemma activate_features_values (lp : loc) (sel : gmap string val)
    (nm : val) (h : list obj) (mp : gmap string val) (sf : val)
    (fm : list (string * val)) (nm' : val) (h3 : list obj) :
  h !! lp = Some (ODict mp) →
  (∀ lf, mp !! "features" = Some (VRef lf) → lf < length h) →
  activate_features (VRef lp) sel nm h = Ok ((sf, fm, nm'), h3) →
  named_entries h fm ∧
  (∀ n l, (n, VRef l) ∈ fm →
     ∃ lf fs, mp !! "features" = Some (VRef lf) ∧
              h !! lf = Some (OList fs) ∧ VRef l ∈ fs) ∧
  length h ≤ length h3 ∧
  (∀ n l m, (n, VRef l) ∈ fm → h !! l = Some (ODict m) →
     h3 !! l
     = Some (ODict (<["activated" := feature_activation sel n m]> m))) ∧
  (∀ l, l < length h → VRef l ∉ fm.*2 → h3 !! l = h !! l) ∧
  (odict_get "static" fm = None → nm' = nm) ∧
  (∀ l m b, ("static", VRef l) ∈ fm → h !! l = Some (ODict m) →
     feature_activation sel "static" m = VBool b →
     nm' = if b then static_name nm else nm) ∧
  (∀ lf fs l m n, mp !! "features" = Some (VRef lf) →
     h !! lf = Some (OList fs) → VRef l ∈ fs →
     h !! l = Some (ODict m) → m !! "name" = Some (VStr n) →
     n ∈ fm.*1).
Proof.
  intros Hmp Hlt H. unfold activate_features in H.
  pose proof (lookup_lt_Some _ _ _ Hmp) as Hlp.
  apply bind_Ok in H as (dflt & h1 & Ha & H).
  apply alloc_Ok in Ha as [-> ->].
  apply bind_Ok in H as (sf' & h1 & Hs & H).
  apply dict_get_Ok in Hs as (-> & l & m & [= <-] & Hm & ->).
  rewrite lookup_app_l in Hm by done. simplify_eq.
  apply bind_Ok in H as (dflt2 & h1 & Ha & H).
  apply alloc_Ok in Ha as [-> ->].
  rewrite <- app_assoc in H. simpl in H.
  set (hx := h ++ [OList []; OList []]) in *.
  assert (Hold : ∀ l m, hx !! l = Some (ODict m) →
            l < length h ∧ h !! l = Some (ODict m)).
  { intros l m Hl. destruct (decide (l < length h)) as [Hlt'|Hge].
    - split; [done|]. subst hx. by rewrite lookup_app_l in Hl.
    - exfalso. subst hx. rewrite lookup_app_r in Hl by lia.
      destruct (l - length h) as [|[|k]]; simpl in Hl; done. }
  apply bind_Ok in H as (fs & h1 & Hfs & H).
  apply as_list_Ok in Hfs as (-> & lf & Hsf & Hlf).
  apply bind_Ok in H as (fm' & h1 & Hfm & H).
  pose proof (make_feature_map_named fs [] hx fm' h1) as Hnamed.
  pose proof Hfm as Hfm2.
  pose proof (make_feature_map_keys _ _ _ _ _ Hfm) as [_ Hkeys].
  apply make_feature_map_effect in Hfm2 as [-> Hmem].
  assert (Hn0 : named_entries hx fm').
  { apply Hnamed; [|done]. split; [constructor|].
    intros n f Hin. by apply not_elem_of_nil in Hin. }
  apply bind_Ok in H as (u & h1 & Hact & H).
  apply bind_Ok in H as (st & h2 & Hst & H).
  pose proof Hst as Hst2.
  apply reads_only_static_activated in Hst2 as ->.
  apply bind_Ok in H as (nm2 & h2 & Hnm & H).
  apply ret_Ok in H. injection H as -> -> -> ->.
  assert (Hh2 : h2 = h1 ∧ (st = false → nm2 = nm) ∧
                (st = true → nm2 = static_name nm)).
  { destruct st.
    - apply bind_Ok in Hnm as (x & h4 & Hx & Hnm).
      destruct nm; try done. apply ret_Ok in Hx. injection Hx as -> ->.
      apply ret_Ok in Hnm. injection Hnm as -> ->.
      split; [done|]. split; [done|]. done.
    - apply ret_Ok in Hnm. injection Hnm as -> ->. by repeat split. }
  destruct Hh2 as (-> & Hfalse & Htrue).
  destruct (iter_activate_values sel fm' hx u h1
              (named_entries_locs _ _ Hn0) Hact) as (Hlen & Hval & Hfr).
  assert (Hnamed_h : named_entries h fm').
  { destruct Hn0 as [Hnd Hel]. split; [done|]. intros n f Hin.
    destruct (Hel _ _ Hin) as (l & m & -> & Hm & Hnm').
    exists l, m. split; [done|]. split; [|done]. by apply Hold. }
  split; [done|]. split; [|split; [|split; [|split; [|split; [|split]]]]].
  - intros n l Hin.
    destruct (Hmem _ _ Hin) as [Hl|(nm0 & Hl)];
      [|by apply not_elem_of_nil in Hl].
    destruct (mp !! "features") as [v|] eqn:Ef; simpl in Hsf.
    + subst v. exists lf, fs. split; [done|]. split; [|done].
      subst hx. rewrite lookup_app_l in Hlf; [done|]. by apply Hlt.
    + simplify_eq. subst hx.
      replace (length h) with (length h + 0) in Hlf by lia.
      rewrite lookup_app_r in Hlf by lia.
      replace (length h + 0 - length h) with 0 in Hlf by lia.
      simpl in Hlf. simplify_eq. by apply not_elem_of_nil in Hl.
  - rewrite Hlen. subst hx. rewrite length_app. lia.
  - intros n l m Hin Hm. apply Hval; [done|].
    subst hx. apply lookup_app_l_Some. done.
  - intros l Hl Hnot. rewrite Hfr by done. subst hx.
    by apply lookup_app_l.
  - intros Hnone. apply Hfalse.
    unfold static_activated in Hst. rewrite Hnone in Hst.
    apply ret_Ok in Hst. by simplify_eq.
  - intros l m b Hin Hm Hb.
    unfold static_activated in Hst.
    destruct Hn0 as [Hnd _].
    rewrite (proj2 (odict_get_elem "static" fm' (VRef l) Hnd) Hin) in Hst.
    pose proof (Hval "static" l m Hin) as Hl3.
    rewrite Hb in Hl3.
    assert (Hx : hx !! l = Some (ODict m)).
    { subst hx. by apply lookup_app_l_Some. }
    specialize (Hl3 Hx).
    apply bind_Ok in Hst as (t & h4 & Ht & Hst).
    unfold truthy in Ht.
    apply bind_Ok in Ht as (o & h5 & Ho & Ht).
    apply get_obj_Ok in Ho as (-> & l' & [= <-] & Ho).
    rewrite Hl3 in Ho. injection Ho as <-.
    apply ret_Ok in Ht. injection Ht as -> ->.
    rewrite bool_decide_eq_false_2 in Hst
      by (apply insert_non_empty). simpl in Hst.
    apply bind_Ok in Hst as (a & h4 & Ha & Hst).
    apply dict_item_Ok in Ha as (-> & l' & m' & [= <-] & Hm' & Ha).
    rewrite Hl3 in Hm'. injection Hm' as <-.
    rewrite lookup_insert_eq in Ha. injection Ha as <-.
    simpl in Hst. apply ret_Ok in Hst. injection Hst as ->.
    destruct b; [by apply Htrue|by apply Hfalse].
  - intros lf0 fs0 l m n Hf0 Hfs0 Hl Hm Hnm0.
    rewrite Hf0 in Hsf. simpl in Hsf. injection Hsf as <-.
    assert (fs = fs0) as ->.
    { subst hx. rewrite lookup_app_l in Hlf by (by eapply lookup_lt_Some).
      congruence. }
    destruct (Hkeys _ Hl) as (l' & m' & n' & [= <-] & Hm' & Hn' & Hin).
    apply Hold in Hm' as [_ Hm']. by simplify_eq.
Qed.

End FeatureFacts.

(** ** Construction: the requirements *)

Section RequirementFacts.

Import Py HeapSpec Init.

Lemma map_m_specs (xs : list val) :
  ∀ h l h',
    map_m (fun r => s ← as_str r; mret (Spec.CondaBuildSpec s)) xs h
    = Ok (l, h') →
    h' = h ∧ ∃ ts, mapM val_str xs = Some ts ∧ l = Spec.CondaBuildSpec <$> ts.
Proof.
  induction xs as [|x xs IH]; intros h l h' H; simpl in H.
  - apply ret_Ok in H. simplify_eq. split; [done|]. by exists [].
  - apply bind_Ok in H as (y & h1 & Hy & H).
    apply bind_Ok in Hy as (s & h2 & Hs & Hy).
    destruct x as [| | |t|]; try done.
    apply ret_Ok in Hs. injection Hs as -> ->.
    apply ret_Ok in Hy. injection Hy as -> ->.
    apply bind_Ok in H as (ys & h2 & Hys & H).
    apply IH in Hys as (-> & ts & Hts & ->).
    apply ret_Ok in H. injection H as -> ->.
    split; [done|]. exists (t :: ts). split; [|done].
    simpl. by rewrite Hts.
Qed.

Lemma spec_list_values (x : val) (h : list obj) (l : list Spec.t)
    (h' : list obj) (lx : loc) (xs : list val) :
  x = VRef lx → h !! lx = Some (OList xs) →
  spec_list x h = Ok (l, h') →
  h' = h ∧ ∃ ts, mapM val_str xs = Some ts ∧ l = Spec.CondaBuildSpec <$> ts.
Proof.
  intros -> Hxs H. unfold spec_list in H.
  apply bind_Ok in H as (t & h1 & Ht & H).
  unfold truthy in Ht.
  apply bind_Ok in Ht as (o & h2 & Ho & Ht).
  apply get_obj_Ok in Ho as (-> & l' & [= <-] & Ho).
  rewrite Hxs in Ho. injection Ho as <-.
  apply ret_Ok in Ht. injection Ht as -> ->.
  destruct xs as [|x xs].
  - apply ret_Ok in H. injection H as -> ->. split; [done|]. by exists [].
  - apply bind_Ok in H as (rs & h1 & Hrs & H).
    apply as_list_Ok in Hrs as (-> & l' & [= <-] & Hrs).
    rewrite Hxs in Hrs. injection Hrs as <-.
    by apply map_m_specs in H.
Qed.

Lemma section_specs_values (lr : loc) (m : gmap string val) (k : string)
    (h : list obj) (l : list Spec.t) (h' : list obj) :
  h !! lr = Some (ODict m) →
  section_specs (VRef lr) k h = Ok (l, h') →
  h' = h ∧ ∀ ts, req_texts h m k = Some ts → l = Spec.CondaBuildSpec <$> ts.
Proof.
  intros Hm H. unfold section_specs in H.
  apply bind_Ok in H as (x & h1 & Hx & H).
  apply dict_get_Ok in Hx as (-> & l' & m' & [= <-] & Hm' & ->).
  rewrite Hm in Hm'. injection Hm' as <-.
  pose proof H as H2. apply reads_only_spec_list in H2 as ->.
  split; [done|]. intros ts Hts. unfold req_texts in Hts.
  assert (Hnone : spec_list VNone h = Ok (l, h) → l = []).
  { intros Hn. unfold spec_list in Hn.
    apply bind_Ok in Hn as (t & h1 & Ht & Hn).
    apply ret_Ok in Ht. injection Ht as -> ->.
    apply ret_Ok in Hn. by injection Hn as ->. }
  destruct (m !! k) as [[| | | |lx]|] eqn:Ek; simpl in H, Hts;
    try discriminate Hts.
  - injection Hts as <-. by apply Hnone.
  - destruct (h !! lx) as [[|xs]|] eqn:Ex; try discriminate Hts.
    eapply spec_list_values in H as (_ & ts' & Hts' & ->); [|done|done].
    congruence.
  - injection Hts as <-. by apply Hnone.
Qed.

(** A feature that is not activated adds no requirement. *)
Lemma feature_requirements_inactive (reqs : val) (n : string) (l : loc)
    (m : gmap string val) (h : list obj) (u : unit) (h' : list obj) :
  h !! l = Some (ODict m) → m !! "activated" = Some (VBool false) →
  feature_requirements reqs (n, VRef l) h = Ok (u, h') → h' = h.
Proof.
  intros Hm Ha H. unfold feature_requirements in H. simpl in H.
  apply bind_Ok in H as (a & h1 & Hi & H).
  apply dict_item_Ok in Hi as (-> & l' & m' & [= <-] & Hm' & Ha').
  rewrite Hm in Hm'. injection Hm' as <-.
  rewrite Ha in Ha'. injection Ha' as <-.
  apply bind_Ok in H as (t & h1 & Ht & H).
  apply ret_Ok in Ht. injection Ht as -> ->.
  apply ret_Ok in H. by injection H as _ ->.
Qed.

Lemma iter_inactive (reqs : val) (fm : list (string * val)) (h : list obj)
    (u : unit) (h' : list obj) :
  (∀ n f, (n, f) ∈ fm →
     ∃ l m, f = VRef l ∧ h !! l = Some (ODict m) ∧
            m !! "activated" = Some (VBool false)) →
  iter (feature_requirements reqs) fm h = Ok (u, h') → h' = h.
Proof.
  induction fm as [|[n f] fm IH]; intros Hin H; simpl in H.
  - apply ret_Ok in H. by injection H as _ ->.
  - apply bind_Ok in H as (u1 & h1 & H1 & H).
    destruct (Hin n f) as (l & m & -> & Hm & Ha); [apply list_elem_of_here|].
    apply (feature_requirements_inactive _ _ _ _ _ _ _ Hm Ha) in H1 as ->.
    apply IH; [|done]. intros n' f' Hin'. apply (Hin n').
    by apply list_elem_of_further.
Qed.

Lemma req_texts_app (h ext : list obj) (mq : gmap string val) (k : string)
    (ts : list string) :
  req_texts h mq k = Some ts → req_texts (h ++ ext) mq k = Some ts.
Proof.
  unfold req_texts. destruct (mq !! k) as [[| | | |l]|]; try done.
  simpl. destruct (h !! l) as [o|] eqn:E; [|done].
  by rewrite (lookup_app_l_Some _ _ _ _ E).
Qed.

(** The requirements built from the record at [ld] when no feature of
    the map is activated. *)
Lemma make_requirements_inactive (ld : loc) (md : gmap string val)
    (fm : list (string * val)) (h : list obj) (r : Reqs) (h' : list obj) :
  h !! ld = Some (ODict md) →
  (∀ n f, (n, f) ∈ fm →
     ∃ l m, f = VRef l ∧ h !! l = Some (ODict m) ∧
            m !! "activated" = Some (VBool false)) →
  make_requirements (VRef ld) fm h = Ok (r, h') →
  (md !! "requirements" = None → r = mkReqs [] [] [] []) ∧
  (∀ lq mq, md !! "requirements" = Some (VRef lq) →
     h !! lq = Some (ODict mq) →
     ∀ e ts, req_texts h mq (env_key e) = Some ts →
             get_req e r = Spec.CondaBuildSpec <$> ts).
Proof.
  intros Hmd Hin H. unfold make_requirements in H.
  apply bind_Ok in H as (dflt & h1 & Ha & H).
  apply alloc_Ok in Ha as [-> ->].
  apply bind_Ok in H as (dreqs & h1 & Hg & H).
  apply dict_get_Ok in Hg as (-> & l & m & [= <-] & Hm & ->).
  rewrite (lookup_app_l_Some _ _ _ _ Hmd) in Hm. injection Hm as <-.
  apply bind_Ok in H as (mr & h1 & Hd & H).
  apply as_dict_Ok in Hd as (-> & lq' & Hlq' & Hmr).
  apply bind_Ok in H as (reqs & h1 & Ha & H).
  apply alloc_Ok in Ha as [-> ->].
  rewrite <- app_assoc in H. simpl in H.
  set (hx := h ++ [ODict ∅; ODict mr]) in *.
  assert (Hreqs : hx !! length (h ++ [ODict ∅]) = Some (ODict mr)).
  { subst hx. rewrite length_app. simpl.
    rewrite lookup_app_r by lia.
    by replace (length h + 1 - length h) with 1 by lia. }
  apply bind_Ok in H as (u & h1 & Hit & H).
  apply iter_inactive in Hit as ->.
  2:{ intros n f Hf. destruct (Hin n f Hf) as (l & m & -> & Hm & Hact).
      exists l, m. split; [done|]. split; [|done].
      subst hx. by apply lookup_app_l_Some. }
  apply bind_Ok in H as (rb & h1 & Hb & H).
  apply (section_specs_values _ _ _ _ _ _ Hreqs) in Hb as [-> Hb].
  apply bind_Ok in H as (rh & h1 & Hh & H).
  apply (section_specs_values _ _ _ _ _ _ Hreqs) in Hh as [-> Hh].
  apply bind_Ok in H as (rr & h1 & Hr & H).
  apply (section_specs_values _ _ _ _ _ _ Hreqs) in Hr as [-> Hr].
  apply bind_Ok in H as (rc & h1 & Hrc & H).
  apply (section_specs_values _ _ _ _ _ _ Hreqs) in Hrc as [-> Hrc].
  apply ret_Ok in H. injection H as -> ->.
  split.
  - intros Hnone. rewrite Hnone in Hlq'. simpl in Hlq'.
    injection Hlq' as <-. rewrite lookup_new0 in Hmr. simpl in Hmr.
    injection Hmr as <-.
    assert (Hemp : ∀ k, req_texts hx ∅ k = Some []).
    { intros k. unfold req_texts. by rewrite lookup_empty. }
    by rewrite (Hb [] (Hemp _)), (Hh [] (Hemp _)), (Hr [] (Hemp _)),
               (Hrc [] (Hemp _)).
  - intros lq mq Hsome Hmq e ts Hts. rewrite Hsome in Hlq'.
    simpl in Hlq'. injection Hlq' as <-.
    rewrite (lookup_app_l_Some _ _ _ _ Hmq) in Hmr. injection Hmr as <-.
    apply (req_texts_app _ [ODict ∅; ODict mq]) in Hts.
    destruct e; simpl; [by apply Hb|by apply Hh|by apply Hr|by apply Hrc].
Qed.

End RequirementFacts.

Section ConstructorFeatures.

Import Py HeapSpec Init InitSpec.

Ltac absurd_elem H :=
  repeat (apply elem_of_cons in H as [H|H]; [discriminate H|]);
  by apply not_elem_of_nil in H.

Lemma odict_get_None {A} (k : string) (m : list (string * A)) :
  k ∉ m.*1 → odict_get k m = None.
Proof.
  induction m as [|[k' v'] m IH]; simpl; intros H; [done|].
  destruct (String.eqb k' k) eqn:E.
  - apply String.eqb_eq in E. subst. exfalso. apply H. apply list_elem_of_here.
  - apply IH. intros Hin. apply H. by apply list_elem_of_further.
Qed.

(** The heap once the source is bound, read at an old address. *)
Lemma lookup_bound (h : list obj) (ld : loc) (md : gmap string val)
    (sv : val) (x : loc) (mx : gmap string val) :
  ld < length h → h !! ld = Some (ODict md) →
  <[ld := ODict (<["source" := sv]> md)]> (h ++ [ODict ∅]) !! x
  = Some (ODict mx) →
  (x = length h ∧ mx = ∅)
  ∨ (x < length h ∧
     ∃ m0, h !! x = Some (ODict m0) ∧
           ∀ k, k ≠ "source" → mx !! k = m0 !! k).
Proof.
  intros Hld Hmd Hx.
  destruct (decide (x = ld)) as [->|Hne].
  - rewrite list_lookup_insert_eq in Hx by (rewrite length_app; lia).
    simplify_eq. right. split; [done|]. exists md. split; [done|].
    intros k Hk. by rewrite lookup_insert_ne.
  - rewrite list_lookup_insert_ne in Hx by done.
    destruct (decide (x < length h)) as [Hlt|Hge].
    + rewrite lookup_app_l in Hx by done. right. split; [done|].
      by exists mx.
    + rewrite lookup_app_r in Hx by lia.
      destruct (x - length h) as [|k] eqn:E; simpl in Hx; [|done].
      simplify_eq. left. split; [lia|done].
Qed.

Lemma construct_features (ld lp : loc) (sel : gmap string val)
    (h : list obj) (a : Attrs) (h' : list obj) :
  closed h → ld < length h → lp < length h →
  construct (VRef ld) (VRef lp) sel h = Ok (a, h') →
  ∃ md ls ms base,
    h !! ld = Some (ODict md) ∧ md !! "step" = Some (VRef ls) ∧
    h !! ls = Some (ODict ms) ∧ ms !! "name" = Some base ∧
    NoDup (feature_map a).*1 ∧
    (∀ n f, (n, f) ∈ feature_map a →
       ∃ l mf mf', f = VRef l ∧ l ∈ feature_locs h lp ∧
         h !! l = Some (ODict mf) ∧ mf !! "name" = Some (VStr n) ∧
         h' !! l = Some (ODict mf') ∧
         mf' !! "activated" = Some (feature_activation sel n mf)) ∧
    ("static" ∉ (feature_map a).*1 → name a = base) ∧
    (∀ l mf b, ("static", VRef l) ∈ feature_map a →
       h !! l = Some (ODict mf) →
       feature_activation sel "static" mf = VBool b →
       name a = if b then static_name base else base) ∧
    (∀ l mf n, l ∈ feature_locs h lp → h !! l = Some (ODict mf) →
       mf !! "name" = Some (VStr n) → n ∈ (feature_map a).*1) ∧
    (∃ h4 ext bsec,
       h' = h4 ++ ext ∧ length h ≤ length h4 ∧
       sections a !! "build" = Some bsec ∧
       declared_run_exports bsec h4 = Ok (run_exports a, h')) ∧
    ((∀ n l mf, (n, VRef l) ∈ feature_map a → h !! l = Some (ODict mf) →
        feature_activation sel n mf = VBool false) →
     (md !! "requirements" = None → requirements a = mkReqs [] [] [] []) ∧
     (∀ lq mq, md !! "requirements" = Some (VRef lq) →
        h !! lq = Some (ODict mq) →
        ∀ e ts, req_texts h mq (env_key e) = Some ts →
                get_req e (requirements a) = Spec.CondaBuildSpec <$> ts)).
Proof.
  intros Hc Hld Hlp H. unfold construct in H.
  apply bind_Ok in H as (u & h1 & Hb & H).
  apply bind_source_effect in Hb as (md & mp & Hmd & Hmp & ->);
    [|done|done].
  set (sv := default (default (VRef (length h)) (mp !! "source"))
                     (md !! "source")) in *.
  set (h1 := <[ld := ODict (<["source" := sv]> md)]> (h ++ [ODict ∅])) in *.
  assert (Hlen1 : length h1 = S (length h)).
  { subst h1. rewrite length_insert, length_app. simpl. lia. }
  assert (Hd1 : h1 !! ld = Some (ODict (<["source" := sv]> md))).
  { subst h1. apply list_lookup_insert_eq. rewrite length_app. lia. }
  assert (Hold1 : ∀ x mx, h1 !! x = Some (ODict mx) →
            (x = length h ∧ mx = ∅)
            ∨ (x < length h ∧
               ∃ m0, h !! x = Some (ODict m0) ∧
                     ∀ k, k ≠ "source" → mx !! k = m0 !! k)).
  { intros x mx. by apply lookup_bound. }
  assert (Hlist1 : ∀ x xs, x < length h → h1 !! x = Some (OList xs) →
            h !! x = Some (OList xs)).
  { intros x xs Hx Hxs. subst h1.
    destruct (decide (x = ld)) as [->|Hne].
    - rewrite list_lookup_insert_eq in Hxs by (rewrite length_app; lia).
      done.
    - rewrite list_lookup_insert_ne in Hxs by done.
      by rewrite lookup_app_l in Hxs. }
  (* identity: the name *)
  apply bind_Ok in H as ([[[[[nm ver] bs] bn] na] ip] & h2 & Hi & H).
  pose proof Hi as Hi2. apply reads_only_read_identity in Hi2 as ->.
  assert (Hname : ∃ ls ms, md !! "step" = Some (VRef ls) ∧
            h !! ls = Some (ODict ms) ∧ ms !! "name" = Some nm).
  { unfold read_identity in Hi.
    apply bind_Ok in Hi as (step & h3 & Hstep & Hi).
    apply dict_item_Ok in Hstep as (-> & l & m & [= <-] & Hm & Hst).
    rewrite Hd1 in Hm. injection Hm as <-.
    rewrite lookup_insert_ne in Hst by done.
    apply bind_Ok in Hi as (nm0 & h3 & Hnm & Hi).
    apply dict_item_Ok in Hnm as (-> & ls & ms1 & -> & Hms1 & Hnm).
    assert (nm0 = nm) as ->.
    { apply bind_Ok in Hi as (isp & h3 & _ & Hi).
      apply bind_Ok in Hi as ([v b] & h4 & _ & Hi).
      apply bind_Ok in Hi as (bld & h5 & _ & Hi).
      apply bind_Ok in Hi as (bn0 & h6 & _ & Hi).
      apply bind_Ok in Hi as (bld2 & h7 & _ & Hi).
      apply bind_Ok in Hi as (na0 & h8 & _ & Hi).
      apply ret_Ok in Hi. by simplify_eq. }
    destruct (Hold1 _ _ Hms1) as [[-> ->]|(Hls & ms & Hms & Hk)]; [done|].
    exists ls, ms. split; [done|]. split; [done|].
    by rewrite <- Hk. }
  destruct Hname as (ls & ms & Hstep & Hms & Hbase).
  (* sections *)
  apply bind_Ok in H as ([secs steps] & h2 & Hs & H).
  apply make_sections_effect with (mdx := <["source" := sv]> md) in Hs
    as ([ext2 ->] & _ & _ & _); [|lia|lia|done|].
  2:{ intros sname x mx p Hsn Hx Hmx Hp.
      assert (sname ≠ "source").
      { intros ->. unfold merged_sections in Hsn. absurd_elem Hsn. }
      destruct (Hold1 _ _ Hmx) as [[-> ->]|(Hxl & m0 & Hm0 & Hk)]; [done|].
      rewrite Hk in Hp by done.
      pose proof (closed_dict _ _ _ _ _ Hc Hm0 Hp). lia. }
  set (h2 := h1 ++ ext2) in *.
  assert (Hold2 : ∀ x mx, x < length h → h2 !! x = Some (ODict mx) →
            ∃ m0, h !! x = Some (ODict m0) ∧
                  ∀ k, k ≠ "source" → mx !! k = m0 !! k).
  { intros x mx Hx Hmx. subst h2. rewrite lookup_app_l in Hmx by lia.
    destruct (Hold1 _ _ Hmx) as [[-> ->]|(_ & m0 & Hm0 & Hk)]; [lia|].
    by exists m0. }
  assert (Hnew2 : ∀ x m0, x < length h → h !! x = Some (ODict m0) →
            ∃ mx, h2 !! x = Some (ODict mx) ∧
                  ∀ k, k ≠ "source" → mx !! k = m0 !! k).
  { intros x m0 Hx Hm0. subst h2. rewrite lookup_app_l by lia.
    destruct (decide (x = ld)) as [->|Hne].
    - rewrite Hd1. eexists. split; [done|]. intros k Hk.
      rewrite lookup_insert_ne by done. congruence.
    - subst h1. rewrite list_lookup_insert_ne by done.
      rewrite lookup_app_l by done. by exists m0. }
  (* features *)
  apply bind_Ok in H as ([[sf fm] nm'] & h3 & Hf & H).
  destruct (Hnew2 lp mp Hlp Hmp) as (mpx & Hmpx & Hkp).
  destruct (activate_features_values lp sel nm h2 mpx sf fm nm' h3 Hmpx)
    as (Hnamed & Hmem & Hlen3 & Hval & Hfr & Hnone & Hstatic & Hcover);
    [|done|].
  { intros lf Hlf. rewrite Hkp in Hlf by done.
    pose proof (closed_dict _ _ _ _ _ Hc Hmp Hlf).
    subst h2. rewrite length_app. lia. }
  assert (Hentry : ∀ n l, (n, VRef l) ∈ fm →
            l ∈ feature_locs h lp ∧ l < length h ∧
            ∃ m mf, h2 !! l = Some (ODict m) ∧ h !! l = Some (ODict mf) ∧
                    (∀ k, k ≠ "source" → m !! k = mf !! k) ∧
                    mf !! "name" = Some (VStr n)).
  { intros n l Hin.
    destruct (Hmem _ _ Hin) as (lf & fs & Hlf & Hfs & Hl).
    rewrite Hkp in Hlf by done.
    pose proof (closed_dict _ _ _ _ _ Hc Hmp Hlf) as Hlflt.
    assert (Hfs0 : h !! lf = Some (OList fs)).
    { apply Hlist1; [done|]. subst h2.
      by rewrite lookup_app_l in Hfs by lia. }
    pose proof (closed_list _ _ _ _ Hc Hfs0 Hl) as Hllt.
    split.
    { unfold feature_locs. rewrite Hmp, Hlf, Hfs0.
      by apply elem_of_omap_ref_of. }
    split; [done|].
    destruct Hnamed as [_ Hel].
    destruct (Hel _ _ Hin) as (l' & m & [= <-] & Hm & Hnm).
    destruct (Hold2 _ _ Hllt Hm) as (mf & Hmf & Hk).
    exists m, mf. split; [done|]. split; [done|]. split; [done|].
    by rewrite <- Hk. }
  (* requirements *)
  apply bind_Ok in H as (reqs & h4 & Hr & H).
  assert (Hd3 : ∃ md3, h3 !! ld = Some (ODict md3) ∧
                       md3 !! "requirements" = md !! "requirements").
  { destruct (Hnew2 ld md Hld Hmd) as (mdx & Hmdx & Hkd).
    destruct (decide (VRef ld ∈ fm.*2)) as [Hin|Hnin].
    - apply list_elem_of_fmap in Hin as ([n f] & Hf' & Hin).
      simpl in Hf'. subst f.
      rewrite (Hval n ld mdx Hin Hmdx). eexists. split; [done|].
      rewrite lookup_insert_ne by done. by apply Hkd.
    - rewrite Hfr; [|subst h2 h1; rewrite length_app; lia|done].
      exists mdx. split; [done|]. by apply Hkd. }
  destruct Hd3 as (md3 & Hmd3 & Hreq3).
  assert (Hreqval :
    (∀ n l mf, (n, VRef l) ∈ fm → h !! l = Some (ODict mf) →
       feature_activation sel n mf = VBool false) →
    (md !! "requirements" = None → reqs = mkReqs [] [] [] []) ∧
    (∀ lq mq, md !! "requirements" = Some (VRef lq) →
       h !! lq = Some (ODict mq) →
       ∀ e ts, req_texts h mq (env_key e) = Some ts →
               get_req e reqs = Spec.CondaBuildSpec <$> ts)).
  { intros Hina. pose proof Hr as Hr0.
    apply make_requirements_inactive with (md := md3) in Hr0; [|done|].
    2:{ intros n f Hin. destruct Hnamed as [_ Hel].
        destruct (Hel _ _ Hin) as (l & m0 & -> & _ & _).
        destruct (Hentry _ _ Hin) as (_ & _ & m & mf & Hm & Hmf & Hk & _).
        eexists l, _. split; [done|].
        split; [exact (Hval _ _ _ Hin Hm)|].
        rewrite lookup_insert_eq. f_equal.
        rewrite <- (Hina _ _ _ Hin Hmf).
        unfold feature_activation. by rewrite Hk. }
    destruct Hr0 as [Hn Hs]. split.
    - intros Hnoreq. apply Hn. by rewrite Hreq3.
    - intros lq mq Hsome Hmq e ts Hts.
      pose proof (closed_dict _ _ _ _ _ Hc Hmd Hsome) as Hlq.
      destruct (Hnew2 lq mq Hlq Hmq) as (mx & Hmx & Hkx).
      assert (Hlen2 : length h < length h2).
      { subst h2. rewrite length_app. lia. }
      assert (Hq3 : ∃ mq3, h3 !! lq = Some (ODict mq3) ∧
                mq3 !! env_key e = mq !! env_key e).
      { destruct (decide (VRef lq ∈ fm.*2)) as [Hin|Hnin].
        - apply list_elem_of_fmap in Hin as ([n f] & Hf' & Hin).
          simpl in Hf'. subst f.
          eexists. split; [exact (Hval _ _ _ Hin Hmx)|].
          rewrite lookup_insert_ne by (by destruct e).
          apply Hkx. by destruct e.
        - exists mx. split; [rewrite Hfr; [done|lia|done]|].
          apply Hkx. by destruct e. }
      destruct Hq3 as (mq3 & Hmq3 & Hkey).
      eapply (Hs lq mq3); [by rewrite Hreq3|done|].
      unfold req_texts in *. rewrite Hkey.
      destruct (mq !! env_key e) as [[| | | |l]|]; try done.
      simpl in *. destruct (h !! l) as [[|xs]|] eqn:Exs; try done.
      assert (Hl : l < length h) by by eapply lookup_lt_Some.
      assert (Hl2 : h2 !! l = Some (OList xs)).
      { subst h2. rewrite lookup_app_l by lia. subst h1.
        rewrite list_lookup_insert_ne by congruence.
        by rewrite lookup_app_l. }
      rewrite Hfr, Hl2; [done|lia|].
      intros Hin. apply list_elem_of_fmap in Hin as ([n f] & Hf' & Hin).
      simpl in Hf'. subst f. destruct Hnamed as [_ Hel].
      destruct (Hel _ _ Hin) as (l' & m' & [= <-] & Hm' & _). congruence. }
  apply make_requirements_effect
    with (ld := length h3) (F := []) (Q := req_list_locs h3 ld)
         (md := md3) in Hr as E4; [|by eapply lookup_lt_Some|done| |].
  2:{ intros lq Hlq. rewrite Hreq3 in Hlq.
      pose proof (closed_dict _ _ _ _ _ Hc Hmd Hlq).
      subst h2. rewrite length_app in Hlen3. lia. }
  2:{ intros lq mq k l Hlq Hmq Hk Hl.
      unfold req_list_locs. rewrite Hmd3, Hlq, Hmq.
      apply list_elem_of_omap. exists k. split; [done|].
      by rewrite Hl. }
  assert (Hkeep : ∀ l m3, l < length h3 → h3 !! l = Some (ODict m3) →
            ∃ m4, h4 !! l = Some (ODict m4) ∧ ∀ k, m4 !! k = m3 !! k).
  { intros l m3 Hl Hm3.
    destruct (evolves_dict _ _ _ _ _ _ _ _ E4 Hl Hm3) as (m4 & Hm4 & Hk).
    exists m4. split; [done|]. intros k. apply Hk.
    rewrite touched_fresh; [apply not_elem_of_nil|lia|apply not_elem_of_nil]. }
  (* run exports *)
  apply bind_Ok in H as (bsec & h5 & Hbs & H).
  assert (Hbuild : secs !! "build" = Some bsec).
  { destruct (secs !! "build"); [apply ret_Ok in Hbs; by simplify_eq|done]. }
  assert (h5 = h4) as ->.
  { destruct (secs !! "build"); [apply ret_Ok in Hbs; by simplify_eq|done]. }
  apply bind_Ok in H as (rx & h5 & Hrx & H).
  pose proof Hrx as Hrx0.
  apply declared_run_exports_effect in Hrx as [ext5 ->].
  apply ret_Ok in H. injection H as -> ->.
  exists md, ls, ms, nm. split; [done|]. split; [done|]. split; [done|].
  split; [done|]. cbn [feature_map name sections run_exports].
  cbn [requirements].
  split; [apply Hnamed|].
  split; [|split; [|split; [|split; [|split; [|exact Hreqval]]]]].
  5:{ exists h4, ext5, bsec. split; [done|]. split.
      - destruct E4 as [Hlen4 _]. subst h2.
        rewrite length_app in Hlen3. lia.
      - split; [|done]. by rewrite lookup_insert_ne. }
  - intros n f Hin.
    destruct Hnamed as [_ Hel].
    destruct (Hel _ _ Hin) as (l & m0 & -> & _ & _).
    destruct (Hentry _ _ Hin) as (HF & Hllt & m & mf & Hm & Hmf & Hk & Hnm).
    pose proof (Hval _ _ _ Hin Hm) as Hl3.
    destruct (Hkeep _ _ (lookup_lt_Some _ _ _ Hl3) Hl3) as (m4 & Hm4 & Hk4).
    exists l, mf, m4. split; [done|]. split; [done|]. split; [done|].
    split; [done|]. split; [by apply lookup_app_l_Some|].
    rewrite Hk4, lookup_insert_eq. f_equal.
    unfold feature_activation. by rewrite Hk.
  - intros Hns. apply Hnone. by apply odict_get_None.
  - intros l mf b Hin Hmf Hb.
    destruct (Hentry _ _ Hin) as (_ & _ & m & mf' & Hm & Hmf' & Hk & _).
    assert (mf' = mf) as -> by congruence.
    eapply Hstatic; [done|done|].
    unfold feature_activation in *. by rewrite Hk.
  - intros l mf n HF Hmf Hnm.
    unfold feature_locs in HF. rewrite Hmp in HF.
    destruct (mp !! "features") as [[| | | |lf]|] eqn:Ef;
      try (by apply not_elem_of_nil in HF).
    destruct (h !! lf) as [[|fs]|] eqn:Efs;
      try (by apply not_elem_of_nil in HF).
    apply elem_of_omap_ref_of in HF.
    pose proof (closed_dict _ _ _ _ _ Hc Hmp Ef) as Hlflt.
    pose proof (closed_list _ _ _ _ Hc Efs HF) as Hllt.
    destruct (Hnew2 l mf Hllt Hmf) as (mx & Hmx & Hkx).
    eapply (Hcover lf fs l mx n).
    + by rewrite Hkp.
    + subst h2. rewrite lookup_app_l by lia. subst h1.
      rewrite list_lookup_insert_ne by congruence.
      by rewrite lookup_app_l.
    + done.
    + done.
    + by rewrite Hkx.
Qed.

(** [__init__] in terms of [construct] on a closed heap. *)
Lemma init_construct (ld : loc) (parent : option val)
    (sel : gmap string val) (h : list obj) (a : Attrs) (h' : list obj) :
  closed h → ld < length h →
  (∀ lp, parent = Some (VRef lp) → lp < length h) →
  __init__ (VRef ld) parent sel h = Ok (a, h') →
  ∃ lp h0,
    closed h0 ∧ ld < length h0 ∧ lp < length h0 ∧
    construct (VRef ld) (VRef lp) sel h0 = Ok (a, h') ∧
    feature_locs h0 lp = parent_feature_locs h parent ∧
    (∀ l, l < length h → h0 !! l = h !! l) ∧
    (∀ l m k v, h0 !! l = Some (ODict m) → m !! k = Some v →
                h !! l = Some (ODict m)).
Proof.
  intros Hc Hld Hpar H.
  destruct (init_cases _ _ _ _ _ _ H) as [(pv & -> & Hcons)|[-> Hcons]].
  - destruct (construct_parent_ref _ _ _ _ _ Hcons) as [lp ->].
    exists lp, h. split; [done|]. split; [done|].
    split; [by apply Hpar|]. split; [done|]. by repeat split.
  - exists (length h), (h ++ [ODict ∅]).
    split; [by apply closed_snoc_empty|]. rewrite length_app. simpl.
    split; [lia|]. split; [lia|]. split; [done|].
    split; [apply feature_locs_no_features|]. split.
    + intros l Hl. by apply lookup_app_l.
    + intros l m k v Hl Hk.
      destruct (decide (l < length h)) as [Hlt|Hge].
      * by rewrite lookup_app_l in Hl.
      * rewrite lookup_app_r in Hl by lia.
        destruct (l - length h) as [|i]; simpl in Hl; [|done].
        by simplify_eq.
Qed.

(** X23.  Feature activation.  The feature map of the constructed
    Output has one entry per feature name; each entry is a dictionary of
    the parent's feature list, filed under its own name, and after
    construction its [activated] key holds the caller's choice for that
    name when [selected_features] has one, else the entry's declared
    [default], else [False].  Every feature name of the parent's list is
    a key of the map. *)
Theorem init_activates_features (ld : loc) (parent : option val)
    (sel : gmap string val) (h : list obj) (a : Attrs) (h' : list obj) :
  closed h → ld < length h →
  (∀ lp, parent = Some (VRef lp) → lp < length h) →
  __init__ (VRef ld) parent sel h = Ok (a, h') →
  NoDup (feature_map a).*1 ∧
  (∀ n f, (n, f) ∈ feature_map a →
     ∃ l mf mf', f = VRef l ∧ l ∈ parent_feature_locs h parent ∧
       h !! l = Some (ODict mf) ∧ mf !! "name" = Some (VStr n) ∧
       h' !! l = Some (ODict mf') ∧
       mf' !! "activated" = Some (feature_activation sel n mf)) ∧
  (∀ l mf n, l ∈ parent_feature_locs h parent →
     h !! l = Some (ODict mf) → mf !! "name" = Some (VStr n) →
     n ∈ (feature_map a).*1).
Proof.
  intros Hc Hld Hpar H.
  destruct (init_construct _ _ _ _ _ _ Hc Hld Hpar H)
    as (lp & h0 & Hc0 & Hld0 & Hlp0 & Hcons & HF & Hsame & Hdict).
  destruct (construct_features _ _ _ _ _ _ Hc0 Hld0 Hlp0 Hcons)
    as (md & ls & ms & base & _ & _ & _ & _ & Hnd & Hent & _ & _ & Hcov
        & _ & _).
  rewrite HF in Hent, Hcov.
  split; [done|]. split.
  - intros n f Hin.
    destruct (Hent _ _ Hin) as (l & mf & mf' & -> & Hl & Hmf & Hnm & Hr).
    exists l, mf, mf'. split; [done|]. split; [done|].
    split; [by eapply Hdict|]. by split.
  - intros l mf n Hl Hmf Hnm. eapply Hcov; [done| |done].
    rewrite Hsame; [done|]. by eapply lookup_lt_Some.
Qed.

(** X24.  The name of the constructed Output is the name of the
    record's step, with the suffix [-static] exactly when the feature
    map has an entry named [static] whose activation is true: without
    such an entry, or when its activation is false, the name is the step
    name as it is. *)
Theorem init_static_name (ld : loc) (parent : option val)
    (sel : gmap string val) (h : list obj) (a : Attrs) (h' : list obj) :
  closed h → ld < length h →
  (∀ lp, parent = Some (VRef lp) → lp < length h) →
  __init__ (VRef ld) parent sel h = Ok (a, h') →
  ∃ md ls ms base,
    h !! ld = Some (ODict md) ∧ md !! "step" = Some (VRef ls) ∧
    h !! ls = Some (ODict ms) ∧ ms !! "name" = Some base ∧
    ("static" ∉ (feature_map a).*1 → name a = base) ∧
    (∀ l mf b, ("static", VRef l) ∈ feature_map a →
       h !! l = Some (ODict mf) →
       feature_activation sel "static" mf = VBool b →
       name a = if b then static_name base else base).
Proof.
  intros Hc Hld Hpar H.
  destruct (init_construct _ _ _ _ _ _ Hc Hld Hpar H)
    as (lp & h0 & Hc0 & Hld0 & Hlp0 & Hcons & HF & Hsame & Hdict).
  destruct (construct_features _ _ _ _ _ _ Hc0 Hld0 Hlp0 Hcons)
    as (md & ls & ms & base & Hmd & Hstep & Hms & Hbase & _ & _ & Hno & Hst
        & _ & _ & _).
  exists md, ls, ms, base.
  split; [by rewrite <- Hsame|]. split; [done|].
  split; [by eapply Hdict|]. split; [done|]. split; [done|].
  intros l mf b Hin Hmf Hb. eapply Hst; [done| |done].
  rewrite Hsame; [done|]. by eapply lookup_lt_Some.
Qed.

End ConstructorFeatures.

Lemma init_activates_features_witness :
  match Init.__init__ (Py.VRef 0) (Some (Py.VRef 5)) ∅ SampleInit.heap with
  | Ok (a, h') =>
      NoDup (Init.feature_map a).*1 ∧
      (∀ n f, (n, f) ∈ Init.feature_map a →
         ∃ l mf mf', f = Py.VRef l ∧
           l ∈ InitSpec.parent_feature_locs SampleInit.heap
                 (Some (Py.VRef 5)) ∧
           SampleInit.heap !! l = Some (Py.ODict mf) ∧
           mf !! "name" = Some (Py.VStr n) ∧
           h' !! l = Some (Py.ODict mf') ∧
           mf' !! "activated" = Some (feature_activation ∅ n mf)) ∧
      (∀ l mf n,
         l ∈ InitSpec.parent_feature_locs SampleInit.heap
               (Some (Py.VRef 5)) →
         SampleInit.heap !! l = Some (Py.ODict mf) →
         mf !! "name" = Some (Py.VStr n) →
         n ∈ (Init.feature_map a).*1)
  | Raise _ => False
  end.
Proof.
  destruct (Init.__init__ (Py.VRef 0) (Some (Py.VRef 5)) ∅ SampleInit.heap)
    as [[a h']|e] eqn:E.
  - apply (init_activates_features 0 (Some (Py.VRef 5)) ∅ SampleInit.heap
             a h').
    + apply (@bool_decide_unpack _ (HeapSpec.closed_dec _)).
      vm_compute. reflexivity.
    + simpl. lia.
    + intros lp [= <-]. simpl. lia.
    + exact E.
  - vm_compute in E. discriminate E.
Defined.

Lemma init_static_name_witness :
  match Init.__init__ (Py.VRef 0) (Some (Py.VRef 5)) ∅ SampleInit.heap with
  | Ok (a, h') =>
      ∃ md ls ms base,
        SampleInit.heap !! 0 = Some (Py.ODict md) ∧
        md !! "step" = Some (Py.VRef ls) ∧
        SampleInit.heap !! ls = Some (Py.ODict ms) ∧
        ms !! "name" = Some base ∧
        ("static" ∉ (Init.feature_map a).*1 → Init.name a = base) ∧
        (∀ l mf b, ("static", Py.VRef l) ∈ Init.feature_map a →
           SampleInit.heap !! l = Some (Py.ODict mf) →
           feature_activation ∅ "static" mf = Py.VBool b →
           Init.name a = if b then static_name base else base)
  | Raise _ => False
  end.
Proof.
  destruct (Init.__init__ (Py.VRef 0) (Some (Py.VRef 5)) ∅ SampleInit.heap)
    as [[a h']|e] eqn:E.
  - apply (init_static_name 0 (Some (Py.VRef 5)) ∅ SampleInit.heap a h').
    + apply (@bool_decide_unpack _ (HeapSpec.closed_dec _)).
      vm_compute. reflexivity.
    + simpl. lia.
    + intros lp [= <-]. simpl. lia.
    + exact E.
  - vm_compute in E. discriminate E.
Defined.

(** ** Construction: the declared run exports *)

Section RunExportFacts.

Import Py HeapSpec Init InitSpec.

(** The run exports read from the build section at [lb]. *)
Lemma declared_run_exports_values (lb : loc) (mb : gmap string val)
    (h : list obj) (rx : RunExports.t Spec.t) (h' : list obj) :
  h !! lb = Some (ODict mb) →
  declared_run_exports (VRef lb) h = Ok (rx, h') →
  (mb !! "run_exports" = None → rx = RunExports.empty) ∧
  (∀ lx xs, mb !! "run_exports" = Some (VRef lx) →
     h !! lx = Some (OList xs) →
     ∃ ts, mapM val_str xs = Some ts ∧
           rx = RunExports.only_weak (Spec.CondaBuildSpec <$> ts)) ∧
  (∀ lx mx, mb !! "run_exports" = Some (VRef lx) →
     h !! lx = Some (ODict mx) → mx ≠ ∅ →
     (∀ k l, mx !! k = Some (VRef l) → l < length h) →
     ∃ w s n wc sc,
       texts_at h mx "weak" = Some w ∧
       texts_at h mx "strong" = Some s ∧
       texts_at h mx "noarch" = Some n ∧
       texts_at h mx "weak_constrains" = Some wc ∧
       texts_at h mx "strong_constrains" = Some sc ∧
       rx = RunExports.mk (Spec.CondaBuildSpec <$> w)
              (Spec.CondaBuildSpec <$> s) (Spec.CondaBuildSpec <$> sc)
              (Spec.CondaBuildSpec <$> wc) (Spec.CondaBuildSpec <$> n)).
Proof.
  intros Hmb H. unfold declared_run_exports in H.
  apply bind_Ok in H as (v & h1 & Hv & H).
  apply dict_get_Ok in Hv as (-> & l & m & [= <-] & Hm & ->).
  rewrite Hmb in Hm. injection Hm as <-.
  apply bind_Ok in H as (t & h1 & Ht & H).
  pose proof Ht as Ht2. apply reads_only_truthy in Ht2 as ->.
  split; [|split].
  - intros Hnone. rewrite Hnone in Ht. simpl in Ht.
    apply ret_Ok in Ht. injection Ht as ->.
    apply ret_Ok in H. by simplify_eq.
  - intros lx xs Hrx Hxs. rewrite Hrx in Ht, H. simpl in Ht, H.
    unfold truthy in Ht.
    apply bind_Ok in Ht as (o & h2 & Ho & Ht).
    apply get_obj_Ok in Ho as (-> & l' & [= <-] & Ho).
    rewrite Hxs in Ho. injection Ho as <-.
    apply ret_Ok in Ht. injection Ht as ->.
    destruct xs as [|x xs].
    + apply ret_Ok in H. injection H as -> ->. by exists [].
    + apply bind_Ok in H as (il & h1 & Hil & H).
      unfold is_list in Hil. rewrite Hxs in Hil. injection Hil as <- <-.
      apply bind_Ok in H as (w & h1 & Hw & H).
      eapply spec_list_values in Hw as (-> & ts & Hts & ->); [|done|done].
      apply ret_Ok in H. injection H as -> ->. by exists ts.
  - intros lx mx Hrx Hmx Hne Hcl. rewrite Hrx in Ht, H. simpl in Ht, H.
    unfold truthy in Ht.
    apply bind_Ok in Ht as (o & h2 & Ho & Ht).
    apply get_obj_Ok in Ho as (-> & l' & [= <-] & Ho).
    rewrite Hmx in Ho. injection Ho as <-.
    apply ret_Ok in Ht. injection Ht as ->.
    rewrite bool_decide_eq_false_2 in H by done. simpl in H.
    apply bind_Ok in H as (il & h1 & Hil & H).
    unfold is_list in Hil. rewrite Hmx in Hil. injection Hil as <- <-.
    assert (Hstr : ∀ k ext x h0',
              (dflt ← alloc (OList []);
               x ← dict_get (VRef lx) k dflt;
               rs ← as_list x;
               map_m (fun r => s ← as_str r; mret (Spec.CondaBuildSpec s)) rs)
                (h ++ ext) = Ok (x, h0') →
              Forall (fun o => o = OList []) ext →
              h0' = h ++ (ext ++ [OList []]) ∧
              ∃ ts, texts_at h mx k = Some ts ∧
                    x = Spec.CondaBuildSpec <$> ts).
    { intros k ext x h0' Hx Hext.
      apply bind_Ok in Hx as (dflt & h2 & Ha & Hx).
      apply alloc_Ok in Ha as [-> ->].
      apply bind_Ok in Hx as (y & h2 & Hy & Hx).
      apply dict_get_Ok in Hy as (-> & l' & m' & [= <-] & Hm' & ->).
      rewrite <- app_assoc in Hm'.
      rewrite lookup_app_l in Hm' by (by eapply lookup_lt_Some).
      rewrite Hmx in Hm'. injection Hm' as <-.
      apply bind_Ok in Hx as (rs & h2 & Hrs & Hx).
      apply as_list_Ok in Hrs as (-> & ly & Hy & Hrs).
      apply map_m_specs in Hx as (-> & ts & Hts & ->).
      split; [by rewrite <- app_assoc|].
      unfold texts_at. destruct (mx !! k) as [v|] eqn:Ek; simpl in Hy.
      - subst v. pose proof (Hcl _ _ Ek) as Hlt.
        rewrite <- app_assoc in Hrs. rewrite lookup_app_l in Hrs by done.
        exists ts. simpl. by rewrite Hrs.
      - injection Hy as <-. rewrite <- app_assoc in Hrs.
        rewrite lookup_app_r in Hrs by (rewrite length_app; lia).
        rewrite length_app in Hrs.
        replace (length h + length ext - length h) with (length ext + 0)
          in Hrs by lia.
        rewrite lookup_app_r in Hrs by lia.
        replace (length ext + 0 - length ext) with 0 in Hrs by lia.
        simpl in Hrs. injection Hrs as <-. simpl in Hts.
        injection Hts as <-. by exists []. }
    apply bind_Ok in H as (w & h1 & Hw & H).
    rewrite <- (app_nil_r h) in Hw at 1.
    apply Hstr in Hw as (-> & tw & Htw & ->); [|constructor].
    apply bind_Ok in H as (s & h1 & Hs & H).
    apply Hstr in Hs as (-> & ts & Hts & ->); [|by repeat constructor].
    apply bind_Ok in H as (n & h1 & Hn & H).
    apply Hstr in Hn as (-> & tn & Htn & ->); [|by repeat constructor].
    apply bind_Ok in H as (wc & h1 & Hwc & H).
    apply Hstr in Hwc as (-> & twc & Htwc & ->); [|by repeat constructor].
    apply bind_Ok in H as (sc & h1 & Hsc & H).
    apply Hstr in Hsc as (-> & tsc & Htsc & ->); [|by repeat constructor].
    apply ret_Ok in H. injection H as -> ->.
    by exists tw, ts, tn, twc, tsc.
Qed.

Lemma declared_run_exports_reads (lb : loc) (h : list obj)
    (r : RunExports.t Spec.t * list obj) :
  declared_run_exports (VRef lb) h = Ok r →
  ∃ mb, h !! lb = Some (ODict mb).
Proof.
  intros H. unfold declared_run_exports in H.
  apply bind_Ok in H as (v & h1 & Hv & _).
  apply dict_get_Ok in Hv as (_ & l & m & [= <-] & Hm & _). by exists m.
Qed.

Lemma texts_at_same (h h4 : list obj) (mx : gmap string val) (k : string) :
  (∀ l, mx !! k = Some (VRef l) → h4 !! l = h !! l) →
  texts_at h4 mx k = texts_at h mx k.
Proof.
  intros H. unfold texts_at. destruct (mx !! k) as [[| | | |l]|]; try done.
  simpl. by rewrite H.
Qed.

(** The build section that the constructor reads the run exports from. *)
Lemma init_build_section (ld : loc) (parent : option val)
    (sel : gmap string val) (h : list obj) (a : Attrs) (h' : list obj) :
  closed h → ld < length h →
  no_self_section h ld ld → parent_ok h ld parent →
  __init__ (VRef ld) parent sel h = Ok (a, h') →
  ∃ ls md mp h4 ext,
    section_of h ld "build" = Some md ∧
    parent_section h parent "build" = Some mp ∧
    h' = h4 ++ ext ∧ length h ≤ length h4 ∧
    h4 !! ls = Some (ODict (md ∪ mp)) ∧
    declared_run_exports (VRef ls) h4 = Ok (run_exports a, h') ∧
    (∀ l o, h !! l = Some o → unwritten h ld parent l →
            h4 !! l = Some o).
Proof.
  intros Hc Hld Hns Hpar H.
  assert (Hb : "build" ∈ merged_sections).
  { unfold merged_sections. apply list_elem_of_here. }
  assert (Hmain : ∃ ls md mp h4 ext bsec,
            section_of h ld "build" = Some md ∧
            parent_section h parent "build" = Some mp ∧
            h' = h4 ++ ext ∧ length h ≤ length h4 ∧
            sections a !! "build" = Some (VRef ls) ∧
            h' !! ls = Some (ODict (md ∪ mp)) ∧
            sections a !! "build" = Some bsec ∧
            declared_run_exports bsec h4 = Ok (run_exports a, h') ∧
            evolves (length h) ld (parent_feature_locs h parent)
              (req_list_locs h ld) h h').
  { destruct (init_cases _ _ _ _ _ _ H) as [(pv & -> & Hcons)|[-> Hcons]].
    - destruct (construct_parent_ref _ _ _ _ _ Hcons) as [lp ->].
      destruct Hpar as [Hlp Hnsp].
      destruct (construct_effect _ _ _ _ _ _ Hc Hld Hlp Hcons)
        as (He & _ & Hsec & _).
      destruct (Hsec Hns Hnsp "build" Hb)
        as (ls & md & mp & Hd & Hp & Hs & Hls & Hcont).
      destruct (construct_features _ _ _ _ _ _ Hc Hld Hlp Hcons)
        as (_ & _ & _ & _ & _ & _ & _ & _ & _ & _ & _ & _ & _
            & (h4 & ext & bsec & Hh' & Hlen & Hbs & Hrx) & _).
      by exists ls, md, mp, h4, ext, bsec.
    - assert (Hc0 : closed (h ++ [ODict ∅])) by by apply closed_snoc_empty.
      assert (Hld0 : ld < length (h ++ [ODict ∅])).
      { rewrite length_app. lia. }
      assert (Hlp0 : length h < length (h ++ [ODict ∅])).
      { rewrite length_app. simpl. lia. }
      destruct (construct_effect _ _ _ _ _ _ Hc0 Hld0 Hlp0 Hcons)
        as (He & _ & Hsec & _).
      destruct (Hsec (no_self_section_snoc _ _ _ _ Hld Hns))
        with (sname := "build")
        as (ls & md & mp & Hd & Hp & Hs & Hls & Hcont); [|done|].
      { unfold no_self_section. rewrite lookup_new0. simpl.
        rewrite Forall_forall. intros x _. by rewrite lookup_empty. }
      rewrite section_of_snoc in Hd by done.
      unfold section_of in Hp. rewrite lookup_new0 in Hp. simpl in Hp.
      rewrite lookup_empty in Hp. simplify_eq.
      destruct (construct_features _ _ _ _ _ _ Hc0 Hld0 Hlp0 Hcons)
        as (_ & _ & _ & _ & _ & _ & _ & _ & _ & _ & _ & _ & _
            & (h4 & ext & bsec & Hh' & Hlen & Hbs & Hrx) & _).
      rewrite feature_locs_no_features in He.
      rewrite req_list_locs_snoc in He by done.
      exists ls, md, ∅, h4, ext, bsec.
      split; [done|]. split; [done|]. split; [done|].
      split; [rewrite length_app in Hlen; lia|].
      split; [done|]. split; [done|]. split; [done|]. split; [done|].
      eapply evolves_trans; [apply (evolves_app _ _ _ _ _ [ODict ∅])|].
      eapply evolves_weaken; [|exact He]. rewrite length_app. lia. }
  destruct Hmain as (ls & md & mp & h4 & ext & bsec & Hd & Hp & Hh' & Hlen
                     & Hs & Hcont & Hbs & Hrx & He).
  assert (bsec = VRef ls) as -> by congruence.
  destruct (declared_run_exports_reads _ _ _ Hrx) as [mb Hmb].
  exists ls, md, mp, h4, ext. repeat split; try done.
  - rewrite Hh' in Hcont. rewrite (lookup_app_l_Some _ _ _ _ Hmb) in Hcont.
    by rewrite Hmb, Hcont.
  - intros l o Ho (Hne & HF & HQ).
    pose proof (lookup_lt_Some _ _ _ Ho) as Hl.
    assert (Ho' : h' !! l = Some o).
    { eapply evolves_same; [exact He|done|done| |done].
      by apply touched_fresh. }
    rewrite Hh' in Ho'. by rewrite lookup_app_l in Ho' by lia.
Qed.

(** X25.  The run exports of the constructed Output are read from the
    [run_exports] entry of its merged build section (the record's own
    entry, else the parent's).  Without the entry there are none.  A list
    of strings gives weak exports, one per string and in order, and
    nothing at the other strengths.  A mapping that is not empty gives,
    at each of the five strengths, the strings filed under that
    strength's key, and none when the key is missing. *)
Theorem init_run_exports (ld : loc) (parent : option val)
    (sel : gmap string val) (h : list obj) (a : Attrs) (h' : list obj) :
  closed h → ld < length h →
  no_self_section h ld ld → parent_ok h ld parent →
  __init__ (VRef ld) parent sel h = Ok (a, h') →
  ∃ md mp,
    section_of h ld "build" = Some md ∧
    parent_section h parent "build" = Some mp ∧
    ((md ∪ mp) !! "run_exports" = None →
       run_exports a = RunExports.empty) ∧
    (∀ lx xs, (md ∪ mp) !! "run_exports" = Some (VRef lx) →
       h !! lx = Some (OList xs) → unwritten h ld parent lx →
       ∃ ts, mapM val_str xs = Some ts ∧
             run_exports a
             = RunExports.only_weak (Spec.CondaBuildSpec <$> ts)) ∧
    (∀ lx mx, (md ∪ mp) !! "run_exports" = Some (VRef lx) →
       h !! lx = Some (ODict mx) → mx ≠ ∅ → unwritten h ld parent lx →
       (∀ k l, mx !! k = Some (VRef l) → unwritten h ld parent l) →
       ∃ w s n wc sc,
         texts_at h mx "weak" = Some w ∧
         texts_at h mx "strong" = Some s ∧
         texts_at h mx "noarch" = Some n ∧
         texts_at h mx "weak_constrains" = Some wc ∧
         texts_at h mx "strong_constrains" = Some sc ∧
         run_exports a
         = RunExports.mk (Spec.CondaBuildSpec <$> w)
             (Spec.CondaBuildSpec <$> s) (Spec.CondaBuildSpec <$> sc)
             (Spec.CondaBuildSpec <$> wc) (Spec.CondaBuildSpec <$> n)).
Proof.
  intros Hc Hld Hns Hpar H.
  destruct (init_build_section _ _ _ _ _ _ Hc Hld Hns Hpar H)
    as (ls & md & mp & h4 & ext & Hd & Hp & Hh' & Hlen & Hmb & Hrx & Hsame).
  destruct (declared_run_exports_values _ _ _ _ _ Hmb Hrx)
    as (Hnone & Hlist & Hdict).
  exists md, mp. split; [done|]. split; [done|].
  split; [done|]. split.
  - intros lx xs Hv Hxs Hun. eapply Hlist; [done|]. by apply Hsame.
  - intros lx mx Hv Hmx Hne Hun Hall.
    destruct (Hdict lx mx Hv (Hsame _ _ Hmx Hun) Hne)
      as (w & s & n & wc & sc & Hw & Hs & Hn & Hwc & Hsc & Heq).
    { intros k l Hk. pose proof (closed_dict _ _ _ _ _ Hc Hmx Hk). lia. }
    assert (Ht : ∀ k, texts_at h4 mx k = texts_at h mx k).
    { intros k. apply texts_at_same. intros l Hk.
      pose proof (closed_dict _ _ _ _ _ Hc Hmx Hk) as Hl.
      destruct (lookup_lt_is_Some_2 h l Hl) as [o Ho].
      rewrite Ho. apply Hsame; [done|]. by eapply Hall. }
    rewrite !Ht in *.
    by exists w, s, n, wc, sc.
Qed.

End RunExportFacts.

(** ** Construction: the requirements without active features *)

Section PlainRequirements.

Import Py HeapSpec Init InitSpec.

Lemma req_texts_mono (h h0 : list obj) (mq : gmap string val) (k : string)
    (ts : list string) :
  (∀ l o, h !! l = Some o → h0 !! l = Some o) →
  req_texts h mq k = Some ts → req_texts h0 mq k = Some ts.
Proof.
  intros Hsub. unfold req_texts.
  destruct (mq !! k) as [[| | | |l]|]; try done.
  simpl. destruct (h !! l) as [o|] eqn:E; [|done].
  by rewrite (Hsub _ _ E).
Qed.

(** X26.  When no feature of the feature map is activated, the
    requirements of the constructed Output are the record's own: without
    a [requirements] entry the four lists are empty, and with one each
    list holds one Spec per string of the record's list for that
    environment, in order, a missing or [None] list reading as empty. *)
Theorem init_plain_requirements (ld : loc) (parent : option val)
    (sel : gmap string val) (h : list obj) (a : Attrs) (h' : list obj) :
  closed h → ld < length h →
  (∀ lp, parent = Some (VRef lp) → lp < length h) →
  __init__ (VRef ld) parent sel h = Ok (a, h') →
  (∀ n l mf, (n, VRef l) ∈ feature_map a → h !! l = Some (ODict mf) →
     feature_activation sel n mf = VBool false) →
  ∃ md, h !! ld = Some (ODict md) ∧
    (md !! "requirements" = None → requirements a = mkReqs [] [] [] []) ∧
    (∀ lq mq, md !! "requirements" = Some (VRef lq) →
       h !! lq = Some (ODict mq) →
       ∀ e ts, req_texts h mq (env_key e) = Some ts →
               get_req e (requirements a) = Spec.CondaBuildSpec <$> ts).
Proof.
  intros Hc Hld Hpar H Hina.
  destruct (init_construct _ _ _ _ _ _ Hc Hld Hpar H)
    as (lp & h0 & Hc0 & Hld0 & Hlp0 & Hcons & HF & Hsame & Hdict).
  destruct (construct_features _ _ _ _ _ _ Hc0 Hld0 Hlp0 Hcons)
    as (md & ls & ms & base & Hmd & _ & _ & _ & _ & Hent & _ & _ & _ & _
        & Hreq).
  assert (Hsub : ∀ l o, h !! l = Some o → h0 !! l = Some o).
  { intros l o Ho. rewrite Hsame; [done|]. by eapply lookup_lt_Some. }
  destruct Hreq as [Hnone Hsome].
  { intros n l mf Hin Hmf.
    destruct (Hent _ _ Hin) as (l' & mf0 & mf' & [= <-] & _ & Hmf0 & Hnm & _).
    assert (mf0 = mf) as -> by congruence.
    eapply Hina; [done|]. by eapply Hdict. }
  exists md. split; [by rewrite <- Hsame|]. split; [done|].
  intros lq mq Hq Hmq e ts Hts.
  eapply Hsome; [done|by apply Hsub|]. by eapply req_texts_mono.
Qed.

End PlainRequirements.

Lemma init_run_exports_witness :
  match Init.__init__ (Py.VRef 0) None ∅ SampleExports.heap with
  | Ok (a, h') =>
      ∃ md mp,
        HeapSpec.section_of SampleExports.heap 0 "build" = Some md ∧
        InitSpec.parent_section SampleExports.heap None "build" = Some mp ∧
        ((md ∪ mp) !! "run_exports" = None →
           Init.run_exports a = RunExports.empty) ∧
        (∀ lx xs, (md ∪ mp) !! "run_exports" = Some (Py.VRef lx) →
           SampleExports.heap !! lx = Some (Py.OList xs) →
           unwritten SampleExports.heap 0 None lx →
           ∃ ts, mapM val_str xs = Some ts ∧
                 Init.run_exports a
                 = RunExports.only_weak (Spec.CondaBuildSpec <$> ts)) ∧
        (∀ lx mx, (md ∪ mp) !! "run_exports" = Some (Py.VRef lx) →
           SampleExports.heap !! lx = Some (Py.ODict mx) → mx ≠ ∅ →
           unwritten SampleExports.heap 0 None lx →
           (∀ k l, mx !! k = Some (Py.VRef l) →
                   unwritten SampleExports.heap 0 None l) →
           ∃ w s n wc sc,
             texts_at SampleExports.heap mx "weak" = Some w ∧
             texts_at SampleExports.heap mx "strong" = Some s ∧
             texts_at SampleExports.heap mx "noarch" = Some n ∧
             texts_at SampleExports.heap mx "weak_constrains" = Some wc ∧
             texts_at SampleExports.heap mx "strong_constrains" = Some sc ∧
             Init.run_exports a
             = RunExports.mk (Spec.CondaBuildSpec <$> w)
                 (Spec.CondaBuildSpec <$> s) (Spec.CondaBuildSpec <$> sc)
                 (Spec.CondaBuildSpec <$> wc) (Spec.CondaBuildSpec <$> n))
  | Raise _ => False
  end.
Proof.
  destruct (Init.__init__ (Py.VRef 0) None ∅ SampleExports.heap)
    as [[a h']|e] eqn:E.
  - apply (init_run_exports 0 None ∅ SampleExports.heap a h').
    + apply (@bool_decide_unpack _ (HeapSpec.closed_dec _)).
      vm_compute. reflexivity.
    + simpl. lia.
    + apply (@bool_decide_unpack _ (HeapSpec.no_self_section_dec _ _ _)).
      vm_compute. reflexivity.
    + exact I.
    + exact E.
  - vm_compute in E. discriminate E.
Defined.

Lemma init_plain_requirements_witness :
  match Init.__init__ (Py.VRef 0) (Some (Py.VRef 5))
          {["static" := Py.VBool false]} SampleInit.heap with
  | Ok (a, h') =>
      ∃ md, SampleInit.heap !! 0 = Some (Py.ODict md) ∧
        (md !! "requirements" = None →
           Init.requirements a = mkReqs [] [] [] []) ∧
        (∀ lq mq, md !! "requirements" = Some (Py.VRef lq) →
           SampleInit.heap !! lq = Some (Py.ODict mq) →
           ∀ e ts, req_texts SampleInit.heap mq (env_key e) = Some ts →
                   get_req e (Init.requirements a)
                   = Spec.CondaBuildSpec <$> ts)
  | Raise _ => False
  end.
Proof.
  destruct (Init.__init__ (Py.VRef 0) (Some (Py.VRef 5))
              {["static" := Py.VBool false]} SampleInit.heap)
    as [[a h']|e] eqn:E.
  - apply (init_plain_requirements 0 (Some (Py.VRef 5))
             {["static" := Py.VBool false]} SampleInit.heap a h').
    + apply (@bool_decide_unpack _ (HeapSpec.closed_dec _)).
      vm_compute. reflexivity.
    + simpl. lia.
    + intros lp [= <-]. simpl. lia.
    + exact E.
    + vm_compute in E. injection E as <- <-.
      intros n l mf Hin Hmf. simpl in Hin.
      apply list_elem_of_singleton in Hin. injection Hin as -> ->.
      simpl in Hmf. injection Hmf as <-. reflexivity.
  - vm_compute in E. discriminate E.
Defined.
